(** * SAJC: semantic columnar compression -- a shallow embedding

    The TypeScript sources of the repository are embedded as Rocq functions:
    byte buffers are lists of integers in [0, 256), JavaScript numbers are
    binary64 floats (the kernel's primitive floats) or, where the code only
    handles lengths and indices, integers with the 32-bit wrap-around of the
    bitwise operators written out; BigInt is [Z]; a thrown [Error] is an
    [Err] result.  Every module below carries the name of the class it
    embeds. *)

From Stdlib Require Import String Ascii.
From Stdlib Require Import ZArith List Bool Lia.
From Stdlib Require Import Floats Uint63.
Import ListNotations.

#[local] Set Warnings "-register-all".

Open Scope Z_scope.

(** ** Errors and results *)

(** The [Error]s thrown by the sources, by intent.  The message of each
    [throw new Error(...)] is recorded next to the place that raises it.
    [Unsupported] is not an error of the program: it marks a step that
    leaves this embedding, where the program goes on with a function or a
    built-in object as a value, or replaces the prototype of an object. *)
Inductive error : Type :=
| EmptyBatch
| NoCodec (type : Z)
| RoundTripFailed (field : string) (type : Z)
| Truncated (what : string)
| InvalidMagic
| UnknownMode (codec : string) (byte : Z)
| BitmapMismatch (expected got : nat)
| DictIndexOutOfRange (index : Z)
| VarintOverflow
| EnumStringTooLong
| NegativeVarint
| TypeError (what : string)
| RangeError (what : string)
| Unsupported (what : string).

Inductive result (A : Type) : Type :=
| OK (a : A)
| Err (e : error).
Arguments OK {A} a.
Arguments Err {A} e.

Definition bind {A B : Type} (r : result A) (f : A -> result B) : result B :=
  match r with
  | OK a => f a
  | Err e => Err e
  end.

Notation "'do' x <- r ; k" := (bind r (fun x => k))
  (at level 10, x pattern, r at level 100, k at level 200).

Definition is_ok {A : Type} (r : result A) : bool :=
  match r with OK _ => true | Err _ => false end.

(** ** Buffers *)

(** A Node.js [Buffer]: a sequence of bytes. *)
Definition Buffer : Type := list Z.

Definition is_byte (b : Z) : Prop := 0 <= b < 256.

(** [Buffer.concat]. *)
Definition Buffer_concat (parts : list Buffer) : Buffer := List.concat parts.

(** [buffer.slice(start, end)] for [start <= end], both clamped to the length. *)
Definition Buffer_slice (buffer : Buffer) (start stop : nat) : Buffer :=
  firstn (stop - start) (skipn start buffer).

(** Little-endian bytes of an unsigned integer, [n] bytes wide, as
    [writeUInt16LE] / [writeUInt32LE] lay them out. *)
Fixpoint le_bytes (n : nat) (v : Z) : Buffer :=
  match n with
  | O => []
  | S n' => (v mod 256) :: le_bytes n' (v / 256)
  end.

(** The unsigned integer held in little-endian bytes ([readUInt32LE] and the like). *)
Fixpoint le_value (bytes : Buffer) : Z :=
  match bytes with
  | [] => 0
  | b :: rest => b + 256 * le_value rest
  end.

(** ** JavaScript 32-bit integer operators *)

(** [ToInt32] and [ToUint32] on an integral number. *)
Definition to_uint32 (z : Z) : Z := z mod 2 ^ 32.
Definition to_int32 (z : Z) : Z :=
  let m := z mod 2 ^ 32 in if m <? 2 ^ 31 then m else m - 2 ^ 32.

(** [a << s]: the shift count is taken modulo 32 and the result is an int32. *)
Definition js_shl (a s : Z) : Z := to_int32 (Z.shiftl (to_int32 a) (s mod 32)).
(** [a | b] and [a & b] on int32 operands. *)
Definition js_or (a b : Z) : Z := to_int32 (Z.lor (to_int32 a) (to_int32 b)).
Definition js_and (a b : Z) : Z := to_int32 (Z.land (to_int32 a) (to_int32 b)).
(** [a >>> s]. *)
Definition js_shru (a s : Z) : Z := Z.shiftr (to_uint32 a) (s mod 32).

(** ** utils/Varint.ts *)

Module Varint.

  (** The body of the [do ... while (val !== 0)] loop of [Varint.encode].
      [fuel] counts the iterations still allowed; after [val >>>= 7] the
      value is below [2^25], so five iterations always reach [val = 0]. *)
Fixpoint encode_loop (fuel : nat) (val : Z) : Buffer :=
    let byte := js_and val 0x7f in
    let val' := js_shru val 7 in
    if val' =? 0 then [byte]
    else
      match fuel with
      | O => [js_or byte 0x80]
      | S fuel' => js_or byte 0x80 :: encode_loop fuel' val'
      end.

  (** [Varint.encode(value)]; throws "Varint.encode only supports unsigned integers". *)
Definition encode (value : Z) : result Buffer :=
    if value <? 0 then Err NegativeVarint else OK (encode_loop 5 value).

  (** The [while (true)] loop of [Varint.decode]: [bytes] is the buffer from
      [offset + bytesRead] on.
      - "Varint decode out of bounds" is [Truncated];
      - "Varint too long for 32-bit integer" is [VarintOverflow]. *)
Fixpoint decode_loop (bytes : Buffer) (value shift : Z) (bytesRead : nat)
    : result (Z * nat) :=
    match bytes with
    | [] => Err (Truncated "varint")
    | byte :: rest =>
        let bytesRead := S bytesRead in
        let value := js_or value (js_shl (js_and byte 0x7f) shift) in
        if js_and byte 0x80 =? 0 then OK (to_uint32 value, bytesRead)
        else
          let shift := shift + 7 in
          if shift >? 35 then Err VarintOverflow
          else decode_loop rest value shift bytesRead
    end.

  (** [Varint.decode(buffer, offset)] returns [{ value, bytesRead }]. *)
Definition decode (buffer : Buffer) (offset : nat) : result (Z * nat) :=
    decode_loop (skipn offset buffer) 0 0 0%nat.

  (** ZigZag mapping of [encodeBigInt]: [(value << 1n) ^ (value >> 63n)]. *)
Definition zigzag (value : Z) : Z :=
    Z.lxor (Z.shiftl value 1) (Z.shiftr value 63).

  (** The [do ... while (zigzag !== 0n)] loop of [encodeBigInt]. *)
Fixpoint encodeBigInt_loop (fuel : nat) (zigzag : Z) : Buffer :=
    let byte := Z.land zigzag 0x7f in
    let zigzag' := Z.shiftr zigzag 7 in
    if zigzag' =? 0 then [byte]
    else
      match fuel with
      | O => [Z.lor byte 0x80]
      | S fuel' => Z.lor byte 0x80 :: encodeBigInt_loop fuel' zigzag'
      end.

  (** [Varint.encodeBigInt(value)].  The loop shifts a non-negative BigInt
      right by seven bits per round, so [log2 zigzag] rounds are enough. *)
Definition encodeBigInt (value : Z) : Buffer :=
    let z := zigzag value in
    encodeBigInt_loop (Z.to_nat (Z.log2 z)) z.

  (** ZigZag decoding of [decodeBigInt]: [(zigzag >> 1n) ^ -(zigzag & 1n)]. *)
Definition unzigzag (zigzag : Z) : Z :=
    Z.lxor (Z.shiftr zigzag 1) (- (Z.land zigzag 1)).

  (** The [while (true)] loop of [Varint.decodeBigInt]; no cap on the length. *)
Fixpoint decodeBigInt_loop (bytes : Buffer) (zigzag shift : Z) (bytesRead : nat)
    : result (Z * nat) :=
    match bytes with
    | [] => Err (Truncated "varint")
    | byte :: rest =>
        let bytesRead := S bytesRead in
        let zigzag := Z.lor zigzag (Z.shiftl (Z.land byte 0x7f) shift) in
        if Z.land byte 0x80 =? 0 then OK (unzigzag zigzag, bytesRead)
        else decodeBigInt_loop rest zigzag (shift + 7) bytesRead
    end.

Definition decodeBigInt (buffer : Buffer) (offset : nat) : result (Z * nat) :=
    decodeBigInt_loop (skipn offset buffer) 0 0 0%nat.

  (** A byte whose continuation bit (the most significant one) is set. *)
Definition continues (byte : Z) : bool := negb (js_and byte 0x80 =? 0).

  (** The integer spelled by the seven payload bits of each byte, least
      significant group first. *)
Fixpoint payload_value (bytes : Buffer) : Z :=
    match bytes with
    | [] => 0
    | byte :: rest => byte mod 128 + 128 * payload_value rest
    end.

End Varint.

(** ** Values *)

(** A dynamically typed JavaScript value as the engine sees it.  [VMissing]
    is the sentinel [MISSING = Symbol.for("SAJC_MISSING")]; [VNull] is a
    recorded [null]; strings are held as described under Strings below. *)
Inductive value : Type :=
| VMissing
| VUndefined
| VNull
| VBool (b : bool)
| VNum (x : float)
| VStr (s : string)
| VArr (items : list value)
| VObj (fields : list (string * value)).

(** [val !== MISSING]. *)
Definition is_present (val : value) : bool :=
  match val with VMissing => false | _ => true end.

(** ** Strings *)

(** A JavaScript string is a sequence of UTF-16 code units.  It is held
    here as the bytes of its UTF-8 form; a surrogate that is not half of a
    pair, which UTF-8 cannot carry, is held as the three bytes
    [ED A0..BF 80..BF] of its generalised UTF-8 form. *)
Definition string_bytes (s : string) : Buffer :=
  map (fun c => Z.of_N (N_of_ascii c)) (list_ascii_of_string s).
Definition bytes_string (bytes : Buffer) : string :=
  string_of_list_ascii (map (fun b => ascii_of_N (Z.to_N (b mod 256))) bytes).

Definition between (lo hi b : Z) : bool := (lo <=? b) && (b <=? hi).

(** The byte ranges of well-formed UTF-8 (the Unicode Standard, table
    3-7): a continuation byte, and the second byte of a sequence of three
    or of four after the lead byte [b1]. *)
Definition continuation (b : Z) : bool := between 0x80 0xBF b.
Definition second_of_three (b1 b2 : Z) : bool :=
  if b1 =? 0xE0 then between 0xA0 0xBF b2
  else if b1 =? 0xED then between 0x80 0x9F b2
  else continuation b2.
Definition second_of_four (b1 b2 : Z) : bool :=
  if b1 =? 0xF0 then between 0x90 0xBF b2
  else if b1 =? 0xF4 then between 0x80 0x8F b2
  else continuation b2.

(** A string without a lone surrogate: its bytes are well-formed UTF-8. *)
Fixpoint well_formed_bytes (bytes : Buffer) : bool :=
  match bytes with
  | [] => true
  | b1 :: rest =>
      if b1 <? 0x80 then well_formed_bytes rest
      else if between 0xC2 0xDF b1 then
        match rest with
        | b2 :: rest2 => continuation b2 && well_formed_bytes rest2
        | _ => false
        end
      else if between 0xE0 0xEF b1 then
        match rest with
        | b2 :: b3 :: rest3 =>
            second_of_three b1 b2 && continuation b3 && well_formed_bytes rest3
        | _ => false
        end
      else if between 0xF0 0xF4 b1 then
        match rest with
        | b2 :: b3 :: b4 :: rest4 =>
            second_of_four b1 b2 && continuation b3 && continuation b4
            && well_formed_bytes rest4
        | _ => false
        end
      else false
  end.

Definition well_formed (s : string) : bool := well_formed_bytes (string_bytes s).

(** U+FFFD, the replacement character, in UTF-8. *)
Definition replacement : Buffer := [0xEF; 0xBF; 0xBD].

(** The UTF-8 encoder of [Buffer.from(str, "utf8")]: a lone surrogate is
    written as U+FFFD. *)
Fixpoint utf8_encode (bytes : Buffer) : Buffer :=
  match bytes with
  | [] => []
  | b1 :: rest =>
      match rest with
      | b2 :: b3 :: rest3 =>
          if (b1 =? 0xED) && between 0xA0 0xBF b2 && continuation b3
          then replacement ++ utf8_encode rest3
          else b1 :: utf8_encode rest
      | _ => b1 :: utf8_encode rest
      end
  end.

(** The UTF-8 decoder of [buf.toString("utf8")]: every maximal ill-formed
    run of bytes is read as one U+FFFD, and decoding resumes at the byte
    that broke the sequence. *)
Fixpoint utf8_decode (bytes : Buffer) : Buffer :=
  match bytes with
  | [] => []
  | b1 :: rest =>
      if b1 <? 0x80 then b1 :: utf8_decode rest
      else if between 0xC2 0xDF b1 then
        match rest with
        | b2 :: rest2 =>
            if continuation b2 then b1 :: b2 :: utf8_decode rest2
            else replacement ++ utf8_decode rest
        | [] => replacement
        end
      else if between 0xE0 0xEF b1 then
        match rest with
        | b2 :: rest2 =>
            if second_of_three b1 b2 then
              match rest2 with
              | b3 :: rest3 =>
                  if continuation b3 then b1 :: b2 :: b3 :: utf8_decode rest3
                  else replacement ++ utf8_decode rest2
              | [] => replacement
              end
            else replacement ++ utf8_decode rest
        | [] => replacement
        end
      else if between 0xF0 0xF4 b1 then
        match rest with
        | b2 :: rest2 =>
            if second_of_four b1 b2 then
              match rest2 with
              | b3 :: rest3 =>
                  if continuation b3 then
                    match rest3 with
                    | b4 :: rest4 =>
                        if continuation b4
                        then b1 :: b2 :: b3 :: b4 :: utf8_decode rest4
                        else replacement ++ utf8_decode rest3
                    | [] => replacement
                    end
                  else replacement ++ utf8_decode rest2
              | [] => replacement
              end
            else replacement ++ utf8_decode rest
        | [] => replacement
        end
      else replacement ++ utf8_decode rest
  end.

(** [Buffer.from(str, "utf8")] and [buf.toString("utf8")]. *)
Definition utf8_bytes (s : string) : Buffer := utf8_encode (string_bytes s).
Definition utf8_string (bytes : Buffer) : string := bytes_string (utf8_decode bytes).

(** The code points of a string, and its UTF-16 code units: what the
    relational operators and [Array.prototype.sort] compare. *)
Fixpoint code_points (bytes : Buffer) : list Z :=
  match bytes with
  | [] => []
  | b1 :: rest =>
      if b1 <? 0xC0 then b1 :: code_points rest
      else if b1 <? 0xE0 then
        match rest with
        | b2 :: rest2 => ((b1 - 0xC0) * 64 + (b2 - 0x80)) :: code_points rest2
        | [] => [b1]
        end
      else if b1 <? 0xF0 then
        match rest with
        | b2 :: b3 :: rest3 =>
            ((b1 - 0xE0) * 4096 + (b2 - 0x80) * 64 + (b3 - 0x80))
            :: code_points rest3
        | _ => [b1]
        end
      else
        match rest with
        | b2 :: b3 :: b4 :: rest4 =>
            ((b1 - 0xF0) * 262144 + (b2 - 0x80) * 4096 + (b3 - 0x80) * 64
             + (b4 - 0x80))
            :: code_points rest4
        | _ => [b1]
        end
  end.

Definition code_units (s : string) : list Z :=
  flat_map (fun cp => if cp <? 0x10000 then [cp]
                      else [0xD800 + (cp - 0x10000) / 0x400;
                            0xDC00 + (cp - 0x10000) mod 0x400])
           (code_points (string_bytes s)).

(** [a <= b] on two strings: the first code unit that differs decides, and
    a prefix comes first. *)
Fixpoint units_leb (a b : list Z) : bool :=
  match a, b with
  | [], _ => true
  | _ :: _, [] => false
  | x :: a', y :: b' =>
      if x <? y then true else if y <? x then false else units_leb a' b'
  end.

Definition string_leb (a b : string) : bool := units_leb (code_units a) (code_units b).

(** [buffer[i]]; [None] stands for the [undefined] of an index out of range. *)
Definition Buffer_get (buffer : Buffer) (i : nat) : option Z := nth_error buffer i.

(** [buffer[i] = v]: the value is stored modulo 256; an index out of range
    is ignored. *)
Fixpoint Buffer_set (buffer : Buffer) (i : nat) (v : Z) : Buffer :=
  match buffer, i with
  | [], _ => []
  | _ :: rest, O => (v mod 256) :: rest
  | b :: rest, S i' => b :: Buffer_set rest i' v
  end.

(** [Buffer.alloc(n)]. *)
Definition Buffer_alloc (n : nat) : Buffer := repeat 0 n.

(** [Math.ceil(n / d)] on lengths. *)
Definition ceil_div (n d : nat) : nat := ((n + d - 1) / d)%nat.

(** [buffer.writeUInt32LE(v)] into a fresh 4-byte buffer; Node raises
    ERR_OUT_OF_RANGE outside [0, 2^32). *)
Definition writeUInt32LE (v : Z) : result Buffer :=
  if (0 <=? v) && (v <? 2 ^ 32) then OK (le_bytes 4 v)
  else Err (RangeError "writeUInt32LE").

(** [buffer.readUInt32LE(offset)]; Node raises ERR_OUT_OF_RANGE when fewer
    than four bytes remain. *)
Definition readUInt32LE (buffer : Buffer) (offset : nat) : result Z :=
  if (offset + 4 <=? length buffer)%nat
  then OK (le_value (Buffer_slice buffer offset (offset + 4)))
  else Err (RangeError "readUInt32LE").

(** ** codecs/IFieldCodec.ts *)

(** The wire codes of [enum FieldType]. *)
Inductive FieldType : Type :=
| STRING | NUMBER | BOOLEAN | TIMESTAMP | UUID | ENUM | OBJECT | ARRAY
| ARRAY_PRIMITIVE.

Definition FieldType_code (t : FieldType) : Z :=
  match t with
  | STRING => 0 | NUMBER => 1 | BOOLEAN => 2 | TIMESTAMP => 3 | UUID => 4
  | ENUM => 5 | OBJECT => 6 | ARRAY => 7 | ARRAY_PRIMITIVE => 8
  end.

Definition FieldType_of_code (c : Z) : option FieldType :=
  match c with
  | 0 => Some STRING | 1 => Some NUMBER | 2 => Some BOOLEAN
  | 3 => Some TIMESTAMP | 4 => Some UUID | 5 => Some ENUM | 6 => Some OBJECT
  | 7 => Some ARRAY | 8 => Some ARRAY_PRIMITIVE
  | _ => None
  end.

Definition FieldType_eqb (a b : FieldType) : bool :=
  FieldType_code a =? FieldType_code b.

(** [interface IFieldCodec]: [encode(values)] and [decode(buffer)]; either
    may throw. *)
Record IFieldCodec : Type := {
  codec_supports : FieldType -> bool;
  codec_encode : list value -> result Buffer;
  codec_decode : Buffer -> result (list value)
}.

(** ** utils/NullableCodecWrapper.ts *)

Module NullableCodecWrapper.

  (** The test [bitmap[Math.floor(i / 8)] & (1 << i % 8)] of [decode]. *)
Definition bit_is_set (bitmap : Buffer) (i : nat) : bool :=
    match Buffer_get bitmap (i / 8) with
    | Some byte => negb (js_and byte (js_shl 1 (Z.of_nat (i mod 8))) =? 0)
    | None => false
    end.

  (** [bitmap[Math.floor(i / 8)] |= 1 << i % 8]. *)
Definition set_bit (bitmap : Buffer) (i : nat) : Buffer :=
    match Buffer_get bitmap (i / 8) with
    | Some byte =>
        Buffer_set bitmap (i / 8) (js_or byte (js_shl 1 (Z.of_nat (i mod 8))))
    | None => bitmap
    end.

  (** The [for] loop of [encode], from index [i] on: the values still to
      visit, the non-MISSING values pushed so far and the bitmap. *)
Fixpoint encode_loop (values : list value) (i : nat)
           (nonNulls : list value) (bitmap : Buffer) : list value * Buffer :=
    match values with
    | [] => (nonNulls, bitmap)
    | val :: rest =>
        if is_present val
        then encode_loop rest (S i) (nonNulls ++ [val]) (set_bit bitmap i)
        else encode_loop rest (S i) nonNulls bitmap
    end.

  (** The first loop of [decode]: [expectedNonNulls]. *)
Fixpoint count_set (bitmap : Buffer) (i n : nat) : nat :=
    match n with
    | O => O
    | S n' =>
        ((if bit_is_set bitmap i then 1 else 0) + count_set bitmap (S i) n')%nat
    end.

  (** The second loop of [decode]: re-interleave the decoded values with
      [MISSING]; [decodedNonNulls[nonNullIdx++]] past the end is [undefined]. *)
Fixpoint interleave (bitmap : Buffer) (i n : nat) (decoded : list value)
    : list value :=
    match n with
    | O => []
    | S n' =>
        if bit_is_set bitmap i
        then match decoded with
             | d :: ds => d :: interleave bitmap (S i) n' ds
             | [] => VUndefined :: interleave bitmap (S i) n' []
             end
        else VMissing :: interleave bitmap (S i) n' decoded
    end.

Section Wrapper.
Variable codec : IFieldCodec.

    (** [encode(values)]: [u32 LE rowCount | bitmap | codec.encode(nonNulls)]. *)
Definition encode (values : list value) : result Buffer :=
      let length := List.length values in
      let bitmapLength := ceil_div length 8 in
      let '(nonNulls, bitmap) :=
        encode_loop values 0 [] (Buffer_alloc bitmapLength) in
      do encodedValues <- codec.(codec_encode) nonNulls;
      do header <- writeUInt32LE (Z.of_nat length);
      OK (Buffer_concat [header; bitmap; encodedValues]).

    (** [decode(buffer)].
        - "Buffer too short to contain length header" and "Buffer too short
          to contain bitmap" are [Truncated];
        - "non-null values mismatch: expected .., got .." is [BitmapMismatch]. *)
Definition decode (buffer : Buffer) : result (list value) :=
      if (List.length buffer <? 4)%nat then Err (Truncated "length header")
      else
        do totalLength <- readUInt32LE buffer 0;
        let ptr := 4%nat in
        if totalLength =? 0 then OK []
        else
          let totalLength := Z.to_nat totalLength in
          let bitmapLength := ceil_div totalLength 8 in
          if (List.length buffer <? ptr + bitmapLength)%nat
          then Err (Truncated "bitmap")
          else
            let bitmap := Buffer_slice buffer ptr (ptr + bitmapLength) in
            let ptr := (ptr + bitmapLength)%nat in
            let expectedNonNulls := count_set bitmap 0 totalLength in
            let encodedValuesBuffer := skipn ptr buffer in
            do decodedNonNulls <- codec.(codec_decode) encodedValuesBuffer;
            if negb (expectedNonNulls =? List.length decodedNonNulls)%nat
            then Err (BitmapMismatch expectedNonNulls (List.length decodedNonNulls))
            else OK (interleave bitmap 0 totalLength decodedNonNulls).
End Wrapper.

  (** Number of set bits of one byte and of a whole bitmap. *)
Definition popcount_byte (b : Z) : nat :=
    List.length (filter (fun k => Z.testbit b (Z.of_nat k)) (seq 0 8)).
Definition popcount (bitmap : Buffer) : nat :=
    fold_right (fun b acc => (popcount_byte b + acc)%nat) O bitmap.

  (** Bit [i] of a bitmap, least significant bit of each byte first. *)
Definition bitmap_bit (bitmap : Buffer) (i : nat) : bool :=
    Z.testbit (nth (i / 8) bitmap 0) (Z.of_nat (i mod 8)).

End NullableCodecWrapper.

(** ** JavaScript numbers *)

(** A JavaScript Number is an IEEE-754 binary64 value: the kernel's
    primitive [float], read through [Prim2SF] where the code inspects it. *)

(** [Number(bigint)], and the Number a mathematical integer denotes:
    round to nearest, ties to even. *)
Definition Number_of_Z (z : Z) : float :=
  SF2Prim (binary_normalize prec emax z 0 false).

Definition signed (s : bool) (z : Z) : Z := if s then - z else z.

(** [Number.isInteger(x)]. *)
Definition Number_isInteger (x : float) : bool :=
  match Prim2SF x with
  | S754_zero _ => true
  | S754_finite _ m e => if 0 <=? e then true else Z.pos m mod 2 ^ (- e) =? 0
  | _ => false
  end.

(** [BigInt(x)]: a RangeError unless [x] is an integral Number. *)
Definition BigInt (x : float) : result Z :=
  match Prim2SF x with
  | S754_zero _ => OK 0
  | S754_finite s m e =>
      if 0 <=? e then OK (signed s (Z.pos m * 2 ^ e))
      else if Z.pos m mod 2 ^ (- e) =? 0 then OK (signed s (Z.pos m / 2 ^ (- e)))
      else Err (RangeError "BigInt of a non-integer")
  | _ => Err (RangeError "BigInt of a non-finite number")
  end.

(** [Math.round(x)]: the integral Number closest to [x], the one nearer
    to +infinity on a tie; [-0] for [-0.5 <= x < 0]. *)
Definition Math_round (x : float) : float :=
  match Prim2SF x with
  | S754_finite s m e =>
      if 0 <=? e then x
      else
        let r := (2 * signed s (Z.pos m) + 2 ^ (- e)) / 2 ^ (1 - e) in
        if r =? 0 then (if s then (-0)%float else 0%float) else
        if r <? 0 then (- Number_of_Z (- r))%float else Number_of_Z r
  | _ => x
  end.

(** [Math.pow(10, scale)] for a scale byte; exact up to [10^22]. *)
Definition Math_pow10 (scale : Z) : float := Number_of_Z (10 ^ scale).

(** The 64 bits of a Number, as [writeDoubleLE] stores them; NaN is the
    canonical quiet NaN. *)
Definition double_bits (x : float) : Z :=
  match Prim2SF x with
  | S754_zero s => if s then 2 ^ 63 else 0
  | S754_infinity s => (if s then 2 ^ 63 else 0) + 0x7FF * 2 ^ 52
  | S754_nan => 0x7FF8 * 2 ^ 48
  | S754_finite s m e =>
      (if s then 2 ^ 63 else 0)
      + (if Z.pos m <? 2 ^ 52 then Z.pos m
         else (e + 1075) * 2 ^ 52 + (Z.pos m - 2 ^ 52))
  end.

(** [buffer.writeDoubleLE(x)] into eight fresh bytes. *)
Definition writeDoubleLE (x : float) : Buffer := le_bytes 8 (double_bits x).

(** The Number held in 64 bits. *)
Definition double_of_bits (bits : Z) : float :=
  let s := 2 ^ 63 <=? bits in
  let E := (bits / 2 ^ 52) mod 2048 in
  let f := bits mod 2 ^ 52 in
  if E =? 2047 then
    (if f =? 0 then (if s then neg_infinity else infinity) else nan)
  else if E =? 0 then
    (if f =? 0 then (if s then (-0)%float else 0%float)
     else SF2Prim (S754_finite s (Z.to_pos f) (-1074)))
  else SF2Prim (S754_finite s (Z.to_pos (f + 2 ^ 52)) (E - 1075)).

(** [buffer.readDoubleLE(offset)]; ERR_OUT_OF_RANGE when fewer than eight
    bytes remain. *)
Definition readDoubleLE (buffer : Buffer) (offset : nat) : result float :=
  if (offset + 8 <=? length buffer)%nat
  then OK (double_of_bits (le_value (Buffer_slice buffer offset (offset + 8))))
  else Err (RangeError "readDoubleLE").

(** [1e-9], the tolerance of the fixed-point test: the binary64 value
    nearest to it. *)
Definition tolerance : float := 0x1.12e0be826d695p-30%float.

(** [result]-valued [map]. *)
Fixpoint mapM {A B : Type} (f : A -> result B) (l : list A) : result (list B) :=
  match l with
  | [] => OK []
  | a :: rest => do b <- f a; do bs <- mapM f rest; OK (b :: bs)
  end.

(** ** codecs/NumberCodec.ts *)

Module NumberCodec.

(** The coercion [ToNumber] that [n * multiplier] and [writeDoubleLE(n)]
    apply to an element.  The profiler tags a column NUMBER only when its
    non-null values are all numbers, so only numbers and [null] reach the
    codec; a Symbol raises a TypeError, and the coercion of strings, arrays
    and objects is outside this embedding. *)
Definition ToNumber (v : value) : result float :=
  match v with
  | VNum x => OK x
  | VNull => OK 0%float
  | VBool b => OK (if b then 1%float else 0%float)
  | VUndefined => OK nan
  | VMissing => Err (TypeError "Cannot convert a Symbol value to a number")
  | _ => Err (TypeError "coercion outside the embedding")
  end.

(** [typeof n === "number" && Number.isInteger(n)]. *)
Definition isIntegerValue (v : value) : bool :=
  match v with
  | VNum x => Number_isInteger x
  | _ => false
  end.

(** The test inside [nums.every(...)] of the decimal scan. *)
Definition isFixedPointAt (multiplier n : float) : bool :=
  let scaled := (n * multiplier)%float in
  (abs (scaled - Math_round scaled) <? tolerance)%float.

Definition isFixedPoint (nums : list float) (scale : Z) : bool :=
  forallb (isFixedPointAt (Math_pow10 scale)) nums.

(** The [for (let scale = 1; scale <= 6; scale++)] scan: the first scale
    that works, [None] for [bestScale === -1]. *)
Definition bestScale (nums : list float) : option Z :=
  find (isFixedPoint nums) [1; 2; 3; 4; 5; 6].

Definition encode (values : list value) : result Buffer :=
  match values with
  | [] => OK []
  | _ =>
      if forallb isIntegerValue values then
        (* 0x01 = Integer Mode *)
        do body <- mapM (fun v => do n <- ToNumber v;
                                  do z <- BigInt n;
                                  OK (Varint.encodeBigInt z)) values;
        OK (Buffer_concat ([0x01] :: body))
      else
        do nums <- mapM ToNumber values;
        match bestScale nums with
        | Some scale =>
            (* 0x02 = Decimal Mode *)
            let multiplier := Math_pow10 scale in
            do body <- mapM (fun n => do z <- BigInt (Math_round (n * multiplier));
                                      OK (Varint.encodeBigInt z)) nums;
            OK (Buffer_concat ([0x02] :: [scale mod 256] :: body))
        | None =>
            (* 0x00 = Float Mode *)
            OK (0x00 :: flat_map writeDoubleLE nums)
        end
  end.

(** The two [while (offset < buffer.length)] loops over ZigZag varints;
    each round reads at least one byte, so [fuel = buffer.length] rounds
    are never exhausted. *)
Fixpoint decode_varints (fuel : nat) (buffer : Buffer) (offset : nat)
         (convert : Z -> float) : result (list value) :=
  if (offset <? length buffer)%nat then
    match fuel with
    | O => OK []
    | S fuel' =>
        do (value, bytesRead) <- Varint.decodeBigInt buffer offset;
        do rest <- decode_varints fuel' buffer (offset + bytesRead) convert;
        OK (VNum (convert value) :: rest)
    end
  else OK [].

(** The [for (; offset < buffer.length; offset += 8)] loop of float mode. *)
Fixpoint decode_doubles (fuel : nat) (buffer : Buffer) (offset : nat)
  : result (list value) :=
  if (offset <? length buffer)%nat then
    match fuel with
    | O => OK []
    | S fuel' =>
        do x <- readDoubleLE buffer offset;
        do rest <- decode_doubles fuel' buffer (offset + 8);
        OK (VNum x :: rest)
    end
  else OK [].

Definition decode (buffer : Buffer) : result (list value) :=
  match buffer with
  | [] => OK []
  | mode :: _ =>
      let fuel := length buffer in
      if mode =? 0x01 then
        decode_varints fuel buffer 1 Number_of_Z
      else if mode =? 0x02 then
        let divisor :=
          match Buffer_get buffer 1 with
          | Some scale => Math_pow10 scale
          | None => nan
          end in
        decode_varints fuel buffer 2 (fun value => (Number_of_Z value / divisor)%float)
      else
        decode_doubles fuel buffer 1
  end.

Definition codec : IFieldCodec :=
  {| codec_supports := fun type => FieldType_eqb type NUMBER;
     codec_encode := encode;
     codec_decode := decode |}.

End NumberCodec.

(** ** SameValueZero *)

(** The equality of [Map] keys and [Set] members.  Arrays and objects are
    compared by reference there; two of them are never taken to be the same
    object here. *)
Definition sameValueZero (a b : value) : bool :=
  match a, b with
  | VMissing, VMissing => true
  | VUndefined, VUndefined => true
  | VNull, VNull => true
  | VBool x, VBool y => Bool.eqb x y
  | VNum x, VNum y => ((x =? y)%float || (is_nan x && is_nan y))%bool
  | VStr x, VStr y => String.eqb x y
  | _, _ => false
  end.

(** Insertion-ordered distinct values: the [uniqueStrings] array that the
    dictionary loop fills, and [Array.from(new Set(values))]. *)
Fixpoint distinct_loop (values unique : list value) : list value :=
  match values with
  | [] => unique
  | v :: rest =>
      if existsb (sameValueZero v) unique then distinct_loop rest unique
      else distinct_loop rest (unique ++ [v])
  end.

Definition distinct (values : list value) : list value := distinct_loop values [].

(** [dictionary.get(v)]: the position of [v] among the distinct values. *)
Fixpoint index_of (v : value) (unique : list value) : option Z :=
  match unique with
  | [] => None
  | u :: rest =>
      if sameValueZero v u then Some 0
      else match index_of v rest with
           | Some i => Some (i + 1)
           | None => None
           end
  end.

(** ** codecs/AdaptiveStringCodec.ts *)

Module AdaptiveStringCodec.

(** The literal [0.7]: the binary64 value nearest to it. *)
Definition ratio : float := 0x1.6666666666666p-1%float.

(** [uniqueStrings.length < strings.length * 0.7], in binary64 arithmetic. *)
Definition isDictionaryBetter (uniqueCount count : nat) : bool :=
  (Number_of_Z (Z.of_nat uniqueCount) <? Number_of_Z (Z.of_nat count) * ratio)%float.

(** One entry, null-aware and length-prefixed: [Varint(0)] for [null],
    else [Varint(byteLen + 1) | utf8Bytes].  [Buffer.from(str, "utf8")]
    raises a TypeError for a number, a boolean, [undefined] or a Symbol;
    arrays and objects are outside this embedding. *)
Definition entry (str : value) : result Buffer :=
  match str with
  | VNull => Varint.encode 0
  | VStr s =>
      let strBuf := utf8_bytes s in
      do lenBuf <- Varint.encode (Z.of_nat (length strBuf) + 1);
      OK (lenBuf ++ strBuf)
  | _ => Err (TypeError "Buffer.from: the first argument must be a string")
  end.

(** The run-length loop over [indices[1..]], with the run in progress. *)
Fixpoint rle_loop (indices : list Z) (currentIdx currentRun : Z)
  : result (list Buffer) :=
  match indices with
  | [] =>
      do idxBuf <- Varint.encode currentIdx;
      do runBuf <- Varint.encode currentRun;
      OK [idxBuf; runBuf]
  | idx :: rest =>
      if idx =? currentIdx then rle_loop rest currentIdx (currentRun + 1)
      else
        do idxBuf <- Varint.encode currentIdx;
        do runBuf <- Varint.encode currentRun;
        do more <- rle_loop rest idx 1;
        OK (idxBuf :: runBuf :: more)
  end.

Definition rle (indices : list Z) : result (list Buffer) :=
  match indices with
  | [] => OK []
  | first :: rest => rle_loop rest first 1
  end.

(** [strings.map((s) => dictionary.get(s)!)]. *)
Definition indices_of (strings unique : list value) : list Z :=
  map (fun s => match index_of s unique with Some i => i | None => 0 end) strings.

Definition encode (values : list value) : result Buffer :=
  let strings := values in
  match strings with
  | [] => OK []
  | _ =>
      let uniqueStrings := distinct strings in
      if negb (isDictionaryBetter (length uniqueStrings) (length strings)) then
        (* Mode 0x00: Raw Mode *)
        do buffers <- mapM entry strings;
        OK (Buffer_concat ([0x00] :: buffers))
      else
        do sizeBuf <- Varint.encode (Z.of_nat (length uniqueStrings));
        do entries <- mapM entry uniqueStrings;
        let dictHeader := Buffer_concat (sizeBuf :: entries) in
        let indices := indices_of strings uniqueStrings in
        do standardIndicesBuffers <- mapM Varint.encode indices;
        let standardSize := length (Buffer_concat standardIndicesBuffers) in
        do rleBuffers <- rle indices;
        let rleSize := length (Buffer_concat rleBuffers) in
        if (rleSize <? standardSize)%nat then
          (* Mode 0x02: RLE Dictionary *)
          OK (Buffer_concat ([0x02] :: dictHeader :: rleBuffers))
        else
          (* Mode 0x01: Standard Dictionary *)
          OK (Buffer_concat ([0x01] :: dictHeader :: standardIndicesBuffers))
  end.

(** One length-prefixed entry read at [offset]: the value and the offset
    after it.  [buffer.slice] clamps to the end of the buffer. *)
Definition read_entry (buffer : Buffer) (offset : nat) : result (value * nat) :=
  do (lenPlusOne, slRead) <- Varint.decode buffer offset;
  let offset := (offset + slRead)%nat in
  if lenPlusOne =? 0 then OK (VNull, offset)
  else
    let strLen := Z.to_nat (lenPlusOne - 1) in
    let str := utf8_string (Buffer_slice buffer offset (offset + strLen)) in
    OK (VStr str, (offset + strLen)%nat).

(** Raw mode: [while (offset < buffer.length)], one entry per round. *)
Fixpoint decode_raw (fuel : nat) (buffer : Buffer) (offset : nat)
  : result (list value) :=
  if (offset <? length buffer)%nat then
    match fuel with
    | O => OK []
    | S fuel' =>
        do (str, offset') <- read_entry buffer offset;
        do rest <- decode_raw fuel' buffer offset';
        OK (str :: rest)
    end
  else OK [].

(** [for (let i = 0; i < dictSize; i++)]: the dictionary entries. *)
Fixpoint read_dictionary (dictSize : nat) (buffer : Buffer) (offset : nat)
  : result (list value * nat) :=
  match dictSize with
  | O => OK ([], offset)
  | S n =>
      do (str, offset') <- read_entry buffer offset;
      do (rest, offset'') <- read_dictionary n buffer offset';
      OK (str :: rest, offset'')
  end.

(** [dictionary[index]]; [undefined] past the end. *)
Definition dictionary_get (dictionary : list value) (index : Z) : value :=
  nth (Z.to_nat index) dictionary VUndefined.

(** Mode 0x01: one varint index per value to the end of the buffer. *)
Fixpoint decode_standard (fuel : nat) (buffer : Buffer) (offset : nat)
         (dictionary : list value) : result (list value) :=
  if (offset <? length buffer)%nat then
    match fuel with
    | O => OK []
    | S fuel' =>
        do (index, idxRead) <- Varint.decode buffer offset;
        do rest <- decode_standard fuel' buffer (offset + idxRead) dictionary;
        OK (dictionary_get dictionary index :: rest)
    end
  else OK [].

(** Mode 0x02: pairs of (index, runLength) to the end of the buffer. *)
Fixpoint decode_rle (fuel : nat) (buffer : Buffer) (offset : nat)
         (dictionary : list value) : result (list value) :=
  if (offset <? length buffer)%nat then
    match fuel with
    | O => OK []
    | S fuel' =>
        do (index, idxRead) <- Varint.decode buffer offset;
        let offset := (offset + idxRead)%nat in
        do (runLen, runRead) <- Varint.decode buffer offset;
        let offset := (offset + runRead)%nat in
        let str := dictionary_get dictionary index in
        do rest <- decode_rle fuel' buffer offset dictionary;
        OK (repeat str (Z.to_nat runLen) ++ rest)
    end
  else OK [].

(** [decode(buffer)]; "Unknown AdaptiveStringCodec mode: ${mode}" is
    [UnknownMode]. *)
Definition decode (buffer : Buffer) : result (list value) :=
  match buffer with
  | [] => OK []
  | mode :: _ =>
      let fuel := length buffer in
      if mode =? 0x00 then decode_raw fuel buffer 1
      else if (mode =? 0x01) || (mode =? 0x02) then
        do (dictSize, dsRead) <- Varint.decode buffer 1;
        do (dictionary, offset) <-
          read_dictionary (Z.to_nat dictSize) buffer (1 + dsRead);
        if mode =? 0x01 then decode_standard fuel buffer offset dictionary
        else decode_rle fuel buffer offset dictionary
      else Err (UnknownMode "AdaptiveStringCodec" mode)
  end.

Definition codec : IFieldCodec :=
  {| codec_supports := fun type => FieldType_eqb type STRING;
     codec_encode := encode;
     codec_decode := decode |}.

End AdaptiveStringCodec.

(** ** codecs/EnumCodec.ts *)

Module EnumCodec.

(** [String(u)] for a dictionary entry.  The profiler tags a column ENUM
    only when its non-null values are strings; the decimal text of a number
    and the text of arrays and objects are outside this embedding. *)
Definition String_of (u : value) : result string :=
  match u with
  | VStr s => OK s
  | VBool true => OK "true"%string
  | VBool false => OK "false"%string
  | VUndefined => OK "undefined"%string
  | VMissing => OK "Symbol(SAJC_MISSING)"%string
  | _ => Err (TypeError "String(value) outside the embedding")
  end.

(** One dictionary entry: [u8 255] for [null], else [u8 len | len bytes];
    "Enum string too long (max 254 bytes)" is [EnumStringTooLong]. *)
Definition dict_entry (u : value) : result Buffer :=
  match u with
  | VNull => OK [255]
  | _ =>
      do s <- String_of u;
      let b := utf8_bytes s in
      if (255 <=? length b)%nat then Err EnumStringTooLong
      else OK (Z.of_nat (length b) :: b)
  end.

(** [values.forEach((v, i) => (indexBuf[i] = dictMap.get(v)!))]. *)
Definition index_bytes (values unique : list value) : Buffer :=
  map (fun v => match index_of v unique with Some i => i mod 256 | None => 0 end)
      values.

(** The packing loop: [packed[i / 2] = val << 4] for even [i],
    [packed[i / 2] |= val] for odd [i]. *)
Fixpoint pack_loop (values unique : list value) (i : nat) (packed : Buffer)
  : Buffer :=
  match values with
  | [] => packed
  | v :: rest =>
      let val := match index_of v unique with Some k => k | None => 0 end in
      let packed' :=
        if Nat.even i then Buffer_set packed (i / 2) (js_shl val 4)
        else
          match Buffer_get packed (i / 2) with
          | Some byte => Buffer_set packed (i / 2) (js_or byte val)
          | None => packed
          end in
      pack_loop rest unique (S i) packed'
  end.

Definition encode (values : list value) : result Buffer :=
  let count := length values in
  do prefix <- writeUInt32LE (Z.of_nat count);
  if (count =? 0)%nat then OK prefix
  else
    let unique := distinct values in
    let uniqueCount := length unique in
    do entries <- mapM dict_entry unique;
    let dictParts := [Z.of_nat uniqueCount mod 256] :: entries in
    if (16 <? uniqueCount)%nat then
      let indexBuf := index_bytes values unique in
      OK (Buffer_concat ((prefix :: dictParts) ++ [indexBuf]))
    else
      let packed := pack_loop values unique 0 (Buffer_alloc (ceil_div count 2)) in
      OK (Buffer_concat ((prefix :: dictParts) ++ [packed])).

(** The dictionary loop of [decode]; "Truncated dict entry length" and
    "Truncated dict entry" are [Truncated]. *)
Fixpoint read_dictionary (uniqueCount : nat) (buffer : Buffer) (offset : nat)
  : result (list value * nat) :=
  match uniqueCount with
  | O => OK ([], offset)
  | S n =>
      match Buffer_get buffer offset with
      | None => Err (Truncated "dict entry length")
      | Some len =>
          let offset := (offset + 1)%nat in
          if len =? 255 then
            do (rest, offset') <- read_dictionary n buffer offset;
            OK (VNull :: rest, offset')
          else
            let len := Z.to_nat len in
            if (length buffer <? offset + len)%nat then Err (Truncated "dict entry")
            else
              let str := utf8_string (Buffer_slice buffer offset (offset + len)) in
              do (rest, offset') <- read_dictionary n buffer (offset + len);
              OK (VStr str :: rest, offset')
      end
  end.

(** One byte per index; "Invalid dictionary index: ${val}" is
    [DictIndexOutOfRange]. *)
Fixpoint read_indices (indexBuf : Buffer) (count : nat) (uniqueCount : Z)
         (dictionary : list value) : result (list value) :=
  match count with
  | O => OK []
  | S n =>
      match indexBuf with
      | [] => OK []
      | val :: rest =>
          if uniqueCount <=? val then Err (DictIndexOutOfRange val)
          else
            do more <- read_indices rest n uniqueCount dictionary;
            OK (nth (Z.to_nat val) dictionary VUndefined :: more)
      end
  end.

(** The nibble loop [for (i = 0; i < packed.length * 2 && idx < count; i++)]:
    the values written before the loop ends or breaks. *)
Fixpoint read_nibbles (rounds : nat) (packed : Buffer) (i : nat) (remaining : nat)
         (uniqueCount : Z) (dictionary : list value) : list value :=
  match rounds, remaining with
  | S rounds', S remaining' =>
      match Buffer_get packed (i / 2) with
      | None => []
      | Some byte =>
          let val := if Nat.even i then Z.shiftr byte 4 else Z.land byte 0x0f in
          if uniqueCount <=? val then []
          else nth (Z.to_nat val) dictionary VUndefined
               :: read_nibbles rounds' packed (S i) remaining' uniqueCount dictionary
      end
  | _, _ => []
  end.

(** [decode(buffer)]; the underflow errors are [Truncated]. *)
Definition decode (buffer : Buffer) : result (list value) :=
  if (length buffer <? 4)%nat then Err (Truncated "Enum buffer too short for count prefix")
  else
    do count <- readUInt32LE buffer 0;
    let offset := 4%nat in
    if count =? 0 then OK []
    else
      match Buffer_get buffer offset with
      | None => Err (Truncated "unique count")
      | Some uniqueCount =>
          let count := Z.to_nat count in
          do (dictionary, offset) <-
            read_dictionary (Z.to_nat uniqueCount) buffer (offset + 1);
          if 16 <? uniqueCount then
            let indexBuf := skipn offset buffer in
            if (length indexBuf <? count)%nat then Err (Truncated "Enum decode underflow")
            else read_indices indexBuf count uniqueCount dictionary
          else
            let packed := skipn offset buffer in
            let written :=
              read_nibbles (length packed * 2) packed 0 count uniqueCount dictionary in
            if (length written <? count)%nat then Err (Truncated "Enum decode underflow")
            else OK written
      end.

Definition codec : IFieldCodec :=
  {| codec_supports := fun type => FieldType_eqb type ENUM;
     codec_encode := encode;
     codec_decode := decode |}.

(** Nibble [i] of a packed index stream: the high half of byte [i / 2] for
    even [i], the low half for odd [i]. *)
Definition nibble (packed : Buffer) (i : nat) : Z :=
  let byte := nth (i / 2) packed 0 in
  if Nat.even i then byte / 16 else byte mod 16.

(** Two nibbles per byte, the high one first; a last single nibble is
    padded with a zero low half. *)
Fixpoint pack_nibbles (indices : list Z) : Buffer :=
  match indices with
  | hi :: lo :: rest => (16 * hi + lo) :: pack_nibbles rest
  | [hi] => [16 * hi]
  | [] => []
  end.

End EnumCodec.

(** ** codecs/UUIDCodec.ts *)

Module UUIDCodec.

(** The value of a hexadecimal digit, either case. *)
Definition hex_value (c : ascii) : option Z :=
  let n := Z.of_N (N_of_ascii c) in
  if (48 <=? n) && (n <=? 57) then Some (n - 48)
  else if (97 <=? n) && (n <=? 102) then Some (n - 87)
  else if (65 <=? n) && (n <=? 70) then Some (n - 55)
  else None.

(** The lower-case digit of a value below sixteen, as [toString("hex")]
    prints it. *)
Definition hex_digit (v : Z) : ascii :=
  ascii_of_N (Z.to_N (if v <? 10 then v + 48 else v + 87)).

(** [str.replace(/-/g, "")]. *)
Fixpoint strip_hyphens (s : string) : string :=
  match s with
  | EmptyString => EmptyString
  | String c rest =>
      if Ascii.eqb c "-"%char then strip_hyphens rest
      else String c (strip_hyphens rest)
  end.

(** [Buffer.from(str, "hex")]: one byte per pair of digits, up to the first
    pair that is not hexadecimal; a trailing single digit is dropped. *)
Fixpoint hex_decode (s : string) : Buffer :=
  match s with
  | String a (String b rest) =>
      match hex_value a, hex_value b with
      | Some hi, Some lo => (16 * hi + lo) :: hex_decode rest
      | _, _ => []
      end
  | _ => []
  end.

(** [buf.toString("hex")]. *)
Fixpoint hex_encode (bytes : Buffer) : string :=
  match bytes with
  | [] => EmptyString
  | b :: rest =>
      String (hex_digit ((b mod 256) / 16))
             (String (hex_digit (b mod 16)) (hex_encode rest))
  end.

(** [str.slice(start, end)] and [str.slice(start)] on non-negative bounds. *)
Definition slice (s : string) (start stop : nat) : string :=
  substring start (stop - start) s.
Definition slice_from (s : string) (start : nat) : string :=
  substring start (String.length s - start) s.

Definition encode_one (v : value) : result Buffer :=
  match v with
  | VStr s => OK (hex_decode (strip_hyphens s))
  | _ => Err (TypeError "v.replace is not a function")
  end.

Definition encode (values : list value) : result Buffer :=
  do buffers <- mapM encode_one values;
  OK (Buffer_concat buffers).

(** The template literal of [decode]: hyphens after 8, 12, 16 and 20 digits. *)
Definition hyphenate (hex : string) : string :=
  (slice hex 0 8 ++ "-" ++ slice hex 8 12 ++ "-" ++ slice hex 12 16 ++ "-"
   ++ slice hex 16 20 ++ "-" ++ slice_from hex 20)%string.

(** [for (let i = 0; i < buffer.length; i += 16)]. *)
Fixpoint decode_loop (fuel : nat) (buffer : Buffer) : list value :=
  match buffer, fuel with
  | [], _ => []
  | _, O => []
  | _, S fuel' =>
      VStr (hyphenate (hex_encode (firstn 16 buffer)))
      :: decode_loop fuel' (skipn 16 buffer)
  end.

Definition decode (buffer : Buffer) : result (list value) :=
  OK (decode_loop (length buffer) buffer).

Definition codec : IFieldCodec :=
  {| codec_supports := fun type => FieldType_eqb type UUID;
     codec_encode := encode;
     codec_decode := decode |}.

(** A hexadecimal digit, and its lower-case form. *)
Definition is_hex (c : ascii) : bool :=
  match hex_value c with Some _ => true | None => false end.

Definition lower (c : ascii) : ascii :=
  let n := N_of_ascii c in
  if ((65 <=? n) && (n <=? 90))%N then ascii_of_N (n + 32) else c.

Fixpoint lowercase (s : string) : string :=
  match s with
  | EmptyString => EmptyString
  | String c rest => String (lower c) (lowercase rest)
  end.

Definition all_hex (s : string) : bool :=
  forallb is_hex (list_ascii_of_string s).

(** The canonical text of a UUID: 8-4-4-4-12 hexadecimal digits, either
    case, joined by hyphens. *)
Definition canonical (u : string) : bool :=
  (String.length u =? 36)%nat
  && all_hex (substring 0 8 u) && Ascii.eqb (nth 8 (list_ascii_of_string u) " "%char) "-"%char
  && all_hex (substring 9 4 u) && Ascii.eqb (nth 13 (list_ascii_of_string u) " "%char) "-"%char
  && all_hex (substring 14 4 u) && Ascii.eqb (nth 18 (list_ascii_of_string u) " "%char) "-"%char
  && all_hex (substring 19 4 u) && Ascii.eqb (nth 23 (list_ascii_of_string u) " "%char) "-"%char
  && all_hex (substring 24 12 u).

End UUIDCodec.

(** ** codecs/BooleanCodec.ts *)

(** The truthiness of a value, as [if (value)] and [!value] test it. *)
Definition truthy (v : value) : bool :=
  match v with
  | VMissing => true
  | VUndefined | VNull => false
  | VBool b => b
  | VNum x => negb ((x =? 0)%float || is_nan x)
  | VStr s => negb (String.eqb s EmptyString)
  | VArr _ | VObj _ => true
  end.

Module BooleanCodec.

Fixpoint encode_loop (values : list value) (i : nat) (dataBuf : Buffer) : Buffer :=
  match values with
  | [] => dataBuf
  | v :: rest =>
      if truthy v
      then encode_loop rest (S i) (NullableCodecWrapper.set_bit dataBuf i)
      else encode_loop rest (S i) dataBuf
  end.

Definition encode (values : list value) : result Buffer :=
  let count := length values in
  if (count =? 0)%nat then OK []
  else
    do countBuf <- Varint.encode (Z.of_nat count);
    let dataBuf := encode_loop values 0 (Buffer_alloc (ceil_div count 8)) in
    OK (Buffer_concat [countBuf; dataBuf]).

(** [(buffer[offset + byteIdx] & (1 << bitIdx)) !== 0]; a byte past the end
    is [undefined], which [&] reads as 0. *)
Definition read_bit (buffer : Buffer) (offset i : nat) : bool :=
  match Buffer_get buffer (offset + i / 8) with
  | Some byte => negb (js_and byte (js_shl 1 (Z.of_nat (i mod 8))) =? 0)
  | None => false
  end.

Definition decode (buffer : Buffer) : result (list value) :=
  match buffer with
  | [] => OK []
  | _ =>
      do (count, bytesRead) <- Varint.decode buffer 0;
      OK (map (fun i => VBool (read_bit buffer bytesRead i)) (seq 0 (Z.to_nat count)))
  end.

Definition codec : IFieldCodec :=
  {| codec_supports := fun type => FieldType_eqb type BOOLEAN;
     codec_encode := encode;
     codec_decode := decode |}.

End BooleanCodec.

(** ** codecs/TimestampCodec.ts *)

(** The integer part of a finite Number, truncated toward zero. *)
Definition Number_trunc (x : float) : option Z :=
  match Prim2SF x with
  | S754_zero _ => Some 0
  | S754_finite s m e =>
      Some (signed s (if 0 <=? e then Z.pos m * 2 ^ e else Z.pos m / 2 ^ (- e)))
  | _ => None
  end.

(** [TimeClip]: the time value of [new Date(x)], [None] for an invalid date. *)
Definition TimeClip (x : float) : option Z :=
  match Number_trunc x with
  | Some t => if Z.abs t <=? 8640000000000000 then Some t else None
  | None => None
  end.

(** [buffer.writeBigInt64LE(v)] into eight fresh bytes (two's complement);
    ERR_OUT_OF_RANGE outside the signed 64-bit range. *)
Definition writeBigInt64LE (v : Z) : result Buffer :=
  if (- 2 ^ 63 <=? v) && (v <? 2 ^ 63) then OK (le_bytes 8 (v mod 2 ^ 64))
  else Err (RangeError "writeBigInt64LE").

(** [buffer.readBigInt64LE(0)] on a buffer of at least eight bytes. *)
Definition readBigInt64LE (buffer : Buffer) : Z :=
  let u := le_value (firstn 8 buffer) in
  if u <? 2 ^ 63 then u else u - 2 ^ 64.

Module TimestampCodec.

Section Platform.

(** The host's [Date.parse]: milliseconds since the epoch, [None] for the
    NaN of a text that is not a date; and [Date.prototype.toISOString] on a
    valid time value. *)
Variable Date_parse : string -> option Z.
Variable Date_toISOString : Z -> string.

(** [new Date(v).getTime()], [None] for NaN.  A Symbol raises a TypeError;
    arrays and objects are outside this embedding. *)
Definition getTime (v : value) : result (option Z) :=
  match v with
  | VStr s => OK (Date_parse s)
  | VNull => OK (Some 0)
  | VBool b => OK (Some (if b then 1 else 0))
  | VNum x => OK (TimeClip x)
  | VUndefined => OK None
  | VMissing => Err (TypeError "Cannot convert a Symbol value to a number")
  | _ => Err (TypeError "new Date(value) outside the embedding")
  end.

(** [BigInt(t)] of a time value; a RangeError for NaN. *)
Definition BigInt_of_time (t : option Z) : result Z :=
  match t with
  | Some z => OK z
  | None => Err (RangeError "The number NaN cannot be converted to a BigInt")
  end.

(** The body of [encode] once the time values are known: the 8-byte base,
    then one ZigZag varint per delta. *)
Definition encode_timestamps (timestamps : list (option Z)) : result Buffer :=
  match timestamps with
  | [] => OK []
  | first :: _ =>
      do base <- BigInt_of_time first;
      do deltas <- mapM (fun t => do z <- BigInt_of_time t; OK (z - base)) timestamps;
      do baseBuf <- writeBigInt64LE base;
      OK (Buffer_concat (baseBuf :: map Varint.encodeBigInt deltas))
  end.

Definition encode (values : list value) : result Buffer :=
  do timestamps <- mapM getTime values;
  encode_timestamps timestamps.

(** The [while (offset < buffer.length)] loop of [decode]:
    [values.push(base + Number(delta))]. *)
Fixpoint decode_loop (fuel : nat) (buffer : Buffer) (offset : nat) (base : float)
  : result (list float) :=
  if (offset <? length buffer)%nat then
    match fuel with
    | O => OK []
    | S fuel' =>
        do (delta, bytesRead) <- Varint.decodeBigInt buffer offset;
        do rest <- decode_loop fuel' buffer (offset + bytesRead) base;
        OK ((base + Number_of_Z delta)%float :: rest)
    end
  else OK [].

(** The array [values] of [decode], before it is turned into text. *)
Definition decode_values (buffer : Buffer) : result (list float) :=
  if (length buffer <? 8)%nat then OK []
  else
    let base := Number_of_Z (readBigInt64LE buffer) in
    decode_loop (length buffer) buffer 8 base.

(** [new Date(v).toISOString()]; "Invalid time value" is a RangeError. *)
Definition toISOString (v : float) : result value :=
  match TimeClip v with
  | Some t => OK (VStr (Date_toISOString t))
  | None => Err (RangeError "Invalid time value")
  end.

Definition decode (buffer : Buffer) : result (list value) :=
  do values <- decode_values buffer;
  mapM toISOString values.

Definition codec : IFieldCodec :=
  {| codec_supports := fun type => FieldType_eqb type TIMESTAMP;
     codec_encode := encode;
     codec_decode := decode |}.

End Platform.

End TimestampCodec.

(** ** schema/FieldProfile.ts *)

Module FieldProfiler.

Definition is_string (v : value) : bool :=
  match v with VStr _ => true | _ => false end.

Definition in_range (lo hi : ascii) (c : ascii) : bool :=
  ((N_of_ascii lo <=? N_of_ascii c) && (N_of_ascii c <=? N_of_ascii hi))%N.

(** [[1-5]] and [[89ab]] under the [i] flag. *)
Definition is_version_digit (c : ascii) : bool := in_range "1" "5" c.
Definition is_variant_digit (c : ascii) : bool :=
  existsb (Ascii.eqb c) ["8"; "9"; "a"; "b"; "A"; "B"]%char.

(** [uuidRegex.test(v)]:
    /^[0-9a-f]{8}-[0-9a-f]{4}-[1-5][0-9a-f]{3}-[89ab][0-9a-f]{3}-[0-9a-f]{12}$/i *)
Definition uuidRegex_test (v : string) : bool :=
  UUIDCodec.canonical v
  && is_version_digit (nth 14 (list_ascii_of_string v) " "%char)
  && is_variant_digit (nth 19 (list_ascii_of_string v) " "%char).

Definition count_distinct (values : list value) : nat := length (distinct values).

Definition is_plain_object (item : value) : bool :=
  match item with VObj _ => true | _ => false end.

(** [typeof item !== "object" || item === null]. *)
Definition is_primitive_item (item : value) : bool :=
  match item with VObj _ | VArr _ => false | _ => true end.

Section Platform.

Variable Date_parse : string -> option Z.

Definition isUUID (values : list value) : bool :=
  forallb (fun v => match v with VStr s => uuidRegex_test s | _ => false end) values.

Definition isTimestamp (values : list value) : bool :=
  forallb (fun v => match v with
                    | VStr s => match Date_parse s with Some _ => true | None => false end
                    | _ => false
                    end) values.

Definition isEnum (values : list value) : bool :=
  forallb is_string values && (count_distinct values <=? 8)%nat.

Definition isBoolean (values : list value) : bool :=
  forallb (fun v => match v with VBool _ => true | _ => false end) values.

Definition isNumber (values : list value) : bool :=
  forallb (fun v => match v with VNum _ => true | _ => false end) values.

Definition isArrayOfObjects (values : list value) : bool :=
  forallb (fun v => match v with
                    | VArr items => forallb is_plain_object items
                    | _ => false
                    end) values.

Definition isArrayOfPrimitives (values : list value) : bool :=
  forallb (fun v => match v with
                    | VArr items => forallb is_primitive_item items
                    | _ => false
                    end) values.

Definition detectType (values : list value) : FieldType :=
  let nonNullValues :=
    filter (fun v => match v with VNull | VUndefined => false | _ => true end) values in
  match nonNullValues with
  | [] => STRING
  | _ =>
      if isUUID nonNullValues then UUID
      else if isTimestamp nonNullValues then TIMESTAMP
      else if isEnum nonNullValues then ENUM
      else if isBoolean nonNullValues then BOOLEAN
      else if isNumber nonNullValues then NUMBER
      else if isArrayOfObjects values then ARRAY
      else if isArrayOfPrimitives values then ARRAY_PRIMITIVE
      else STRING
  end.

End Platform.

End FieldProfiler.

(** ** JavaScript objects *)

(** A plain object, as an object literal or [JSON.parse] makes it: its
    own enumerable properties in the order of [Object.keys], and
    [Object.prototype] as its prototype. *)
Definition JSObject : Type := list (string * value).

(** The names every such object inherits from [Object.prototype]: all of
    them are functions but [__proto__], an accessor that returns the
    prototype and, on assignment, replaces it. *)
Definition Object_prototype : list string :=
  ["constructor"; "__defineGetter__"; "__defineSetter__"; "hasOwnProperty";
   "__lookupGetter__"; "__lookupSetter__"; "isPrototypeOf";
   "propertyIsEnumerable"; "toString"; "valueOf"; "__proto__";
   "toLocaleString"]%string.

Definition inherited (key : string) : bool :=
  existsb (String.eqb key) Object_prototype.

(** An array index: the canonical decimal text of an integer below
    [2^32 - 1].  [Object.keys] lists such names first, in ascending order. *)
Fixpoint decimal_value (s : string) (acc : Z) : option Z :=
  match s with
  | EmptyString => Some acc
  | String c rest =>
      let n := Z.of_N (N_of_ascii c) in
      if (48 <=? n) && (n <=? 57) then decimal_value rest (10 * acc + (n - 48))
      else None
  end.

Definition array_index (key : string) : option Z :=
  match key with
  | EmptyString => None
  | String c rest =>
      if Ascii.eqb c "0"%char
      then (if String.eqb rest EmptyString then Some 0 else None)
      else match decimal_value key 0 with
           | Some i => if i <? 2 ^ 32 - 1 then Some i else None
           | None => None
           end
  end.

Fixpoint obj_get {A : Type} (o : list (string * A)) (key : string) : option A :=
  match o with
  | [] => None
  | (k, v) :: rest => if String.eqb k key then Some v else obj_get rest key
  end.

(** An own property is written in place when it exists and appended
    otherwise. *)
Fixpoint obj_put {A : Type} (o : list (string * A)) (key : string) (v : A)
  : list (string * A) :=
  match o with
  | [] => [(key, v)]
  | (k, w) :: rest =>
      if String.eqb k key then (k, v) :: rest else (k, w) :: obj_put rest key v
  end.

(** [Object.prototype.hasOwnProperty.call(obj, key)]. *)
Definition obj_has {A : Type} (o : list (string * A)) (key : string) : bool :=
  match obj_get o key with Some _ => true | None => false end.

(** A new array index [i] takes its place after the indices below it. *)
Fixpoint obj_insert_index {A : Type} (o : list (string * A)) (i : Z)
         (key : string) (v : A) : list (string * A) :=
  match o with
  | [] => [(key, v)]
  | (k, w) :: rest =>
      match array_index k with
      | Some j =>
          if j <? i then (k, w) :: obj_insert_index rest i key v
          else (key, v) :: o
      | None => (key, v) :: o
      end
  end.

(** The own property [key] of [o] becomes [v]: what [obj[key] = v] does
    when no inherited accessor takes the assignment. *)
Definition obj_set {A : Type} (o : list (string * A)) (key : string) (v : A)
  : list (string * A) :=
  match array_index key with
  | Some i => if obj_has o key then obj_put o key v else obj_insert_index o i key v
  | None => obj_put o key v
  end.

(** [key in obj]: an own property or an inherited one. *)
Definition key_in {A : Type} (o : list (string * A)) (key : string) : bool :=
  obj_has o key || inherited key.

(** [obj[key] = v] on a plain object.  The name [__proto__] reaches the
    inherited accessor unless [obj] has an own property of that name: the
    accessor ignores a primitive and makes an object or [null] the
    prototype of [obj]. *)
Definition assign (o : JSObject) (key : string) (v : value) : result JSObject :=
  if String.eqb key "__proto__" && negb (obj_has o key) then
    match v with
    | VNull | VArr _ | VObj _ => Err (Unsupported "the prototype of an object is replaced")
    | _ => OK o
    end
  else OK (obj_set o key v).

(** [Object.keys(obj)]. *)
Definition obj_keys {A : Type} (o : list (string * A)) : list string := map fst o.

(** A [Set<string>] filled in order: [add] keeps the first occurrence. *)
Definition set_add (keys : list string) (key : string) : list string :=
  if existsb (String.eqb key) keys then keys else keys ++ [key].

(** [Array.prototype.sort()] on strings: ascending UTF-16 code units. *)
Fixpoint sort_insert (key : string) (sorted : list string) : list string :=
  match sorted with
  | [] => [key]
  | k :: rest =>
      if string_leb key k then key :: sorted else k :: sort_insert key rest
  end.

Definition sort_strings (keys : list string) : list string :=
  fold_right sort_insert [] keys.

(** [str.split(".")]. *)
Fixpoint split_dots (s : string) : list string :=
  match s with
  | EmptyString => [EmptyString]
  | String c rest =>
      if Ascii.eqb c "."%char then EmptyString :: split_dots rest
      else
        match split_dots rest with
        | [] => [String c EmptyString]
        | part :: parts => String c part :: parts
        end
  end.

(** ** codecs/ObjectFlattener.ts *)

Module ObjectFlattener.

(** [parentPath ? `${parentPath}.${key}` : key]. *)
Definition join_path (parentPath key : string) : string :=
  if String.eqb parentPath EmptyString then key
  else (parentPath ++ "." ++ key)%string.

(** [flattenRecursive(obj, parentPath, result)], with [flat] for [result], for [obj] the plain object
    [value]: a property whose value is a plain object is walked in turn,
    any other value (MISSING, [null] and arrays too) is a leaf, stored by
    [result[path] = value]. *)
Fixpoint flattenRecursive (obj : value) (parentPath : string) (flat : JSObject)
  : result JSObject :=
  match obj with
  | VObj fields =>
      (fix walk (fields : list (string * value)) (flat : JSObject)
         : result JSObject :=
         match fields with
         | [] => OK flat
         | (key, value) :: rest =>
             let path := join_path parentPath key in
             do flat' <- match value with
                         | VObj _ => flattenRecursive value path flat
                         | _ => assign flat path value
                         end;
             walk rest flat'
         end) fields flat
  | _ => OK flat
  end.

Definition flatten (record : JSObject) : result JSObject :=
  flattenRecursive (VObj record) EmptyString [].

(** The inner loop of [unflatten], from [parts[i]] on: walk or create the
    intermediate objects, then assign the leaf.  [current[part]] finds an
    own property or an inherited one.  Where the walk would go on into an
    array, into a primitive (a truthy one is kept as [current]) or into an
    inherited member (a built-in function, or [Object.prototype] itself,
    which the next assignment would modify), the embedding stops. *)
Fixpoint set_path (parts : list string) (value : value) (current : JSObject)
  : result JSObject :=
  match parts with
  | [] => OK current
  | [part] => assign current part value
  | part :: rest =>
      match obj_get current part with
      | Some (VObj inner) =>
          do inner' <- set_path rest value inner;
          OK (obj_set current part (VObj inner'))
      | Some (VArr _) => Err (Unsupported "a dotted path through an array")
      | Some v =>
          if truthy v then Err (Unsupported "a dotted path through a primitive")
          else
            do inner' <- set_path rest value [];
            OK (obj_set current part (VObj inner'))
      | None =>
          if inherited part
          then Err (Unsupported "a dotted path through an inherited member")
          else
            do inner' <- set_path rest value [];
            OK (obj_set current part (VObj inner'))
      end
  end.

(** [unflatten(flat)]: MISSING and [undefined] values are skipped. *)
Fixpoint unflatten_loop (flat : JSObject) (record : JSObject) : result JSObject :=
  match flat with
  | [] => OK record
  | (fullPath, value) :: rest =>
      match value with
      | VMissing | VUndefined => unflatten_loop rest record
      | _ =>
          do record' <- set_path (split_dots fullPath) value record;
          unflatten_loop rest record'
      end
  end.

Definition unflatten (flat : JSObject) : result JSObject := unflatten_loop flat [].

End ObjectFlattener.

(** ** schema/FieldType.ts: ColumnBuilder and HeaderEncoder *)

Record FieldSchema : Type := {
  field_name : string;
  field_type : Z;
  field_byteLength : nat
}.

Module ColumnBuilder.

(** [if (!columns[key]) columns[key] = []; columns[key].push(record[key])].
    [columns] is a plain object: where it has no own column of the name,
    [columns[key]] is [undefined], or else the member it inherits under
    that name, which is truthy and has no [push]: the call raises the
    TypeError "columns[key].push is not a function". *)
Definition push (columns : list (string * list value)) (key : string) (v : value)
  : result (list (string * list value)) :=
  match obj_get columns key with
  | Some column => OK (obj_set columns key (column ++ [v]))
  | None =>
      if inherited key then Err (TypeError "columns[key].push is not a function")
      else OK (obj_set columns key [v])
  end.

Definition build (records : list JSObject) : result (list (string * list value)) :=
  fold_left (fun columns record =>
               fold_left (fun columns '(key, v) =>
                            do columns <- columns; push columns key v)
                         record columns)
            records (OK []).

End ColumnBuilder.

(** [buffer.writeUInt16LE(v)] into two fresh bytes. *)
Definition writeUInt16LE (v : Z) : result Buffer :=
  if (0 <=? v) && (v <? 2 ^ 16) then OK (le_bytes 2 v)
  else Err (RangeError "writeUInt16LE").

Module HeaderEncoder.

(** The magic bytes "SAJC" and "SJCB". *)
Definition magic : Buffer := [83; 65; 74; 67].
Definition magic_brotli : Buffer := [83; 74; 67; 66].

Definition encode_field (field : FieldSchema) : result Buffer :=
  let nameBuf := utf8_bytes field.(field_name) in
  do lenBuf <- writeUInt32LE (Z.of_nat field.(field_byteLength));
  OK (Buffer_concat [[Z.of_nat (length nameBuf) mod 256]; nameBuf;
                     [field.(field_type) mod 256]; lenBuf]).

Definition encode (version : Z) (fields : list FieldSchema) : result Buffer :=
  do fieldCount <- writeUInt16LE (Z.of_nat (length fields));
  do parts <- mapM encode_field fields;
  OK (Buffer_concat (magic :: [version mod 256] :: fieldCount :: parts)).

End HeaderEncoder.

(** ** JSON.stringify *)

(** The text of [JSON.stringify], kept as a tree: two values print the same
    text exactly when their trees are equal.  A number prints its shortest
    round-trip decimal, so two finite numbers print alike exactly when they
    are equal ([-0] prints as [0]); NaN and the infinities print [null]. *)
Inductive json : Type :=
| JNull
| JBool (b : bool)
| JNumber (x : float)
| JString (s : string)
| JArray (items : list json)
| JObject (fields : list (string * json)).

(** [None] where [JSON.stringify] yields [undefined]: for [undefined] and
    for a Symbol.  Such a value prints [null] inside an array and is left
    out of an object. *)
Fixpoint toJSON (v : value) : option json :=
  match v with
  | VMissing | VUndefined => None
  | VNull => Some JNull
  | VBool b => Some (JBool b)
  | VNum x => Some (if is_finite x then JNumber x else JNull)
  | VStr s => Some (JString s)
  | VArr items =>
      Some (JArray (map (fun item => match toJSON item with
                                     | Some j => j
                                     | None => JNull
                                     end) items))
  | VObj fields =>
      Some (JObject (flat_map (fun '(key, item) => match toJSON item with
                                                   | Some j => [(key, j)]
                                                   | None => []
                                                   end) fields))
  end.

Fixpoint json_eqb (a b : json) : bool :=
  match a, b with
  | JNull, JNull => true
  | JBool x, JBool y => Bool.eqb x y
  | JNumber x, JNumber y => (x =? y)%float
  | JString x, JString y => String.eqb x y
  | JArray xs, JArray ys =>
      (fix all2 (xs ys : list json) : bool :=
         match xs, ys with
         | [], [] => true
         | x :: xs', y :: ys' => json_eqb x y && all2 xs' ys'
         | _, _ => false
         end) xs ys
  | JObject xs, JObject ys =>
      (fix all2 (xs ys : list (string * json)) : bool :=
         match xs, ys with
         | [], [] => true
         | (k, x) :: xs', (k', y) :: ys' =>
             String.eqb k k' && json_eqb x y && all2 xs' ys'
         | _, _ => false
         end) xs ys
  | _, _ => false
  end.

(** [JSON.stringify(values) !== JSON.stringify(decoded)] on two arrays,
    negated: the two texts are the same. *)
Definition JSON_same_text (values decoded : list value) : bool :=
  json_eqb (match toJSON (VArr values) with Some j => j | None => JNull end)
           (match toJSON (VArr decoded) with Some j => j | None => JNull end).

(** Two buffers hold the same bytes: the comparison of the magic text. *)
Fixpoint forallb2_eq (a b : Buffer) : bool :=
  match a, b with
  | [], [] => true
  | x :: a', y :: b' => (x =? y) && forallb2_eq a' b'
  | _, _ => false
  end.

(** ** codecs/CodecRegistry.ts *)

Module CodecRegistry.

(** The [Map<FieldType, IFieldCodec>] of the registry. *)
Definition t : Type := FieldType -> option IFieldCodec.

Definition empty : t := fun _ => None.

(** [register(codec, primaryType)]: overwrites, after a warning. *)
Definition register (codec : IFieldCodec) (primaryType : FieldType) (registry : t) : t :=
  fun type => if FieldType_eqb type primaryType then Some codec else registry type.

(** [supports(type)]. *)
Definition supports (registry : t) (type : FieldType) : bool :=
  match registry type with Some _ => true | None => false end.

(** [get(type)]; "No codec registered for field type: ${type}" is [NoCodec]. *)
Definition get (registry : t) (type : FieldType) : result IFieldCodec :=
  match registry type with
  | Some codec => OK codec
  | None => Err (NoCodec (FieldType_code type))
  end.

End CodecRegistry.

(** ** core/SemanticCompressor.ts *)

Module SemanticCompressor.

Section Compressor.

(** The collaborators handed to the constructor: the registry (after the
    constructor has added the enum codec when ENUM was not registered), the
    profiler's [detectType] and the version; and the host's Brotli pair used
    by the columnar variant. *)
Variable registry : CodecRegistry.t.
Variable detectType : list value -> FieldType.
Variable version : Z.
Variable brotliCompressSync : Buffer -> Buffer.
Variable brotliDecompressSync : Buffer -> result Buffer.

Definition resolveCodec (type : FieldType) : result IFieldCodec :=
  CodecRegistry.get registry type.

(** [buildSchema(columns)]: the type of each column, profiled on its
    non-MISSING values, or on the column itself when all are MISSING. *)
Definition buildSchema (columns : list (string * list value))
  : list (string * FieldType) :=
  map (fun '(fieldName, values) =>
         let realValues := filter is_present values in
         (fieldName,
          detectType (match realValues with [] => values | _ => realValues end)))
      columns.

(** [key in r && value !== undefined ? value : MISSING], for
    [value = r[key]].  A name that [r] only inherits is in [r], and its
    value is a built-in function. *)
Definition sparse_value (r : JSObject) (key : string) : result value :=
  match obj_get r key with
  | Some VUndefined => OK VMissing
  | Some v => OK v
  | None =>
      if inherited key then Err (Unsupported "an inherited member as a value")
      else OK VMissing
  end.

(** The sparse record of [prepareData]: every sorted key, MISSING where the
    record has no such key or holds [undefined].  [flat.__proto__ = ...]
    creates no property: it can only replace the prototype of [flat], of
    which [flatten] reads the own properties alone. *)
Definition sparse (sortedKeys : list string) (r : JSObject) : result JSObject :=
  fold_left (fun flat key =>
               do flat <- flat;
               if String.eqb key "__proto__" then OK flat
               else
                 do v <- sparse_value r key;
                 OK (obj_set flat key v))
            sortedKeys (OK []).

(** [for (const key of allFlattenedKeys) if (!(key in f)) f[key] = MISSING];
    a name that is not in [f] is not [__proto__]. *)
Definition backfill (allFlattenedKeys : list string) (f : JSObject) : JSObject :=
  fold_left (fun f key => if key_in f key then f else obj_set f key VMissing)
            allFlattenedKeys f.

(** One round of the column loop: encode through the nullable wrapper,
    decode at once and compare the JSON texts.  "Round-trip integrity check
    failed ..." is [RoundTripFailed]. *)
Definition prepareColumn (schema : list (string * FieldType))
           (column : string * list value) : result (FieldSchema * Buffer) :=
  let '(fieldName, values) := column in
  match obj_get schema fieldName with
  | None => Err (NoCodec (-1))
  | Some type =>
      do codec <- resolveCodec type;
      do encoded <- NullableCodecWrapper.encode codec values;
      do decoded <- NullableCodecWrapper.decode codec encoded;
      if negb (JSON_same_text values decoded)
      then Err (RoundTripFailed fieldName (FieldType_code type))
      else OK ({| field_name := fieldName;
                  field_type := FieldType_code type;
                  field_byteLength := length encoded |}, encoded)
  end.

(** The columns of [prepareData], before they are encoded. *)
Definition pivot (records : list JSObject) : result (list (string * list value)) :=
  let allKeys :=
    fold_left (fun keys r => fold_left set_add (obj_keys r) keys) records [] in
  let sortedKeys := sort_strings allKeys in
  do flattened <-
    mapM (fun r => do flat <- sparse sortedKeys r; ObjectFlattener.flatten flat)
         records;
  let allFlattenedKeys :=
    fold_left (fun keys f => fold_left set_add (obj_keys f) keys) flattened [] in
  let flattened := map (backfill allFlattenedKeys) flattened in
  ColumnBuilder.build flattened.

(** [prepareData(records)]; "Cannot compress empty dataset" is [EmptyBatch]. *)
Definition prepareData (records : list JSObject)
  : result (list FieldSchema * list Buffer) :=
  match records with
  | [] => Err EmptyBatch
  | _ =>
      do columns <- pivot records;
      let schema := buildSchema columns in
      do prepared <- mapM (prepareColumn schema) columns;
      OK (map fst prepared, map snd prepared)
  end.

Definition compress (records : list JSObject) : result Buffer :=
  do (fields, columnBuffers) <- prepareData records;
  do headerBuffer <- HeaderEncoder.encode version fields;
  OK (Buffer_concat (headerBuffer :: columnBuffers)).

Definition compressColumnarBrotli (records : list JSObject) : result Buffer :=
  do (fields, columnBuffers) <- prepareData records;
  let compressedColumns := map brotliCompressSync columnBuffers in
  let updatedFields :=
    map (fun '(field, compressed) =>
           {| field_name := field.(field_name);
              field_type := field.(field_type);
              field_byteLength := length compressed |})
        (combine fields compressedColumns) in
  do headerBuffer <- HeaderEncoder.encode version updatedFields;
  let finalHeader := HeaderEncoder.magic_brotli ++ skipn 4 headerBuffer in
  OK (Buffer_concat (finalHeader :: compressedColumns)).

(** The field loop of [decompress]: [fieldCount] schema entries from
    [offset] on.  A read past the end surfaces as the ERR_OUT_OF_RANGE of
    [readUInt32LE]. *)
Fixpoint read_fields (fieldCount : nat) (buffer : Buffer) (offset : nat)
  : result (list FieldSchema * nat) :=
  match fieldCount with
  | O => OK ([], offset)
  | S n =>
      match Buffer_get buffer offset with
      | None => Err (RangeError "readUInt32LE")
      | Some nameLen =>
          let offset := (offset + 1)%nat in
          let nameLen := Z.to_nat nameLen in
          let name := utf8_string (Buffer_slice buffer offset (offset + nameLen)) in
          let offset := (offset + nameLen)%nat in
          match Buffer_get buffer offset with
          | None => Err (RangeError "readUInt32LE")
          | Some typeNum =>
              let offset := (offset + 1)%nat in
              do byteLength <- readUInt32LE buffer offset;
              let offset := (offset + 4)%nat in
              do (rest, offset') <- read_fields n buffer offset;
              OK ({| field_name := name;
                     field_type := typeNum;
                     field_byteLength := Z.to_nat byteLength |} :: rest, offset')
          end
      end
  end.

(** The column loop of [decompress]: slice, undo Brotli when asked, decode
    through the nullable wrapper, [columns[field.name] = ...].  Under the
    name [__proto__] the decoded array would become the prototype of
    [columns]. *)
Fixpoint read_columns (isColumnarBrotli : bool) (fields : list FieldSchema)
         (buffer : Buffer) (offset : nat) (columns : list (string * list value))
  : result (list (string * list value)) :=
  match fields with
  | [] => OK columns
  | field :: rest =>
      let colBuffer :=
        Buffer_slice buffer offset (offset + field.(field_byteLength)) in
      let offset := (offset + field.(field_byteLength))%nat in
      do colBuffer <- (if isColumnarBrotli then brotliDecompressSync colBuffer
                       else OK colBuffer);
      do codec <- match FieldType_of_code field.(field_type) with
                  | Some type => resolveCodec type
                  | None => Err (NoCodec field.(field_type))
                  end;
      do decoded <- NullableCodecWrapper.decode codec colBuffer;
      if String.eqb field.(field_name) "__proto__"
      then Err (Unsupported "the prototype of an object is replaced")
      else read_columns isColumnarBrotli rest buffer offset
                        (obj_set columns field.(field_name) decoded)
  end.

(** One flat record of [decompress]: the non-MISSING cells of row [row];
    a cell past the end of its column is [undefined].  The fields are
    those of [read_columns], none of which is named [__proto__]. *)
Definition flatRecord (fields : list FieldSchema)
           (columns : list (string * list value)) (row : nat) : JSObject :=
  fold_left (fun record field =>
               let val :=
                 match obj_get columns field.(field_name) with
                 | Some column => nth row column VUndefined
                 | None => VUndefined
                 end in
               if is_present val then obj_set record field.(field_name) val
               else record)
            fields [].

(** [decompress(buffer)]; "Invalid SAJC buffer" is [Truncated] and
    "Invalid SAJC magic" is [InvalidMagic]. *)
Definition decompress (buffer : Buffer) : result (list JSObject) :=
  if (length buffer <? 8)%nat then Err (Truncated "Invalid SAJC buffer")
  else
    let magic := Buffer_slice buffer 0 4 in
    let isColumnarBrotli := forallb2_eq magic HeaderEncoder.magic_brotli in
    if negb (forallb2_eq magic HeaderEncoder.magic) && negb isColumnarBrotli
    then Err InvalidMagic
    else
      let fieldCount := Z.to_nat (le_value (Buffer_slice buffer 5 7)) in
      do (fields, offset) <- read_fields fieldCount buffer 7;
      match fields with
      | [] => OK []
      | first :: _ =>
          do columns <- read_columns isColumnarBrotli fields buffer offset [];
          let rowCount :=
            match obj_get columns first.(field_name) with
            | Some column => length column
            | None => O
            end in
          let flatRecords := map (flatRecord fields columns) (seq 0 rowCount) in
          mapM ObjectFlattener.unflatten flatRecords
      end.

End Compressor.

End SemanticCompressor.

(** ** The codecs of the usage example *)

(** The two array codecs recurse through the registry and the column
    builder; their bodies are not part of this embedding. *)
Definition ArrayObjectCodec : IFieldCodec :=
  {| codec_supports := fun type => FieldType_eqb type ARRAY;
     codec_encode := fun _ => Err (Unsupported "ArrayObjectCodec.encode");
     codec_decode := fun _ => Err (Unsupported "ArrayObjectCodec.decode") |}.

Definition ArrayPrimitiveCodec : IFieldCodec :=
  {| codec_supports := fun type => FieldType_eqb type ARRAY_PRIMITIVE;
     codec_encode := fun _ => Err (Unsupported "ArrayPrimitiveCodec.encode");
     codec_decode := fun _ => Err (Unsupported "ArrayPrimitiveCodec.decode") |}.

(** The registry as the usage example fills it, in its order: UUID,
    TIMESTAMP, ENUM, BOOLEAN, NUMBER, ARRAY, ARRAY_PRIMITIVE and STRING. *)
Definition defaultRegistry (Date_parse : string -> option Z)
           (Date_toISOString : Z -> string) : CodecRegistry.t :=
  CodecRegistry.register AdaptiveStringCodec.codec STRING
    (CodecRegistry.register ArrayPrimitiveCodec ARRAY_PRIMITIVE
       (CodecRegistry.register ArrayObjectCodec ARRAY
          (CodecRegistry.register NumberCodec.codec NUMBER
             (CodecRegistry.register BooleanCodec.codec BOOLEAN
                (CodecRegistry.register EnumCodec.codec ENUM
                   (CodecRegistry.register
                      (TimestampCodec.codec Date_parse Date_toISOString) TIMESTAMP
                      (CodecRegistry.register UUIDCodec.codec UUID
                         CodecRegistry.empty))))))).

(** ** Ordinary names *)

(** A property name that is neither an array index nor a name inherited
    from [Object.prototype]: on an object with such names a new property
    is appended, and a lookup finds own properties only. *)
Definition plain_name (key : string) : bool :=
  negb (inherited key)
  && match array_index key with None => true | Some _ => false end.

(** The column builder and the inverse flattener as they work on such
    names: the lemmas [build_ordinary], [set_path_ordinary] and
    [unflatten_ordinary] show that the functions of the embedding compute
    them there. *)
Module Ordinary.

Definition push (columns : list (string * list value)) (key : string) (v : value)
  : list (string * list value) :=
  match obj_get columns key with
  | Some column => obj_put columns key (column ++ [v])
  | None => obj_put columns key [v]
  end.

Definition build (records : list JSObject) : list (string * list value) :=
  fold_left (fun columns record =>
               fold_left (fun columns '(key, v) => push columns key v) record columns)
            records [].

Fixpoint set_path (parts : list string) (value : value) (current : JSObject)
  : result JSObject :=
  match parts with
  | [] => OK current
  | [part] => OK (obj_put current part value)
  | part :: rest =>
      match obj_get current part with
      | Some (VObj inner) =>
          do inner' <- set_path rest value inner;
          OK (obj_put current part (VObj inner'))
      | Some (VArr _) => Err (Unsupported "a dotted path through an array")
      | Some v =>
          if truthy v then Err (Unsupported "a dotted path through a primitive")
          else
            do inner' <- set_path rest value [];
            OK (obj_put current part (VObj inner'))
      | None =>
          do inner' <- set_path rest value [];
          OK (obj_put current part (VObj inner'))
      end
  end.

Fixpoint unflatten_loop (flat : JSObject) (record : JSObject) : result JSObject :=
  match flat with
  | [] => OK record
  | (fullPath, value) :: rest =>
      match value with
      | VMissing | VUndefined => unflatten_loop rest record
      | _ =>
          do record' <- set_path (split_dots fullPath) value record;
          unflatten_loop rest record'
      end
  end.

End Ordinary.

(** ** ZigZag varints, as the specification words them *)




(** ** Vocabulary of the statements *)

(** The dictionary index [dictMap.get(v)!] of a value, [0] when absent. *)
Definition enum_index (unique : list value) (v : value) : Z :=
  match index_of v unique with Some k => k | None => 0 end.

(** ** Batches of flat records *)

(** [a === b] on values that are not objects or arrays. *)
Definition strictEquals (a b : value) : bool :=
  match a, b with
  | VMissing, VMissing => true
  | VUndefined, VUndefined => true
  | VNull, VNull => true
  | VBool x, VBool y => Bool.eqb x y
  | VNum x, VNum y => (x =? y)%float
  | VStr x, VStr y => String.eqb x y
  | _, _ => false
  end.

(** The values a flat record carries without loss: [null], booleans,
    finite numbers and well-formed strings. *)
Definition plain_value (v : value) : bool :=
  match v with
  | VNull | VBool _ => true
  | VStr s => well_formed s
  | VNum x => is_finite x
  | _ => false
  end.

(** A property name that [split(".")] leaves whole, that is well-formed
    and whose UTF-8 length fits the one-byte length prefix of the header,
    and that is neither an array index nor inherited from
    [Object.prototype]. *)
Definition ordinary_key (key : string) : bool :=
  forallb (fun c => negb (Ascii.eqb c "."%char)) (list_ascii_of_string key)
  && (length (utf8_bytes key) <? 256)%nat
  && well_formed key
  && plain_name key.

(** A record without nesting: distinct ordinary keys, plain values. *)
Definition flat_record (r : JSObject) : Prop :=
  NoDup (obj_keys r)
  /\ Forall (fun kv => ordinary_key (fst kv) = true /\ plain_value (snd kv) = true) r.

(** Two records with the same keys and, under each key, [===] values;
    the order of the keys is not compared. *)
Definition same_record (r r' : JSObject) : Prop :=
  forall key : string,
    match obj_get r key, obj_get r' key with
    | Some v, Some v' => strictEquals v v' = true
    | None, None => True
    | _, _ => False
    end.

Definition same_batch (records records' : list JSObject) : Prop :=
  Forall2 same_record records records'.

(** The cell of record [r] in the column of [key], as [prepareData] fills
    the sparse record. *)
Definition cell (r : JSObject) (key : string) : value :=
  match obj_get r key with
  | Some VUndefined | None => VMissing
  | Some v => v
  end.

(** A list of names in ascending order of their UTF-16 code units. *)
Fixpoint ascending (keys : list string) : bool :=
  match keys with
  | a :: rest =>
      match rest with
      | b :: _ => string_leb a b && ascending rest
      | [] => true
      end
  | [] => true
  end.

(** The sorted keys of [prepareData]. *)
Definition sorted_keys (records : list JSObject) : list string :=
  sort_strings
    (fold_left (fun keys r => fold_left set_add (obj_keys r) keys) records []).

(** A column with its MISSING cells put back among the decoded values. *)
Fixpoint reinterleave (values decoded : list value) : list value :=
  match values with
  | [] => []
  | v :: rest =>
      if is_present v
      then match decoded with
           | d :: ds => d :: reinterleave rest ds
           | [] => VUndefined :: reinterleave rest []
           end
      else VMissing :: reinterleave rest decoded
  end.

(** [isPlainObject(value)]. *)
Definition is_object (v : value) : bool :=
  match v with VObj _ => true | _ => false end.

(** The text [JSON.stringify] prints for an item of an array. *)
Definition json_item (v : value) : json :=
  match toJSON v with Some j => j | None => JNull end.

(** What becomes of a cell on the way back: a MISSING cell stays MISSING,
    any other cell comes back [===]. *)
Definition cell_kept (v d : value) : Prop :=
  match v with
  | VMissing => d = VMissing
  | _ => strictEquals v d = true
  end.

(** A value [unflatten] assigns: neither MISSING nor [undefined]. *)
Definition kept (v : value) : bool :=
  match v with VMissing | VUndefined => false | _ => true end.

(** Row [row] of the decoded columns [column], as a record. *)
Definition restored (keys : list string) (column : string -> list value) (row : nat)
  : JSObject :=
  flat_map (fun k => let d := nth row (column k) VUndefined in
                     if kept d then [(k, d)] else [])
           keys.

(** The decoded column of a field, as [decompress] obtains it. *)
Definition redecode (registry : FieldType -> option IFieldCodec)
           (p : FieldSchema * Buffer) : list value :=
  match FieldType_of_code (field_type (fst p)) with
  | Some t =>
      match registry t with
      | Some c =>
          match NullableCodecWrapper.decode c (snd p) with
          | OK dec => dec
          | Err _ => []
          end
      | None => []
      end
  | None => []
  end.

(** The bytes of [Varint.encode(z)] for a [z] that is not negative. *)
Definition varint (z : Z) : Buffer := Varint.encode_loop 5 z.

(** An entry of the raw mode and of the dictionary header: [Varint(0)] for
    [null], else [Varint(byteLen + 1)] and the UTF-8 bytes. *)
Definition raw_entry (v : value) : Buffer :=
  match v with
  | VStr s => varint (Z.of_nat (length (utf8_bytes s)) + 1) ++ utf8_bytes s
  | _ => varint 0
  end.

(** The runs of a list of indices: each maximal block of equal neighbours
    as the pair of the index and the length of the block. *)
Definition add_run (x c : Z) (rs : list (Z * Z)) : list (Z * Z) :=
  match rs with
  | (y, d) :: more => if x =? y then (y, d + c) :: more else (x, c) :: rs
  | [] => [(x, c)]
  end.

Fixpoint runs (indices : list Z) : list (Z * Z) :=
  match indices with
  | [] => []
  | x :: rest => add_run x 1 (runs rest)
  end.

(** A string or [null]. *)
Definition string_or_null (v : value) : bool :=
  match v with VNull | VStr _ => true | _ => false end.

(** A string the string codecs store without loss: it is well-formed and
    its UTF-8 length plus one fits 32 bits, as the length of every string
    of the engine does; any other value. *)
Definition storable_string (v : value) : bool :=
  match v with
  | VStr s => well_formed s && (Z.of_nat (length (utf8_bytes s)) + 1 <? 2 ^ 32)
  | _ => true
  end.

(** A codec keeps [null]: whenever the self-check of [prepareData] passes
    on plain values, each [null] handed to [encode] comes back from
    [decode] as [null], not as one of the values that print the same
    ([undefined], NaN, an infinity). *)
Definition keeps_null (codec : IFieldCodec) : Prop :=
  forall (values : list value) (encoded : Buffer) (decoded : list value),
    Forall (fun v => plain_value v = true /\ storable_string v = true) values ->
    Z.of_nat (length values) < 2 ^ 32 ->
    codec_encode codec values = OK encoded ->
    codec_decode codec encoded = OK decoded ->
    JSON_same_text values decoded = true ->
    Forall2 (fun v d => v = VNull -> d = VNull) values decoded.

(** A value that is [null] whenever it prints [null]. *)
Definition honest (d : value) : bool :=
  match d with
  | VMissing | VUndefined => false
  | VNum x => is_finite x
  | _ => true
  end.

(** A number or [null]; a boolean or [null]. *)
Definition number_or_null (v : value) : bool :=
  match v with VNull | VNum _ => true | _ => false end.

Definition boolean_or_null (v : value) : bool :=
  match v with VNull | VBool _ => true | _ => false end.

(** ** schema/FieldProfile.ts: BitmapBuilder *)

(** [v !== null && v !== undefined]. *)
Definition is_non_null (v : value) : bool :=
  match v with VNull | VUndefined => false | _ => true end.

Module BitmapBuilder.

(** The [values.forEach((v, i) => ...)] of [build], from index [i] on. *)
Fixpoint build_loop (values : list value) (i : nat) (bitmap : Buffer)
         (nonNullValues : list value) : Buffer * list value :=
  match values with
  | [] => (bitmap, nonNullValues)
  | v :: rest =>
      if is_non_null v
      then build_loop rest (S i) (NullableCodecWrapper.set_bit bitmap i)
                      (nonNullValues ++ [v])
      else build_loop rest (S i) bitmap nonNullValues
  end.

(** [build(values)] returns [{ bitmap, nonNullValues }]. *)
Definition build (values : list value) : Buffer * list value :=
  let byteLength := ceil_div (length values) 8 in
  build_loop values 0 (Buffer_alloc byteLength) [].

End BitmapBuilder.

(** ** Vocabulary of the enum codec *)

(** A value the enum dictionary stores without loss: [null], or a
    well-formed string whose UTF-8 form is shorter than 255 bytes. *)
Definition enum_entry (v : value) : bool :=
  match v with
  | VNull => true
  | VStr s => well_formed s && (length (utf8_bytes s) <? 255)%nat
  | _ => false
  end.

(** The bytes of such a value in the dictionary: [255] for [null], else
    the length byte and the UTF-8 bytes. *)
Definition enum_bytes (v : value) : Buffer :=
  match v with
  | VStr s => Z.of_nat (length (utf8_bytes s)) :: utf8_bytes s
  | _ => [255]
  end.

(** ** codecs/StringCodec.ts *)

Module StringCodec.

(** [String(v)].  The decimal text of a number and the text of arrays and
    objects are outside this embedding. *)
Definition String_of (v : value) : result string :=
  match v with
  | VStr s => OK s
  | VNull => OK "null"%string
  | VUndefined => OK "undefined"%string
  | VBool true => OK "true"%string
  | VBool false => OK "false"%string
  | VMissing => OK "Symbol(SAJC_MISSING)"%string
  | _ => Err (TypeError "String(value) outside the embedding")
  end.

(** One round of [strings.forEach]: [u32 LE byteLength | utf8Bytes]. *)
Definition part (str : string) : result Buffer :=
  let buf := utf8_bytes str in
  do lenBuf <- writeUInt32LE (Z.of_nat (length buf));
  OK (lenBuf ++ buf).

Definition encode (values : list value) : result Buffer :=
  do strings <- mapM String_of values;
  do parts <- mapM part strings;
  OK (Buffer_concat parts).

(** The [while (offset < buffer.length)] loop of [decode]; each round
    reads at least four bytes, so [fuel = buffer.length] rounds are never
    exhausted.  "Truncated string length prefix" and "Truncated string
    data" are [Truncated]. *)
Fixpoint decode_loop (fuel : nat) (buffer : Buffer) (offset : nat)
  : result (list value) :=
  if (offset <? length buffer)%nat then
    match fuel with
    | O => OK []
    | S fuel' =>
        if (length buffer <? offset + 4)%nat
        then Err (Truncated "string length prefix")
        else
          do len <- readUInt32LE buffer offset;
          let offset := (offset + 4)%nat in
          let len := Z.to_nat len in
          if (length buffer <? offset + len)%nat
          then Err (Truncated "string data")
          else
            let str := utf8_string (Buffer_slice buffer offset (offset + len)) in
            do rest <- decode_loop fuel' buffer (offset + len);
            OK (VStr str :: rest)
    end
  else OK [].

Definition decode (buffer : Buffer) : result (list value) :=
  decode_loop (length buffer) buffer 0.

Definition codec : IFieldCodec :=
  {| codec_supports := fun type => FieldType_eqb type STRING;
     codec_encode := encode;
     codec_decode := decode |}.

End StringCodec.

(** ** codecs/DictionaryStringCodec.ts *)

Module DictionaryStringCodec.

(** One dictionary string, length-prefixed: [Varint(byteLen) | utf8Bytes].
    [Buffer.from(str, "utf8")] raises a TypeError for [null], a number, a
    boolean, [undefined] or a Symbol; arrays and objects are outside this
    embedding. *)
Definition entry (str : value) : result Buffer :=
  match str with
  | VStr s =>
      let strBuf := utf8_bytes s in
      do lenBuf <- Varint.encode (Z.of_nat (length strBuf));
      OK (lenBuf ++ strBuf)
  | _ => Err (TypeError "Buffer.from: the first argument must be a string")
  end.

Definition encode (values : list value) : result Buffer :=
  let strings := values in
  let uniqueStrings := distinct strings in
  do sizeBuf <- Varint.encode (Z.of_nat (length uniqueStrings));
  do entries <- mapM entry uniqueStrings;
  do indices <-
    mapM Varint.encode (AdaptiveStringCodec.indices_of strings uniqueStrings);
  OK (Buffer_concat (sizeBuf :: entries ++ indices)).

(** [for (let i = 0; i < dictSize; i++)]: the dictionary strings;
    [buffer.slice] clamps to the end of the buffer. *)
Fixpoint read_dictionary (dictSize : nat) (buffer : Buffer) (offset : nat)
  : result (list value * nat) :=
  match dictSize with
  | O => OK ([], offset)
  | S n =>
      do (strLen, slRead) <- Varint.decode buffer offset;
      let offset := (offset + slRead)%nat in
      let strLen := Z.to_nat strLen in
      let str := utf8_string (Buffer_slice buffer offset (offset + strLen)) in
      do (rest, offset') <- read_dictionary n buffer (offset + strLen);
      OK (VStr str :: rest, offset')
  end.

(** [while (offset < buffer.length)]: one varint index per value;
    [dictionary[index]] past the end is [undefined]. *)
Fixpoint read_indices (fuel : nat) (buffer : Buffer) (offset : nat)
         (dictionary : list value) : result (list value) :=
  if (offset <? length buffer)%nat then
    match fuel with
    | O => OK []
    | S fuel' =>
        do (index, idxRead) <- Varint.decode buffer offset;
        do rest <- read_indices fuel' buffer (offset + idxRead) dictionary;
        OK (nth (Z.to_nat index) dictionary VUndefined :: rest)
    end
  else OK [].

Definition decode (buffer : Buffer) : result (list value) :=
  match buffer with
  | [] => OK []
  | _ =>
      do (dictSize, dsRead) <- Varint.decode buffer 0;
      do (dictionary, offset) <- read_dictionary (Z.to_nat dictSize) buffer dsRead;
      read_indices (length buffer) buffer offset dictionary
  end.

Definition codec : IFieldCodec :=
  {| codec_supports := fun type => FieldType_eqb type STRING;
     codec_encode := encode;
     codec_decode := decode |}.

End DictionaryStringCodec.

(** A well-formed string whose UTF-8 length fits 32 bits. *)
Definition storable_text (v : value) : bool :=
  match v with
  | VStr s => well_formed s && (Z.of_nat (length (utf8_bytes s)) <? 2 ^ 32)
  | _ => false
  end.

(** The bytes of a dictionary string: its varint length and UTF-8 form. *)
Definition dictionary_string (v : value) : Buffer :=
  match v with
  | VStr s => varint (Z.of_nat (length (utf8_bytes s))) ++ utf8_bytes s
  | _ => []
  end.

(** The bytes of a string in the plain string codec. *)
Definition string_part (s : string) : Buffer :=
  le_bytes 4 (Z.of_nat (length (utf8_bytes s))) ++ utf8_bytes s.

(** ** Columns the compressor accepts *)

Definition boolean_value (v : value) : bool :=
  match v with VBool _ => true | _ => false end.

(** A number that is an integer of magnitude below 2^53. *)
Definition safe_integer_value (v : value) : Prop :=
  exists z : Z, - 2 ^ 53 < z < 2 ^ 53 /\ v = VNum (Number_of_Z z).

(** [null], or a well-formed string that the profiler takes neither for a
    UUID nor for a date, and whose UTF-8 form is shorter than 255 bytes. *)
Definition plain_text (Date_parse : string -> option Z) (v : value) : bool :=
  match v with
  | VNull => true
  | VStr s =>
      well_formed s
      && (length (utf8_bytes s) <? 255)%nat
      && negb (FieldProfiler.uuidRegex_test s)
      && match Date_parse s with None => true | Some _ => false end
  | _ => false
  end.

(** ** Nested records *)

(** A name without a dot. *)
Definition dotless (key : string) : bool :=
  forallb (fun c => negb (Ascii.eqb c "."%char)) (list_ascii_of_string key).

(** A property name the flattener can join and split again: not empty,
    no dot, neither an array index nor inherited from [Object.prototype]. *)
Definition path_key (k : string) : bool :=
  negb (String.eqb k EmptyString)
  && forallb (fun c => negb (Ascii.eqb c "."%char)) (list_ascii_of_string k)
  && plain_name k.

Fixpoint distinct_keys (keys : list string) : bool :=
  match keys with
  | [] => true
  | k :: rest => negb (existsb (String.eqb k) rest) && distinct_keys rest
  end.

(** A value [unflatten] puts back where [flatten] found it: neither
    MISSING nor [undefined]; and when it is a plain object, one that is not
    empty, with distinct joinable keys and such values in turn.  Arrays are
    leaves, whatever they hold. *)
Fixpoint nested_value (v : value) : bool :=
  match v with
  | VMissing | VUndefined => false
  | VObj fields =>
      match fields with [] => false | _ :: _ => true end
      && distinct_keys (map fst fields)
      && forallb (fun kv => path_key (fst kv) && nested_value (snd kv)) fields
  | _ => true
  end.

(** A record of such values; the record itself may be empty. *)
Definition nested_record (r : JSObject) : bool :=
  distinct_keys (map fst r)
  && forallb (fun kv => path_key (fst kv) && nested_value (snd kv)) r.

(** The leaves below an object, depth first, each with its dotted path. *)
Fixpoint leaves_of (v : value) (parentPath : string) : JSObject :=
  match v with
  | VObj fields =>
      flat_map (fun kv =>
                  let path := ObjectFlattener.join_path parentPath (fst kv) in
                  match snd kv with
                  | VObj _ => leaves_of (snd kv) path
                  | w => [(path, w)]
                  end)
               fields
  | _ => []
  end.

(** The nesting depth of a value. *)
Fixpoint depth (v : value) : nat :=
  match v with
  | VObj fields => S (fold_right (fun kv d => Nat.max (depth (snd kv)) d) O fields)
  | _ => O
  end.

(** The keys of a dotted path; none for the empty path of the top level. *)
Definition path_parts (p : string) : list string :=
  if String.eqb p EmptyString then [] else split_dots p.

(** Nothing is stored at the key path [parts] of [record] yet: walking
    [parts] meets plain objects only and then a key that is not there. *)
Fixpoint absent (parts : list string) (record : JSObject) : Prop :=
  match parts with
  | [] => False
  | k :: rest =>
      match rest with
      | [] => obj_get record k = None
      | _ :: _ =>
          match obj_get record k with
          | None => True
          | Some (VObj inner) => absent rest inner
          | Some _ => False
          end
      end
  end.

(** * Verification *)

(** ** Integer operators *)

Ltac zconst :=
  cbv [to_int32 to_uint32] in *;
  change (2 ^ 32) with 4294967296 in *; change (2 ^ 31) with 2147483648 in *.
Ltac zlia := Z.to_euclidean_division_equations; lia.
Ltac splits := repeat match goal with |- _ /\ _ => split end.

Lemma to_int32_mod (z : Z) : to_int32 z mod 2 ^ 32 = z mod 2 ^ 32.
Proof.
  zconst. destruct (Z.ltb_spec (z mod 4294967296) 2147483648); zlia.
Qed.

Lemma to_int32_mod128 (z : Z) : to_int32 z mod 128 = z mod 128.
Proof.
  zconst. destruct (Z.ltb_spec (z mod 4294967296) 2147483648); zlia.
Qed.

Lemma to_int32_small (z : Z) : - 2 ^ 31 <= z < 2 ^ 31 -> to_int32 z = z.
Proof.
  zconst. intros H. destruct (Z.ltb_spec (z mod 4294967296) 2147483648); zlia.
Qed.

(** [byte & 0x7f] keeps the seven payload bits. *)
Lemma js_and_7f (b : Z) : js_and b 0x7f = b mod 128.
Proof.
  unfold js_and. rewrite (to_int32_small 127) by lia.
  change 127 with (Z.ones 7). rewrite Z.land_ones by lia.
  change (2 ^ 7) with 128. rewrite to_int32_mod128.
  apply to_int32_small. pose proof (Z.mod_pos_bound b 128). lia.
Qed.

(** The 32-bit view of [value | (group << shift)] when the group lands
    above the bits collected so far. *)
Lemma lor_shifted_group (v g s : Z) :
  0 <= s -> 0 <= v < 2 ^ s -> 0 <= g ->
  Z.lor v (g * 2 ^ s) = v + g * 2 ^ s.
Proof.
  intros Hs Hv Hg.
  rewrite <- Z.shiftl_mul_pow2 by lia.
  assert (D : Z.land v (Z.shiftl g s) = 0).
  { apply Z.bits_inj'. intros n Hn. rewrite Z.land_spec, Z.bits_0.
    destruct (Z_lt_le_dec n s).
    - rewrite Z.shiftl_spec_low by lia. apply andb_false_r.
    - replace v with (v mod 2 ^ s) by (apply Z.mod_small; lia).
      rewrite Z.mod_pow2_bits_high by lia. reflexivity. }
  rewrite <- Z.lxor_lor by exact D.
  symmetry. apply Z.add_nocarry_lxor. exact D.
Qed.

Lemma lor_mod_pow2 (a b n : Z) :
  0 <= n -> Z.lor a b mod 2 ^ n = Z.lor (a mod 2 ^ n) (b mod 2 ^ n).
Proof.
  intros Hn. rewrite <- !Z.land_ones by lia. apply Z.land_lor_distr_l.
Qed.

Lemma to_uint32_js_or (a b : Z) :
  to_uint32 (js_or a b) = Z.lor (to_uint32 a) (to_uint32 b).
Proof.
  unfold to_uint32, js_or. rewrite to_int32_mod, lor_mod_pow2 by lia.
  now rewrite !to_int32_mod.
Qed.

Lemma to_uint32_js_shl (g s : Z) :
  0 <= g < 128 -> 0 <= s < 32 ->
  to_uint32 (js_shl g s) = (g * 2 ^ s) mod 2 ^ 32.
Proof.
  intros Hg Hs. unfold to_uint32, js_shl.
  rewrite to_int32_mod, (Z.mod_small s 32) by lia.
  rewrite (to_int32_small g) by lia.
  now rewrite Z.shiftl_mul_pow2 by lia.
Qed.

(** One round of the decode loop, seen modulo [2^32]: the payload bits of
    the byte are added above the [shift] bits already collected. *)
Lemma decode_step_value (value byte shift : Z) :
  0 <= shift <= 28 ->
  0 <= to_uint32 value < 2 ^ shift ->
  to_uint32 (js_or value (js_shl (js_and byte 0x7f) shift))
  = (to_uint32 value + (byte mod 128) * 2 ^ shift) mod 2 ^ 32.
Proof.
  intros Hs Hv. rewrite js_and_7f.
  pose proof (Z.mod_pos_bound byte 128 ltac:(lia)) as Hg.
  rewrite to_uint32_js_or, to_uint32_js_shl by lia.
  set (g := byte mod 128) in *. set (v := to_uint32 value) in *.
  assert (P : 0 < 2 ^ shift) by (apply Z.pow_pos_nonneg; lia).
  assert (Q : 2 ^ 32 = 2 ^ shift * 2 ^ (32 - shift)).
  { rewrite <- Z.pow_add_r by lia. f_equal. lia. }
  assert (E : (g * 2 ^ shift) mod 2 ^ 32 = (g mod 2 ^ (32 - shift)) * 2 ^ shift).
  { rewrite Q, (Z.mul_comm g), Z.mul_mod_distr_l; lia. }
  rewrite E.
  rewrite lor_shifted_group by (try lia; apply Z.mod_pos_bound; lia).
  assert (R : 0 < 2 ^ (32 - shift)) by (apply Z.pow_pos_nonneg; lia).
  pose proof (Z.mod_pos_bound g (2 ^ (32 - shift)) R) as Hm.
  apply Z.mod_unique with (q := g / 2 ^ (32 - shift)).
  - left. split; [nia|]. rewrite Q. nia.
  - rewrite Q. rewrite (Z.div_mod g (2 ^ (32 - shift))) at 1 by lia. ring.
Qed.

(** ** Varint.decode *)

Lemma decode_loop_continue (byte : Z) (rest : Buffer) (value shift : Z) (n : nat) :
  Varint.continues byte = true ->
  Varint.decode_loop (byte :: rest) value shift n
  = if shift + 7 >? 35 then Err VarintOverflow
    else Varint.decode_loop rest
           (js_or value (js_shl (js_and byte 0x7f) shift)) (shift + 7) (S n).
Proof.
  unfold Varint.continues. intros H. cbn [Varint.decode_loop].
  destruct (js_and byte 128 =? 0); [discriminate | reflexivity].
Qed.

Lemma decode_loop_stop (byte : Z) (rest : Buffer) (value shift : Z) (n : nat) :
  Varint.continues byte = false ->
  Varint.decode_loop (byte :: rest) value shift n
  = OK (to_uint32 (js_or value (js_shl (js_and byte 0x7f) shift)), S n).
Proof.
  unfold Varint.continues. intros H. cbn [Varint.decode_loop].
  destruct (js_and byte 128 =? 0); [reflexivity | discriminate].
Qed.

(** Continuation bytes up to the shift bound and no terminator: overflow. *)
Lemma decode_loop_overflow (r : nat) :
  forall (bytes : Buffer) (value shift : Z) (n : nat),
    (1 <= r)%nat -> length (firstn r bytes) = r ->
    forallb Varint.continues (firstn r bytes) = true ->
    shift + 7 * Z.of_nat r > 35 ->
    Varint.decode_loop bytes value shift n = Err VarintOverflow.
Proof.
  induction r as [| r IH]; intros bytes value shift n Hr Hlen Hall Hs; [lia|].
  destruct bytes as [| byte rest]; [discriminate|].
  cbn [firstn forallb length] in Hlen, Hall.
  apply andb_true_iff in Hall as [Hb Hall].
  rewrite decode_loop_continue by exact Hb.
  destruct (Z.gtb_spec (shift + 7) 35) as [Hgt | Hle]; [reflexivity|].
  destruct r as [| r'].
  - lia.
  - apply IH; [lia | now injection Hlen | exact Hall | lia].
Qed.

(** The buffer ends while every byte read asked for one more. *)
Lemma decode_loop_truncated (bytes : Buffer) :
  forall (value shift : Z) (n : nat),
    forallb Varint.continues bytes = true ->
    shift + 7 * Z.of_nat (length bytes) <= 35 ->
    Varint.decode_loop bytes value shift n = Err (Truncated "varint").
Proof.
  induction bytes as [| byte rest IH]; intros value shift n Hall Hs; [reflexivity|].
  cbn [forallb length] in Hall, Hs.
  apply andb_true_iff in Hall as [Hb Hall].
  rewrite decode_loop_continue by exact Hb.
  destruct (Z.gtb_spec (shift + 7) 35) as [Hgt | Hle]; [lia|].
  apply IH; [exact Hall | lia].
Qed.

(** What a successful run of the loop returns. *)
Lemma decode_loop_ok (bytes : Buffer) :
  forall (value shift : Z) (n : nat) (v : Z) (k : nat),
    0 <= shift <= 35 ->
    Varint.decode_loop bytes value shift n = OK (v, k) ->
    exists (m : nat) (last : Z),
      k = (n + m)%nat /\ (1 <= m <= length bytes)%nat /\
      shift + 7 * Z.of_nat (m - 1) <= 35 /\
      forallb Varint.continues (firstn (m - 1) bytes) = true /\
      nth_error bytes (m - 1) = Some last /\ Varint.continues last = false /\
      0 <= v < 2 ^ 32 /\
      (shift + 7 * Z.of_nat (m - 1) <= 28 ->
       0 <= to_uint32 value < 2 ^ shift ->
       v = (to_uint32 value + Varint.payload_value (firstn m bytes) * 2 ^ shift)
             mod 2 ^ 32).
Proof.
  induction bytes as [| byte rest IH]; intros value shift n v k Hs H; [discriminate|].
  destruct (Varint.continues byte) eqn:Hb.
  - rewrite decode_loop_continue in H by exact Hb.
    destruct (Z.gtb_spec (shift + 7) 35) as [Hgt | Hle]; [discriminate|].
    apply IH in H; [|lia].
    destruct H as (m & last & Hk & Hm & Hsh & Hall & Hlast & Hstop & Hv & Hval).
    exists (S m), last.
    replace (S m - 1)%nat with (S (m - 1)) by lia.
    cbn [length firstn forallb nth_error]. rewrite Hb, Hall.
    splits; try lia; try assumption.
    intros Hs28 Hu.
    assert (P : 0 < 2 ^ shift) by (apply Z.pow_pos_nonneg; lia).
    assert (E : to_uint32 (js_or value (js_shl (js_and byte 127) shift))
                = to_uint32 value + (byte mod 128) * 2 ^ shift).
    { rewrite decode_step_value by lia.
      pose proof (Z.mod_pos_bound byte 128 ltac:(lia)).
      apply Z.mod_small.
      assert (2 ^ (shift + 7) <= 2 ^ 32) by (apply Z.pow_le_mono_r; lia).
      rewrite Z.pow_add_r in * by lia. change (2 ^ 7) with 128 in *. nia. }
    rewrite Hval.
    + rewrite E. f_equal. cbn [Varint.payload_value].
      rewrite Z.pow_add_r by lia. change (2 ^ 7) with 128. ring.
    + lia.
    + rewrite E. pose proof (Z.mod_pos_bound byte 128 ltac:(lia)).
      rewrite Z.pow_add_r by lia. change (2 ^ 7) with 128. nia.
  - rewrite decode_loop_stop in H by exact Hb.
    injection H as Hv Hk. exists 1%nat, byte.
    cbn [length firstn forallb nth_error Nat.sub].
    assert (Hr : 0 <= v < 2 ^ 32).
    { subst v. unfold to_uint32. apply Z.mod_pos_bound. lia. }
    splits; try lia; try assumption; try reflexivity.
    intros Hs28 Hu. subst v. rewrite decode_step_value by lia.
    cbn [Varint.payload_value]. f_equal. ring.
Qed.

(** C5 -- [Varint.decode] fails with [VarintOverflow] whenever six bytes
    are consumed and none of them is a terminator, fails with [Truncated]
    when the buffer ends before a terminator is met, and on success returns
    the decoded value with the number of bytes read: the bytes read are
    continuation bytes followed by one terminator, at most six in all, and
    for up to five bytes the value is the integer spelled by their payload
    groups, reduced to 32 bits. *)
Theorem Varint_decode_errors_and_result :
  (forall (buffer : Buffer) (offset : nat),
      (6 <= length (skipn offset buffer))%nat ->
      forallb Varint.continues (firstn 6 (skipn offset buffer)) = true ->
      Varint.decode buffer offset = Err VarintOverflow)
  /\ (forall (buffer : Buffer) (offset : nat),
      (length (skipn offset buffer) < 6)%nat ->
      forallb Varint.continues (skipn offset buffer) = true ->
      Varint.decode buffer offset = Err (Truncated "varint"))
  /\ (forall (buffer : Buffer) (offset : nat) (value : Z) (bytesRead : nat),
      Varint.decode buffer offset = OK (value, bytesRead) ->
      (1 <= bytesRead <= 6)%nat /\
      (offset + bytesRead <= length buffer)%nat /\
      forallb Varint.continues (firstn (bytesRead - 1) (skipn offset buffer)) = true /\
      (exists last, nth_error buffer (offset + (bytesRead - 1)) = Some last
                    /\ Varint.continues last = false) /\
      0 <= value < 2 ^ 32 /\
      ((bytesRead <= 5)%nat ->
       value = Varint.payload_value (firstn bytesRead (skipn offset buffer))
                 mod 2 ^ 32)).
Proof.
  split; [| split].
  - intros buffer offset Hlen Hall. unfold Varint.decode.
    apply decode_loop_overflow with (r := 6%nat); try lia; try assumption.
    rewrite length_firstn. lia.
  - intros buffer offset Hlen Hall. unfold Varint.decode.
    apply decode_loop_truncated; [assumption | lia].
  - intros buffer offset value bytesRead H. unfold Varint.decode in H.
    apply decode_loop_ok in H; [|lia].
    destruct H as (m & last & Hk & Hm & Hsh & Hall & Hlast & Hstop & Hv & Hval).
    cbn [Nat.add] in Hk. subst bytesRead.
    rewrite length_skipn in Hm.
    splits; try lia; try assumption.
    + exists last. split; [|assumption].
      rewrite nth_error_skipn in Hlast. exact Hlast.
    + intros H5. rewrite Hval; try lia.
      * f_equal. change (to_uint32 0) with 0. change (2 ^ 0) with 1. ring.
      * change (to_uint32 0) with 0. change (2 ^ 0) with 1. lia.
Qed.


(** ** Bitmaps *)

Lemma lor_byte_bound (a b : Z) : 0 <= a < 256 -> 0 <= b < 256 -> 0 <= Z.lor a b < 256.
Proof.
  intros Ha Hb. split; [apply Z.lor_nonneg; lia|].
  assert (E : Z.lor a b mod 2 ^ 8 = Z.lor a b).
  { rewrite lor_mod_pow2 by lia. now rewrite !Z.mod_small by (change (2 ^ 8) with 256; lia). }
  rewrite <- E. change 256 with (2 ^ 8). apply Z.mod_pos_bound. lia.
Qed.

(** [1 << k] for a bit offset inside a byte. *)
Lemma js_shl_one (k : Z) : 0 <= k < 8 -> js_shl 1 k = 2 ^ k.
Proof.
  intros Hk. assert (C : k = 0 \/ k = 1 \/ k = 2 \/ k = 3 \/ k = 4 \/ k = 5 \/ k = 6 \/ k = 7) by lia.
  repeat (destruct C as [-> | C]; [reflexivity|]). now subst k.
Qed.

Lemma pow2_lt_256 (k : Z) : 0 <= k < 8 -> 0 < 2 ^ k < 256.
Proof.
  intros Hk. split; [apply Z.pow_pos_nonneg; lia|].
  change 256 with (2 ^ 8). apply Z.pow_lt_mono_r; lia.
Qed.

Lemma js_or_bit (byte k : Z) :
  is_byte byte -> 0 <= k < 8 -> js_or byte (js_shl 1 k) = Z.lor byte (2 ^ k).
Proof.
  unfold is_byte. intros Hb Hk. rewrite js_shl_one by exact Hk.
  pose proof (pow2_lt_256 k Hk). unfold js_or.
  rewrite (to_int32_small byte), (to_int32_small (2 ^ k)) by lia.
  apply to_int32_small. pose proof (lor_byte_bound byte (2 ^ k)). lia.
Qed.

Lemma js_and_bit (byte k : Z) :
  is_byte byte -> 0 <= k < 8 ->
  negb (js_and byte (js_shl 1 k) =? 0) = Z.testbit byte k.
Proof.
  unfold is_byte. intros Hb Hk. rewrite js_shl_one by exact Hk.
  pose proof (pow2_lt_256 k Hk). unfold js_and.
  rewrite (to_int32_small byte), (to_int32_small (2 ^ k)) by lia.
  assert (L : 0 <= Z.land byte (2 ^ k) < 256).
  { split; [apply Z.land_nonneg; lia|].
    assert (E : Z.land byte (2 ^ k) mod 2 ^ 8 = Z.land byte (2 ^ k)).
    { rewrite <- Z.land_ones, <- Z.land_assoc, Z.land_ones by lia.
      now rewrite (Z.mod_small (2 ^ k)) by (change (2 ^ 8) with 256; lia). }
    rewrite <- E. change 256 with (2 ^ 8). apply Z.mod_pos_bound. lia. }
  rewrite to_int32_small by lia.
  destruct (Z.testbit byte k) eqn:T.
  - apply negb_true_iff, Z.eqb_neq. intros E.
    assert (F : Z.testbit (Z.land byte (2 ^ k)) k = true).
    { rewrite Z.land_spec, T, Z.pow2_bits_true by lia. reflexivity. }
    rewrite E, Z.bits_0 in F. discriminate.
  - apply negb_false_iff, Z.eqb_eq. apply Z.bits_inj'. intros m Hm.
    rewrite Z.land_spec, Z.bits_0, Z.pow2_bits_eqb by lia.
    destruct (Z.eqb_spec k m) as [-> | Hne]; [now rewrite T | apply andb_false_r].
Qed.

Lemma length_Buffer_set (buffer : Buffer) :
  forall (i : nat) (v : Z), length (Buffer_set buffer i v) = length buffer.
Proof.
  induction buffer as [| b rest IH]; intros [| i] v; cbn; auto.
Qed.

Lemma nth_Buffer_set (buffer : Buffer) :
  forall (i j : nat) (v : Z),
    (i < length buffer)%nat ->
    nth j (Buffer_set buffer i v) 0 = if (j =? i)%nat then v mod 256 else nth j buffer 0.
Proof.
  induction buffer as [| b rest IH]; intros i j v Hi; cbn in Hi; [lia|].
  destruct i as [| i], j as [| j]; cbn; try reflexivity.
  apply IH. lia.
Qed.

Lemma Forall_Buffer_set (buffer : Buffer) :
  forall (i : nat) (v : Z), Forall is_byte buffer -> Forall is_byte (Buffer_set buffer i v).
Proof.
  induction buffer as [| b rest IH]; intros i v H; [constructor|].
  inversion H; subst. destruct i as [| i]; cbn.
  - constructor; [|assumption]. unfold is_byte. apply Z.mod_pos_bound. lia.
  - constructor; [assumption | now apply IH].
Qed.

Lemma Forall_nth_byte (buffer : Buffer) (j : nat) :
  Forall is_byte buffer -> is_byte (nth j buffer 0).
Proof.
  intros H. destruct (Nat.lt_ge_cases j (length buffer)) as [Hj | Hj].
  - rewrite Forall_forall in H. apply H, nth_In, Hj.
  - rewrite nth_overflow by exact Hj. unfold is_byte. lia.
Qed.

Lemma mod8_bound (i : nat) : 0 <= Z.of_nat (i mod 8) < 8.
Proof. pose proof (Nat.mod_upper_bound i 8). lia. Qed.

Lemma index_split (i j : nat) :
  (j =? i)%nat = ((j / 8 =? i / 8)%nat && (j mod 8 =? i mod 8)%nat)%bool.
Proof.
  destruct (Nat.eqb_spec j i) as [-> | Hne].
  - now rewrite !Nat.eqb_refl.
  - symmetry. apply andb_false_iff.
    destruct (Nat.eqb_spec (j / 8) (i / 8)) as [Hd |]; [right | now left].
    apply Nat.eqb_neq. intros Hm. apply Hne.
    rewrite (Nat.div_mod_eq j 8), (Nat.div_mod_eq i 8). congruence.
Qed.

(** Setting bit [i] changes bit [i] and no other. *)
Lemma bitmap_bit_set_bit (bitmap : Buffer) (i j : nat) :
  Forall is_byte bitmap -> (i / 8 < length bitmap)%nat ->
  NullableCodecWrapper.bitmap_bit (NullableCodecWrapper.set_bit bitmap i) j
  = ((j =? i)%nat || NullableCodecWrapper.bitmap_bit bitmap j)%bool.
Proof.
  intros Hb Hi. unfold NullableCodecWrapper.bitmap_bit, NullableCodecWrapper.set_bit, Buffer_get.
  destruct (nth_error bitmap (i / 8)) as [byte |] eqn:E.
  2:{ apply nth_error_None in E. lia. }
  assert (Hbyte : is_byte byte).
  { rewrite Forall_forall in Hb. apply Hb. eapply nth_error_In, E. }
  rewrite (index_split i j). rewrite nth_Buffer_set by exact Hi.
  destruct (Nat.eqb_spec (j / 8) (i / 8)) as [Hd | Hd]; cbn [andb orb]; [|reflexivity].
  rewrite js_or_bit by (auto using mod8_bound).
  pose proof (mod8_bound i) as Hk. pose proof (mod8_bound j) as Hj.
  pose proof (lor_byte_bound byte (2 ^ Z.of_nat (i mod 8)) Hbyte) as Hl.
  pose proof (pow2_lt_256 _ Hk).
  rewrite Z.mod_small by lia.
  rewrite Z.lor_spec, Z.pow2_bits_eqb by lia.
  rewrite Hd. apply nth_error_nth with (d := 0) in E. rewrite E.
  rewrite orb_comm. f_equal.
  destruct (Nat.eqb_spec (j mod 8) (i mod 8)) as [-> | Hne].
  - apply Z.eqb_refl.
  - apply Z.eqb_neq. lia.
Qed.

Lemma length_set_bit (bitmap : Buffer) (i : nat) :
  length (NullableCodecWrapper.set_bit bitmap i) = length bitmap.
Proof.
  unfold NullableCodecWrapper.set_bit. destruct (Buffer_get bitmap (i / 8)); [|reflexivity].
  apply length_Buffer_set.
Qed.

Lemma Forall_set_bit (bitmap : Buffer) (i : nat) :
  Forall is_byte bitmap -> Forall is_byte (NullableCodecWrapper.set_bit bitmap i).
Proof.
  intros H. unfold NullableCodecWrapper.set_bit. destruct (Buffer_get bitmap (i / 8)); [|exact H].
  now apply Forall_Buffer_set.
Qed.

(** The test of [decode] reads the bit that [encode] writes. *)
Lemma bit_is_set_bitmap_bit (bitmap : Buffer) (i : nat) :
  Forall is_byte bitmap ->
  NullableCodecWrapper.bit_is_set bitmap i = NullableCodecWrapper.bitmap_bit bitmap i.
Proof.
  intros Hb. unfold NullableCodecWrapper.bit_is_set, NullableCodecWrapper.bitmap_bit, Buffer_get.
  destruct (nth_error bitmap (i / 8)) as [byte |] eqn:E.
  - assert (Hbyte : is_byte byte).
    { rewrite Forall_forall in Hb. apply Hb. eapply nth_error_In, E. }
    apply nth_error_nth with (d := 0) in E. rewrite E.
    apply js_and_bit; [exact Hbyte | apply mod8_bound].
  - apply nth_error_None in E. rewrite nth_overflow by exact E.
    now rewrite Z.bits_0.
Qed.


(** ** NullableCodecWrapper *)

Lemma ceil_div_8_bound (n : nat) : (n <= 8 * ceil_div n 8 < n + 8)%nat.
Proof.
  unfold ceil_div.
  pose proof (Nat.div_mod_eq (n + 8 - 1) 8).
  pose proof (Nat.mod_upper_bound (n + 8 - 1) 8). lia.
Qed.

Lemma bitmap_bit_alloc (n j : nat) :
  NullableCodecWrapper.bitmap_bit (Buffer_alloc n) j = false.
Proof.
  unfold NullableCodecWrapper.bitmap_bit, Buffer_alloc.
  replace (nth (j / 8) (repeat 0 n) 0) with 0; [apply Z.bits_0|].
  destruct (Nat.lt_ge_cases (j / 8) n).
  - symmetry. apply nth_repeat_lt. assumption.
  - symmetry. apply nth_overflow. now rewrite repeat_length.
Qed.

Lemma Forall_Buffer_alloc (n : nat) : Forall is_byte (Buffer_alloc n).
Proof.
  unfold Buffer_alloc. apply Forall_forall. intros x Hx.
  apply repeat_spec in Hx. subst x. unfold is_byte. lia.
Qed.

(** The loop of [encode] pushes the non-MISSING values in order and sets
    exactly the bits of their positions. *)
Lemma encode_loop_spec (values : list value) :
  forall (i : nat) (nonNulls : list value) (bitmap : Buffer),
    Forall is_byte bitmap ->
    (i + length values <= 8 * length bitmap)%nat ->
    let '(nn, bm) := NullableCodecWrapper.encode_loop values i nonNulls bitmap in
    nn = nonNulls ++ filter is_present values /\
    length bm = length bitmap /\ Forall is_byte bm /\
    forall j : nat,
      NullableCodecWrapper.bitmap_bit bm j
      = if ((i <=? j)%nat && (j <? i + length values)%nat)%bool
        then (is_present (nth (j - i) values VMissing)
              || NullableCodecWrapper.bitmap_bit bitmap j)%bool
        else NullableCodecWrapper.bitmap_bit bitmap j.
Proof.
  induction values as [| val rest IH]; intros i nonNulls bitmap Hb Hlen.
  - cbn [NullableCodecWrapper.encode_loop filter length].
    rewrite app_nil_r. splits; auto.
    intros j. destruct (i <=? j)%nat eqn:A, (j <? i + 0)%nat eqn:B; cbn [andb]; try reflexivity.
    apply Nat.leb_le in A. apply Nat.ltb_lt in B. lia.
  - cbn [NullableCodecWrapper.encode_loop filter length] in *.
    destruct (is_present val) eqn:P.
    + specialize (IH (S i) (nonNulls ++ [val]) (NullableCodecWrapper.set_bit bitmap i)).
      rewrite length_set_bit in IH.
      specialize (IH (Forall_set_bit _ _ Hb) ltac:(lia)).
      destruct (NullableCodecWrapper.encode_loop rest (S i) (nonNulls ++ [val])
                  (NullableCodecWrapper.set_bit bitmap i)) as [nn bm].
      destruct IH as (Hnn & Hl & Hf & Hbits).
      splits; auto.
      * rewrite Hnn, <- app_assoc. reflexivity.
      * intros j. rewrite Hbits.
        assert (Hi : (i / 8 < length bitmap)%nat).
        { apply Nat.Div0.div_lt_upper_bound. lia. }
        rewrite bitmap_bit_set_bit by assumption.
        destruct (Nat.eqb_spec j i) as [-> | Hne].
        -- replace (S i <=? i)%nat with false by (symmetry; apply Nat.leb_gt; lia).
           rewrite Nat.leb_refl. replace (i <? i + S (length rest))%nat with true
             by (symmetry; apply Nat.ltb_lt; lia).
           cbn [andb orb]. rewrite Nat.sub_diag. cbn. now rewrite P.
        -- cbn [orb].
           destruct (Nat.leb_spec (S i) j) as [A | A].
           ++ replace (i <=? j)%nat with true by (symmetry; apply Nat.leb_le; lia).
              replace (j <? i + S (length rest))%nat with (j <? S i + length rest)%nat
                by (f_equal; lia).
              destruct (j <? S i + length rest)%nat; cbn [andb]; [|reflexivity].
              replace (j - i)%nat with (S (j - S i)) by lia. reflexivity.
           ++ replace (i <=? j)%nat with false by (symmetry; apply Nat.leb_gt; lia).
              reflexivity.
    + specialize (IH (S i) nonNulls bitmap Hb ltac:(lia)).
      destruct (NullableCodecWrapper.encode_loop rest (S i) nonNulls bitmap) as [nn bm].
      destruct IH as (Hnn & Hl & Hf & Hbits).
      splits; auto.
      intros j. rewrite Hbits.
      destruct (Nat.eqb_spec j i) as [-> | Hne].
      * replace (S i <=? i)%nat with false by (symmetry; apply Nat.leb_gt; lia).
        rewrite Nat.leb_refl. replace (i <? i + S (length rest))%nat with true
          by (symmetry; apply Nat.ltb_lt; lia).
        cbn [andb]. rewrite Nat.sub_diag. cbn. now rewrite P.
      * destruct (Nat.leb_spec (S i) j) as [A | A].
        -- replace (i <=? j)%nat with true by (symmetry; apply Nat.leb_le; lia).
           replace (j <? i + S (length rest))%nat with (j <? S i + length rest)%nat
             by (f_equal; lia).
           destruct (j <? S i + length rest)%nat; cbn [andb]; [|reflexivity].
           replace (j - i)%nat with (S (j - S i)) by lia. reflexivity.
        -- replace (i <=? j)%nat with false by (symmetry; apply Nat.leb_gt; lia).
           reflexivity.
Qed.

(** The bits of an encoded bitmap, and its padding. *)
Lemma encode_bitmap_bits (values : list value) :
  let '(nn, bm) :=
    NullableCodecWrapper.encode_loop values 0 []
      (Buffer_alloc (ceil_div (length values) 8)) in
  nn = filter is_present values /\
  length bm = ceil_div (length values) 8 /\ Forall is_byte bm /\
  forall j : nat,
    NullableCodecWrapper.bitmap_bit bm j
    = ((j <? length values)%nat && is_present (nth j values VMissing))%bool.
Proof.
  pose proof (encode_loop_spec values 0 [] (Buffer_alloc (ceil_div (length values) 8))
                (Forall_Buffer_alloc _)) as H.
  unfold Buffer_alloc in H at 1. rewrite repeat_length in H.
  specialize (H ltac:(pose proof (ceil_div_8_bound (length values)); lia)).
  destruct (NullableCodecWrapper.encode_loop values 0 []
              (Buffer_alloc (ceil_div (length values) 8))) as [nn bm].
  destruct H as (Hnn & Hl & Hf & Hbits).
  splits; auto.
  - rewrite Hl. unfold Buffer_alloc. apply repeat_length.
  - intros j. rewrite Hbits, bitmap_bit_alloc. cbn [Nat.leb andb Nat.add].
    rewrite Nat.sub_0_r, orb_false_r. now destruct (j <? length values)%nat.
Qed.

Lemma count_set_filter (bitmap : Buffer) (n : nat) :
  forall i : nat,
    NullableCodecWrapper.count_set bitmap i n
    = length (filter (NullableCodecWrapper.bit_is_set bitmap) (seq i n)).
Proof.
  induction n as [| n IH]; intros i; [reflexivity|].
  cbn [NullableCodecWrapper.count_set seq filter]. rewrite IH.
  now destruct (NullableCodecWrapper.bit_is_set bitmap i).
Qed.

Lemma seq_add_map (a n : nat) : forall b : nat, seq (a + b) n = map (Nat.add a) (seq b n).
Proof.
  induction n as [| n IH]; intros b; [reflexivity|].
  cbn [seq map]. f_equal. rewrite <- IH. f_equal. lia.
Qed.

Lemma bitmap_bit_cons (b : Z) (rest : Buffer) (k : nat) :
  NullableCodecWrapper.bitmap_bit (b :: rest) (8 + k)
  = NullableCodecWrapper.bitmap_bit rest k.
Proof.
  unfold NullableCodecWrapper.bitmap_bit.
  replace ((8 + k) / 8)%nat with (S (k / 8)).
  - replace ((8 + k) mod 8)%nat with (k mod 8)%nat; [reflexivity|].
    replace (8 + k)%nat with (k + 1 * 8)%nat by lia. now rewrite Nat.Div0.mod_add.
  - replace (8 + k)%nat with (k + 1 * 8)%nat by lia. rewrite Nat.div_add by lia. lia.
Qed.

Lemma popcount_filter (bitmap : Buffer) :
  NullableCodecWrapper.popcount bitmap
  = length (filter (NullableCodecWrapper.bitmap_bit bitmap) (seq 0 (8 * length bitmap))).
Proof.
  induction bitmap as [| b rest IH]; [reflexivity|].
  cbn [NullableCodecWrapper.popcount fold_right length].
  fold (NullableCodecWrapper.popcount rest). rewrite IH.
  replace (8 * S (length rest))%nat with (8 + 8 * length rest)%nat by lia.
  rewrite seq_app, filter_app, length_app. f_equal.
  rewrite (seq_add_map 8 _ 0).
  clear IH. induction (seq 0 (8 * length rest)) as [| k ks IHk]; [reflexivity|].
  cbn [map filter]. rewrite bitmap_bit_cons.
  destruct (NullableCodecWrapper.bitmap_bit rest k); cbn [length]; now rewrite IHk.
Qed.

Lemma filter_map_comm {A B : Type} (f : B -> bool) (g : A -> B) (l : list A) :
  filter f (map g l) = map g (filter (fun x => f (g x)) l).
Proof.
  induction l as [| a l IH]; [reflexivity|].
  cbn [map filter]. destruct (f (g a)); cbn [map]; now rewrite IH.
Qed.

Lemma filter_nth_seq {A : Type} (p : A -> bool) (d : A) (l : list A) :
  length (filter (fun j => p (nth j l d)) (seq 0 (length l))) = length (filter p l).
Proof.
  induction l as [| a l IH]; [reflexivity|].
  cbn [length seq]. rewrite <- seq_shift.
  cbn [filter]. rewrite filter_map_comm. cbn [nth].
  destruct (p a); cbn [length]; rewrite length_map, IH; reflexivity.
Qed.

Lemma filter_all_false {A : Type} (p : A -> bool) (l : list A) :
  (forall x, In x l -> p x = false) -> filter p l = [].
Proof.
  induction l as [| a l IH]; intros H; [reflexivity|].
  cbn. rewrite (H a (or_introl eq_refl)). apply IH. intros x Hx. apply H. now right.
Qed.

(** Count of the bits of [bm] among the first [n], when [bm] marks the
    non-MISSING positions of [values]. *)
Lemma marked_bits_count (values : list value) (bm : Buffer) (f : nat -> bool) (m : nat) :
  (forall j, f j = ((j <? length values)%nat && is_present (nth j values VMissing))%bool) ->
  (length values <= m)%nat ->
  length (filter f (seq 0 m)) = length (filter is_present values).
Proof.
  intros Hf Hm.
  replace m with (length values + (m - length values))%nat by lia.
  rewrite seq_app, filter_app, length_app.
  rewrite (filter_all_false f (seq (0 + length values) _)).
  - cbn [length]. rewrite Nat.add_0_r. rewrite <- (filter_nth_seq is_present VMissing).
    f_equal. apply filter_ext_in. intros j Hj. apply in_seq in Hj.
    rewrite Hf. replace (j <? length values)%nat with true; [reflexivity|].
    symmetry. apply Nat.ltb_lt. lia.
  - intros j Hj. apply in_seq in Hj. rewrite Hf.
    replace (j <? length values)%nat with false; [reflexivity|].
    symmetry. apply Nat.ltb_ge. lia.
Qed.


Lemma length_le_bytes (k : nat) : forall v : Z, length (le_bytes k v) = k.
Proof. induction k as [| k IH]; intros v; cbn; [reflexivity | now rewrite IH]. Qed.

Lemma le_value_le_bytes (k : nat) :
  forall v : Z, 0 <= v < 256 ^ Z.of_nat k -> le_value (le_bytes k v) = v.
Proof.
  induction k as [| k IH]; intros v Hv.
  - cbn in *. lia.
  - cbn [le_bytes le_value]. rewrite IH.
    + zlia.
    + rewrite Nat2Z.inj_succ, Z.pow_succ_r in Hv by lia. zlia.
Qed.

Lemma Forall_le_bytes (k : nat) : forall v : Z, Forall is_byte (le_bytes k v).
Proof.
  induction k as [| k IH]; intros v; cbn; constructor; [|apply IH].
  unfold is_byte. apply Z.mod_pos_bound. lia.
Qed.

Section WrapperFacts.
Variable codec : IFieldCodec.

(** [decode] on a buffer laid out as [u32 rowCount | bitmap | payload] with
    a positive row count and a full bitmap. *)
Lemma wrapper_decode_layout (n : nat) (bitmap payload : Buffer) :
  (0 < n)%nat -> Z.of_nat n < 2 ^ 32 -> length bitmap = ceil_div n 8 ->
  NullableCodecWrapper.decode codec (le_bytes 4 (Z.of_nat n) ++ bitmap ++ payload)
  = (do decodedNonNulls <- codec.(codec_decode) payload;
     let expected := NullableCodecWrapper.count_set bitmap 0 n in
     if negb (expected =? length decodedNonNulls)%nat
     then Err (BitmapMismatch expected (length decodedNonNulls))
     else OK (NullableCodecWrapper.interleave bitmap 0 n decodedNonNulls)).
Proof.
  intros Hn H32 Hl. unfold NullableCodecWrapper.decode.
  assert (Hv : le_value (le_bytes 4 (Z.of_nat n)) = Z.of_nat n).
  { apply le_value_le_bytes. change (256 ^ Z.of_nat 4) with (2 ^ 32). lia. }
  pose proof (length_le_bytes 4 (Z.of_nat n)) as Hh.
  destruct (le_bytes 4 (Z.of_nat n)) as [| b0 [| b1 [| b2 [| b3 [| b4 tl]]]]];
    try discriminate Hh.
  assert (HL : length ([b0; b1; b2; b3] ++ bitmap ++ payload)
               = (4 + (length bitmap + length payload))%nat).
  { cbn [app length]. now rewrite length_app. }
  unfold readUInt32LE, Buffer_slice. rewrite HL.
  replace (4 + (length bitmap + length payload) <? 4)%nat with false
    by (symmetry; apply Nat.ltb_ge; lia).
  replace (0 + 4 <=? 4 + (length bitmap + length payload))%nat with true
    by (symmetry; apply Nat.leb_le; lia).
  replace (0 + 4 - 0)%nat with 4%nat by lia.
  cbn [app skipn firstn bind]. rewrite Hv.
  replace (Z.of_nat n =? 0) with false by (symmetry; apply Z.eqb_neq; lia).
  rewrite Nat2Z.id, <- Hl.
  replace (4 + (length bitmap + length payload) <? 4 + length bitmap)%nat with false
    by (symmetry; apply Nat.ltb_ge; lia).
  replace (4 + length bitmap - 4)%nat with (length bitmap) by lia.
  change (skipn (4 + length bitmap) (b0 :: b1 :: b2 :: b3 :: bitmap ++ payload))
    with (skipn (length bitmap) (bitmap ++ payload)).
  rewrite firstn_app, Nat.sub_diag, firstn_all. cbn [firstn].
  rewrite app_nil_r, skipn_app, Nat.sub_diag, skipn_all. cbn [skipn app].
  reflexivity.
Qed.

(** C2 (amended) -- for a column [C] of length [n] whose non-MISSING values
    the inner codec encodes to [payload], the wrapped encoding is the u32
    little-endian row count [n], then [ceil(n/8)] bitmap bytes in which bit
    [i] (least significant bit first) is set iff [C[i]] is not MISSING, so
    that the bitmap's popcount is the number of non-MISSING entries, then
    the payload; and when [n > 0], decoding that header and bitmap followed
    by any payload from which the inner codec decodes a different number of
    values fails with [BitmapMismatch]. *)
Theorem NullableCodecWrapper_layout_and_count_check
        (C : list value) (payload : Buffer) :
  Z.of_nat (length C) < 2 ^ 32 ->
  codec.(codec_encode) (filter is_present C) = OK payload ->
  exists bitmap : Buffer,
    NullableCodecWrapper.encode codec C
    = OK (le_bytes 4 (Z.of_nat (length C)) ++ bitmap ++ payload) /\
    le_value (le_bytes 4 (Z.of_nat (length C))) = Z.of_nat (length C) /\
    length bitmap = ceil_div (length C) 8 /\
    (forall i : nat, (i < length C)%nat ->
       NullableCodecWrapper.bitmap_bit bitmap i = is_present (nth i C VMissing)) /\
    NullableCodecWrapper.popcount bitmap = length (filter is_present C) /\
    (forall (payload' : Buffer) (decoded : list value),
       (0 < length C)%nat ->
       codec.(codec_decode) payload' = OK decoded ->
       length decoded <> NullableCodecWrapper.popcount bitmap ->
       NullableCodecWrapper.decode codec
         (le_bytes 4 (Z.of_nat (length C)) ++ bitmap ++ payload')
       = Err (BitmapMismatch (NullableCodecWrapper.popcount bitmap) (length decoded))).
Proof.
  intros H32 Henc.
  pose proof (encode_bitmap_bits C) as HB.
  unfold NullableCodecWrapper.encode.
  destruct (NullableCodecWrapper.encode_loop C 0 []
              (Buffer_alloc (ceil_div (length C) 8))) as [nn bm].
  destruct HB as (Hnn & Hl & Hf & Hbits).
  assert (Hpop : NullableCodecWrapper.popcount bm = length (filter is_present C)).
  { rewrite popcount_filter.
    apply marked_bits_count with (values := C); [exact bm | exact Hbits |].
    rewrite Hl. apply ceil_div_8_bound. }
  exists bm. subst nn. rewrite Henc. cbn [bind].
  unfold writeUInt32LE.
  replace ((0 <=? Z.of_nat (length C)) && (Z.of_nat (length C) <? 2 ^ 32))%bool with true.
  2:{ symmetry. apply andb_true_iff. split; [apply Z.leb_le | apply Z.ltb_lt]; lia. }
  cbn [bind Buffer_concat concat]. rewrite app_nil_r.
  splits; auto.
  - apply le_value_le_bytes. change (256 ^ Z.of_nat 4) with (2 ^ 32). lia.
  - intros i Hi. rewrite Hbits.
    replace (i <? length C)%nat with true by (symmetry; apply Nat.ltb_lt; lia).
    reflexivity.
  - intros payload' decoded Hpos Hdec Hne.
    rewrite wrapper_decode_layout by assumption.
    rewrite Hdec. cbn [bind].
    assert (Hcount : NullableCodecWrapper.count_set bm 0 (length C)
                     = NullableCodecWrapper.popcount bm).
    { rewrite Hpop, count_set_filter.
      apply marked_bits_count with (values := C); [exact bm | | lia].
      intros j. rewrite bit_is_set_bitmap_bit by exact Hf. apply Hbits. }
    rewrite Hcount.
    replace (NullableCodecWrapper.popcount bm =? length decoded)%nat with false.
    + reflexivity.
    + symmetry. apply Nat.eqb_neq. congruence.
Qed.

End WrapperFacts.


(** Witness of C2: the column [1, MISSING, 2] under the number codec. *)
Lemma NullableCodecWrapper_layout_witness :
  exists bitmap : Buffer,
    NullableCodecWrapper.encode NumberCodec.codec [VNum 1; VMissing; VNum 2]
    = OK (le_bytes 4 3 ++ bitmap ++ [1; 2; 4]) /\
    le_value (le_bytes 4 3) = 3 /\
    length bitmap = ceil_div 3 8 /\
    (forall i : nat, (i < 3)%nat ->
       NullableCodecWrapper.bitmap_bit bitmap i
       = is_present (nth i [VNum 1; VMissing; VNum 2] VMissing)) /\
    NullableCodecWrapper.popcount bitmap = 2%nat /\
    (forall (payload' : Buffer) (decoded : list value),
       (0 < 3)%nat ->
       NumberCodec.decode payload' = OK decoded ->
       length decoded <> NullableCodecWrapper.popcount bitmap ->
       NullableCodecWrapper.decode NumberCodec.codec (le_bytes 4 3 ++ bitmap ++ payload')
       = Err (BitmapMismatch (NullableCodecWrapper.popcount bitmap) (length decoded))).
Proof.
  apply (NullableCodecWrapper_layout_and_count_check NumberCodec.codec
           [VNum 1; VMissing; VNum 2] [1; 2; 4]).
  - vm_compute. reflexivity.
  - vm_compute. reflexivity.
Defined.

(** Counterexample to C2 as stated: for the empty column the bitmap is empty
    and its popcount is 0; the number codec decodes one value from the
    payload [01 02], yet the wrapped decode returns the empty list instead of
    failing, because a zero row count returns before the inner codec is
    asked. *)
Lemma NullableCodecWrapper_zero_rows_skip_count_check :
  NullableCodecWrapper.encode NumberCodec.codec [] = OK (le_bytes 4 0 ++ [] ++ [])
  /\ NullableCodecWrapper.popcount [] = 0%nat
  /\ NumberCodec.decode [1; 2] = OK [VNum 1]
  /\ NullableCodecWrapper.decode NumberCodec.codec (le_bytes 4 0 ++ [] ++ [1; 2]) = OK [].
Proof. vm_compute. repeat split; reflexivity. Qed.


(** ** TimestampCodec *)

Section TimestampFacts.
Variable Date_parse : string -> option Z.
Variable Date_toISOString : Z -> string.

(** C9 -- [TimestampCodec.decode] of any buffer shorter than eight bytes,
    a truncated base timestamp included, is the empty list and no error. *)
Theorem TimestampCodec_decode_short_buffer (buffer : Buffer) :
  (length buffer < 8)%nat ->
  TimestampCodec.decode Date_toISOString buffer = OK [].
Proof.
  intros H. unfold TimestampCodec.decode, TimestampCodec.decode_values.
  apply Nat.ltb_lt in H. rewrite H. reflexivity.
Qed.

End TimestampFacts.

(** Witness of C9: three bytes of a truncated base. *)
Lemma TimestampCodec_decode_short_buffer_witness :
  (length [1; 2; 3] < 8)%nat /\
  TimestampCodec.decode (fun _ => EmptyString) [1; 2; 3] = OK [].
Proof.
  split; [cbn; lia|].
  apply (TimestampCodec_decode_short_buffer (fun _ => EmptyString) [1; 2; 3]).
  cbn. lia.
Defined.

(** C7 -- the code at the failing input.  For the two valid time values
    -8640000000000000 and 8639999999999999 (the first and the last but one
    millisecond a Date can hold) the encoder writes the base and the exact
    deltas, but the decoder adds [Number(delta)] to the base in binary64:
    the odd delta 17279999999999999 is above [2^53] and rounds to
    17280000000000000, so the second decoded value is 8640000000000000. *)
Theorem TimestampCodec_delta_rounding :
  exists buffer : Buffer,
    TimestampCodec.encode_timestamps [Some (-8640000000000000); Some 8639999999999999]
    = OK buffer /\
    buffer = le_bytes 8 ((-8640000000000000) mod 2 ^ 64)
             ++ Varint.encodeBigInt 0 ++ Varint.encodeBigInt 17279999999999999 /\
    Varint.encodeBigInt 0 = [0] /\
    TimestampCodec.decode_values buffer
    = OK [(-8640000000000000)%float; 8640000000000000%float] /\
    TimeClip 8640000000000000%float = Some 8640000000000000 /\
    8640000000000000 <> 8639999999999999.
Proof.
  eexists. split; [vm_compute; reflexivity|].
  split; [vm_compute; reflexivity|].
  split; [vm_compute; reflexivity|].
  split; [vm_compute; reflexivity|].
  split; [vm_compute; reflexivity | lia].
Qed.


(** ** Unknown mode bytes *)

(** C8 -- the adaptive string codec rejects every unknown mode byte with
    [UnknownMode]; the number codec does not: its decoder reads every mode
    byte other than 0x01 and 0x02 as float mode, so the payload [07] decodes
    to the empty list and [07] followed by the eight bytes of 1.0 decodes to
    [1]. *)
Theorem adaptive_codecs_unknown_mode :
  (forall (mode : Z) (rest : Buffer),
      mode <> 0 -> mode <> 1 -> mode <> 2 ->
      AdaptiveStringCodec.decode (mode :: rest)
      = Err (UnknownMode "AdaptiveStringCodec" mode))
  /\ NumberCodec.decode [7] = OK []
  /\ NumberCodec.decode [7; 0; 0; 0; 0; 0; 0; 240; 63] = OK [VNum 1%float].
Proof.
  split; [| split; vm_compute; reflexivity].
  intros mode rest H0 H1 H2. unfold AdaptiveStringCodec.decode.
  apply Z.eqb_neq in H0, H1, H2. rewrite H0, H1, H2. reflexivity.
Qed.


(** ** EnumCodec *)

Lemma mapM_ok_Forall2 {A B : Type} (f : A -> result B) (l : list A) :
  forall bs : list B, mapM f l = OK bs -> Forall2 (fun a b => f a = OK b) l bs.
Proof.
  induction l as [| a l IH]; intros bs H; cbn in H.
  - injection H as <-. constructor.
  - destruct (f a) as [b | e] eqn:Ea; [|discriminate]. cbn in H.
    destruct (mapM f l) as [bs' | e] eqn:El; [|discriminate]. cbn in H.
    injection H as <-. constructor; [exact Ea | now apply IH].
Qed.

Lemma mapM_ok_In {A B : Type} (f : A -> result B) (l : list A) (bs : list B) (a : A) :
  mapM f l = OK bs -> In a l -> exists b, f a = OK b.
Proof.
  intros H Hin. apply mapM_ok_Forall2 in H.
  induction H as [| x y l' bs' Hxy _ IH]; [contradiction|].
  destruct Hin as [-> | Hin]; [now exists y | now apply IH].
Qed.

Lemma sameValueZero_refl_or_object (v : value) :
  sameValueZero v v = true \/ (exists items, v = VArr items) \/ (exists fields, v = VObj fields).
Proof.
  destruct v; cbn; try (now left); try (right; eauto; fail).
  - left. apply Bool.eqb_reflx.
  - left. unfold is_nan. now destruct (x =? x)%float.
  - left. apply String.eqb_refl.
Qed.

Lemma existsb_app_l {A : Type} (p : A -> bool) (l l' : list A) :
  existsb p l = true -> existsb p (l ++ l') = true.
Proof. intros H. rewrite existsb_app, H. reflexivity. Qed.

Lemma distinct_loop_keeps (values : list value) :
  forall (unique : list value) (v : value),
    existsb (sameValueZero v) unique = true ->
    existsb (sameValueZero v) (distinct_loop values unique) = true.
Proof.
  induction values as [| w rest IH]; intros unique v H; cbn; [exact H|].
  destruct (existsb (sameValueZero w) unique); apply IH; [exact H|].
  now apply existsb_app_l.
Qed.

Lemma distinct_loop_incl (values : list value) :
  forall (unique : list value) (u : value),
    In u unique -> In u (distinct_loop values unique).
Proof.
  induction values as [| w rest IH]; intros unique u H; cbn; [exact H|].
  destruct (existsb (sameValueZero w) unique); apply IH; [exact H|].
  apply in_or_app. now left.
Qed.

(** Every value of the column is found in the dictionary, or is an object
    that sits in the dictionary itself. *)
Lemma distinct_loop_covers (values : list value) :
  forall (unique : list value) (v : value),
    In v values ->
    existsb (sameValueZero v) (distinct_loop values unique) = true
    \/ In v (distinct_loop values unique).
Proof.
  induction values as [| w rest IH]; intros unique v Hin; [contradiction|].
  cbn. destruct Hin as [-> | Hin].
  - destruct (existsb (sameValueZero v) unique) eqn:E.
    + left. now apply distinct_loop_keeps.
    + right. apply distinct_loop_incl, in_or_app. right. now left.
  - destruct (existsb (sameValueZero w) unique); now apply IH.
Qed.

Lemma index_of_found (v : value) (unique : list value) :
  existsb (sameValueZero v) unique = true ->
  exists k, index_of v unique = Some k /\ 0 <= k < Z.of_nat (length unique).
Proof.
  induction unique as [| u rest IH]; intros H; [discriminate|].
  cbn [existsb index_of length] in *.
  destruct (sameValueZero v u).
  - exists 0. split; [reflexivity | lia].
  - cbn in H. destruct (IH H) as (k & -> & Hk). exists (k + 1). split; [reflexivity | lia].
Qed.

Lemma index_of_bound (v : value) (unique : list value) (k : Z) :
  index_of v unique = Some k -> 0 <= k < Z.of_nat (length unique).
Proof.
  revert k. induction unique as [| u rest IH]; intros k H; [discriminate|].
  cbn [index_of length] in *. destruct (sameValueZero v u).
  - injection H as <-. lia.
  - destruct (index_of v rest) as [j |]; [|discriminate].
    injection H as <-. specialize (IH j eq_refl). lia.
Qed.

(** When the dictionary entries can all be written, every value of the
    column has an index in the dictionary. *)
Lemma enum_index_exists (values : list value) (entries : list Buffer) (v : value) :
  mapM EnumCodec.dict_entry (distinct values) = OK entries ->
  In v values ->
  exists k, index_of v (distinct values) = Some k
            /\ 0 <= k < Z.of_nat (length (distinct values)).
Proof.
  intros Hent Hin.
  destruct (distinct_loop_covers values [] v Hin) as [H | H].
  - now apply index_of_found.
  - destruct (sameValueZero_refl_or_object v) as [R | [[items ->] | [fields ->]]].
    + apply index_of_found. apply existsb_exists. exists v. now split.
    + destruct (mapM_ok_In _ _ _ _ Hent H) as [b Hb]. discriminate Hb.
    + destruct (mapM_ok_In _ _ _ _ Hent H) as [b Hb]. discriminate Hb.
Qed.

Lemma Buffer_set_app (done tl : Buffer) (x v : Z) :
  Buffer_set (done ++ x :: tl) (length done) v = done ++ (v mod 256) :: tl.
Proof. induction done as [| d done IH]; cbn; [reflexivity | now rewrite IH]. Qed.

Lemma Buffer_get_app (done tl : Buffer) (x : Z) :
  Buffer_get (done ++ x :: tl) (length done) = Some x.
Proof. unfold Buffer_get. induction done as [| d done IH]; cbn; auto. Qed.

Lemma js_shl_4 (val : Z) : 0 <= val < 16 -> js_shl val 4 = 16 * val.
Proof.
  intros H. unfold js_shl. rewrite (to_int32_small val) by lia.
  change (4 mod 32) with 4. rewrite Z.shiftl_mul_pow2 by lia.
  change (2 ^ 4) with 16. rewrite to_int32_small by lia. ring.
Qed.

Lemma js_or_nibbles (hi lo : Z) :
  0 <= hi < 16 -> 0 <= lo < 16 -> js_or (16 * hi) lo = 16 * hi + lo.
Proof.
  intros Hh Hl. unfold js_or.
  rewrite (to_int32_small (16 * hi)), (to_int32_small lo) by lia.
  rewrite Z.lor_comm, (Z.mul_comm 16 hi). change 16 with (2 ^ 4).
  rewrite lor_shifted_group by (change (2 ^ 4) with 16; lia).
  rewrite to_int32_small by (change (2 ^ 4) with 16; lia). ring.
Qed.


Lemma ceil_div_2_SS (n : nat) : ceil_div (S (S n)) 2 = S (ceil_div n 2).
Proof.
  unfold ceil_div. replace (S (S n) + 2 - 1)%nat with ((n + 2 - 1) + 1 * 2)%nat by lia.
  rewrite Nat.div_add by lia. lia.
Qed.

(** The packing loop writes the nibbles two per byte, high nibble first. *)
Lemma pack_loop_spec (unique : list value) (n : nat) :
  forall (values : list value) (done : Buffer),
    (length values <= n)%nat ->
    Forall (fun v => 0 <= enum_index unique v < 16) values ->
    EnumCodec.pack_loop values unique (2 * length done)
      (done ++ Buffer_alloc (ceil_div (length values) 2))
    = done ++ EnumCodec.pack_nibbles (map (enum_index unique) values).
Proof.
  induction n as [| n IH]; intros values done Hn Hall.
  - destruct values; [|cbn in Hn; lia]. reflexivity.
  - destruct values as [| v1 [| v2 rest]]; [reflexivity | |].
    + cbn [length map EnumCodec.pack_nibbles EnumCodec.pack_loop].
      inversion Hall as [| ? ? H1 _]; subst.
      replace (Nat.even (2 * length done)) with true
        by (symmetry; apply Nat.even_spec; now exists (length done)).
      replace (2 * length done / 2)%nat with (length done)
        by (now rewrite Nat.mul_comm, Nat.div_mul).
      change (ceil_div 1 2) with 1%nat. cbn [Buffer_alloc repeat].
      rewrite Buffer_set_app. fold (enum_index unique v1).
      rewrite js_shl_4 by exact H1. now rewrite Z.mod_small by lia.
    + cbn [length map EnumCodec.pack_nibbles EnumCodec.pack_loop].
      inversion Hall as [| ? ? H1 Hall']; subst.
      inversion Hall' as [| ? ? H2 Hall'']; subst.
      replace (Nat.even (2 * length done)) with true
        by (symmetry; apply Nat.even_spec; now exists (length done)).
      replace (Nat.even (S (2 * length done))) with false.
      2:{ symmetry. rewrite Nat.even_succ, <- Nat.negb_even.
          apply negb_false_iff, Nat.even_spec. now exists (length done). }
      replace (2 * length done / 2)%nat with (length done)
        by (now rewrite Nat.mul_comm, Nat.div_mul).
      replace (S (2 * length done) / 2)%nat with (length done).
      2:{ replace (S (2 * length done)) with (1 + length done * 2)%nat by lia.
          now rewrite Nat.div_add by lia. }
      rewrite ceil_div_2_SS. cbn [Buffer_alloc repeat].
      rewrite Buffer_set_app, Buffer_get_app, Buffer_set_app.
      fold (enum_index unique v1). fold (enum_index unique v2).
      rewrite js_shl_4 by exact H1. rewrite (Z.mod_small (16 * _)) by lia.
      rewrite js_or_nibbles by assumption. rewrite Z.mod_small by lia.
      specialize (IH rest (done ++ [16 * enum_index unique v1 + enum_index unique v2])).
      rewrite length_app in IH. cbn [length] in IH.
      replace (S (S (2 * length done))) with (2 * (length done + 1))%nat by lia.
      rewrite <- app_assoc in IH. cbn [app] in IH. unfold Buffer_alloc in *.
      rewrite IH; [now rewrite <- app_assoc | cbn in Hn; lia | exact Hall''].
Qed.

(** Reading nibble [i] of the packed stream gives back index [i]; the low
    half after an odd number of indices is the zero padding. *)
Lemma nibble_pack_nibbles (n : nat) :
  forall (indices : list Z) (i : nat),
    (length indices <= n)%nat ->
    Forall (fun k => 0 <= k < 16) indices ->
    (i < length indices)%nat ->
    EnumCodec.nibble (EnumCodec.pack_nibbles indices) i = nth i indices 0.
Proof.
  induction n as [| n IH]; intros indices i Hn Hall Hi; [lia|].
  destruct indices as [| hi [| lo rest]]; [cbn in Hi; lia | |].
  - destruct i; [|cbn in Hi; lia].
    inversion Hall; subst. unfold EnumCodec.nibble.
    change (0 / 2)%nat with 0%nat. cbn [EnumCodec.pack_nibbles nth Nat.even]. zlia.
  - inversion Hall as [| ? ? Hh Hall']; subst.
    inversion Hall' as [| ? ? Hl Hall'']; subst.
    destruct i as [| [| i]].
    + unfold EnumCodec.nibble.
      change (0 / 2)%nat with 0%nat. cbn [EnumCodec.pack_nibbles nth Nat.even]. zlia.
    + unfold EnumCodec.nibble.
      change (1 / 2)%nat with 0%nat. cbn [EnumCodec.pack_nibbles nth Nat.even]. zlia.
    + cbn [EnumCodec.pack_nibbles nth].
      rewrite <- (IH rest i); [| cbn in Hn; lia | exact Hall'' | cbn in Hi; lia].
      unfold EnumCodec.nibble.
      replace (S (S i) / 2)%nat with (S (i / 2)).
      2:{ replace (S (S i)) with (i + 1 * 2)%nat by lia.
          rewrite Nat.div_add by lia. lia. }
      cbn [nth Nat.even]. reflexivity.
Qed.

Lemma length_pack_nibbles (n : nat) :
  forall indices : list Z,
    (length indices <= n)%nat ->
    length (EnumCodec.pack_nibbles indices) = ceil_div (length indices) 2.
Proof.
  induction n as [| n IH]; intros indices Hn.
  - destruct indices; [reflexivity | cbn in Hn; lia].
  - destruct indices as [| hi [| lo rest]]; [reflexivity | reflexivity |].
    cbn [EnumCodec.pack_nibbles length]. rewrite ceil_div_2_SS. f_equal.
    apply IH. cbn in Hn. lia.
Qed.


Lemma nibble_padding (n : nat) :
  forall indices : list Z,
    (length indices <= n)%nat ->
    Forall (fun k => 0 <= k < 16) indices ->
    Nat.odd (length indices) = true ->
    EnumCodec.nibble (EnumCodec.pack_nibbles indices) (length indices) = 0.
Proof.
  induction n as [| n IH]; intros indices Hn Hall Hodd.
  - destruct indices; [discriminate | cbn in Hn; lia].
  - destruct indices as [| hi [| lo rest]]; [discriminate | |].
    + inversion Hall; subst. unfold EnumCodec.nibble.
      change (length [hi] / 2)%nat with 0%nat.
      cbn [EnumCodec.pack_nibbles nth length Nat.even]. zlia.
    + inversion Hall as [| ? ? Hh Hall']; subst.
      inversion Hall' as [| ? ? Hl Hall'']; subst.
      cbn [length EnumCodec.pack_nibbles].
      rewrite <- (IH rest); [| cbn in Hn; lia | exact Hall'' | exact Hodd].
      unfold EnumCodec.nibble.
      replace (S (S (length rest)) / 2)%nat with (S (length rest / 2)).
      2:{ replace (S (S (length rest))) with (length rest + 1 * 2)%nat by lia.
          rewrite Nat.div_add by lia. lia. }
      cbn [nth Nat.even]. reflexivity.
Qed.

Lemma enum_index_bound (unique : list value) (v : value) :
  (length unique <= 16)%nat -> 0 <= enum_index unique v < 16.
Proof.
  intros H. unfold enum_index. destruct (index_of v unique) as [k |] eqn:E; [|lia].
  apply index_of_bound in E. lia.
Qed.

(** C6 (amended) -- when the column has at most sixteen distinct values,
    the enum codec writes, after the count prefix, the dictionary size and
    the dictionary entries, [ceil(count / 2)] bytes that hold the dictionary
    indices as 4-bit nibbles, two per byte and the high nibble first, with a
    zero low nibble after an odd count; for ["A","B","A","C","B"] the index
    bytes are the three bytes 0x01 0x02 0x10. *)
Theorem EnumCodec_nibble_packing :
  (forall (values : list value) (header : Buffer) (entries : list Buffer),
      values <> [] ->
      (length (distinct values) <= 16)%nat ->
      writeUInt32LE (Z.of_nat (length values)) = OK header ->
      mapM EnumCodec.dict_entry (distinct values) = OK entries ->
      exists packed : Buffer,
        EnumCodec.encode values
        = OK (header ++ [Z.of_nat (length (distinct values))]
                ++ Buffer_concat entries ++ packed) /\
        length packed = ceil_div (length values) 2 /\
        (forall i : nat, (i < length values)%nat ->
           index_of (nth i values VNull) (distinct values)
           = Some (EnumCodec.nibble packed i)) /\
        (Nat.odd (length values) = true ->
         EnumCodec.nibble packed (length values) = 0))
  /\ EnumCodec.encode (map VStr ["A"; "B"; "A"; "C"; "B"]%string)
     = OK ([5; 0; 0; 0] ++ [3] ++ [1; 65; 1; 66; 1; 67] ++ [0x01; 0x02; 0x10]).
Proof.
  split; [| vm_compute; reflexivity].
  intros values header entries Hne Huc Hhdr Hent.
  set (unique := distinct values) in *.
  assert (Hall : Forall (fun v => 0 <= enum_index unique v < 16) values).
  { apply Forall_forall. intros v _. now apply enum_index_bound. }
  assert (Hall' : Forall (fun k => 0 <= k < 16) (map (enum_index unique) values)).
  { apply Forall_forall. intros k Hk. apply in_map_iff in Hk as (v & <- & _).
    now apply enum_index_bound. }
  exists (EnumCodec.pack_nibbles (map (enum_index unique) values)).
  split; [| split; [| split]].
  - unfold EnumCodec.encode. rewrite Hhdr. cbn [bind].
    replace (length values =? 0)%nat with false.
    2:{ symmetry. apply Nat.eqb_neq. destruct values; [contradiction | discriminate]. }
    fold unique. rewrite Hent. cbn [bind].
    replace (16 <? length unique)%nat with false by (symmetry; apply Nat.ltb_ge; lia).
    pose proof (pack_loop_spec unique (length values) values [] (Nat.le_refl _) Hall) as P.
    cbn [length Nat.mul Nat.add app] in P. rewrite P.
    unfold Buffer_concat. cbn [app]. rewrite concat_cons, concat_cons, concat_app.
    cbn [concat]. rewrite app_nil_r.
    rewrite Z.mod_small by lia. reflexivity.
  - rewrite (length_pack_nibbles (length values)), length_map; [reflexivity|].
    rewrite length_map. lia.
  - intros i Hi.
    rewrite (nibble_pack_nibbles (length values)); try (rewrite length_map; lia); [| exact Hall'].
    destruct (enum_index_exists values entries (nth i values VNull) Hent) as (k & Hk & _).
    { now apply nth_In. }
    fold unique in Hk. rewrite Hk. f_equal.
    rewrite (nth_indep _ 0 (enum_index unique VNull)) by (rewrite length_map; lia).
    rewrite map_nth. unfold enum_index. now rewrite Hk.
  - intros Hodd. rewrite <- (length_map (enum_index unique) values).
    apply (nibble_padding (length values)); [rewrite length_map; lia | exact Hall' |].
    now rewrite length_map.
Qed.

(** Counterexample to C6 as stated: the five indices 0,1,0,2,1 fill three
    bytes, 0x01 0x02 0x10, not the two bytes 0x01 0x20. *)
Lemma EnumCodec_example_index_bytes :
  EnumCodec.encode (map VStr ["A"; "B"; "A"; "C"; "B"]%string)
  = OK ([5; 0; 0; 0] ++ [3] ++ [1; 65; 1; 66; 1; 67] ++ [0x01; 0x02; 0x10])
  /\ EnumCodec.encode (map VStr ["A"; "B"; "A"; "C"; "B"]%string)
     <> OK ([5; 0; 0; 0] ++ [3] ++ [1; 65; 1; 66; 1; 67] ++ [0x01; 0x20]).
Proof. split; [vm_compute; reflexivity | vm_compute; discriminate]. Qed.


(** ** UUIDCodec *)

(** A hexadecimal digit has a value below sixteen, and printing that value
    gives the digit back in lower case. *)
Lemma hex_value_digit (c : ascii) :
  UUIDCodec.is_hex c = true ->
  exists v : Z,
    UUIDCodec.hex_value c = Some v /\ 0 <= v < 16
    /\ UUIDCodec.hex_digit v = UUIDCodec.lower c.
Proof.
  unfold UUIDCodec.is_hex.
  destruct c as [[] [] [] [] [] [] [] []]; vm_compute; intros H;
    try discriminate H; eexists; (split; [reflexivity |]); vm_compute;
    (split; [split; [discriminate | reflexivity] | reflexivity]).
Qed.

Lemma hex_not_hyphen (c : ascii) :
  UUIDCodec.is_hex c = true -> Ascii.eqb c "-"%char = false.
Proof.
  unfold UUIDCodec.is_hex.
  destruct c as [[] [] [] [] [] [] [] []]; vm_compute; intros H;
    try discriminate H; reflexivity.
Qed.

(** One pair of digits makes one byte, and the byte prints as the pair in
    lower case. *)
Lemma hex_pair (a b : ascii) (rest : string) :
  UUIDCodec.is_hex a = true -> UUIDCodec.is_hex b = true ->
  exists byte : Z,
    UUIDCodec.hex_decode (String a (String b rest)) = byte :: UUIDCodec.hex_decode rest
    /\ forall tl : Buffer,
        UUIDCodec.hex_encode (byte :: tl)
        = String (UUIDCodec.lower a) (String (UUIDCodec.lower b) (UUIDCodec.hex_encode tl)).
Proof.
  intros Ha Hb.
  destruct (hex_value_digit a Ha) as (hi & Ehi & Hhi & Dhi).
  destruct (hex_value_digit b Hb) as (lo & Elo & Hlo & Dlo).
  exists (16 * hi + lo). split.
  - cbn [UUIDCodec.hex_decode]. now rewrite Ehi, Elo.
  - intros tl. cbn [UUIDCodec.hex_encode].
    replace ((16 * hi + lo) mod 256 / 16) with hi by zlia.
    replace ((16 * hi + lo) mod 16) with lo by zlia.
    now rewrite Dhi, Dlo.
Qed.

Lemma strip_hyphens_hex (c : ascii) (rest : string) :
  UUIDCodec.is_hex c = true ->
  UUIDCodec.strip_hyphens (String c rest) = String c (UUIDCodec.strip_hyphens rest).
Proof. intros H. cbn [UUIDCodec.strip_hyphens]. now rewrite hex_not_hyphen. Qed.

Lemma strip_hyphens_hyphen (rest : string) :
  UUIDCodec.strip_hyphens (String "-"%char rest) = UUIDCodec.strip_hyphens rest.
Proof. reflexivity. Qed.

Ltac split_andb H :=
  repeat match type of H with
         | (_ && _)%bool = true =>
             let H1 := fresh "Hc" in
             apply andb_true_iff in H; destruct H as [H H1]
         end.

Ltac hex_facts :=
  repeat match goal with
         | H : (UUIDCodec.is_hex _ && _)%bool = true |- _ =>
             let H1 := fresh "Hx" in
             apply andb_true_iff in H; destruct H as [H1 H]
         | H : true = true |- _ => clear H
         end.

(** C10 -- for every canonical hyphenated UUID text [u], in either case,
    decoding the encoding of [[u]] gives [[lowercase u]]; so the round trip
    gives [u] back exactly when [u] is already in lower case. *)
Theorem UUIDCodec_round_trip_lowercases (u : string) :
  UUIDCodec.canonical u = true ->
  (do buffer <- UUIDCodec.encode [VStr u]; UUIDCodec.decode buffer)
  = OK [VStr (UUIDCodec.lowercase u)]
  /\ ((do buffer <- UUIDCodec.encode [VStr u]; UUIDCodec.decode buffer) = OK [VStr u]
      <-> UUIDCodec.lowercase u = u).
Proof.
  intros Hcan.
  assert (Main : (do buffer <- UUIDCodec.encode [VStr u]; UUIDCodec.decode buffer)
                 = OK [VStr (UUIDCodec.lowercase u)]).
  2:{ split; [exact Main|]. rewrite Main. split.
      - intros E. now injection E.
      - intros ->. reflexivity. }
  unfold UUIDCodec.canonical in Hcan. split_andb Hcan.
  apply Nat.eqb_eq in Hcan.
  do 36 (destruct u as [| ?c u]; [discriminate Hcan|]).
  destruct u; [| discriminate Hcan]. clear Hcan.
  cbn [substring list_ascii_of_string nth] in *.
  unfold UUIDCodec.all_hex in *. cbn [list_ascii_of_string forallb] in *.
  repeat match goal with
         | H : Ascii.eqb _ "-"%char = true |- _ => apply Ascii.eqb_eq in H; subst
         end.
  hex_facts.
  unfold UUIDCodec.encode, UUIDCodec.encode_one. cbn [mapM bind].
  repeat first [ rewrite strip_hyphens_hyphen
               | rewrite strip_hyphens_hex by assumption ].
  change (UUIDCodec.strip_hyphens EmptyString) with EmptyString.
  repeat match goal with
         | Ha : UUIDCodec.is_hex ?a = true, Hb : UUIDCodec.is_hex ?b = true
           |- context [UUIDCodec.hex_decode (String ?a (String ?b ?rest))] =>
             let byte := fresh "byte" in
             let Ed := fresh "Ed" in
             let Ee := fresh "Ee" in
             destruct (hex_pair a b rest Ha Hb) as (byte & Ed & Ee);
             rewrite Ed; clear Ed
         end.
  cbn [UUIDCodec.hex_decode Buffer_concat concat app bind].
  unfold UUIDCodec.decode. cbn [length UUIDCodec.decode_loop firstn skipn].
  repeat match goal with
         | Ee : forall tl : Buffer, UUIDCodec.hex_encode (?byte :: tl) = _
           |- context [UUIDCodec.hex_encode (?byte :: ?tl)] =>
             rewrite (Ee tl)
         end.
  cbn [UUIDCodec.hex_encode]. reflexivity.
Qed.

(** Witness of C10: an upper-case UUID comes back in lower case. *)
Lemma UUIDCodec_round_trip_witness :
  (do buffer <- UUIDCodec.encode [VStr "123E4567-E89B-12D3-A456-426614174000"];
   UUIDCodec.decode buffer)
  = OK [VStr (UUIDCodec.lowercase "123E4567-E89B-12D3-A456-426614174000")]
  /\ ((do buffer <- UUIDCodec.encode [VStr "123E4567-E89B-12D3-A456-426614174000"];
       UUIDCodec.decode buffer)
      = OK [VStr "123E4567-E89B-12D3-A456-426614174000"]
      <-> UUIDCodec.lowercase "123E4567-E89B-12D3-A456-426614174000"
          = "123E4567-E89B-12D3-A456-426614174000"%string).
Proof.
  apply (UUIDCodec_round_trip_lowercases "123E4567-E89B-12D3-A456-426614174000").
  vm_compute. reflexivity.
Defined.


(** ** Binary64 facts *)

(** These lemmas read the primitive floats through their specification
    ([Prim2SF] and the laws that relate each primitive operation to its
    [SpecFloat] counterpart). *)

Lemma digits2_pos_log2 (p : positive) :
  Z.pos (digits2_pos p) = Z.log2 (Z.pos p) + 1.
Proof.
  induction p as [p IH | p IH |]; cbn [digits2_pos].
  - rewrite Pos2Z.inj_succ, IH.
    change (Z.pos p~1) with (2 * Z.pos p + 1). rewrite Z.log2_succ_double by lia. lia.
  - rewrite Pos2Z.inj_succ, IH.
    change (Z.pos p~0) with (2 * Z.pos p). rewrite Z.log2_double by lia. lia.
  - reflexivity.
Qed.

Lemma digits2_pos_bounds (p : positive) :
  2 ^ (Z.pos (digits2_pos p) - 1) <= Z.pos p < 2 ^ Z.pos (digits2_pos p).
Proof.
  rewrite digits2_pos_log2.
  replace (Z.log2 (Z.pos p) + 1 - 1) with (Z.log2 (Z.pos p)) by lia.
  pose proof (Z.log2_spec (Z.pos p) ltac:(lia)) as H.
  replace (Z.succ (Z.log2 (Z.pos p))) with (Z.log2 (Z.pos p) + 1) in H by lia. exact H.
Qed.

Lemma digits2_pos_le (p : positive) (n : Z) :
  0 <= n -> Z.pos p < 2 ^ n -> Z.pos (digits2_pos p) <= n.
Proof.
  intros Hn H. pose proof (digits2_pos_bounds p) as [L _].
  destruct (Z_lt_le_dec n (Z.pos (digits2_pos p))) as [C |]; [|lia].
  assert (2 ^ n <= 2 ^ (Z.pos (digits2_pos p) - 1)) by (apply Z.pow_le_mono_r; lia).
  lia.
Qed.

Lemma iter_xO_value (p n : positive) :
  Z.pos (Pos.iter xO p n) = Z.pos p * 2 ^ Z.pos n.
Proof.
  induction n as [| n IH] using Pos.peano_ind.
  - cbn. lia.
  - rewrite Pos.iter_succ, Pos2Z.inj_succ, Z.pow_succ_r by lia.
    change (Z.pos (Pos.iter xO p n)~0) with (2 * Z.pos (Pos.iter xO p n)).
    rewrite IH. ring.
Qed.

Lemma iter_xO_digits (p n : positive) :
  Z.pos (digits2_pos (Pos.iter xO p n)) = Z.pos (digits2_pos p) + Z.pos n.
Proof.
  induction n as [| n IH] using Pos.peano_ind.
  - cbn [Pos.iter digits2_pos]. lia.
  - rewrite Pos.iter_succ. cbn [digits2_pos]. rewrite !Pos2Z.inj_succ, IH. lia.
Qed.

(** A mantissa of full width with an exponent in range is already
    rounded. *)
Lemma binary_round_aux_canonical (s : bool) (m : positive) (e : Z) :
  Z.pos (digits2_pos m) = 53 -> -1074 <= e <= 971 ->
  binary_round_aux prec emax s (Z.pos m) e loc_Exact = S754_finite s m e.
Proof.
  intros Hd He.
  assert (F : fexp prec emax (Zdigits2 (Z.pos m) + e) - e = 0).
  { unfold fexp, emin, Zdigits2. rewrite Hd. change prec with 53. change emax with 1024. lia. }
  unfold binary_round_aux, shr_fexp.
  rewrite F. cbn [shr shr_record_of_loc shr_m loc_of_shr_record round_nearest_even].
  rewrite F. cbn [shr shr_record_of_loc shr_m].
  change (emax - prec) with 971.
  replace (e <=? 971) with true by (symmetry; apply Z.leb_le; lia). reflexivity.
Qed.

Lemma valid_binary_canonical (s : bool) (m : positive) (e : Z) :
  Z.pos (digits2_pos m) = 53 -> -1074 <= e <= 971 ->
  valid_binary (S754_finite s m e) = true.
Proof.
  intros Hd He. unfold valid_binary, bounded, canonical_mantissa, fexp, emin.
  rewrite Hd. change prec with 53. change emax with 1024.
  apply andb_true_iff. split; [apply Z.eqb_eq | apply Z.leb_le]; lia.
Qed.

(** The binary64 form of a positive integer below [2^53]: the integer
    itself, its mantissa shifted to full width. *)
Lemma binary_normalize_integer (p : positive) :
  Z.pos p < 2 ^ 53 ->
  exists (m : positive) (e : Z),
    binary_normalize prec emax (Z.pos p) 0 false = S754_finite false m e
    /\ valid_binary (S754_finite false m e) = true
    /\ -52 <= e <= 0 /\ Z.pos m = Z.pos p * 2 ^ (- e).
Proof.
  intros Hp. pose proof (digits2_pos_le p 53 ltac:(lia) Hp) as Hd.
  assert (Hd1 : 1 <= Z.pos (digits2_pos p)) by lia.
  unfold binary_normalize, binary_round.
  assert (F : fexp prec emax (Z.pos (digits2_pos p) + 0) = Z.pos (digits2_pos p) - 53).
  { unfold fexp, emin. change prec with 53. change emax with 1024. lia. }
  rewrite F. unfold shl_align.
  destruct (Z.pos (digits2_pos p) - 53 - 0) as [| k | k] eqn:K; try lia.
  - exists p, 0. assert (D : Z.pos (digits2_pos p) = 53) by lia.
    rewrite binary_round_aux_canonical, valid_binary_canonical by (try exact D; lia).
    repeat split; lia.
  - exists (Pos.iter xO p k), (Z.pos (digits2_pos p) - 53).
    assert (D : Z.pos (digits2_pos (Pos.iter xO p k)) = 53) by (rewrite iter_xO_digits; lia).
    rewrite binary_round_aux_canonical, valid_binary_canonical by (try exact D; lia).
    repeat split; try lia. rewrite iter_xO_value. f_equal. f_equal. lia.
Qed.

Lemma Prim2SF_Number_of_Z (p : positive) :
  Z.pos p < 2 ^ 53 ->
  exists (m : positive) (e : Z),
    Prim2SF (Number_of_Z (Z.pos p)) = S754_finite false m e
    /\ -52 <= e <= 0 /\ Z.pos m = Z.pos p * 2 ^ (- e).
Proof.
  intros Hp. destruct (binary_normalize_integer p Hp) as (m & e & E & V & He & Hm).
  exists m, e. unfold Number_of_Z. rewrite E, Prim2SF_SF2Prim by exact V. auto.
Qed.

Lemma integer_mantissa (m : positive) (e z : Z) :
  -52 <= e <= 0 -> Z.pos m = z * 2 ^ (- e) ->
  (if 0 <=? e then OK (Z.pos m * 2 ^ e)
   else if Z.pos m mod 2 ^ (- e) =? 0 then OK (Z.pos m / 2 ^ (- e))
        else Err (RangeError "BigInt of a non-integer")) = OK z.
Proof.
  intros He Hm. destruct (Z.leb_spec 0 e) as [H0 | H0].
  - assert (e = 0) by lia. subst e. cbn in *. f_equal. lia.
  - assert (P : 0 < 2 ^ (- e)) by (apply Z.pow_pos_nonneg; lia).
    rewrite Hm, Z_mod_mult, Z_div_mult by lia. reflexivity.
Qed.

Lemma OK_inj {A : Type} (a b : A) : OK a = OK b -> a = b.
Proof. intros H. now injection H. Qed.




(** ** NumberCodec.encode *)




Lemma mapM_total {A B : Type} (f : A -> result B) (l : list A) :
  (forall a, In a l -> exists b, f a = OK b) -> exists bs, mapM f l = OK bs.
Proof.
  induction l as [| a l IH]; intros H; [now exists []|].
  destruct (H a (or_introl eq_refl)) as [b Hb].
  destruct IH as [bs Hbs]; [intros x Hx; apply H; now right|].
  exists (b :: bs). cbn. now rewrite Hb, Hbs.
Qed.

Lemma mapM_map {A B C : Type} (g : A -> B) (f : B -> result C) (l : list A) :
  mapM f (map g l) = mapM (fun a => f (g a)) l.
Proof. induction l as [| a l IH]; cbn; [reflexivity | now rewrite IH]. Qed.

Lemma mapM_ext {A B : Type} (f g : A -> result B) (l : list A) :
  (forall a, f a = g a) -> mapM f l = mapM g l.
Proof. intros H. induction l as [| a l IH]; cbn; [reflexivity | now rewrite H, IH]. Qed.

Lemma mapM_bind_OK {A B C : Type} (f : A -> result B) (g : B -> C) (l : list A) :
  mapM (fun a => do b <- f a; OK (g b)) l = do bs <- mapM f l; OK (map g bs).
Proof.
  induction l as [| a l IH]; cbn; [reflexivity|].
  destruct (f a) as [b | e]; cbn; [|reflexivity].
  rewrite IH. now destruct (mapM f l).
Qed.

Lemma mapM_OK_id {A : Type} (l : list A) : mapM (fun a => OK a) l = OK l.
Proof. induction l as [| a l IH]; cbn; [reflexivity | now rewrite IH]. Qed.




Lemma bestScale_found (nums : list float) (s : Z) :
  NumberCodec.bestScale nums = Some s ->
  1 <= s <= 6 /\ NumberCodec.isFixedPoint nums s = true.
Proof.
  unfold NumberCodec.bestScale. intros H.
  pose proof (find_some _ _ H) as [Hin Hfix]. split; [|exact Hfix].
  cbn in Hin. lia.
Qed.

Lemma forallb_isIntegerValue (xs : list float) :
  forallb NumberCodec.isIntegerValue (map VNum xs) = forallb Number_isInteger xs.
Proof. induction xs as [| x xs IH]; cbn; [reflexivity | now rewrite IH]. Qed.


Section NumberModes.
Variable xs : list float.
Hypothesis nonempty : xs <> [].

Lemma encode_integer_mode (ints : list Z) :
  forallb Number_isInteger xs = true -> mapM BigInt xs = OK ints ->
  NumberCodec.encode (map VNum xs) = OK (0x01 :: flat_map Varint.encodeBigInt ints).
Proof.
  intros Hint Hb. unfold NumberCodec.encode.
  destruct xs as [| x0 xs'] eqn:Exs; [contradiction|]. rewrite <- Exs in *.
  destruct (map VNum xs) eqn:Em; [subst xs; discriminate|]. rewrite <- Em.
  rewrite forallb_isIntegerValue, Hint, mapM_map.
  cbn [NumberCodec.ToNumber bind].
  rewrite (mapM_bind_OK BigInt Varint.encodeBigInt), Hb. cbn [bind].
  unfold Buffer_concat. cbn [concat app]. now rewrite flat_map_concat_map.
Qed.

Lemma encode_not_integer :
  forallb Number_isInteger xs = false ->
  NumberCodec.encode (map VNum xs)
  = match NumberCodec.bestScale xs with
    | Some scale =>
        do body <- mapM (fun n => do z <- BigInt (Math_round (n * Math_pow10 scale));
                                  OK (Varint.encodeBigInt z)) xs;
        OK (Buffer_concat ([0x02] :: [scale mod 256] :: body))
    | None => OK (0x00 :: flat_map writeDoubleLE xs)
    end.
Proof.
  intros Hint. unfold NumberCodec.encode.
  destruct xs as [| x0 xs'] eqn:Exs; [contradiction|]. rewrite <- Exs in *.
  destruct (map VNum xs) eqn:Em; [subst xs; discriminate|]. rewrite <- Em.
  rewrite forallb_isIntegerValue, Hint, mapM_map.
  cbn [NumberCodec.ToNumber]. rewrite mapM_OK_id. reflexivity.
Qed.


End NumberModes.


(** ** Objects, key sets and columns *)

Lemma obj_get_None {A : Type} (o : list (string * A)) (key : string) :
  obj_get o key = None <-> ~ In key (obj_keys o).
Proof.
  induction o as [| [k v] o IH]; cbn.
  - tauto.
  - destruct (String.eqb_spec k key) as [-> | N].
    + split; [discriminate | tauto].
    + rewrite IH. tauto.
Qed.

Lemma obj_get_Some_In {A : Type} (o : list (string * A)) (key : string) (v : A) :
  obj_get o key = Some v -> In (key, v) o.
Proof.
  induction o as [| [k w] o IH]; cbn; [discriminate|].
  destruct (String.eqb_spec k key) as [-> | N].
  - intros [= ->]. now left.
  - intros H. right. now apply IH.
Qed.

Lemma obj_get_In {A : Type} (o : list (string * A)) (key : string) (v : A) :
  NoDup (obj_keys o) -> In (key, v) o -> obj_get o key = Some v.
Proof.
  induction o as [| [k w] o IH]; cbn; [tauto|].
  intros D [E | I].
  - injection E as -> ->. now rewrite String.eqb_refl.
  - inversion D as [| ? ? N D']; subst.
    destruct (String.eqb_spec k key) as [-> | _].
    + exfalso. apply N. change key with (fst (key, v)). now apply in_map.
    + now apply IH.
Qed.

Lemma obj_put_fresh {A : Type} (o : list (string * A)) (key : string) (v : A) :
  ~ In key (obj_keys o) -> obj_put o key v = o ++ [(key, v)].
Proof.
  induction o as [| [k w] o IH]; cbn; [reflexivity|].
  intros N. destruct (String.eqb_spec k key) as [-> | _]; [tauto|].
  rewrite IH; tauto.
Qed.

(** *** Ordinary names *)

Lemma plain_name_spec (key : string) :
  plain_name key = true ->
  inherited key = false /\ array_index key = None /\ key <> "__proto__"%string.
Proof.
  unfold plain_name. intros H. apply andb_prop in H. destruct H as [I X].
  apply negb_true_iff in I. split; [exact I |]. split.
  - now destruct (array_index key).
  - intros ->. discriminate I.
Qed.

Lemma obj_set_put {A : Type} (o : list (string * A)) (key : string) (v : A) :
  array_index key = None -> obj_set o key v = obj_put o key v.
Proof. unfold obj_set. now intros ->. Qed.

Lemma obj_set_plain {A : Type} (o : list (string * A)) (key : string) (v : A) :
  plain_name key = true -> obj_set o key v = obj_put o key v.
Proof. intros P. apply obj_set_put. now apply plain_name_spec. Qed.

Lemma obj_set_fresh {A : Type} (o : list (string * A)) (key : string) (v : A) :
  plain_name key = true ->
  ~ In key (obj_keys o) -> obj_set o key v = o ++ [(key, v)].
Proof. intros P N. rewrite obj_set_plain by exact P. now apply obj_put_fresh. Qed.

Lemma assign_plain (o : JSObject) (key : string) (v : value) :
  plain_name key = true -> assign o key v = OK (obj_put o key v).
Proof.
  intros P. unfold assign. destruct (plain_name_spec key P) as (_ & _ & N).
  apply String.eqb_neq in N. rewrite N. cbn [andb].
  now rewrite obj_set_plain.
Qed.

Lemma key_in_plain {A : Type} (o : list (string * A)) (key : string) :
  plain_name key = true -> key_in o key = obj_has o key.
Proof.
  intros P. unfold key_in. destruct (plain_name_spec key P) as (I & _ & _).
  rewrite I. apply orb_false_r.
Qed.

Lemma obj_keys_map {A : Type} (g : string -> A) (keys : list string) :
  obj_keys (map (fun k => (k, g k)) keys) = keys.
Proof. unfold obj_keys. rewrite map_map. cbn. apply map_id. Qed.

Lemma obj_get_map {A : Type} (g : string -> A) (keys : list string) (key : string) :
  obj_get (map (fun k => (k, g k)) keys) key
  = if existsb (String.eqb key) keys then Some (g key) else None.
Proof.
  induction keys as [| k keys IH]; cbn; [reflexivity|].
  rewrite (String.eqb_sym key k).
  destruct (String.eqb_spec k key) as [-> | _]; [reflexivity | exact IH].
Qed.

Lemma existsb_eqb_In (key : string) (keys : list string) :
  existsb (String.eqb key) keys = true <-> In key keys.
Proof.
  rewrite existsb_exists. split.
  - intros [k [I E]]. apply String.eqb_eq in E. now subst.
  - intros I. exists key. split; [exact I | apply String.eqb_refl].
Qed.

Lemma existsb_eqb_false (key : string) (keys : list string) :
  existsb (String.eqb key) keys = false <-> ~ In key keys.
Proof.
  rewrite <- existsb_eqb_In. destruct (existsb _ keys); split; congruence.
Qed.

Lemma obj_get_map_In {A : Type} (g : string -> A) (keys : list string) (key : string) :
  In key keys -> obj_get (map (fun k => (k, g k)) keys) key = Some (g key).
Proof.
  intros I. rewrite obj_get_map.
  now rewrite (proj2 (existsb_eqb_In key keys) I).
Qed.

(** Assigning fresh keys one after the other appends them in order. *)
Lemma fold_obj_put_fresh {A : Type} (g : string -> A) (keys : list string) :
  forall acc : list (string * A),
    NoDup keys -> (forall k, In k keys -> ~ In k (obj_keys acc)) ->
    fold_left (fun o key => obj_put o key (g key)) keys acc
    = acc ++ map (fun k => (k, g k)) keys.
Proof.
  induction keys as [| k keys IH]; intros acc D F; cbn.
  - now rewrite app_nil_r.
  - inversion D as [| ? ? N D']; subst.
    rewrite obj_put_fresh by (apply F; now left).
    rewrite IH; [now rewrite <- app_assoc | exact D' |].
    intros k' I. unfold obj_keys. rewrite map_app, in_app_iff. cbn.
    intros [I' | [E | []]].
    + apply (F k'); [now right | exact I'].
    + subst. tauto.
Qed.

(** *** The key set of a batch *)

Lemma set_add_In (keys : list string) (key k : string) :
  In k (set_add keys key) <-> In k keys \/ k = key.
Proof.
  unfold set_add. destruct (existsb (String.eqb key) keys) eqn:E.
  - apply existsb_eqb_In in E. split; [tauto | intros [I | ->]; assumption].
  - rewrite in_app_iff. cbn. split; intros H; intuition (subst; auto).
Qed.

Lemma set_add_NoDup (keys : list string) (key : string) :
  NoDup keys -> NoDup (set_add keys key).
Proof.
  intros D. unfold set_add. destruct (existsb (String.eqb key) keys) eqn:E.
  - exact D.
  - apply existsb_eqb_false in E.
    apply NoDup_app; [exact D | constructor; [tauto | constructor] |].
    intros k I [<- | []]. tauto.
Qed.

Lemma fold_set_add_In (l : list string) :
  forall (keys : list string) (k : string),
    In k (fold_left set_add l keys) <-> In k keys \/ In k l.
Proof.
  induction l as [| a l IH]; intros keys k; cbn.
  - tauto.
  - rewrite IH, set_add_In. split; intros H; intuition (subst; auto).
Qed.

Lemma fold_set_add_NoDup (l : list string) :
  forall keys : list string, NoDup keys -> NoDup (fold_left set_add l keys).
Proof.
  induction l as [| a l IH]; intros keys D; cbn; [exact D|].
  apply IH. now apply set_add_NoDup.
Qed.

Lemma fold_set_add_fresh (l : list string) :
  forall keys : list string,
    NoDup l -> (forall k, In k l -> ~ In k keys) ->
    fold_left set_add l keys = keys ++ l.
Proof.
  induction l as [| a l IH]; intros keys D F; cbn.
  - now rewrite app_nil_r.
  - inversion D as [| ? ? N D']; subst.
    unfold set_add at 2.
    rewrite (proj2 (existsb_eqb_false a keys)) by (apply F; now left).
    rewrite IH; [now rewrite <- app_assoc | exact D' |].
    intros k I. rewrite in_app_iff. cbn. intros [I' | [E | []]].
    + apply (F k); [now right | exact I'].
    + subst. tauto.
Qed.

Lemma fold_set_add_known (l : list string) :
  forall keys : list string, incl l keys -> fold_left set_add l keys = keys.
Proof.
  induction l as [| a l IH]; intros keys I; cbn; [reflexivity|].
  unfold set_add at 2.
  rewrite (proj2 (existsb_eqb_In a keys)) by (apply I; now left).
  apply IH. intros k K. apply I. now right.
Qed.

Lemma all_keys_In (records : list JSObject) :
  forall (keys : list string) (k : string),
    In k (fold_left (fun keys r => fold_left set_add (obj_keys r) keys) records keys)
    <-> In k keys \/ exists r, In r records /\ In k (obj_keys r).
Proof.
  induction records as [| r records IH]; intros keys k; cbn.
  - split; [tauto | intros [I | [r [[] _]]]; exact I].
  - rewrite IH, fold_set_add_In. split.
    + intros [[I | I] | [r' [I K]]]; eauto.
    + intros [I | [r' [[<- | I] K]]]; eauto.
Qed.

Lemma all_keys_NoDup (records : list JSObject) :
  forall keys : list string,
    NoDup keys ->
    NoDup (fold_left (fun keys r => fold_left set_add (obj_keys r) keys) records keys).
Proof.
  induction records as [| r records IH]; intros keys D; cbn; [exact D|].
  apply IH. now apply fold_set_add_NoDup.
Qed.

Lemma sort_insert_In (key : string) (sorted : list string) (k : string) :
  In k (sort_insert key sorted) <-> k = key \/ In k sorted.
Proof.
  induction sorted as [| a sorted IH]; cbn.
  - split; intros [E | E]; auto.
  - destruct (string_leb key a); cbn; [| rewrite IH]; split; intros H;
      intuition (subst; auto).
Qed.

Lemma sort_insert_NoDup (key : string) (sorted : list string) :
  NoDup sorted -> ~ In key sorted -> NoDup (sort_insert key sorted).
Proof.
  induction sorted as [| a sorted IH]; cbn; intros D N.
  - constructor; [tauto | constructor].
  - destruct (string_leb key a).
    + constructor; [cbn; tauto | exact D].
    + inversion D as [| ? ? Na D']; subst. constructor.
      * rewrite sort_insert_In. intros [E | I]; [subst; tauto | tauto].
      * apply IH; tauto.
Qed.

Lemma sort_strings_In (keys : list string) (k : string) :
  In k (sort_strings keys) <-> In k keys.
Proof.
  induction keys as [| a keys IH]; cbn; [tauto|].
  rewrite sort_insert_In, IH. split; intros [E | I]; auto.
Qed.

Lemma sort_strings_NoDup (keys : list string) :
  NoDup keys -> NoDup (sort_strings keys).
Proof.
  induction keys as [| a keys IH]; cbn; intros D; [constructor|].
  inversion D as [| ? ? N D']; subst.
  apply sort_insert_NoDup; [now apply IH | now rewrite sort_strings_In].
Qed.

Lemma sorted_keys_NoDup (records : list JSObject) : NoDup (sorted_keys records).
Proof. apply sort_strings_NoDup, all_keys_NoDup. constructor. Qed.

Lemma sorted_keys_In (records : list JSObject) (k : string) :
  In k (sorted_keys records) <-> exists r, In r records /\ In k (obj_keys r).
Proof.
  unfold sorted_keys. rewrite sort_strings_In, all_keys_In. cbn. tauto.
Qed.

(** *** The order of the sorted keys *)

Lemma units_leb_total (a b : list Z) :
  units_leb a b = false -> units_leb b a = true.
Proof.
  revert b. induction a as [| x a IH]; intros [| y b]; cbn; try discriminate;
    [reflexivity |].
  destruct (Z.ltb_spec x y) as [L | L]; [discriminate |].
  destruct (Z.ltb_spec y x) as [G | G]; [reflexivity |].
  apply IH.
Qed.

Lemma string_leb_total (a b : string) :
  string_leb a b = false -> string_leb b a = true.
Proof. apply units_leb_total. Qed.

Lemma sort_insert_ascending (key : string) (sorted : list string) :
  ascending sorted = true -> ascending (sort_insert key sorted) = true.
Proof.
  induction sorted as [| a sorted IH]; intros S; [reflexivity |].
  cbn [sort_insert]. destruct (string_leb key a) eqn:L.
  - cbn [ascending]. cbn [ascending] in S. now rewrite L.
  - apply string_leb_total in L.
    assert (S' : ascending sorted = true).
    { cbn [ascending] in S. destruct sorted; [reflexivity |].
      now apply andb_prop in S. }
    specialize (IH S').
    destruct sorted as [| b sorted].
    + cbn. now rewrite L.
    + cbn [sort_insert] in *. cbn [ascending] in S.
      apply andb_prop in S. destruct S as [Sab _].
      destruct (string_leb key b).
      * cbn [ascending] in *. now rewrite L.
      * cbn [ascending] in *. now rewrite Sab.
Qed.

Lemma sort_strings_ascending (keys : list string) :
  ascending (sort_strings keys) = true.
Proof.
  induction keys as [| k keys IH]; [reflexivity |].
  cbn [sort_strings fold_right]. now apply sort_insert_ascending.
Qed.

Lemma mapM_OK_map {A B : Type} (f : A -> result B) (g : A -> B) (l : list A) :
  (forall a, In a l -> f a = OK (g a)) -> mapM f l = OK (map g l).
Proof.
  induction l as [| a l IH]; intros H; cbn; [reflexivity |].
  rewrite (H a) by now left. cbn. rewrite IH; [reflexivity |].
  intros b I. apply H. now right.
Qed.

(** *** UTF-8, written and read *)

Lemma string_bytes_round (s : string) : bytes_string (string_bytes s) = s.
Proof.
  unfold bytes_string, string_bytes. rewrite map_map.
  rewrite <- (string_of_list_ascii_of_string s) at 2. f_equal.
  rewrite <- (map_id (list_ascii_of_string s)) at 2.
  apply map_ext. intros c.
  pose proof (N_ascii_bounded c) as B.
  rewrite Z.mod_small by lia. rewrite N2Z.id. apply ascii_N_embedding.
Qed.

Lemma Forall_string_bytes (s : string) : Forall is_byte (string_bytes s).
Proof.
  unfold string_bytes. apply Forall_forall. intros b I. apply in_map_iff in I.
  destruct I as [c [<- _]]. pose proof (N_ascii_bounded c). unfold is_byte. lia.
Qed.

(** The shape of well-formed UTF-8: sequences of one to four bytes. *)
Lemma well_formed_bytes_ind (P : Buffer -> Prop) :
  P [] ->
  (forall b1 rest, (b1 <? 0x80) = true -> P rest -> P (b1 :: rest)) ->
  (forall b1 b2 rest,
     (b1 <? 0x80) = false -> between 0xC2 0xDF b1 = true ->
     continuation b2 = true -> P rest -> P (b1 :: b2 :: rest)) ->
  (forall b1 b2 b3 rest,
     (b1 <? 0x80) = false -> between 0xC2 0xDF b1 = false ->
     between 0xE0 0xEF b1 = true -> second_of_three b1 b2 = true ->
     continuation b3 = true -> P rest -> P (b1 :: b2 :: b3 :: rest)) ->
  (forall b1 b2 b3 b4 rest,
     (b1 <? 0x80) = false -> between 0xC2 0xDF b1 = false ->
     between 0xE0 0xEF b1 = false -> between 0xF0 0xF4 b1 = true ->
     second_of_four b1 b2 = true -> continuation b3 = true ->
     continuation b4 = true -> P rest -> P (b1 :: b2 :: b3 :: b4 :: rest)) ->
  forall bytes, well_formed_bytes bytes = true -> P bytes.
Proof.
  intros H0 H1 H2 H3 H4 bytes.
  remember (length bytes) as n eqn:L.
  assert (B : (length bytes <= n)%nat) by lia. clear L. revert bytes B.
  induction n as [| n IH]; intros bytes B W.
  - destruct bytes; [exact H0 | cbn in B; lia].
  - destruct bytes as [| b1 rest]; [exact H0 |].
    cbn [length] in B. cbn [well_formed_bytes] in W.
    destruct (b1 <? 0x80) eqn:A.
    { apply H1; [exact A | apply IH; [lia | exact W]]. }
    destruct (between 0xC2 0xDF b1) eqn:T2.
    { destruct rest as [| b2 rest]; [discriminate W |].
      apply andb_prop in W. destruct W as [C W]. cbn [length] in B.
      apply H2; try assumption. apply IH; [lia | exact W]. }
    destruct (between 0xE0 0xEF b1) eqn:T3.
    { destruct rest as [| b2 [| b3 rest]]; try discriminate W.
      apply andb_prop in W. destruct W as [W W3].
      apply andb_prop in W. destruct W as [S C]. cbn [length] in B.
      apply H3; try assumption. apply IH; [lia | exact W3]. }
    destruct (between 0xF0 0xF4 b1) eqn:T4; [| discriminate W].
    destruct rest as [| b2 [| b3 [| b4 rest]]]; try discriminate W.
    apply andb_prop in W. destruct W as [W W4].
    apply andb_prop in W. destruct W as [W C4].
    apply andb_prop in W. destruct W as [S C3]. cbn [length] in B.
    apply H4; try assumption. apply IH; [lia | exact W4].
Qed.

Lemma between_spec (lo hi b : Z) : between lo hi b = true <-> lo <= b <= hi.
Proof. unfold between. rewrite andb_true_iff, !Z.leb_le. tauto. Qed.

Lemma utf8_encode_keeps (b1 : Z) (rest : Buffer) :
  b1 <> 0xED -> utf8_encode (b1 :: rest) = b1 :: utf8_encode rest.
Proof.
  intros N. cbn [utf8_encode].
  destruct rest as [| b2 [| b3 rest3]]; try reflexivity.
  apply Z.eqb_neq in N. now rewrite N.
Qed.

Lemma utf8_encode_continuation (b : Z) (rest : Buffer) :
  continuation b = true -> utf8_encode (b :: rest) = b :: utf8_encode rest.
Proof.
  intros C. apply utf8_encode_keeps. apply between_spec in C. lia.
Qed.

Lemma utf8_encode_well_formed (bytes : Buffer) :
  well_formed_bytes bytes = true -> utf8_encode bytes = bytes.
Proof.
  revert bytes. apply (well_formed_bytes_ind (fun bytes => utf8_encode bytes = bytes)).
  - reflexivity.
  - intros b1 rest A IH. apply Z.ltb_lt in A.
    rewrite utf8_encode_keeps by lia. now rewrite IH.
  - intros b1 b2 rest _ T C IH. apply between_spec in T.
    rewrite utf8_encode_keeps by lia.
    rewrite utf8_encode_continuation by exact C. now rewrite IH.
  - intros b1 b2 b3 rest _ _ T S C IH.
    assert (E : utf8_encode (b1 :: b2 :: b3 :: rest)
                = b1 :: utf8_encode (b2 :: b3 :: rest)).
    { destruct (Z.eq_dec b1 0xED) as [-> | N]; [| now apply utf8_encode_keeps].
      cbn [utf8_encode]. unfold second_of_three in S. cbn in S.
      apply between_spec in S.
      replace (between 0xA0 0xBF b2) with false
        by (symmetry; apply not_true_iff_false; rewrite between_spec; lia).
      reflexivity. }
    rewrite E.
    assert (C2 : continuation b2 = true).
    { unfold second_of_three in S. apply between_spec.
      destruct (b1 =? 0xE0); [apply between_spec in S; lia |].
      destruct (b1 =? 0xED); apply between_spec in S; lia. }
    rewrite !utf8_encode_continuation by assumption. now rewrite IH.
  - intros b1 b2 b3 b4 rest _ _ _ T S C3 C4 IH. apply between_spec in T.
    rewrite utf8_encode_keeps by lia.
    assert (C2 : continuation b2 = true).
    { unfold second_of_four in S. apply between_spec.
      destruct (b1 =? 0xF0); [apply between_spec in S; lia |].
      destruct (b1 =? 0xF4); apply between_spec in S; lia. }
    rewrite !utf8_encode_continuation by assumption. now rewrite IH.
Qed.

Lemma utf8_decode_well_formed (bytes : Buffer) :
  well_formed_bytes bytes = true -> utf8_decode bytes = bytes.
Proof.
  revert bytes. apply (well_formed_bytes_ind (fun bytes => utf8_decode bytes = bytes)).
  - reflexivity.
  - intros b1 rest A IH. cbn [utf8_decode]. now rewrite A, IH.
  - intros b1 b2 rest A T C IH. cbn [utf8_decode]. now rewrite A, T, C, IH.
  - intros b1 b2 b3 rest A T2 T3 S C IH. cbn [utf8_decode].
    now rewrite A, T2, T3, S, C, IH.
  - intros b1 b2 b3 b4 rest A T2 T3 T4 S C3 C4 IH. cbn [utf8_decode].
    now rewrite A, T2, T3, T4, S, C3, C4, IH.
Qed.

Lemma utf8_bytes_well_formed (s : string) :
  well_formed s = true -> utf8_bytes s = string_bytes s.
Proof. apply utf8_encode_well_formed. Qed.

Lemma utf8_round_trip (s : string) :
  well_formed s = true -> utf8_string (utf8_bytes s) = s.
Proof.
  intros W. unfold utf8_string. rewrite utf8_bytes_well_formed by exact W.
  rewrite utf8_decode_well_formed by exact W. apply string_bytes_round.
Qed.

Lemma length_utf8_encode (bytes : Buffer) :
  length (utf8_encode bytes) = length bytes.
Proof.
  remember (length bytes) as n eqn:L.
  assert (B : (length bytes <= n)%nat) by lia. rewrite L. clear L. revert bytes B.
  induction n as [| n IH]; intros bytes B.
  - destruct bytes; [reflexivity | cbn in B; lia].
  - destruct bytes as [| b1 rest]; [reflexivity |]. cbn [length] in B.
    cbn [utf8_encode].
    destruct rest as [| b2 [| b3 rest3]].
    + reflexivity.
    + cbn [length]. rewrite (IH [b2]) by (cbn in *; lia). reflexivity.
    + cbn [length] in B.
      destruct ((b1 =? 0xED) && between 0xA0 0xBF b2 && continuation b3).
      * cbn [replacement app length]. rewrite (IH rest3) by (cbn in *; lia). reflexivity.
      * cbn [length]. rewrite (IH (b2 :: b3 :: rest3)) by (cbn in *; lia). reflexivity.
Qed.

Lemma Forall_utf8_encode (bytes : Buffer) :
  Forall is_byte bytes -> Forall is_byte (utf8_encode bytes).
Proof.
  remember (length bytes) as n eqn:L.
  assert (B : (length bytes <= n)%nat) by lia. clear L. revert bytes B.
  induction n as [| n IH]; intros bytes B F.
  - destruct bytes; [constructor | cbn in B; lia].
  - destruct bytes as [| b1 rest]; [constructor |]. cbn [length] in B.
    inversion F as [| ? ? F1 F']; subst.
    cbn [utf8_encode].
    destruct rest as [| b2 [| b3 rest3]].
    + constructor; [exact F1 | constructor].
    + constructor; [exact F1 | apply IH; [cbn in *; lia | exact F']].
    + cbn [length] in B.
      destruct ((b1 =? 0xED) && between 0xA0 0xBF b2 && continuation b3).
      * cbn [replacement app].
        repeat (constructor; [unfold is_byte; lia |]).
        apply IH; [cbn in *; lia |]. inversion F' as [| ? ? _ F'']; subst.
        now inversion F''.
      * constructor; [exact F1 | apply IH; [cbn in *; lia | exact F']].
Qed.

Lemma Forall_utf8_bytes (s : string) : Forall is_byte (utf8_bytes s).
Proof. apply Forall_utf8_encode, Forall_string_bytes. Qed.

(** *** The functions of the embedding on ordinary names *)

Lemma push_ordinary (columns : list (string * list value)) (key : string) (v : value) :
  plain_name key = true ->
  ColumnBuilder.push columns key v = OK (Ordinary.push columns key v).
Proof.
  intros P. unfold ColumnBuilder.push, Ordinary.push.
  destruct (plain_name_spec key P) as (I & _ & _). rewrite I.
  destruct (obj_get columns key); now rewrite obj_set_plain.
Qed.

Lemma build_record_ordinary (record : JSObject) :
  Forall (fun kv => plain_name (fst kv) = true) record ->
  forall columns : list (string * list value),
    fold_left (fun columns '(key, v) => do columns <- columns;
                                        ColumnBuilder.push columns key v)
              record (OK columns)
    = OK (fold_left (fun columns '(key, v) => Ordinary.push columns key v)
                    record columns).
Proof.
  induction record as [| [k v] record IH]; intros F columns; [reflexivity |].
  inversion F as [| ? ? Pk F']; subst. cbn [fst] in Pk.
  cbn [fold_left bind]. rewrite push_ordinary by exact Pk. now apply IH.
Qed.

Lemma build_ordinary (records : list JSObject) :
  Forall (Forall (fun kv => plain_name (fst kv) = true)) records ->
  ColumnBuilder.build records = OK (Ordinary.build records).
Proof.
  unfold ColumnBuilder.build, Ordinary.build. generalize (@nil (string * list value)).
  induction records as [| r records IH]; intros columns F; [reflexivity |].
  inversion F as [| ? ? Fr F']; subst.
  cbn [fold_left]. rewrite build_record_ordinary by exact Fr. now apply IH.
Qed.

Lemma set_path_ordinary (parts : list string) (v : value) :
  Forall (fun part => plain_name part = true) parts ->
  forall current : JSObject,
    ObjectFlattener.set_path parts v current = Ordinary.set_path parts v current.
Proof.
  induction parts as [| a parts IH]; intros F current; [reflexivity |].
  inversion F as [| ? ? Pa F']; subst.
  destruct parts as [| b rest].
  - cbn [ObjectFlattener.set_path Ordinary.set_path]. now apply assign_plain.
  - specialize (IH F').
    change (ObjectFlattener.set_path (a :: b :: rest) v current)
      with (match obj_get current a with
            | Some (VObj inner) =>
                do inner' <- ObjectFlattener.set_path (b :: rest) v inner;
                OK (obj_set current a (VObj inner'))
            | Some (VArr _) => Err (Unsupported "a dotted path through an array")
            | Some w =>
                if truthy w then Err (Unsupported "a dotted path through a primitive")
                else
                  do inner' <- ObjectFlattener.set_path (b :: rest) v [];
                  OK (obj_set current a (VObj inner'))
            | None =>
                if inherited a
                then Err (Unsupported "a dotted path through an inherited member")
                else
                  do inner' <- ObjectFlattener.set_path (b :: rest) v [];
                  OK (obj_set current a (VObj inner'))
            end).
    change (Ordinary.set_path (a :: b :: rest) v current)
      with (match obj_get current a with
            | Some (VObj inner) =>
                do inner' <- Ordinary.set_path (b :: rest) v inner;
                OK (obj_put current a (VObj inner'))
            | Some (VArr _) => Err (Unsupported "a dotted path through an array")
            | Some w =>
                if truthy w then Err (Unsupported "a dotted path through a primitive")
                else
                  do inner' <- Ordinary.set_path (b :: rest) v [];
                  OK (obj_put current a (VObj inner'))
            | None =>
                do inner' <- Ordinary.set_path (b :: rest) v [];
                OK (obj_put current a (VObj inner'))
            end).
    destruct (plain_name_spec a Pa) as (I & _ & _). rewrite I.
    assert (S : forall x, obj_set current a x = obj_put current a x)
      by (intros x; now apply obj_set_plain).
    destruct (obj_get current a) as [w |].
    + destruct w; try reflexivity;
        try (destruct (truthy _); [reflexivity |]);
        rewrite IH;
        match goal with
        | |- bind ?r _ = _ => destruct r; cbn [bind]; [now rewrite S | reflexivity]
        end.
    + rewrite IH.
      destruct (Ordinary.set_path (b :: rest) v []); cbn [bind];
        [now rewrite S | reflexivity].
Qed.

Lemma unflatten_ordinary (flat : JSObject) :
  Forall (fun kv => Forall (fun part => plain_name part = true)
                           (split_dots (fst kv))) flat ->
  forall record : JSObject,
    ObjectFlattener.unflatten_loop flat record = Ordinary.unflatten_loop flat record.
Proof.
  induction flat as [| [p v] flat IH]; intros F record; [reflexivity |].
  inversion F as [| ? ? Fp F']; subst. cbn [fst] in Fp.
  cbn [ObjectFlattener.unflatten_loop Ordinary.unflatten_loop].
  destruct v; try (now apply IH);
    rewrite set_path_ordinary by exact Fp;
    (destruct (Ordinary.set_path (split_dots p) _ record); cbn [bind];
     [now apply IH | reflexivity]).
Qed.


(** *** The pivot of [prepareData] on flat records *)

Lemma sparse_value_cell (r : JSObject) (key : string) :
  plain_name key = true -> SemanticCompressor.sparse_value r key = OK (cell r key).
Proof.
  intros P. unfold SemanticCompressor.sparse_value, cell.
  destruct (plain_name_spec key P) as (I & _ & _). rewrite I.
  destruct (obj_get r key) as [[] |]; reflexivity.
Qed.

Lemma sparse_cells (keys : list string) (r : JSObject) :
  NoDup keys -> Forall (fun k => plain_name k = true) keys ->
  SemanticCompressor.sparse keys r = OK (map (fun k => (k, cell r k)) keys).
Proof.
  intros D P. unfold SemanticCompressor.sparse.
  assert (L : forall acc : JSObject,
             fold_left (fun flat key =>
                          do flat <- flat;
                          if String.eqb key "__proto__" then OK flat
                          else
                            do v <- SemanticCompressor.sparse_value r key;
                            OK (obj_set flat key v))
                       keys (OK acc)
             = OK (fold_left (fun o key => obj_put o key (cell r key)) keys acc)).
  { clear D. induction keys as [| k keys IH]; intros acc; [reflexivity |].
    inversion P as [| ? ? Pk P']; subst. cbn [fold_left bind].
    destruct (plain_name_spec k Pk) as (_ & _ & N).
    apply String.eqb_neq in N. rewrite N.
    rewrite sparse_value_cell by exact Pk. cbn [bind].
    rewrite obj_set_plain by exact Pk. now apply IH. }
  rewrite L. apply f_equal.
  change (fold_left (fun o key => obj_put o key (cell r key)) keys []
          = [] ++ map (fun k => (k, cell r k)) keys).
  apply fold_obj_put_fresh; [exact D | intros k _ []].
Qed.

Lemma flattenRecursive_cons (k : string) (w : value) (rest : list (string * value))
      (p : string) (flat : JSObject) :
  ObjectFlattener.flattenRecursive (VObj ((k, w) :: rest)) p flat
  = (do flat' <- match w with
                 | VObj _ =>
                     ObjectFlattener.flattenRecursive w (ObjectFlattener.join_path p k) flat
                 | _ => assign flat (ObjectFlattener.join_path p k) w
                 end;
     ObjectFlattener.flattenRecursive (VObj rest) p flat').
Proof. destruct w; reflexivity. Qed.

Lemma flattenRecursive_leaves (fields : list (string * value)) :
  forall flat : JSObject,
    Forall (fun kv => is_object (snd kv) = false) fields ->
    Forall (fun kv => plain_name (fst kv) = true) fields ->
    NoDup (obj_keys fields) ->
    (forall k, In k (obj_keys fields) -> ~ In k (obj_keys flat)) ->
    ObjectFlattener.flattenRecursive (VObj fields) EmptyString flat
    = OK (flat ++ fields).
Proof.
  induction fields as [| [k v] fields IH]; intros flat L P D F.
  - cbn. now rewrite app_nil_r.
  - inversion L as [| ? ? Lv L']; subst. inversion D as [| ? ? N D']; subst.
    inversion P as [| ? ? Pk P']; subst.
    cbn in Lv. cbn [fst] in Pk.
    assert (S : assign flat k v = OK (flat ++ [(k, v)])).
    { rewrite assign_plain by exact Pk. apply f_equal.
      apply obj_put_fresh, F. now left. }
    assert (G : forall k', In k' (obj_keys fields)
                           -> ~ In k' (obj_keys (flat ++ [(k, v)]))).
    { intros k' I. unfold obj_keys. rewrite map_app, in_app_iff. cbn.
      intros [I' | [E | []]].
      - apply (F k'); [now right | exact I'].
      - subst. tauto. }
    specialize (IH (flat ++ [(k, v)]) L' P' D' G).
    rewrite <- app_assoc in IH. cbn [app] in IH. rewrite <- IH.
    rewrite flattenRecursive_cons.
    change (ObjectFlattener.join_path EmptyString k) with k.
    destruct v; try discriminate Lv; rewrite S; reflexivity.
Qed.

Lemma flatten_flat (fields : JSObject) :
  Forall (fun kv => is_object (snd kv) = false) fields ->
  Forall (fun kv => plain_name (fst kv) = true) fields ->
  NoDup (obj_keys fields) ->
  ObjectFlattener.flatten fields = OK fields.
Proof.
  intros L P D. unfold ObjectFlattener.flatten.
  rewrite flattenRecursive_leaves; [reflexivity | exact L | exact P | exact D |].
  intros k _ [].
Qed.

Lemma backfill_complete (keys : list string) :
  forall f : JSObject,
    (forall k, In k keys -> obj_has f k = true) ->
    SemanticCompressor.backfill keys f = f.
Proof.
  unfold SemanticCompressor.backfill.
  induction keys as [| k keys IH]; intros f H; cbn; [reflexivity|].
  unfold key_in. rewrite (H k) by now left. cbn [orb].
  apply IH. intros k' I. apply H. now right.
Qed.

(** *** [Ordinary.build] *)

Lemma obj_put_map {A : Type} (c : string -> A) (keys : list string) (key : string) (v : A) :
  NoDup keys -> In key keys ->
  obj_put (map (fun k => (k, c k)) keys) key v
  = map (fun k => (k, if String.eqb k key then v else c k)) keys.
Proof.
  induction keys as [| k keys IH]; intros D I; [destruct I|].
  inversion D as [| ? ? N D']; subst. cbn.
  destruct (String.eqb_spec k key) as [-> | Ne].
  - f_equal. apply map_ext_in. intros k' I'.
    destruct (String.eqb_spec k' key) as [-> | _]; [tauto | reflexivity].
  - f_equal. apply IH; [exact D' |]. destruct I as [E | I]; [congruence | exact I].
Qed.

(** One record pushed on columns that already hold every key. *)
Lemma push_record (g : string -> value) (keys : list string) :
  forall (part : list string) (col : string -> list value),
    NoDup keys -> NoDup part -> incl part keys ->
    fold_left (fun columns '(key, v) => Ordinary.push columns key v)
              (map (fun k => (k, g k)) part)
              (map (fun k => (k, col k)) keys)
    = map (fun k => (k, if existsb (String.eqb k) part then col k ++ [g k] else col k))
          keys.
Proof.
  induction part as [| p part IH]; intros col D Dp I; cbn.
  - reflexivity.
  - inversion Dp as [| ? ? N Dp']; subst.
    assert (Ip : In p keys) by (apply I; now left).
    unfold Ordinary.push at 2. rewrite obj_get_map_In by exact Ip.
    rewrite obj_put_map by assumption.
    rewrite (IH (fun k => if String.eqb k p then col p ++ [g p] else col k));
      [| exact D | exact Dp' | intros k K; apply I; now right].
    apply map_ext_in. intros k K. f_equal.
    destruct (String.eqb_spec k p) as [-> | Ne].
    + rewrite (proj2 (existsb_eqb_false p part) N). reflexivity.
    + reflexivity.
Qed.

(** The first record creates the columns, in the order of its keys. *)
Lemma push_first_record (g : string -> value) (part : list string) :
  forall done : list string,
    NoDup (done ++ part) ->
    fold_left (fun columns '(key, v) => Ordinary.push columns key v)
              (map (fun k => (k, g k)) part)
              (map (fun k => (k, [g k])) done)
    = map (fun k => (k, [g k])) (done ++ part).
Proof.
  induction part as [| p part IH]; intros done D; cbn.
  - now rewrite app_nil_r.
  - assert (N : ~ In p done).
    { intros I. apply NoDup_remove_2 in D. apply D. rewrite in_app_iff. now left. }
    unfold Ordinary.push at 2.
    rewrite (proj2 (obj_get_None _ p)) by now rewrite obj_keys_map.
    rewrite obj_put_fresh by now rewrite obj_keys_map.
    change (map (fun k => (k, [g k])) done ++ [(p, [g p])])
      with (map (fun k => (k, [g k])) done ++ map (fun k => (k, [g k])) [p]).
    rewrite <- map_app.
    rewrite IH by (rewrite <- app_assoc; exact D).
    now rewrite <- app_assoc.
Qed.

Lemma build_more (keys : list string) (rows : list (string -> value)) :
  forall col : string -> list value,
    NoDup keys ->
    fold_left (fun columns record =>
                 fold_left (fun columns '(key, v) => Ordinary.push columns key v)
                           record columns)
              (map (fun g => map (fun k => (k, g k)) keys) rows)
              (map (fun k => (k, col k)) keys)
    = map (fun k => (k, col k ++ map (fun g => g k) rows)) keys.
Proof.
  induction rows as [| g rows IH]; intros col D; cbn.
  - apply map_ext. intros k. now rewrite app_nil_r.
  - rewrite (push_record g keys keys col D D (incl_refl keys)).
    rewrite IH by exact D.
    apply map_ext_in. intros k K.
    rewrite (proj2 (existsb_eqb_In k keys) K), <- app_assoc. reflexivity.
Qed.

Lemma build_rows (keys : list string) (rows : list (string -> value)) :
  NoDup keys -> rows <> [] ->
  Ordinary.build (map (fun g => map (fun k => (k, g k)) keys) rows)
  = map (fun k => (k, map (fun g => g k) rows)) keys.
Proof.
  intros D N. destruct rows as [| g rows]; [congruence|].
  unfold Ordinary.build. cbn [map fold_left].
  pose proof (push_first_record g keys [] D) as P. cbn [map app] in P. rewrite P.
  exact (build_more keys rows (fun k => [g k]) D).
Qed.

Lemma ordinary_key_spec (key : string) :
  ordinary_key key = true ->
  forallb (fun c => negb (Ascii.eqb c "."%char)) (list_ascii_of_string key) = true
  /\ (length (utf8_bytes key) < 256)%nat
  /\ well_formed key = true
  /\ plain_name key = true.
Proof.
  unfold ordinary_key. intros H.
  apply andb_prop in H. destruct H as [H P].
  apply andb_prop in H. destruct H as [H W].
  apply andb_prop in H. destruct H as [D L].
  apply Nat.ltb_lt in L. tauto.
Qed.

Lemma sorted_keys_plain (records : list JSObject) :
  Forall flat_record records ->
  Forall (fun k => plain_name k = true) (sorted_keys records).
Proof.
  intros F. apply Forall_forall. intros k I.
  apply sorted_keys_In in I. destruct I as [r [Ir K]].
  rewrite Forall_forall in F. destruct (F r Ir) as [_ P].
  unfold obj_keys in K. apply in_map_iff in K. destruct K as [[k' v] [<- K]].
  rewrite Forall_forall in P. destruct (P _ K) as [O _].
  now apply ordinary_key_spec in O.
Qed.

(** On a batch of flat records the columns are the cells of the sorted
    keys, record by record. *)
Lemma pivot_flat (records : list JSObject) :
  records <> [] -> Forall flat_record records ->
  SemanticCompressor.pivot records
  = OK (map (fun k => (k, map (fun r => cell r k) records)) (sorted_keys records)).
Proof.
  intros N F. unfold SemanticCompressor.pivot.
  fold (sorted_keys records).
  pose proof (sorted_keys_plain records F) as P.
  set (keys := sorted_keys records) in *.
  assert (D : NoDup keys) by apply sorted_keys_NoDup.
  clearbody keys.
  assert (E : mapM (fun r => do flat <- SemanticCompressor.sparse keys r;
                             ObjectFlattener.flatten flat) records
              = OK (map (fun g => map (fun k => (k, g k)) keys) (map cell records))).
  { rewrite map_map. apply mapM_OK_map. intros r I.
    rewrite sparse_cells by assumption. cbn [bind].
    apply flatten_flat; [| | now rewrite obj_keys_map].
    - apply Forall_forall. intros [k v] K. apply in_map_iff in K.
      destruct K as [k' [[= <- <-] _]]. cbn.
      unfold cell. destruct (obj_get r k') as [v |] eqn:G; [| reflexivity].
      apply obj_get_Some_In in G.
      rewrite Forall_forall in F. destruct (F r I) as [_ Pr].
      rewrite Forall_forall in Pr. destruct (Pr _ G) as [_ Pv]. cbn in Pv.
      destruct v; try discriminate Pv; reflexivity.
    - apply Forall_forall. intros [k v] K. apply in_map_iff in K.
      destruct K as [k' [[= <- <-] K]]. cbn [fst].
      rewrite Forall_forall in P. now apply P. }
  rewrite E. cbn [bind].
  assert (A : fold_left (fun ks f => fold_left set_add (obj_keys f) ks)
                        (map (fun g => map (fun k => (k, g k)) keys) (map cell records))
                        []
              = keys).
  { destruct records as [| r records]; [congruence|].
    cbn [map fold_left]. rewrite obj_keys_map.
    rewrite fold_set_add_fresh; [cbn [app] | exact D | intros k _ []].
    clear. generalize (map cell records). intros rows.
    induction rows as [| g rows IH]; cbn [map fold_left]; [reflexivity|].
    rewrite obj_keys_map, fold_set_add_known by apply incl_refl. exact IH. }
  rewrite A.
  assert (B : map (SemanticCompressor.backfill keys)
                  (map (fun g => map (fun k => (k, g k)) keys) (map cell records))
              = map (fun g => map (fun k => (k, g k)) keys) (map cell records)).
  { rewrite <- (map_id (map _ (map cell records))) at 2.
    rewrite map_map. rewrite (map_map _ (fun x => x)).
    apply map_ext. intros g. apply backfill_complete.
    intros k K. unfold obj_has. now rewrite obj_get_map_In. }
  rewrite B, build_ordinary.
  - apply f_equal.
    rewrite build_rows; [| exact D | destruct records; [congruence | discriminate]].
    apply map_ext. intros k. now rewrite map_map.
  - apply Forall_forall. intros f I. apply in_map_iff in I.
    destruct I as [g [<- _]]. apply Forall_forall. intros [k v] K.
    apply in_map_iff in K. destruct K as [k' [[= <- <-] K]]. cbn [fst].
    rewrite Forall_forall in P. now apply P.
Qed.


(** *** The nullable wrapper, there and back *)

Lemma interleave_reinterleave (bitmap : Buffer) (values : list value) :
  forall (i : nat) (decoded : list value),
    (forall j, (j < length values)%nat ->
       NullableCodecWrapper.bit_is_set bitmap (i + j)
       = is_present (nth j values VMissing)) ->
    NullableCodecWrapper.interleave bitmap i (length values) decoded
    = reinterleave values decoded.
Proof.
  induction values as [| v values IH]; intros i decoded H;
    cbn [length NullableCodecWrapper.interleave reinterleave]; [reflexivity|].
  assert (H0 : NullableCodecWrapper.bit_is_set bitmap i = is_present v).
  { specialize (H 0%nat ltac:(cbn; lia)). now rewrite Nat.add_0_r in H. }
  assert (H' : forall j, (j < length values)%nat ->
                 NullableCodecWrapper.bit_is_set bitmap (S i + j)
                 = is_present (nth j values VMissing)).
  { intros j Hj. specialize (H (S j) ltac:(cbn; lia)).
    now rewrite Nat.add_succ_r in H. }
  rewrite H0.
  destruct (is_present v); [destruct decoded |]; f_equal; apply IH; exact H'.
Qed.

(** Decoding what the wrapper has just encoded: the inner codec decodes the
    payload, the count is checked, and the MISSING cells are put back. *)
Lemma wrapper_round_trip (codec : IFieldCodec) (values : list value) (encoded : Buffer) :
  values <> [] ->
  NullableCodecWrapper.encode codec values = OK encoded ->
  exists payload : Buffer,
    codec.(codec_encode) (filter is_present values) = OK payload
    /\ Z.of_nat (length values) < 2 ^ 32
    /\ NullableCodecWrapper.decode codec encoded
       = (do ds <- codec.(codec_decode) payload;
          if negb (length (filter is_present values) =? length ds)%nat
          then Err (BitmapMismatch (length (filter is_present values)) (length ds))
          else OK (reinterleave values ds)).
Proof.
  intros N E.
  pose proof (encode_bitmap_bits values) as HB.
  unfold NullableCodecWrapper.encode in E.
  destruct (NullableCodecWrapper.encode_loop values 0 []
              (Buffer_alloc (ceil_div (length values) 8))) as [nn bm].
  destruct HB as (Hnn & Hl & Hf & Hbits). subst nn.
  destruct (codec_encode codec (filter is_present values)) as [payload | e] eqn:P;
    [| discriminate E].
  cbn [bind] in E. unfold writeUInt32LE in E.
  destruct ((0 <=? Z.of_nat (length values)) && (Z.of_nat (length values) <? 2 ^ 32))%bool
    eqn:R; [| discriminate E].
  apply andb_true_iff in R. destruct R as [_ R]. apply Z.ltb_lt in R.
  cbn [bind Buffer_concat concat] in E. rewrite app_nil_r in E.
  apply OK_inj in E. subst encoded.
  exists payload. splits; [reflexivity | exact R |].
  - rewrite wrapper_decode_layout;
      [| destruct values; [congruence | cbn; lia] | exact R | exact Hl].
    assert (C : NullableCodecWrapper.count_set bm 0 (length values)
                = length (filter is_present values)).
    { rewrite count_set_filter.
      apply marked_bits_count with (values := values); [exact bm | | lia].
      intros j. rewrite bit_is_set_bitmap_bit by exact Hf. apply Hbits. }
    destruct (codec_decode codec payload) as [ds | e]; [| reflexivity].
    cbn [bind]. cbv zeta. rewrite C.
    destruct (negb (length (filter is_present values) =? length ds)%nat);
      [reflexivity |].
    f_equal. apply interleave_reinterleave. intros j Hj. cbn [Nat.add].
    rewrite bit_is_set_bitmap_bit by exact Hf. rewrite Hbits.
    now rewrite (proj2 (Nat.ltb_lt j (length values)) Hj).
Qed.

(** *** The JSON comparison of the self-check *)

Lemma JSON_same_text_items (values decoded : list value) :
  JSON_same_text values decoded = true
  <-> Forall2 (fun v d => json_eqb (json_item v) (json_item d) = true) values decoded.
Proof.
  unfold JSON_same_text. cbn [toJSON json_eqb].
  fold json_item.
  revert decoded. induction values as [| v values IH]; intros [| d decoded]; cbn [map].
  - split; [constructor | reflexivity].
  - split; [discriminate | intros H; inversion H].
  - split; [discriminate | intros H; inversion H].
  - rewrite andb_true_iff, IH. split.
    + intros [A B]. now constructor.
    + intros H. inversion H; subst. now split.
Qed.

Lemma json_item_plain (v d : value) :
  plain_value v = true -> v <> VNull ->
  json_eqb (json_item v) (json_item d) = true -> strictEquals v d = true.
Proof.
  intros P N. destruct v; try discriminate P; try congruence; cbn in P |- *.
  - destruct d; cbn; try discriminate; [auto |].
    destruct (is_finite x); discriminate.
  - unfold json_item. cbn. rewrite P.
    destruct d; cbn; try discriminate.
    destruct (is_finite x0); [auto | discriminate].
  - destruct d; cbn; try discriminate; [| auto].
    destruct (is_finite x); discriminate.
Qed.

Lemma reinterleave_items (values : list value) :
  forall ds : list value,
    length ds = length (filter is_present values) ->
    Forall2 (fun v d => json_eqb (json_item v) (json_item d) = true)
            values (reinterleave values ds) ->
    Forall2 (fun v d => json_eqb (json_item v) (json_item d) = true)
            (filter is_present values) ds.
Proof.
  induction values as [| v values IH]; intros ds L H; cbn [filter reinterleave] in *.
  - destruct ds; [constructor | discriminate L].
  - destruct (is_present v).
    + destruct ds as [| d ds]; [discriminate L |].
      inversion H; subst. constructor; [assumption |].
      apply IH; [cbn in L; lia | assumption].
    + inversion H; subst. now apply IH.
Qed.

Lemma reinterleave_cells (values : list value) :
  forall ds : list value,
    Forall (fun v => v = VMissing \/ plain_value v = true) values ->
    Forall2 (fun v d => json_eqb (json_item v) (json_item d) = true)
            (filter is_present values) ds ->
    Forall2 (fun v d => v = VNull -> d = VNull) (filter is_present values) ds ->
    Forall2 cell_kept values (reinterleave values ds).
Proof.
  induction values as [| v values IH]; intros ds P J K;
    cbn [filter reinterleave] in *; [constructor |].
  inversion P as [| ? ? Pv P']; subst.
  destruct Pv as [-> | Pv].
  - cbn. constructor; [reflexivity | now apply IH].
  - assert (S : is_present v = true) by (destruct v; try discriminate Pv; reflexivity).
    rewrite S in *. inversion J as [| ? d ? ds' Jv J']; subst.
    inversion K as [| ? ? ? ? Kv K']; subst.
    constructor; [| now apply IH].
    assert (E : strictEquals v d = true).
    { destruct v; try discriminate Pv;
        try (apply json_item_plain; [exact Pv | discriminate | exact Jv]).
      now rewrite Kv. }
    unfold cell_kept. destruct v; try discriminate S; exact E.
Qed.


(** *** Reading a buffer from an offset *)

Lemma Buffer_get_skipn (buffer : Buffer) (offset : nat) (b : Z) (rest : Buffer) :
  skipn offset buffer = b :: rest -> Buffer_get buffer offset = Some b.
Proof.
  unfold Buffer_get. revert buffer.
  induction offset as [| n IH]; intros [| x buffer]; cbn; try discriminate.
  - now intros [= -> _].
  - apply IH.
Qed.

Lemma skipn_step (buffer : Buffer) (offset : nat) (b : Z) (rest : Buffer) :
  skipn offset buffer = b :: rest -> skipn (offset + 1) buffer = rest.
Proof.
  intros H. rewrite Nat.add_comm, <- skipn_skipn, H. reflexivity.
Qed.

Lemma skipn_chunk (buffer : Buffer) (offset : nat) (chunk rest : Buffer) :
  skipn offset buffer = chunk ++ rest ->
  skipn (offset + length chunk) buffer = rest.
Proof.
  intros H. rewrite Nat.add_comm, <- skipn_skipn, H.
  rewrite skipn_app, skipn_all, Nat.sub_diag. reflexivity.
Qed.

Lemma Buffer_slice_skipn (buffer : Buffer) (offset : nat) (chunk rest : Buffer) :
  skipn offset buffer = chunk ++ rest ->
  Buffer_slice buffer offset (offset + length chunk) = chunk.
Proof.
  intros H. unfold Buffer_slice. rewrite H.
  replace (offset + length chunk - offset)%nat with (length chunk) by lia.
  rewrite firstn_app, firstn_all, Nat.sub_diag. cbn. apply app_nil_r.
Qed.

Lemma skipn_length_le (buffer : Buffer) (offset : nat) (chunk rest : Buffer) :
  (0 < length chunk)%nat ->
  skipn offset buffer = chunk ++ rest ->
  (offset + length chunk <= length buffer)%nat.
Proof.
  intros P H. apply (f_equal (@length Z)) in H.
  rewrite length_skipn, length_app in H. lia.
Qed.

Lemma readUInt32LE_skipn (buffer : Buffer) (offset : nat) (v : Z) (rest : Buffer) :
  0 <= v < 2 ^ 32 ->
  skipn offset buffer = le_bytes 4 v ++ rest ->
  readUInt32LE buffer offset = OK v.
Proof.
  intros B H. unfold readUInt32LE.
  assert (L : (offset + length (le_bytes 4 v) <= length buffer)%nat)
    by (apply (skipn_length_le _ _ _ rest); [rewrite length_le_bytes; lia | exact H]).
  rewrite length_le_bytes in L.
  rewrite (proj2 (Nat.leb_le _ _) L).
  pose proof (Buffer_slice_skipn _ _ _ _ H) as S. rewrite length_le_bytes in S.
  rewrite S, le_value_le_bytes; [reflexivity |].
  change (256 ^ Z.of_nat 4) with (2 ^ 32). exact B.
Qed.

(** *** The header, written and read *)

Lemma read_fields_encoded (fields : list FieldSchema) :
  forall (parts : list Buffer) (buffer : Buffer) (offset : nat) (rest : Buffer),
    mapM HeaderEncoder.encode_field fields = OK parts ->
    Forall (fun f => (length (utf8_bytes f.(field_name)) < 256)%nat
                     /\ 0 <= f.(field_type) < 256
                     /\ well_formed f.(field_name) = true) fields ->
    skipn offset buffer = concat parts ++ rest ->
    SemanticCompressor.read_fields (length fields) buffer offset
    = OK (fields, (offset + length (concat parts))%nat).
Proof.
  induction fields as [| f fields IH]; intros parts buffer offset rest M F S.
  - cbn in M. apply OK_inj in M. subst parts. cbn. now rewrite Nat.add_0_r.
  - cbn [mapM] in M.
    destruct (HeaderEncoder.encode_field f) as [part | e] eqn:Ef; [| discriminate M].
    cbn [bind] in M.
    destruct (mapM HeaderEncoder.encode_field fields) as [parts' | e] eqn:Em;
      [| discriminate M].
    cbn [bind] in M. apply OK_inj in M. subst parts.
    inversion F as [| ? ? (Fn & Ft & Fw) F']; subst.
    unfold HeaderEncoder.encode_field in Ef.
    unfold writeUInt32LE in Ef.
    destruct ((0 <=? Z.of_nat (field_byteLength f))
              && (Z.of_nat (field_byteLength f) <? 2 ^ 32))%bool eqn:R;
      [| discriminate Ef].
    apply andb_true_iff in R. destruct R as [_ R]. apply Z.ltb_lt in R.
    cbn [bind Buffer_concat concat] in Ef. apply OK_inj in Ef. subst part.
    rewrite app_nil_r in S. cbn [concat] in S.
    rewrite <- !app_assoc in S. cbn [app] in S.
    cbn [length SemanticCompressor.read_fields].
    rewrite (Buffer_get_skipn _ _ _ _ S).
    apply skipn_step in S.
    rewrite Z.mod_small by lia. rewrite Nat2Z.id.
    rewrite (Buffer_slice_skipn _ _ _ _ S).
    apply skipn_chunk in S.
    rewrite (Buffer_get_skipn _ _ _ _ S).
    apply skipn_step in S.
    rewrite (readUInt32LE_skipn _ _ (Z.of_nat (field_byteLength f)) _ ltac:(lia) S).
    cbn [bind].
    apply skipn_chunk in S. rewrite length_le_bytes in S.
    rewrite (IH parts' buffer _ rest eq_refl F' S). cbn [bind].
    rewrite utf8_round_trip by exact Fw. rewrite Z.mod_small, Nat2Z.id by lia.
    f_equal. f_equal.
    + destruct f; reflexivity.
    + cbn [concat]. rewrite !length_app, length_le_bytes. cbn [length]. lia.
Qed.


(** *** The columns, read back *)

Section ReadBack.

Variable registry : CodecRegistry.t.
Variable brotliDecompressSync : Buffer -> result Buffer.

Variable F : string -> FieldSchema.
Variable E : string -> Buffer.
Variable D : string -> list value.

Variable isColumnarBrotli : bool.

Lemma read_columns_decoded (keys : list string) :
  forall (buffer : Buffer) (offset : nat) (rest : Buffer) (done : list string),
    NoDup (done ++ keys) ->
    Forall (fun k => plain_name k = true) keys ->
    (forall k, In k keys ->
       field_name (F k) = k /\ field_byteLength (F k) = length (E k)
       /\ exists t c column,
            FieldType_of_code (field_type (F k)) = Some t
            /\ registry t = Some c
            /\ (if isColumnarBrotli then brotliDecompressSync (E k) else OK (E k))
               = OK column
            /\ NullableCodecWrapper.decode c column = OK (D k)) ->
    skipn offset buffer = concat (map E keys) ++ rest ->
    SemanticCompressor.read_columns registry brotliDecompressSync isColumnarBrotli
      (map F keys) buffer offset (map (fun k => (k, D k)) done)
    = OK (map (fun k => (k, D k)) (done ++ keys)).
Proof.
  induction keys as [| k keys IH]; intros buffer offset rest done N P H S.
  - cbn. now rewrite app_nil_r.
  - cbn [map SemanticCompressor.read_columns].
    inversion P as [| ? ? Pk P']; subst.
    destruct (plain_name_spec k Pk) as (_ & _ & NP).
    apply String.eqb_neq in NP.
    destruct (H k ltac:(now left)) as (Hn & Hl & t & c & column & Ht & Hc & Hb & Hd).
    cbn [map concat] in S. rewrite <- app_assoc in S.
    rewrite Hl, (Buffer_slice_skipn _ _ _ _ S), Hb. cbn [bind].
    rewrite Ht. unfold SemanticCompressor.resolveCodec, CodecRegistry.get.
    rewrite Hc. cbn [bind]. rewrite Hd. cbn [bind]. rewrite Hn, NP.
    rewrite obj_set_fresh; [| exact Pk |].
    2:{ rewrite obj_keys_map. apply NoDup_remove_2 in N.
        intros I. apply N. rewrite in_app_iff. now left. }
    change (map (fun k0 => (k0, D k0)) done ++ [(k, D k)])
      with (map (fun k0 => (k0, D k0)) done ++ map (fun k0 => (k0, D k0)) [k]).
    rewrite <- map_app.
    apply skipn_chunk in S.
    rewrite (IH buffer _ rest (done ++ [k])).
    + now rewrite <- app_assoc.
    + now rewrite <- app_assoc.
    + exact P'.
    + intros k' I. apply H. now right.
    + exact S.
Qed.

End ReadBack.

Lemma obj_keys_flat_map {A : Type} (p : string -> bool) (g : string -> A)
      (keys : list string) (key : string) :
  In key (obj_keys (flat_map (fun k => if p k then [(k, g k)] else []) keys)) ->
  In key keys.
Proof.
  unfold obj_keys. induction keys as [| k keys IH]; cbn; [tauto |].
  rewrite map_app, in_app_iff. intros [I | I].
  - destruct (p k); [| destruct I]. destruct I as [<- | []]. now left.
  - right. now apply IH.
Qed.

Lemma obj_get_flat_map {A : Type} (p : string -> bool) (g : string -> A)
      (keys : list string) (key : string) :
  obj_get (flat_map (fun k => if p k then [(k, g k)] else []) keys) key
  = if (existsb (String.eqb key) keys && p key)%bool then Some (g key) else None.
Proof.
  induction keys as [| k keys IH]; cbn [flat_map existsb]; [reflexivity |].
  rewrite (String.eqb_sym key k).
  destruct (p k) eqn:P; cbn [app obj_get].
  - destruct (String.eqb_spec k key) as [-> | _].
    + now rewrite P.
    + exact IH.
  - rewrite IH. destruct (String.eqb_spec k key) as [-> | _]; [| reflexivity].
    rewrite P, andb_false_r. reflexivity.
Qed.

Lemma flatRecord_more (F : string -> FieldSchema) (D : string -> list value)
      (keys : list string) (row : nat) (part : list string) :
  forall done : list string,
    NoDup (done ++ part) -> incl part keys ->
    Forall (fun k => plain_name k = true) part ->
    (forall k, In k part -> field_name (F k) = k) ->
    fold_left (fun record field =>
                 let val :=
                   match obj_get (map (fun k => (k, D k)) keys) field.(field_name) with
                   | Some column => nth row column VUndefined
                   | None => VUndefined
                   end in
                 if is_present val then obj_set record field.(field_name) val
                 else record)
              (map F part)
              (flat_map (fun k => if is_present (nth row (D k) VUndefined)
                                  then [(k, nth row (D k) VUndefined)] else [])
                        done)
    = flat_map (fun k => if is_present (nth row (D k) VUndefined)
                         then [(k, nth row (D k) VUndefined)] else [])
               (done ++ part).
Proof.
  induction part as [| k part IH]; intros done N I P H; cbn [map fold_left].
  - now rewrite app_nil_r.
  - inversion P as [| ? ? Pk P']; subst.
    rewrite (H k) by now left.
    rewrite obj_get_map_In by (apply I; now left).
    cbv zeta.
    replace (done ++ k :: part) with ((done ++ [k]) ++ part)
      by now rewrite <- app_assoc.
    rewrite <- IH.
    + f_equal. rewrite flat_map_app. cbn [flat_map]. rewrite app_nil_r.
      destruct (is_present (nth row (D k) VUndefined)); [| now rewrite app_nil_r].
      apply obj_set_fresh; [exact Pk |]. intros K. apply obj_keys_flat_map in K.
      apply NoDup_remove_2 in N. apply N. rewrite in_app_iff. now left.
    + now rewrite <- app_assoc.
    + intros k' K. apply I. now right.
    + exact P'.
    + intros k' K. apply H. now right.
Qed.

Lemma flatRecord_cells (F : string -> FieldSchema) (D : string -> list value)
      (keys : list string) (row : nat) :
  NoDup keys -> Forall (fun k => plain_name k = true) keys ->
  (forall k, In k keys -> field_name (F k) = k) ->
  SemanticCompressor.flatRecord (map F keys) (map (fun k => (k, D k)) keys) row
  = flat_map (fun k => if is_present (nth row (D k) VUndefined)
                       then [(k, nth row (D k) VUndefined)] else [])
             keys.
Proof.
  intros N P H.
  exact (flatRecord_more F D keys row keys [] N (incl_refl keys) P H).
Qed.

(** *** [unflatten] on undotted names *)

Lemma split_dots_whole (key : string) :
  forallb (fun c => negb (Ascii.eqb c "."%char)) (list_ascii_of_string key) = true ->
  split_dots key = [key].
Proof.
  induction key as [| c key IH]; cbn; [reflexivity |].
  intros H. apply andb_true_iff in H. destruct H as [Hc H].
  destruct (Ascii.eqb c "."%char); [discriminate Hc |].
  now rewrite (IH H).
Qed.

Lemma unflatten_loop_flat (flat : JSObject) :
  forall record : JSObject,
    NoDup (obj_keys record ++ obj_keys flat) ->
    Forall (fun kv => split_dots (fst kv) = [fst kv]) flat ->
    Ordinary.unflatten_loop flat record
    = OK (record ++ filter (fun kv => kept (snd kv)) flat).
Proof.
  induction flat as [| [k v] flat IH]; intros record N W; cbn [Ordinary.unflatten_loop filter].
  - now rewrite app_nil_r.
  - inversion W as [| ? ? Wk W']; subst. cbn [fst snd] in *.
    assert (Nk : ~ In k (obj_keys record)).
    { cbn in N. apply NoDup_remove_2 in N. intros I. apply N.
      rewrite in_app_iff. now left. }
    assert (N' : forall x, NoDup (obj_keys (record ++ [(k, x)]) ++ obj_keys flat)).
    { intros x. unfold obj_keys in *. rewrite map_app, <- app_assoc. exact N. }
    assert (N0 : NoDup (obj_keys record ++ obj_keys flat))
      by (cbn in N; now apply NoDup_remove_1 in N).
    destruct v; cbn [kept];
      try (apply IH; assumption);
      rewrite Wk; cbn [Ordinary.set_path bind];
      rewrite obj_put_fresh by exact Nk;
      rewrite IH by (try apply N'; assumption);
      now rewrite <- app_assoc.
Qed.

Lemma unflatten_flatRecord (F : string -> FieldSchema) (D : string -> list value)
      (keys : list string) (row : nat) :
  NoDup keys -> (forall k, In k keys -> field_name (F k) = k) ->
  Forall (fun k => ordinary_key k = true) keys ->
  ObjectFlattener.unflatten
    (SemanticCompressor.flatRecord (map F keys) (map (fun k => (k, D k)) keys) row)
  = OK (restored keys D row).
Proof.
  intros N H O.
  assert (P : Forall (fun k => plain_name k = true) keys).
  { apply Forall_forall. intros k K. rewrite Forall_forall in O.
    now apply ordinary_key_spec, O. }
  assert (W : forall k, In k keys -> split_dots k = [k]).
  { intros k K. rewrite Forall_forall in O.
    apply split_dots_whole. now apply ordinary_key_spec, O. }
  rewrite flatRecord_cells by assumption.
  unfold ObjectFlattener.unflatten. rewrite unflatten_ordinary.
  2:{ apply Forall_forall. intros [k v] I. cbn [fst].
      apply in_flat_map in I. destruct I as [k' [K I]].
      destruct (is_present _); [| destruct I]. destruct I as [[= <- _] | []].
      rewrite (W k' K). constructor; [| constructor].
      rewrite Forall_forall in P. now apply P. }
  rewrite unflatten_loop_flat.
  - cbn [app]. apply f_equal. unfold restored. clear.
    induction keys as [| k keys IH]; cbn [flat_map]; [reflexivity |].
    rewrite filter_app, IH. f_equal.
    destruct (nth row (D k) VUndefined); reflexivity.
  - cbn [obj_keys map app]. clear -N.
    induction keys as [| k keys IH]; cbn [flat_map]; [constructor |].
    inversion N as [| ? ? Nk N']; subst.
    unfold obj_keys. rewrite map_app. apply NoDup_app.
    + destruct (is_present _); cbn; [constructor; [tauto | constructor] | constructor].
    + now apply IH.
    + intros k' I1 I2. apply obj_keys_flat_map in I2.
      destruct (is_present _); [| destruct I1]. destruct I1 as [<- | []]. tauto.
  - apply Forall_forall. intros [k v] I. cbn [fst].
    apply in_flat_map in I. destruct I as [k' [K I]].
    destruct (is_present _); [| destruct I]. destruct I as [[= <- _] | []].
    now apply W.
Qed.



(** *** Cells and records *)

Lemma Forall2_by_key {B : Type} (R : string -> B -> Prop) (d : B) (keys : list string) :
  forall l : list B,
    NoDup keys -> Forall2 R keys l ->
    exists P : string -> B, l = map P keys /\ forall k, In k keys -> R k (P k).
Proof.
  induction keys as [| k keys IH]; intros l N H.
  - inversion H; subst. exists (fun _ => d). split; [reflexivity | intros k []].
  - inversion H as [| ? b ? l' Hb H']; subst.
    inversion N as [| ? ? Nk N']; subst.
    destruct (IH l' N' H') as [P [-> HP]].
    exists (fun k' => if String.eqb k' k then b else P k'). split.
    + cbn. rewrite String.eqb_refl. f_equal. apply map_ext_in. intros k' I.
      destruct (String.eqb_spec k' k) as [-> | _]; [tauto | reflexivity].
    + intros k' [<- | I].
      * now rewrite String.eqb_refl.
      * destruct (String.eqb_spec k' k) as [-> | _]; [tauto | now apply HP].
Qed.

Lemma Forall2_nth {A B : Type} (R : A -> B -> Prop) (a : A) (b : B) (l : list A) :
  forall (l' : list B) (i : nat),
    Forall2 R l l' -> (i < length l)%nat -> R (nth i l a) (nth i l' b).
Proof.
  induction l as [| x l IH]; intros l' i H L; [cbn in L; lia |].
  inversion H; subst. destruct i as [| i]; cbn; [assumption |].
  apply IH; [assumption | cbn in L; lia].
Qed.

Lemma Forall2_length_eq {A B : Type} (R : A -> B -> Prop) (l : list A) (l' : list B) :
  Forall2 R l l' -> length l = length l'.
Proof. induction 1; cbn; congruence. Qed.

Lemma Forall2_rows {A B : Type} (R : A -> B -> Prop) (a : A) (g : nat -> B) (l : list A) :
  (forall i, (i < length l)%nat -> R (nth i l a) (g i)) ->
  Forall2 R l (map g (seq 0 (length l))).
Proof.
  revert g. induction l as [| x l IH]; intros g H; cbn; [constructor |].
  constructor; [exact (H 0%nat ltac:(cbn; lia)) |].
  rewrite <- seq_shift, map_map. apply IH.
  intros i L. exact (H (S i) ltac:(cbn; lia)).
Qed.

Lemma FieldType_code_round_trip (t : FieldType) :
  FieldType_of_code (FieldType_code t) = Some t /\ 0 <= FieldType_code t < 256.
Proof. destruct t; cbn; split; (reflexivity || lia). Qed.

Lemma strictEquals_kept (v d : value) :
  plain_value v = true -> strictEquals v d = true -> kept d = true.
Proof. destruct v, d; cbn; congruence. Qed.

Lemma flat_record_cell (r : JSObject) (key : string) :
  flat_record r ->
  match obj_get r key with
  | Some v => plain_value v = true /\ cell r key = v /\ ordinary_key key = true
              /\ In key (obj_keys r)
  | None => cell r key = VMissing
  end.
Proof.
  intros [_ P]. unfold cell. destruct (obj_get r key) as [v |] eqn:G; [| reflexivity].
  apply obj_get_Some_In in G. rewrite Forall_forall in P.
  destruct (P _ G) as [O Pv]. cbn in O, Pv.
  splits; [exact Pv | destruct v; try discriminate Pv; reflexivity | exact O |].
  change key with (fst (key, v)). now apply in_map.
Qed.

Lemma cell_missing_or_plain (r : JSObject) (key : string) :
  flat_record r -> cell r key = VMissing \/ plain_value (cell r key) = true.
Proof.
  intros H. pose proof (flat_record_cell r key H) as C.
  destruct (obj_get r key); [right | now left].
  destruct C as (P & -> & _). exact P.
Qed.

(** Rows rebuilt from columns whose cells were kept are the records of
    the batch. *)
Lemma restored_same_batch (records : list JSObject) (D : string -> list value) :
  Forall flat_record records ->
  (forall k, In k (sorted_keys records) ->
     Forall2 cell_kept (map (fun r => cell r k) records) (D k)) ->
  same_batch records
    (map (restored (sorted_keys records) D) (seq 0 (length records))).
Proof.
  intros F H. apply (Forall2_rows same_record []). intros i L key.
  set (r := nth i records []).
  assert (I : In r records) by (apply nth_In; exact L).
  assert (Fr : flat_record r) by (rewrite Forall_forall in F; now apply F).
  unfold restored. rewrite obj_get_flat_map. cbv zeta.
  pose proof (flat_record_cell r key Fr) as C.
  destruct (existsb (String.eqb key) (sorted_keys records)) eqn:K.
  - apply existsb_eqb_In in K. specialize (H key K).
    pose proof (Forall2_nth cell_kept VMissing VUndefined _ _ i H) as Hi.
    rewrite length_map in Hi. specialize (Hi L).
    change VMissing with ((fun r => cell r key) []) in Hi at 1.
    rewrite map_nth in Hi. fold r in Hi. cbn [andb].
    destruct (obj_get r key) as [v |].
    + destruct C as (P & Cv & _). rewrite Cv in Hi.
      assert (S : strictEquals v (nth i (D key) VUndefined) = true)
        by (destruct v; try discriminate P; exact Hi).
      now rewrite (strictEquals_kept _ _ P S).
    + rewrite C in Hi. cbn in Hi. now rewrite Hi.
  - cbn [andb]. destruct (obj_get r key) as [v |]; [| exact Logic.I].
    destruct C as (_ & _ & _ & Ik).
    apply existsb_eqb_false in K. apply K, sorted_keys_In. now exists r.
Qed.


(** *** [compress], then [decompress] *)

Lemma match_head {A B : Type} (l : list A) (x : B) (f : A -> B) (y : B) :
  l <> [] -> (forall a, In a l -> f a = y) ->
  match l with [] => x | a :: _ => f a end = y.
Proof.
  intros N H. destruct l as [| a l]; [congruence |]. apply H. now left.
Qed.

Section RoundTrip.

Variable registry : CodecRegistry.t.
Variable detectType : list value -> FieldType.
Variable version : Z.
Variable brotliDecompressSync : Buffer -> result Buffer.

Lemma prepareColumn_ok (schema : list (string * FieldType)) (k : string)
      (values : list value) (p : FieldSchema * Buffer) :
  SemanticCompressor.prepareColumn registry schema (k, values) = OK p ->
  exists (t : FieldType) (c : IFieldCodec) (dec : list value),
    registry t = Some c
    /\ NullableCodecWrapper.encode c values = OK (snd p)
    /\ NullableCodecWrapper.decode c (snd p) = OK dec
    /\ JSON_same_text values dec = true
    /\ fst p = {| field_name := k; field_type := FieldType_code t;
                  field_byteLength := length (snd p) |}.
Proof.
  unfold SemanticCompressor.prepareColumn.
  destruct (obj_get schema k) as [t |]; [| discriminate].
  unfold SemanticCompressor.resolveCodec, CodecRegistry.get.
  destruct (registry t) as [c |] eqn:C; [| discriminate]. cbn [bind].
  destruct (NullableCodecWrapper.encode c values) as [e | ] eqn:En; [| discriminate].
  cbn [bind].
  destruct (NullableCodecWrapper.decode c e) as [dec | ] eqn:De; [| discriminate].
  cbn [bind].
  destruct (JSON_same_text values dec) eqn:J; cbn [negb]; [| discriminate].
  intros H. apply OK_inj in H. subst p. cbn [fst snd].
  exists t, c, dec. splits; auto.
Qed.

Lemma sorted_keys_ordinary (records : list JSObject) :
  Forall flat_record records ->
  Forall (fun k => ordinary_key k = true) (sorted_keys records).
Proof.
  intros FR. apply Forall_forall. intros k K. apply sorted_keys_In in K.
  destruct K as [r [Ir Ik]]. rewrite Forall_forall in FR.
  destruct (FR r Ir) as [_ P]. unfold obj_keys in Ik. apply in_map_iff in Ik.
  destruct Ik as [[k' v] [<- Ikv]]. rewrite Forall_forall in P.
  now destruct (P _ Ikv).
Qed.

Lemma sorted_keys_not_empty (records : list JSObject) :
  (exists r, In r records /\ r <> []) -> sorted_keys records <> [].
Proof.
  intros [r0 [I0 N0]]. destruct r0 as [| [k v] r0]; [congruence |].
  assert (K : In k (sorted_keys records))
    by (apply sorted_keys_In; exists ((k, v) :: r0); cbn; auto).
  destruct (sorted_keys records); [destruct K | discriminate].
Qed.

(** What [prepareData] returns on a batch of flat records: one field and
    one buffer per sorted key, and for each the column that [decompress]
    will decode from the buffer, cell by cell the column that was encoded. *)
Lemma prepareData_flat (records : list JSObject)
      (fields : list FieldSchema) (columnBuffers : list Buffer) :
  Forall flat_record records ->
  records <> [] ->
  (forall (k : string) (c : IFieldCodec) (b : Buffer) (ds : list value),
     In k (sorted_keys records) -> (exists t, registry t = Some c) ->
     let present := filter is_present (map (fun r => cell r k) records) in
     (forall v, In v present -> exists r, In r records /\ In v (map snd r)) ->
     Z.of_nat (length present) < 2 ^ 32 ->
     codec_encode c present = OK b -> codec_decode c b = OK ds ->
     JSON_same_text present ds = true ->
     Forall2 (fun v d => v = VNull -> d = VNull) present ds) ->
  SemanticCompressor.prepareData registry detectType records
  = OK (fields, columnBuffers) ->
  exists P : string -> FieldSchema * Buffer,
    fields = map (fun k => fst (P k)) (sorted_keys records)
    /\ columnBuffers = map (fun k => snd (P k)) (sorted_keys records)
    /\ forall k, In k (sorted_keys records) ->
         field_name (fst (P k)) = k
         /\ field_byteLength (fst (P k)) = length (snd (P k))
         /\ 0 <= field_type (fst (P k)) < 256
         /\ (exists t c, FieldType_of_code (field_type (fst (P k))) = Some t
                         /\ registry t = Some c
                         /\ NullableCodecWrapper.decode c (snd (P k))
                            = OK (redecode registry (P k)))
         /\ Forall2 cell_kept (map (fun r => cell r k) records)
                    (redecode registry (P k)).
Proof.
  intros FR NE Hnull C.
  set (keys := sorted_keys records) in *.
  assert (ND : NoDup keys) by apply sorted_keys_NoDup.
  assert (PD : SemanticCompressor.prepareData registry detectType records
               = (do columns <- SemanticCompressor.pivot records;
                  let schema := SemanticCompressor.buildSchema detectType columns in
                  do prepared <- mapM (SemanticCompressor.prepareColumn registry schema)
                                      columns;
                  OK (map fst prepared, map snd prepared)))
    by (destruct records; [congruence | reflexivity]).
  rewrite PD in C. clear PD.
  rewrite (pivot_flat records NE FR) in C. cbn [bind] in C. cbv zeta in C.
  fold keys in C.
  set (col := fun k => map (fun r => cell r k) records) in *.
  set (schema := SemanticCompressor.buildSchema detectType _) in C.
  rewrite mapM_map in C.
  change (mapM (fun a => SemanticCompressor.prepareColumn registry schema
                            (a, map (fun r => cell r a) records)) keys)
    with (mapM (fun k => SemanticCompressor.prepareColumn registry schema (k, col k))
               keys) in C.
  destruct (mapM (fun k => SemanticCompressor.prepareColumn registry schema (k, col k))
                 keys) as [prepared | e] eqn:M; [| discriminate C].
  cbn [bind] in C.
  apply mapM_ok_Forall2 in M.
  destruct (Forall2_by_key _ ({| field_name := EmptyString; field_type := 0;
                                  field_byteLength := O |}, []) keys prepared ND M)
    as [P [-> HP]].
  clear M. rewrite !map_map in C. apply OK_inj in C.
  exists P. split; [now injection C | split; [now injection C |]].
  clear C fields columnBuffers.
  intros k K. pose proof (prepareColumn_ok _ _ _ _ (HP k K)) as PC.
  destruct (P k) as [f enc]. cbn [fst snd] in *.
  destruct PC as (t & c & dec & Hc & He & Hd & HJ & Hf). subst f.
  destruct (FieldType_code_round_trip t) as [Ht Hr].
  assert (ED : redecode registry ({| field_name := k; field_type := FieldType_code t;
                            field_byteLength := length enc |}, enc) = dec).
  { unfold redecode. cbn [fst snd field_type]. now rewrite Ht, Hc, Hd. }
  cbn [field_name field_byteLength field_type].
  split; [reflexivity | split; [reflexivity | split; [exact Hr | split]]].
  - exists t, c. rewrite ED. auto.
  - rewrite ED.
    assert (CN : col k <> []).
    { unfold col. destruct records; [congruence | discriminate]. }
    destruct (wrapper_round_trip c (col k) enc CN He)
      as (payload & Hp & Hlen & Hw).
    rewrite Hw in Hd.
    destruct (codec_decode c payload) as [ds | e] eqn:Hds; [| discriminate Hd].
    cbn [bind] in Hd.
    destruct (length (filter is_present (col k)) =? length ds)%nat eqn:L;
      cbn [negb] in Hd; [| discriminate Hd].
    apply Nat.eqb_eq in L. apply OK_inj in Hd. subst dec.
    apply JSON_same_text_items in HJ.
    pose proof (reinterleave_items (col k) ds (eq_sym L) HJ) as HI.
    assert (CP : Forall (fun v => v = VMissing \/ plain_value v = true) (col k)).
    { apply Forall_forall. intros v V. unfold col in V. apply in_map_iff in V.
      destruct V as [r [<- Ir]]. apply cell_missing_or_plain.
      rewrite Forall_forall in FR. now apply FR. }
    apply reinterleave_cells; [exact CP | exact HI |].
    apply (Hnull k c payload ds K); [now exists t | | | exact Hp | exact Hds |].
    + intros v V. apply filter_In in V. destruct V as [V S].
      apply in_map_iff in V. destruct V as [r [Ev Ir]]. exists r. split; [exact Ir |].
      unfold cell in Ev. destruct (obj_get r k) as [w |] eqn:G;
        [| subst v; discriminate S].
      apply obj_get_Some_In in G.
      assert (w = v) by (destruct w; congruence || (subst v; discriminate S)).
      subst w. change v with (snd (k, v)). now apply in_map.
    + pose proof (filter_length_le is_present (map (fun r => cell r k) records)) as FL.
      unfold col in Hlen. cbv zeta. lia.
    + now apply JSON_same_text_items.
Qed.

(** [decompress] on a header followed by the stored columns, for either
    magic text. *)
Lemma decompress_stored (keys : list string) (F : string -> FieldSchema)
      (E : string -> Buffer) (D : string -> list value) (isColumnarBrotli : bool)
      (hdr buffer : Buffer) (n : nat) :
  NoDup keys -> keys <> [] -> Forall (fun k => ordinary_key k = true) keys ->
  (forall k, In k keys ->
     field_name (F k) = k /\ field_byteLength (F k) = length (E k)
     /\ 0 <= field_type (F k) < 256
     /\ (exists t c column,
           FieldType_of_code (field_type (F k)) = Some t
           /\ registry t = Some c
           /\ (if isColumnarBrotli then brotliDecompressSync (E k) else OK (E k))
              = OK column
           /\ NullableCodecWrapper.decode c column = OK (D k))
     /\ length (D k) = n) ->
  HeaderEncoder.encode version (map F keys) = OK hdr ->
  buffer = (if isColumnarBrotli then HeaderEncoder.magic_brotli else HeaderEncoder.magic)
           ++ skipn 4 hdr ++ concat (map E keys) ->
  SemanticCompressor.decompress registry brotliDecompressSync buffer
  = OK (map (restored keys D) (seq 0 n)).
Proof.
  intros ND KN KO Facts H C.
  remember (map F keys) as fields eqn:EF.
  remember (map E keys) as columnBuffers eqn:EB.
  assert (LF : length fields = length keys) by (subst fields; apply length_map).
  unfold HeaderEncoder.encode in H. unfold writeUInt16LE in H.
  destruct ((0 <=? Z.of_nat (length fields)) && (Z.of_nat (length fields) <? 2 ^ 16))%bool
    eqn:R; [| discriminate H].
  apply andb_true_iff in R. destruct R as [_ R]. apply Z.ltb_lt in R.
  cbn [bind] in H.
  destruct (mapM HeaderEncoder.encode_field fields) as [parts | e] eqn:MP;
    [| discriminate H].
  cbn [bind] in H. apply OK_inj in H.
  set (mg := if isColumnarBrotli then HeaderEncoder.magic_brotli
             else HeaderEncoder.magic) in *.
  assert (B : buffer
              = mg ++ version mod 256
                   :: Z.of_nat (length fields) mod 256
                   :: Z.of_nat (length fields) / 256 mod 256
                   :: concat parts ++ concat columnBuffers).
  { subst buffer hdr. reflexivity. }
  clear C H hdr.
  assert (S7 : skipn 7 buffer = concat parts ++ concat columnBuffers)
    by (rewrite B; unfold mg; destruct isColumnarBrotli; reflexivity).
  assert (RF : SemanticCompressor.read_fields (length fields) buffer 7
               = OK (fields, (7 + length (concat parts))%nat)).
  { apply (read_fields_encoded _ parts buffer 7 (concat columnBuffers) MP); [| exact S7].
    apply Forall_forall. intros f If. rewrite EF in If. apply in_map_iff in If.
    destruct If as [k [<- K]]. destruct (Facts k K) as (Hn & _ & Ht & _).
    rewrite Hn. rewrite Forall_forall in KO.
    destruct (ordinary_key_spec k (KO k K)) as (_ & KL & KW & _).
    split; [exact KL | split; [exact Ht | exact KW]]. }
  assert (FN : fields <> []).
  { intros Z. rewrite Z in LF. destruct keys; [congruence | discriminate LF]. }
  assert (L8 : (length buffer <? 8)%nat = false).
  { apply Nat.ltb_ge. destruct fields as [| f0 fields']; [congruence |].
    cbn [mapM] in MP.
    destruct (HeaderEncoder.encode_field f0) as [p0 | e] eqn:E0; [| discriminate MP].
    cbn [bind] in MP.
    destruct (mapM HeaderEncoder.encode_field fields') as [ps | e]; [| discriminate MP].
    cbn [bind] in MP. apply OK_inj in MP. subst parts.
    unfold HeaderEncoder.encode_field in E0.
    destruct (writeUInt32LE _) as [lenBuf | e]; [| discriminate E0].
    cbn [bind] in E0. apply OK_inj in E0. subst p0.
    rewrite B. unfold mg.
    destruct isColumnarBrotli; cbn [length concat Buffer_concat app
                                      HeaderEncoder.magic HeaderEncoder.magic_brotli]; lia. }
  unfold SemanticCompressor.decompress. rewrite L8.
  assert (MG : Buffer_slice buffer 0 4 = mg)
    by (rewrite B; unfold mg; destruct isColumnarBrotli; reflexivity).
  rewrite MG.
  assert (M1 : (negb (forallb2_eq mg HeaderEncoder.magic)
                && negb (forallb2_eq mg HeaderEncoder.magic_brotli))%bool = false)
    by (unfold mg; destruct isColumnarBrotli; reflexivity).
  assert (M2 : forallb2_eq mg HeaderEncoder.magic_brotli = isColumnarBrotli)
    by (unfold mg; destruct isColumnarBrotli; reflexivity).
  rewrite M1, M2.
  assert (FC : Z.to_nat (le_value (Buffer_slice buffer 5 7)) = length fields).
  { assert (S5 : Buffer_slice buffer 5 7
                 = [Z.of_nat (length fields) mod 256;
                    Z.of_nat (length fields) / 256 mod 256])
      by (rewrite B; unfold mg; destruct isColumnarBrotli; reflexivity).
    rewrite S5. cbn [le_value].
    replace (Z.of_nat (length fields) mod 256
             + 256 * (Z.of_nat (length fields) / 256 mod 256 + 256 * 0))
      with (Z.of_nat (length fields)); [apply Nat2Z.id |].
    change (2 ^ 16) with 65536 in R. zlia. }
  rewrite FC, RF. cbn [bind].
  assert (RC : SemanticCompressor.read_columns registry brotliDecompressSync
                 isColumnarBrotli fields buffer (7 + length (concat parts)) []
               = OK (map (fun k => (k, D k)) keys)).
  { rewrite EF.
    apply (read_columns_decoded registry brotliDecompressSync F E D isColumnarBrotli
             keys buffer _ [] []).
    - exact ND.
    - apply Forall_forall. intros k K. rewrite Forall_forall in KO.
      now apply ordinary_key_spec, KO.
    - intros k K. destruct (Facts k K) as (Hn & Hl & _ & Hc & _). auto.
    - rewrite app_nil_r.
      pose proof (skipn_chunk buffer 7 (concat parts) _ S7) as S.
      rewrite EB in S. exact S. }
  rewrite RC.
  apply match_head; [exact FN |]. intros first If. cbn [bind].
  rewrite EF in If. apply in_map_iff in If. destruct If as [k0 [E0 K0]].
  destruct (Facts k0 K0) as (Hn0 & _ & _ & _ & HL0).
  rewrite <- E0, Hn0, obj_get_map_In by exact K0. rewrite HL0.
  rewrite mapM_map.
  apply mapM_OK_map. intros row _. rewrite EF.
  apply (unflatten_flatRecord F D keys row ND); [| exact KO].
  intros k K. now destruct (Facts k K).
Qed.

Lemma header_magic (fields : list FieldSchema) (hdr : Buffer) :
  HeaderEncoder.encode version fields = OK hdr ->
  hdr = HeaderEncoder.magic ++ skipn 4 hdr.
Proof.
  unfold HeaderEncoder.encode.
  destruct (writeUInt16LE _) as [fc | e]; [| discriminate]. cbn [bind].
  destruct (mapM HeaderEncoder.encode_field fields) as [parts | e]; [| discriminate].
  cbn [bind]. intros H. apply OK_inj in H. subst hdr. reflexivity.
Qed.

Lemma round_trip_cells (records : list JSObject) (buffer : Buffer) :
  Forall flat_record records ->
  (exists r, In r records /\ r <> []) ->
  (forall (k : string) (c : IFieldCodec) (b : Buffer) (ds : list value),
     In k (sorted_keys records) -> (exists t, registry t = Some c) ->
     let present := filter is_present (map (fun r => cell r k) records) in
     (forall v, In v present -> exists r, In r records /\ In v (map snd r)) ->
     Z.of_nat (length present) < 2 ^ 32 ->
     codec_encode c present = OK b -> codec_decode c b = OK ds ->
     JSON_same_text present ds = true ->
     Forall2 (fun v d => v = VNull -> d = VNull) present ds) ->
  SemanticCompressor.compress registry detectType version records = OK buffer ->
  exists D : string -> list value,
    SemanticCompressor.decompress registry brotliDecompressSync buffer
    = OK (map (restored (sorted_keys records) D) (seq 0 (length records)))
    /\ forall k, In k (sorted_keys records) ->
         Forall2 cell_kept (map (fun r => cell r k) records) (D k).
Proof.
  intros FR NK Hnull C.
  assert (NE : records <> [])
    by (destruct NK as [r0 [I0 _]]; destruct records; [destruct I0 | discriminate]).
  unfold SemanticCompressor.compress in C.
  destruct (SemanticCompressor.prepareData registry detectType records)
    as [[fields columnBuffers] | e] eqn:PD; [| discriminate C].
  cbn [bind] in C.
  destruct (prepareData_flat records fields columnBuffers FR NE Hnull PD)
    as (P & -> & -> & Facts).
  destruct (HeaderEncoder.encode version _) as [hdr | e] eqn:H; [| discriminate C].
  cbn [bind] in C. apply OK_inj in C.
  exists (fun k => redecode registry (P k)).
  split; [| intros k K; now apply Facts].
  apply (decompress_stored (sorted_keys records) (fun k => fst (P k))
           (fun k => snd (P k)) _ false hdr).
  - apply sorted_keys_NoDup.
  - now apply sorted_keys_not_empty.
  - now apply sorted_keys_ordinary.
  - intros k K. destruct (Facts k K) as (Hn & Hl & Ht & (t & c & H1 & H2 & H3) & HC).
    split; [exact Hn | split; [exact Hl | split; [exact Ht | split]]].
    + exists t, c, (snd (P k)). auto.
    + rewrite <- (Forall2_length_eq _ _ _ HC). apply length_map.
  - exact H.
  - subst buffer. cbn [Buffer_concat concat].
    rewrite (header_magic _ _ H) at 1. now rewrite <- app_assoc.
Qed.

Lemma round_trip_columns (records : list JSObject) (buffer : Buffer) :
  Forall flat_record records ->
  (exists r, In r records /\ r <> []) ->
  (forall (k : string) (c : IFieldCodec) (b : Buffer) (ds : list value),
     In k (sorted_keys records) -> (exists t, registry t = Some c) ->
     let present := filter is_present (map (fun r => cell r k) records) in
     codec_encode c present = OK b -> codec_decode c b = OK ds ->
     JSON_same_text present ds = true ->
     Forall2 (fun v d => v = VNull -> d = VNull) present ds) ->
  SemanticCompressor.compress registry detectType version records = OK buffer ->
  exists D : string -> list value,
    SemanticCompressor.decompress registry brotliDecompressSync buffer
    = OK (map (restored (sorted_keys records) D) (seq 0 (length records)))
    /\ forall k, In k (sorted_keys records) ->
         Forall2 cell_kept (map (fun r => cell r k) records) (D k).
Proof.
  intros FR NK Hnull. apply round_trip_cells; [exact FR | exact NK |].
  intros k c b ds K T present _ _. now apply Hnull.
Qed.

End RoundTrip.

(** *** The round trip of a batch *)

Lemma pivot_empty_records (n : nat) :
  SemanticCompressor.pivot (repeat [] n) = OK [].
Proof.
  unfold SemanticCompressor.pivot.
  assert (K : forall keys : list string,
             fold_left (fun keys (r : JSObject) => fold_left set_add (obj_keys r) keys)
                       (repeat [] n) keys = keys)
    by (induction n as [| n IH]; intros keys; [reflexivity | apply IH]).
  rewrite K. cbn [sort_strings fold_right].
  assert (M : mapM (fun r => do flat <- SemanticCompressor.sparse [] r;
                             ObjectFlattener.flatten flat) (repeat [] n)
              = OK (repeat [] n)).
  { clear K. induction n as [| n IH]; [reflexivity |].
    cbn [repeat mapM]. rewrite IH. reflexivity. }
  rewrite M. cbn [bind]. rewrite K.
  unfold SemanticCompressor.backfill. cbn [fold_left]. rewrite map_id.
  unfold ColumnBuilder.build. clear.
  induction n as [| n IH]; [reflexivity | exact IH].
Qed.

(** C1 -- [decompress] does not undo [compress] on a batch of empty
    records.  Whatever the registry, the profiler and the version,
    [compress] answers a batch of one or more records without keys with the
    seven bytes of a header that lists no field, and [decompress] rejects
    these seven bytes as an "Invalid SAJC buffer", for it asks for eight:
    the batch [[{}]] is not restored, against the round trip that the
    specification states for every non-empty batch. *)
Theorem SemanticCompressor_empty_records_not_restored
        (registry : CodecRegistry.t) (detectType : list value -> FieldType)
        (version : Z) (brotliDecompressSync : Buffer -> result Buffer) (n : nat) :
  SemanticCompressor.compress registry detectType version (repeat [] (S n))
  = OK [83; 65; 74; 67; version mod 256; 0; 0]
  /\ SemanticCompressor.decompress registry brotliDecompressSync
       [83; 65; 74; 67; version mod 256; 0; 0]
     = Err (Truncated "Invalid SAJC buffer").
Proof.
  split; [| reflexivity].
  unfold SemanticCompressor.compress.
  assert (P : SemanticCompressor.prepareData registry detectType (repeat [] (S n))
              = OK ([], [])).
  { change (SemanticCompressor.prepareData registry detectType (repeat [] (S n)))
      with (do columns <- SemanticCompressor.pivot (repeat [] (S n));
            let schema := SemanticCompressor.buildSchema detectType columns in
            do prepared <- mapM (SemanticCompressor.prepareColumn registry schema)
                                columns;
            OK (map fst prepared, map snd prepared)).
    now rewrite pivot_empty_records. }
  rewrite P. reflexivity.
Qed.

(** The batch of the documentation, [{a: 1, b: null}, {a: 2}], comes back
    as it was: [b] is [null] in the first record and absent from the second. *)
Lemma SemanticCompressor_documented_batch :
  let registry := defaultRegistry (fun _ => None) (fun _ => EmptyString) in
  let detectType := FieldProfiler.detectType (fun _ => None) in
  let records := [[("a", VNum 1); ("b", VNull)]; [("a", VNum 2)]]%string in
  exists buffer : Buffer,
    SemanticCompressor.compress registry detectType 1 records = OK buffer
    /\ SemanticCompressor.decompress registry (fun b => OK b) buffer = OK records.
Proof.
  eexists. split; [vm_compute; reflexivity | vm_compute; reflexivity].
Qed.


(** ** The 70 % threshold in binary64 *)









Ltac pow_consts :=
  repeat match goal with
         | |- context [2 ^ ?e] =>
             let v := eval vm_compute in (2 ^ e) in
             progress change (2 ^ e) with v
         | H : context [2 ^ ?e] |- _ =>
             let v := eval vm_compute in (2 ^ e) in
             progress change (2 ^ e) with v in H
         end.



(** ** AdaptiveStringCodec: the three modes *)

Lemma distinct_loop_from (values : list value) :
  forall (unique : list value) (u : value),
    In u (distinct_loop values unique) -> In u unique \/ In u values.
Proof.
  induction values as [| v values IH]; intros unique u H; cbn in H.
  - now left.
  - destruct (existsb (sameValueZero v) unique).
    + destruct (IH _ _ H); [now left | right; now right].
    + destruct (IH _ _ H) as [I | I]; [| right; now right].
      apply in_app_iff in I. destruct I as [I | [<- | []]]; [now left |].
      right. now left.
Qed.

Lemma distinct_loop_length (values : list value) :
  forall unique : list value,
    (length (distinct_loop values unique) <= length unique + length values)%nat.
Proof.
  induction values as [| v values IH]; intros unique; cbn; [lia |].
  destruct (existsb (sameValueZero v) unique).
  - specialize (IH unique). lia.
  - specialize (IH (unique ++ [v])). rewrite length_app in IH. cbn in IH. lia.
Qed.

Lemma Varint_encode_varint (z : Z) : 0 <= z -> Varint.encode z = OK (varint z).
Proof.
  intros H. unfold Varint.encode.
  now rewrite (proj2 (Z.ltb_ge z 0) H).
Qed.

Lemma entry_raw_entry (v : value) :
  string_or_null v = true -> AdaptiveStringCodec.entry v = OK (raw_entry v).
Proof.
  destruct v; try discriminate; intros _; cbn [AdaptiveStringCodec.entry raw_entry].
  - now apply Varint_encode_varint.
  - rewrite Varint_encode_varint by lia. reflexivity.
Qed.

Lemma mapM_pure {A B : Type} (f : A -> result B) (g : A -> B) (l : list A) :
  Forall (fun a => f a = OK (g a)) l -> mapM f l = OK (map g l).
Proof.
  induction 1 as [| a l Ha _ IH]; cbn; [reflexivity |].
  now rewrite Ha, IH.
Qed.

Lemma add_run_more (x c : Z) (rs : list (Z * Z)) :
  add_run x c (add_run x 1 rs) = add_run x (c + 1) rs.
Proof.
  destruct rs as [| [y d] more]; cbn [add_run].
  - rewrite Z.eqb_refl. f_equal. f_equal. lia.
  - destruct (Z.eqb_spec x y) as [-> | N]; cbn [add_run].
    + rewrite Z.eqb_refl. f_equal. f_equal. lia.
    + rewrite Z.eqb_refl. f_equal. f_equal. lia.
Qed.

Lemma add_run_other (x c y : Z) (rs : list (Z * Z)) :
  x <> y -> add_run x c (add_run y 1 rs) = (x, c) :: add_run y 1 rs.
Proof.
  intros N. destruct rs as [| [z d] more]; cbn [add_run].
  - now rewrite (proj2 (Z.eqb_neq x y) N).
  - destruct (Z.eqb_spec y z) as [-> | _]; cbn [add_run];
      now rewrite (proj2 (Z.eqb_neq _ _) N).
Qed.

(** The loop of the run-length stream writes the runs of the indices. *)
Lemma rle_loop_runs (indices : list Z) :
  forall currentIdx currentRun : Z,
    0 <= currentIdx -> 0 < currentRun -> Forall (fun i => 0 <= i) indices ->
    AdaptiveStringCodec.rle_loop indices currentIdx currentRun
    = OK (flat_map (fun '(i, c) => [varint i; varint c])
                   (add_run currentIdx currentRun (runs indices))).
Proof.
  induction indices as [| idx indices IH]; intros cur run Hc Hr F;
    cbn [AdaptiveStringCodec.rle_loop runs].
  - rewrite !Varint_encode_varint by lia. reflexivity.
  - inversion F as [| ? ? Hi F']; subst.
    destruct (Z.eqb_spec idx cur) as [-> | N].
    + rewrite IH by (try assumption; lia). now rewrite add_run_more.
    + rewrite !Varint_encode_varint by lia. cbn [bind].
      rewrite IH by (try assumption; lia). cbn [bind].
      rewrite add_run_other by congruence. reflexivity.
Qed.

Lemma rle_runs (indices : list Z) :
  Forall (fun i => 0 <= i) indices ->
  AdaptiveStringCodec.rle indices
  = OK (flat_map (fun '(i, c) => [varint i; varint c]) (runs indices)).
Proof.
  intros F. destruct indices as [| first rest]; [reflexivity |].
  inversion F; subst. cbn [AdaptiveStringCodec.rle runs].
  now apply rle_loop_runs.
Qed.

Lemma concat_run_buffers (rs : list (Z * Z)) :
  concat (flat_map (fun '(i, c) => [varint i; varint c]) rs)
  = flat_map (fun '(i, c) => varint i ++ varint c) rs.
Proof.
  induction rs as [| [i c] rs IH]; [reflexivity |].
  cbn [flat_map app concat]. now rewrite IH, app_assoc.
Qed.

Lemma indices_of_nonneg (values unique : list value) :
  Forall (fun i => 0 <= i) (AdaptiveStringCodec.indices_of values unique).
Proof.
  unfold AdaptiveStringCodec.indices_of. apply Forall_forall. intros i I.
  apply in_map_iff in I. destruct I as [v [<- _]].
  destruct (index_of v unique) as [k |] eqn:K; [| lia].
  apply index_of_bound in K. lia.
Qed.




(** *** The layout of the three modes *)

(** The output of [encode], with the test of the heuristic left as the
    code evaluates it. *)
Lemma encode_layout (values : list value) :
  values <> [] ->
  Forall (fun v => string_or_null v = true) values ->
  let unique := distinct values in
  let indices := AdaptiveStringCodec.indices_of values unique in
  let dictHeader := varint (Z.of_nat (length unique)) ++ flat_map raw_entry unique in
  let standard := flat_map varint indices in
  let runLength := flat_map (fun '(i, c) => varint i ++ varint c) (runs indices) in
  AdaptiveStringCodec.encode values
  = OK (if AdaptiveStringCodec.isDictionaryBetter (length unique) (length values)
        then if (length runLength <? length standard)%nat
             then 0x02 :: dictHeader ++ runLength
             else 0x01 :: dictHeader ++ standard
        else 0x00 :: flat_map raw_entry values).
Proof.
  intros NE F. cbv zeta.
  assert (FU : Forall (fun v => string_or_null v = true) (distinct values)).
  { apply Forall_forall. intros u I.
    destruct (distinct_loop_from values [] u I) as [[] | I'].
    rewrite Forall_forall in F. now apply F. }
  assert (E : AdaptiveStringCodec.encode values
              = (let uniqueStrings := distinct values in
                 if negb (AdaptiveStringCodec.isDictionaryBetter (length uniqueStrings)
                            (length values))
                 then do buffers <- mapM AdaptiveStringCodec.entry values;
                      OK (Buffer_concat ([0x00] :: buffers))
                 else
                   do sizeBuf <- Varint.encode (Z.of_nat (length uniqueStrings));
                   do entries <- mapM AdaptiveStringCodec.entry uniqueStrings;
                   let dictHeader := Buffer_concat (sizeBuf :: entries) in
                   let indices := AdaptiveStringCodec.indices_of values uniqueStrings in
                   do standardIndicesBuffers <- mapM Varint.encode indices;
                   let standardSize := length (Buffer_concat standardIndicesBuffers) in
                   do rleBuffers <- AdaptiveStringCodec.rle indices;
                   let rleSize := length (Buffer_concat rleBuffers) in
                   if (rleSize <? standardSize)%nat
                   then OK (Buffer_concat ([0x02] :: dictHeader :: rleBuffers))
                   else OK (Buffer_concat ([0x01] :: dictHeader :: standardIndicesBuffers))))
    by (destruct values; [congruence | reflexivity]).
  rewrite E. clear E. cbv zeta.
  set (unique := distinct values) in *.
  set (indices := AdaptiveStringCodec.indices_of values unique).
  destruct (AdaptiveStringCodec.isDictionaryBetter (length unique) (length values));
    cbn [negb].
  - rewrite Varint_encode_varint by lia. cbn [bind].
    rewrite (mapM_pure _ raw_entry unique)
      by (eapply Forall_impl; [| exact FU]; intros a; apply entry_raw_entry).
    cbn [bind].
    rewrite (mapM_pure _ varint indices)
      by (eapply Forall_impl; [| apply indices_of_nonneg]; intros a;
          apply Varint_encode_varint).
    cbn [bind].
    rewrite rle_runs by apply indices_of_nonneg. cbn [bind].
    unfold Buffer_concat. rewrite concat_run_buffers, <- !flat_map_concat_map.
    destruct (length _ <? length _)%nat; cbn [concat app];
      rewrite ?concat_run_buffers, <- ?flat_map_concat_map, <- ?app_assoc; reflexivity.
  - rewrite (mapM_pure _ raw_entry values)
      by (eapply Forall_impl; [| exact F]; intros a; apply entry_raw_entry).
    cbn [bind Buffer_concat concat app]. now rewrite <- flat_map_concat_map.
Qed.


(** ** Codecs that keep [null] *)

Lemma honest_null (d : value) :
  honest d = true -> json_eqb JNull (json_item d) = true -> d = VNull.
Proof.
  destruct d; cbn; try discriminate; [reflexivity |].
  unfold json_item. cbn. intros ->. discriminate.
Qed.

(** A codec whose decoded values are never [undefined], MISSING, NaN or an
    infinity keeps [null]. *)
Lemma honest_keeps_null (codec : IFieldCodec) :
  (forall (values : list value) (encoded : Buffer) (decoded : list value),
     codec_encode codec values = OK encoded ->
     codec_decode codec encoded = OK decoded ->
     Forall (fun d => honest d = true) decoded) ->
  keeps_null codec.
Proof.
  intros H values encoded decoded P L E D J.
  specialize (H values encoded decoded E D).
  apply JSON_same_text_items in J. clear -H J.
  induction J as [| v d vs ds Jv _ IH]; constructor.
  - intros ->. inversion H; subst. now apply honest_null.
  - apply IH. now inversion H.
Qed.

Lemma BooleanCodec_keeps_null : keeps_null BooleanCodec.codec.
Proof.
  apply honest_keeps_null. intros values encoded decoded _ D. cbn in D.
  unfold BooleanCodec.decode in D.
  destruct encoded as [| b encoded]; [apply OK_inj in D; subst; constructor |].
  destruct (Varint.decode (b :: encoded) 0) as [[count bytesRead] | e];
    [| discriminate D].
  cbn [bind] in D. apply OK_inj in D. subst decoded.
  apply Forall_forall. intros d I. apply in_map_iff in I.
  destruct I as [i [<- _]]. reflexivity.
Qed.

Lemma UUIDCodec_keeps_null : keeps_null UUIDCodec.codec.
Proof.
  apply honest_keeps_null. intros values encoded decoded _ D. cbn in D.
  unfold UUIDCodec.decode in D. apply OK_inj in D. subst decoded.
  generalize (length encoded). intros fuel. revert encoded.
  induction fuel as [| fuel IH]; intros [| b encoded]; cbn [UUIDCodec.decode_loop];
    try constructor; [reflexivity | apply IH].
Qed.

Lemma TimestampCodec_keeps_null (Date_parse : string -> option Z)
      (Date_toISOString : Z -> string) :
  keeps_null (TimestampCodec.codec Date_parse Date_toISOString).
Proof.
  apply honest_keeps_null. intros values encoded decoded _ D. cbn in D.
  unfold TimestampCodec.decode in D.
  destruct (TimestampCodec.decode_values encoded) as [xs | e]; [| discriminate D].
  cbn [bind] in D. apply mapM_ok_Forall2 in D.
  induction D as [| x d xs ds Hx _ IH]; constructor; [| exact IH].
  unfold TimestampCodec.toISOString in Hx.
  destruct (TimeClip x); [| discriminate Hx]. apply OK_inj in Hx. now subst d.
Qed.


(** *** EnumCodec *)

Lemma Forall_skipn {A : Type} (P : A -> Prop) (n : nat) :
  forall l : list A, Forall P l -> Forall P (skipn n l).
Proof.
  induction n as [| n IH]; intros l H; [exact H |].
  destruct l as [| a l]; [constructor |]. inversion H; subst. now apply IH.
Qed.

Lemma Forall_pack_loop (values unique : list value) :
  forall (i : nat) (packed : Buffer),
    Forall is_byte packed -> Forall is_byte (EnumCodec.pack_loop values unique i packed).
Proof.
  induction values as [| v values IH]; intros i packed F; cbn [EnumCodec.pack_loop];
    [exact F |].
  apply IH. destruct (Nat.even i); [now apply Forall_Buffer_set |].
  destruct (Buffer_get packed (i / 2)); [now apply Forall_Buffer_set | exact F].
Qed.

Lemma Forall_concat {A : Type} (P : A -> Prop) (parts : list (list A)) :
  Forall (Forall P) parts -> Forall P (concat parts).
Proof.
  induction 1 as [| p parts Hp _ IH]; cbn; [constructor |].
  apply Forall_app. now split.
Qed.

Lemma EnumCodec_encode_bytes (values : list value) (encoded : Buffer) :
  EnumCodec.encode values = OK encoded -> Forall is_byte encoded.
Proof.
  unfold EnumCodec.encode. unfold writeUInt32LE.
  destruct ((0 <=? Z.of_nat (length values)) && (Z.of_nat (length values) <? 2 ^ 32))%bool;
    [| discriminate].
  cbn [bind].
  destruct (length values =? 0)%nat.
  { intros H. apply OK_inj in H. subst. apply Forall_le_bytes. }
  destruct (mapM EnumCodec.dict_entry (distinct values)) as [entries | e] eqn:M;
    [| discriminate].
  cbn [bind].
  assert (FE : Forall (Forall is_byte) entries).
  { apply mapM_ok_Forall2 in M. clear -M.
    induction M as [| u entry us es Hu _ IH]; constructor; [| exact IH].
    unfold EnumCodec.dict_entry in Hu.
    assert (S : forall s, (if (255 <=? length (utf8_bytes s))%nat
                           then Err EnumStringTooLong
                           else OK (Z.of_nat (length (utf8_bytes s)) :: utf8_bytes s))
                          = OK entry -> Forall is_byte entry).
    { intros s. destruct (Nat.leb_spec 255 (length (utf8_bytes s))); [discriminate |].
      intros E. apply OK_inj in E. subst entry.
      constructor; [unfold is_byte; lia | apply Forall_utf8_bytes]. }
    destruct u; lazy beta iota in Hu;
      try (destruct (EnumCodec.String_of _) as [s' | e]; [| discriminate Hu];
           cbn [bind] in Hu; now apply S in Hu).
    apply OK_inj in Hu. subst entry. constructor; [unfold is_byte; lia | constructor]. }
  assert (FU : is_byte (Z.of_nat (length (distinct values)) mod 256))
    by (unfold is_byte; zlia).
  destruct (16 <? length (distinct values))%nat; intros H; apply OK_inj in H; subst encoded;
    unfold Buffer_concat; cbn [app concat];
    (apply Forall_app; split; [apply Forall_le_bytes |]);
    (constructor; [exact FU |]);
    rewrite concat_app; (apply Forall_app; split; [now apply Forall_concat |]);
    cbn [concat]; rewrite app_nil_r.
  - unfold EnumCodec.index_bytes. apply Forall_forall. intros b I.
    apply in_map_iff in I. destruct I as [v [<- _]].
    destruct (index_of v (distinct values)); unfold is_byte; zlia.
  - apply Forall_pack_loop, Forall_Buffer_alloc.
Qed.

Lemma read_dictionary_honest (uniqueCount : nat) (buffer : Buffer) :
  forall (offset : nat) (dictionary : list value) (offset' : nat),
    EnumCodec.read_dictionary uniqueCount buffer offset = OK (dictionary, offset') ->
    length dictionary = uniqueCount /\ Forall (fun d => honest d = true) dictionary.
Proof.
  induction uniqueCount as [| n IH]; intros offset dictionary offset' H;
    cbn [EnumCodec.read_dictionary] in H.
  - apply OK_inj in H. injection H as <- _. split; [reflexivity | constructor].
  - destruct (Buffer_get buffer offset) as [len |]; [| discriminate H].
    destruct (len =? 255).
    + destruct (EnumCodec.read_dictionary n buffer (offset + 1)) as [[rest o] | e] eqn:R;
        [| discriminate H].
      cbn [bind] in H. apply OK_inj in H. injection H as <- _.
      destruct (IH _ _ _ R) as [L F]. split; [cbn; lia | now constructor].
    + destruct (length buffer <? offset + 1 + Z.to_nat len)%nat; [discriminate H |].
      destruct (EnumCodec.read_dictionary n buffer (offset + 1 + Z.to_nat len))
        as [[rest o] | e] eqn:R; [| discriminate H].
      cbn [bind] in H. apply OK_inj in H. injection H as <- _.
      destruct (IH _ _ _ R) as [L F]. split; [cbn; lia | now constructor].
Qed.

Lemma dictionary_entry_honest (dictionary : list value) (uniqueCount val : Z) :
  length dictionary = Z.to_nat uniqueCount ->
  Forall (fun d => honest d = true) dictionary ->
  0 <= val -> (uniqueCount <=? val) = false ->
  honest (nth (Z.to_nat val) dictionary VUndefined) = true.
Proof.
  intros L F V U. apply Z.leb_gt in U.
  rewrite Forall_forall in F. apply F, nth_In. lia.
Qed.

Lemma read_indices_honest (count : nat) (uniqueCount : Z) (dictionary : list value) :
  forall (indexBuf : Buffer) (decoded : list value),
    length dictionary = Z.to_nat uniqueCount ->
    Forall (fun d => honest d = true) dictionary ->
    Forall is_byte indexBuf ->
    EnumCodec.read_indices indexBuf count uniqueCount dictionary = OK decoded ->
    Forall (fun d => honest d = true) decoded.
Proof.
  induction count as [| n IH]; intros indexBuf decoded L F B H;
    destruct indexBuf as [| val rest]; cbn [EnumCodec.read_indices] in H;
    try (apply OK_inj in H; subst; constructor).
  - inversion B as [| ? ? Bv B']; subst.
    destruct (uniqueCount <=? val) eqn:U; [discriminate H |].
    destruct (EnumCodec.read_indices rest n uniqueCount dictionary) as [more | e] eqn:R;
      [| discriminate H].
    cbn [bind] in H. apply OK_inj in H. subst decoded. constructor.
    + apply (dictionary_entry_honest dictionary uniqueCount); try assumption.
      unfold is_byte in Bv. lia.
    + now apply (IH rest).
Qed.

Lemma read_nibbles_honest (rounds : nat) (packed : Buffer) (uniqueCount : Z)
      (dictionary : list value) :
  forall i remaining : nat,
    length dictionary = Z.to_nat uniqueCount ->
    Forall (fun d => honest d = true) dictionary ->
    Forall is_byte packed ->
    Forall (fun d => honest d = true)
           (EnumCodec.read_nibbles rounds packed i remaining uniqueCount dictionary).
Proof.
  induction rounds as [| rounds IH]; intros i remaining L F B;
    cbn [EnumCodec.read_nibbles]; [constructor |].
  destruct remaining as [| remaining]; [constructor |].
  destruct (Buffer_get packed (i / 2)) as [byte |] eqn:G; [| constructor].
  assert (Bb : is_byte byte).
  { unfold Buffer_get in G. apply nth_error_In in G.
    rewrite Forall_forall in B. now apply B. }
  unfold is_byte in Bb.
  set (val := if Nat.even i then Z.shiftr byte 4 else Z.land byte 15).
  assert (V : 0 <= val).
  { unfold val. destruct (Nat.even i);
      [apply Z.shiftr_nonneg | apply Z.land_nonneg]; lia. }
  destruct (uniqueCount <=? val) eqn:U; [constructor |].
  constructor; [now apply (dictionary_entry_honest dictionary uniqueCount) |].
  now apply IH.
Qed.

Lemma EnumCodec_keeps_null : keeps_null EnumCodec.codec.
Proof.
  apply honest_keeps_null. intros values encoded decoded E D. cbn in E, D.
  pose proof (EnumCodec_encode_bytes values encoded E) as B.
  unfold EnumCodec.decode in D.
  destruct (length encoded <? 4)%nat; [discriminate D |].
  destruct (readUInt32LE encoded 0) as [count | e]; [| discriminate D].
  cbn [bind] in D.
  destruct (count =? 0); [apply OK_inj in D; subst; constructor |].
  destruct (Buffer_get encoded 4) as [uniqueCount |]; [| discriminate D].
  destruct (EnumCodec.read_dictionary (Z.to_nat uniqueCount) encoded (4 + 1))
    as [[dictionary offset] | e] eqn:R; [| discriminate D].
  cbn [bind] in D.
  destruct (read_dictionary_honest _ _ _ _ _ R) as [L F].
  pose proof (Forall_skipn is_byte offset encoded B) as Bs.
  destruct (16 <? uniqueCount).
  - destruct (length (skipn offset encoded) <? Z.to_nat count)%nat; [discriminate D |].
    now apply (read_indices_honest _ _ _ _ _ L F Bs D).
  - destruct (length _ <? Z.to_nat count)%nat; [discriminate D |].
    apply OK_inj in D. subst decoded.
    now apply read_nibbles_honest.
Qed.


(** *** Varints, written and read *)

Lemma land_pow2_testbit (b k : Z) :
  0 <= k -> negb (Z.land b (2 ^ k) =? 0) = Z.testbit b k.
Proof.
  intros Hk. destruct (Z.testbit b k) eqn:T.
  - apply negb_true_iff, Z.eqb_neq. intros E.
    assert (F : Z.testbit (Z.land b (2 ^ k)) k = true)
      by (rewrite Z.land_spec, T, Z.pow2_bits_true by lia; reflexivity).
    rewrite E, Z.bits_0 in F. discriminate.
  - apply negb_false_iff, Z.eqb_eq. apply Z.bits_inj'. intros m Hm.
    rewrite Z.land_spec, Z.bits_0, Z.pow2_bits_eqb by lia.
    destruct (Z.eqb_spec k m) as [-> | Hne]; [now rewrite T | apply andb_false_r].
Qed.

Lemma testbit_7_low (b : Z) : 0 <= b < 128 -> Z.testbit b 7 = false.
Proof.
  intros H. apply Z.testbit_false; [lia |]. change (2 ^ 7) with 128. zlia.
Qed.

Lemma testbit_7_high (b : Z) : 0 <= b < 128 -> Z.testbit (b + 128) 7 = true.
Proof.
  intros H. apply Z.testbit_true; [lia |]. change (2 ^ 7) with 128. zlia.
Qed.

Lemma continues_testbit (byte : Z) :
  is_byte byte -> Varint.continues byte = Z.testbit byte 7.
Proof.
  intros H. unfold Varint.continues.
  change 128 with (js_shl 1 7). apply js_and_bit; [exact H | lia].
Qed.

Lemma js_or_80 (b : Z) : 0 <= b < 128 -> js_or b 0x80 = b + 128.
Proof.
  intros H. unfold js_or. rewrite (to_int32_small b), (to_int32_small 128) by lia.
  change 128 with (1 * 2 ^ 7) at 1. rewrite lor_shifted_group by (try lia; change (2 ^ 7) with 128; lia).
  change (1 * 2 ^ 7) with 128. apply to_int32_small. lia.
Qed.

Lemma js_shru_7 (v : Z) : 0 <= v < 2 ^ 32 -> js_shru v 7 = v / 128.
Proof.
  intros H. unfold js_shru, to_uint32. rewrite Z.mod_small by exact H.
  change (7 mod 32) with 7. rewrite Z.shiftr_div_pow2 by lia. reflexivity.
Qed.

(** Reading the bytes [Varint.encode] wrote gives the value back, and the
    number of bytes written. *)
Lemma decode_loop_encode_loop (fuel : nat) :
  forall (i : nat) (v acc : Z) (cnt : nat) (rest : Buffer),
    (i <= 4)%nat -> (5 <= i + fuel)%nat ->
    0 <= v < 2 ^ (32 - 7 * Z.of_nat i) ->
    0 <= to_uint32 acc < 2 ^ (7 * Z.of_nat i) ->
    Varint.decode_loop (Varint.encode_loop fuel v ++ rest) acc (7 * Z.of_nat i) cnt
    = OK (to_uint32 acc + v * 2 ^ (7 * Z.of_nat i),
          (cnt + length (Varint.encode_loop fuel v))%nat).
Proof.
  induction fuel as [| fuel IH]; intros i v acc cnt rest Hi Hf Hv Ha.
  - lia.
  - assert (V32 : 0 <= v < 2 ^ 32).
    { split; [lia |]. apply Z.lt_le_trans with (1 := proj2 Hv).
      apply Z.pow_le_mono_r; lia. }
    assert (S28 : 0 <= 7 * Z.of_nat i <= 28) by lia.
    cbn [Varint.encode_loop]. rewrite js_and_7f, js_shru_7 by exact V32.
    assert (Bm : 0 <= v mod 128 < 128) by (apply Z.mod_pos_bound; lia).
    destruct (Z.eqb_spec (v / 128) 0) as [Z | NZ].
    + cbn [app length]. rewrite decode_loop_stop
        by (rewrite continues_testbit, testbit_7_low; [reflexivity | lia | unfold is_byte; lia]).
      rewrite decode_step_value by assumption.
      rewrite Z.mod_mod by lia.
      assert (E : v mod 128 = v) by zlia. rewrite E.
      f_equal. f_equal; [| lia].
      apply Z.mod_small.
      destruct i as [| [| [| [| [| i]]]]]; try lia;
        cbn [Z.of_nat Pos.of_succ_nat Pos.succ Z.mul Pos.mul Pos.add Z.sub Z.add
               Z.opp Z.pos_sub Pos.pred_double Z.succ_double Z.pred_double Z.double]
          in Hv, Ha |- *; pow_consts; lia.
    + rewrite js_or_80 by exact Bm. cbn [app].
      rewrite decode_loop_continue
        by (rewrite continues_testbit, testbit_7_high;
            [reflexivity | lia | unfold is_byte; lia]).
      assert (I3 : (i <= 3)%nat).
      { destruct (Nat.eq_dec i 4) as [-> | ]; [| lia]. exfalso. apply NZ.
        change (2 ^ (32 - 7 * Z.of_nat 4)) with 16 in Hv. zlia. }
      rewrite Z.gtb_ltb.
      replace (35 <? 7 * Z.of_nat i + 7) with false by (symmetry; apply Z.ltb_ge; lia).
      replace (7 * Z.of_nat i + 7) with (7 * Z.of_nat (S i)) by lia.
      rewrite (IH (S i) (v / 128)); try lia.
      * rewrite decode_step_value by assumption.
        replace ((v mod 128 + 128) mod 128) with (v mod 128) by zlia.
        cbn [length]. f_equal. f_equal; [| lia].
        destruct i as [| [| [| [| i]]]]; try lia;
          cbn [Z.of_nat Pos.of_succ_nat Pos.succ Z.mul Pos.mul Pos.add Z.sub Z.add
                 Z.opp Z.pos_sub Pos.pred_double Z.succ_double Z.pred_double Z.double]
            in Hv, Ha |- *; pow_consts; zlia.
      * destruct i as [| [| [| [| i]]]]; try lia;
          cbn [Z.of_nat Pos.of_succ_nat Pos.succ Z.mul Pos.mul Pos.add Z.sub Z.add
                 Z.opp Z.pos_sub Pos.pred_double Z.succ_double Z.pred_double Z.double]
            in Hv |- *; pow_consts; zlia.
      * rewrite decode_step_value by assumption.
        replace ((v mod 128 + 128) mod 128) with (v mod 128) by zlia.
        destruct i as [| [| [| [| i]]]]; try lia;
          cbn [Z.of_nat Pos.of_succ_nat Pos.succ Z.mul Pos.mul Pos.add Z.sub Z.add
                 Z.opp Z.pos_sub Pos.pred_double Z.succ_double Z.pred_double Z.double]
            in Hv, Ha |- *; pow_consts; zlia.
Qed.

Lemma varint_not_empty (z : Z) : (1 <= length (varint z))%nat.
Proof.
  unfold varint. cbn [Varint.encode_loop].
  destruct (js_shru z 7 =? 0); cbn; lia.
Qed.

Lemma Varint_decode_varint (z : Z) (buffer : Buffer) (offset : nat) (rest : Buffer) :
  0 <= z < 2 ^ 32 ->
  skipn offset buffer = varint z ++ rest ->
  Varint.decode buffer offset = OK (z, length (varint z)).
Proof.
  intros Hz S. unfold Varint.decode. rewrite S. unfold varint.
  pose proof (decode_loop_encode_loop 5 0 z 0 0 rest) as H.
  change (7 * Z.of_nat 0) with 0 in H. change (32 - 0) with 32 in H.
  change (to_uint32 0) with 0 in H. change (2 ^ 0) with 1 in H.
  rewrite H by lia. f_equal. f_equal. lia.
Qed.


(** *** AdaptiveStringCodec, there and back *)

Lemma raw_entry_not_empty (v : value) : (1 <= length (raw_entry v))%nat.
Proof.
  destruct v; cbn [raw_entry]; try apply varint_not_empty.
  rewrite length_app. pose proof (varint_not_empty (Z.of_nat (length (utf8_bytes s)) + 1)).
  lia.
Qed.

Lemma length_flat_map_ge {A B : Type} (f : A -> list B) (l : list A) :
  (forall a, (1 <= length (f a))%nat) -> (length l <= length (flat_map f l))%nat.
Proof.
  intros H. induction l as [| a l IH]; cbn; [lia |].
  rewrite length_app. specialize (H a). lia.
Qed.

Lemma skipn_nil_offset (buffer : Buffer) (offset : nat) :
  skipn offset buffer = [] -> (offset <? length buffer)%nat = false.
Proof.
  intros H. apply (f_equal (@length Z)) in H. rewrite length_skipn in H.
  apply Nat.ltb_ge. cbn in H. lia.
Qed.

Lemma skipn_cons_offset (buffer : Buffer) (offset : nat) (chunk rest : Buffer) :
  (1 <= length chunk)%nat -> skipn offset buffer = chunk ++ rest ->
  (offset <? length buffer)%nat = true.
Proof.
  intros L H. apply Nat.ltb_lt.
  pose proof (skipn_length_le buffer offset chunk rest ltac:(lia) H). lia.
Qed.

Lemma read_entry_raw_entry (v : value) (buffer : Buffer) (offset : nat) (rest : Buffer) :
  string_or_null v = true -> storable_string v = true ->
  skipn offset buffer = raw_entry v ++ rest ->
  AdaptiveStringCodec.read_entry buffer offset
  = OK (v, (offset + length (raw_entry v))%nat).
Proof.
  destruct v; try discriminate; intros _ P S;
    unfold AdaptiveStringCodec.read_entry; cbn [raw_entry] in *.
  - rewrite (Varint_decode_varint 0 buffer offset rest)
      by (try exact S; change (2 ^ 32) with 4294967296; lia).
    reflexivity.
  - apply andb_prop in P. destruct P as [W P].
    apply Z.ltb_lt in P. rewrite <- app_assoc in S.
    rewrite (Varint_decode_varint (Z.of_nat (length (utf8_bytes s)) + 1) buffer offset _
               ltac:(lia) S).
    cbn [bind].
    replace (Z.of_nat (length (utf8_bytes s)) + 1 =? 0) with false
      by (symmetry; apply Z.eqb_neq; lia).
    replace (Z.of_nat (length (utf8_bytes s)) + 1 - 1)
      with (Z.of_nat (length (utf8_bytes s))) by lia.
    rewrite Nat2Z.id. apply skipn_chunk in S.
    rewrite (Buffer_slice_skipn _ _ _ _ S), utf8_round_trip, length_app by exact W.
    f_equal. f_equal. lia.
Qed.

Lemma decode_raw_entries (values : list value) :
  forall (fuel : nat) (buffer : Buffer) (offset : nat),
    Forall (fun v => string_or_null v = true /\ storable_string v = true) values ->
    (length values <= fuel)%nat ->
    skipn offset buffer = flat_map raw_entry values ->
    AdaptiveStringCodec.decode_raw fuel buffer offset = OK values.
Proof.
  induction values as [| v values IH]; intros fuel buffer offset F L S.
  - cbn in S. apply skipn_nil_offset in S.
    destruct fuel; cbn [AdaptiveStringCodec.decode_raw]; now rewrite S.
  - inversion F as [| ? ? [Fs Fp] F']; subst. cbn [flat_map] in S.
    destruct fuel as [| fuel]; [cbn in L; lia |].
    cbn [AdaptiveStringCodec.decode_raw].
    rewrite (skipn_cons_offset _ _ _ _ (raw_entry_not_empty v) S).
    rewrite (read_entry_raw_entry v buffer offset _ Fs Fp S). cbn [bind].
    apply skipn_chunk in S.
    rewrite (IH fuel buffer _ F' ltac:(cbn in L; lia) S). reflexivity.
Qed.

Lemma read_dictionary_entries (unique : list value) :
  forall (buffer : Buffer) (offset : nat) (rest : Buffer),
    Forall (fun v => string_or_null v = true /\ storable_string v = true) unique ->
    skipn offset buffer = flat_map raw_entry unique ++ rest ->
    AdaptiveStringCodec.read_dictionary (length unique) buffer offset
    = OK (unique, (offset + length (flat_map raw_entry unique))%nat).
Proof.
  induction unique as [| u unique IH]; intros buffer offset rest F S.
  - cbn. now rewrite Nat.add_0_r.
  - inversion F as [| ? ? [Fs Fp] F']; subst. cbn [flat_map] in S.
    rewrite <- app_assoc in S.
    cbn [length AdaptiveStringCodec.read_dictionary].
    rewrite (read_entry_raw_entry u buffer offset _ Fs Fp S). cbn [bind].
    apply skipn_chunk in S.
    rewrite (IH buffer _ rest F' S). cbn [bind flat_map].
    rewrite length_app. f_equal. f_equal. lia.
Qed.

Lemma decode_standard_indices (indices : list Z) :
  forall (fuel : nat) (buffer : Buffer) (offset : nat) (dictionary : list value),
    Forall (fun i => 0 <= i < 2 ^ 32) indices ->
    (length indices <= fuel)%nat ->
    skipn offset buffer = flat_map varint indices ->
    AdaptiveStringCodec.decode_standard fuel buffer offset dictionary
    = OK (map (AdaptiveStringCodec.dictionary_get dictionary) indices).
Proof.
  induction indices as [| i indices IH]; intros fuel buffer offset dictionary F L S.
  - cbn in S. apply skipn_nil_offset in S.
    destruct fuel; cbn [AdaptiveStringCodec.decode_standard]; now rewrite S.
  - inversion F as [| ? ? Fi F']; subst. cbn [flat_map] in S.
    destruct fuel as [| fuel]; [cbn in L; lia |].
    cbn [AdaptiveStringCodec.decode_standard].
    rewrite (skipn_cons_offset _ _ _ _ (varint_not_empty i) S).
    rewrite (Varint_decode_varint i buffer offset _ Fi S). cbn [bind].
    apply skipn_chunk in S.
    rewrite (IH fuel buffer _ dictionary F' ltac:(cbn in L; lia) S). reflexivity.
Qed.

Lemma decode_rle_runs (rs : list (Z * Z)) :
  forall (fuel : nat) (buffer : Buffer) (offset : nat) (dictionary : list value),
    Forall (fun r => 0 <= fst r < 2 ^ 32 /\ 0 <= snd r < 2 ^ 32) rs ->
    (length rs <= fuel)%nat ->
    skipn offset buffer = flat_map (fun '(i, c) => varint i ++ varint c) rs ->
    AdaptiveStringCodec.decode_rle fuel buffer offset dictionary
    = OK (flat_map (fun '(i, c) =>
                      repeat (AdaptiveStringCodec.dictionary_get dictionary i)
                             (Z.to_nat c)) rs).
Proof.
  induction rs as [| [i c] rs IH]; intros fuel buffer offset dictionary F L S.
  - cbn in S. apply skipn_nil_offset in S.
    destruct fuel; cbn [AdaptiveStringCodec.decode_rle]; now rewrite S.
  - inversion F as [| ? ? [Fi Fc] F']; subst. cbn [fst snd] in *.
    cbn [flat_map] in S. rewrite <- app_assoc in S.
    destruct fuel as [| fuel]; [cbn in L; lia |].
    cbn [AdaptiveStringCodec.decode_rle].
    rewrite (skipn_cons_offset _ _ _ _ (varint_not_empty i) S).
    rewrite (Varint_decode_varint i buffer offset _ Fi S). cbn [bind].
    apply skipn_chunk in S.
    rewrite (Varint_decode_varint c buffer _ _ Fc S). cbn [bind].
    apply skipn_chunk in S.
    rewrite (IH fuel buffer _ dictionary F' ltac:(cbn in L; lia) S). reflexivity.
Qed.

(** *** Runs, expanded *)

Lemma add_run_expand {A : Type} (g : Z -> A) (x c : Z) (rs : list (Z * Z)) :
  0 <= c -> Forall (fun r => 0 <= snd r) rs ->
  flat_map (fun '(i, d) => repeat (g i) (Z.to_nat d)) (add_run x c rs)
  = repeat (g x) (Z.to_nat c)
    ++ flat_map (fun '(i, d) => repeat (g i) (Z.to_nat d)) rs.
Proof.
  intros Hc F. destruct rs as [| [y d] more]; cbn [add_run]; [reflexivity |].
  destruct (Z.eqb_spec x y) as [-> | N]; [| reflexivity].
  inversion F as [| ? ? Hd _]; subst. cbn [snd] in Hd. cbn [flat_map].
  rewrite Z2Nat.inj_add, Nat.add_comm, repeat_app, <- app_assoc by lia. reflexivity.
Qed.

Lemma add_run_bounds (B N x c : Z) (rs : list (Z * Z)) :
  0 <= x < B -> 1 <= c ->
  Forall (fun r => 0 <= fst r < B /\ 1 <= snd r) rs ->
  Forall (fun r => 0 <= fst r < B /\ 1 <= snd r) (add_run x c rs).
Proof.
  intros Hx Hc F. destruct rs as [| [y d] more]; cbn [add_run].
  - constructor; [cbn; lia | constructor].
  - inversion F as [| ? ? [Hy Hd] F']; subst. cbn [fst snd] in *.
    destruct (x =? y).
    + constructor; [cbn [fst snd]; lia | exact F'].
    + constructor; [cbn [fst snd]; lia | exact F].
Qed.

Lemma runs_bounds (B : Z) (indices : list Z) :
  Forall (fun i => 0 <= i < B) indices ->
  Forall (fun r => 0 <= fst r < B /\ 1 <= snd r) (runs indices).
Proof.
  induction 1 as [| i indices Hi _ IH]; cbn [runs]; [constructor |].
  apply (add_run_bounds B 0); [exact Hi | lia | exact IH].
Qed.

Lemma runs_expand {A : Type} (g : Z -> A) (indices : list Z) :
  flat_map (fun '(i, d) => repeat (g i) (Z.to_nat d)) (runs indices) = map g indices.
Proof.
  induction indices as [| i indices IH]; cbn [runs map]; [reflexivity |].
  rewrite add_run_expand; [now rewrite IH | lia |].
  clear. induction indices as [| j indices IH]; cbn [runs]; [constructor |].
  destruct (runs indices) as [| [y d] more]; cbn [add_run].
  - constructor; [cbn; lia | constructor].
  - inversion IH as [| ? ? Hd F']; subst. cbn [snd] in Hd.
    destruct (j =? y).
    + constructor; [cbn [snd]; lia | exact F'].
    + constructor; [cbn [snd]; lia | exact IH].
Qed.

Lemma add_run_total (x c : Z) (rs : list (Z * Z)) :
  fold_right (fun r acc => snd r + acc) 0 (add_run x c rs)
  = c + fold_right (fun r acc => snd r + acc) 0 rs.
Proof.
  destruct rs as [| [y d] more]; cbn [add_run fold_right snd]; [reflexivity |].
  destruct (x =? y); cbn [fold_right snd]; lia.
Qed.

Lemma runs_total (indices : list Z) :
  fold_right (fun r acc => snd r + acc) 0 (runs indices) = Z.of_nat (length indices).
Proof.
  induction indices as [| i indices IH]; cbn [runs]; [reflexivity |].
  rewrite add_run_total, IH. cbn [length]. lia.
Qed.

Lemma runs_count_le (B : Z) (indices : list Z) :
  Forall (fun i => 0 <= i < B) indices ->
  Forall (fun r => snd r <= Z.of_nat (length indices)) (runs indices)
  /\ (length (runs indices) <= length indices)%nat.
Proof.
  intros F. pose proof (runs_bounds B indices F) as RB.
  pose proof (runs_total indices) as T.
  assert (G : forall (rs : list (Z * Z)) (n : Z),
             Forall (fun r => 0 <= fst r < B /\ 1 <= snd r) rs ->
             fold_right (fun r acc => snd r + acc) 0 rs = n ->
             Forall (fun r => snd r <= n) rs /\ Z.of_nat (length rs) <= n).
  { clear. induction rs as [| r rs IH]; intros n RB T.
    - cbn in T. subst. split; [constructor | cbn; lia].
    - inversion RB as [| ? ? [_ Hr] RB']; subst. cbn [fold_right] in *.
      destruct (IH _ RB' eq_refl) as [IH1 IH2]. split.
      + constructor; [lia |]. eapply Forall_impl; [| exact IH1]. cbn. intros. lia.
      + cbn [length]. lia. }
  destruct (G _ _ RB T) as [G1 G2]. split; [exact G1 | lia].
Qed.


(** *** The dictionary of the distinct values *)

Lemma index_of_nth (v : value) (unique : list value) :
  forall k : Z,
    index_of v unique = Some k ->
    sameValueZero v (nth (Z.to_nat k) unique VUndefined) = true.
Proof.
  induction unique as [| u unique IH]; intros k H; cbn [index_of] in H;
    [discriminate H |].
  destruct (sameValueZero v u) eqn:Sv.
  - injection H as <-. exact Sv.
  - destruct (index_of v unique) as [i |] eqn:I; [| discriminate H].
    injection H as <-. pose proof (index_of_bound _ _ _ I) as B.
    replace (Z.to_nat (i + 1)) with (S (Z.to_nat i)) by lia. cbn [nth].
    now apply IH.
Qed.

Lemma sameValueZero_string (v u : value) :
  string_or_null v = true -> sameValueZero v u = true -> u = v.
Proof.
  destruct v; try discriminate; intros _; destruct u; cbn; try discriminate;
    [reflexivity |].
  intros E. apply String.eqb_eq in E. now subst.
Qed.

Lemma distinct_index (values : list value) (v : value) :
  string_or_null v = true -> In v values ->
  exists k, index_of v (distinct values) = Some k
            /\ 0 <= k < Z.of_nat (length (distinct values))
            /\ nth (Z.to_nat k) (distinct values) VUndefined = v.
Proof.
  intros Sv I.
  assert (X : existsb (sameValueZero v) (distinct values) = true).
  { destruct (distinct_loop_covers values [] v I) as [X | X]; [exact X |].
    apply existsb_exists. exists v. split; [exact X |].
    destruct v; try discriminate Sv; cbn; [reflexivity | apply String.eqb_refl]. }
  destruct (index_of_found _ _ X) as [k [K B]].
  exists k. split; [exact K | split; [exact B |]].
  apply (sameValueZero_string v); [exact Sv | now apply index_of_nth].
Qed.

Lemma dictionary_indices (values : list value) :
  Forall (fun v => string_or_null v = true) values ->
  map (AdaptiveStringCodec.dictionary_get (distinct values))
      (AdaptiveStringCodec.indices_of values (distinct values))
  = values
  /\ Forall (fun i => 0 <= i < Z.of_nat (length (distinct values)))
            (AdaptiveStringCodec.indices_of values (distinct values)).
Proof.
  intros F. unfold AdaptiveStringCodec.indices_of.
  generalize (distinct values) (distinct_index values). intros unique H.
  assert (G : forall v, In v values ->
                exists k, index_of v unique = Some k
                          /\ 0 <= k < Z.of_nat (length unique)
                          /\ nth (Z.to_nat k) unique VUndefined = v).
  { intros v I. apply H; [| exact I]. rewrite Forall_forall in F. now apply F. }
  clear H F. induction values as [| v values IH]; cbn [map]; [split; constructor |].
  destruct (G v ltac:(now left)) as (k & K & B & N).
  destruct IH as [IH1 IH2]; [intros w I; apply G; now right |].
  rewrite K. split.
  - unfold AdaptiveStringCodec.dictionary_get at 1. now rewrite N, IH1.
  - now constructor.
Qed.

(** Strings and nulls come back from [decode] as [encode] took them, in
    each of the three modes. *)
Lemma AdaptiveStringCodec_decode_encode (values : list value) (encoded : Buffer) :
  Forall (fun v => string_or_null v = true /\ storable_string v = true) values ->
  Z.of_nat (length values) < 2 ^ 32 ->
  AdaptiveStringCodec.encode values = OK encoded ->
  AdaptiveStringCodec.decode encoded = OK values.
Proof.
  intros F L E.
  destruct values as [| v0 values'] eqn:EV.
  { cbn in E. apply OK_inj in E. now subst. }
  rewrite <- EV in *.
  assert (NE : values <> []) by (rewrite EV; discriminate).
  assert (Fs : Forall (fun v => string_or_null v = true) values)
    by (eapply Forall_impl; [| exact F]; cbn; tauto).
  rewrite (encode_layout values NE Fs) in E. apply OK_inj in E.
  destruct (dictionary_indices values Fs) as [DI IB].
  set (unique := distinct values) in *.
  set (indices := AdaptiveStringCodec.indices_of values unique) in *.
  assert (U : (length unique <= length values)%nat)
    by exact (distinct_loop_length values []).
  assert (FU : Forall (fun v => string_or_null v = true /\ storable_string v = true) unique).
  { apply Forall_forall. intros u I.
    destruct (distinct_loop_from values [] u I) as [[] | I'].
    rewrite Forall_forall in F. now apply F. }
  assert (LI : length indices = length values) by apply length_map.
  assert (I32 : Forall (fun i => 0 <= i < 2 ^ 32) indices)
    by (eapply Forall_impl; [| exact IB]; cbn; intros; lia).
  destruct (AdaptiveStringCodec.isDictionaryBetter (length unique) (length values)).
  - (* the dictionary modes *)
    assert (D : forall (mode : Z) (stream : Buffer),
               mode = 1 \/ mode = 2 ->
               AdaptiveStringCodec.decode
                 (mode :: (varint (Z.of_nat (length unique)) ++ flat_map raw_entry unique)
                       ++ stream)
               = (let buffer := mode :: (varint (Z.of_nat (length unique))
                                         ++ flat_map raw_entry unique) ++ stream in
                  let offset := (1 + length (varint (Z.of_nat (length unique)))
                                 + length (flat_map raw_entry unique))%nat in
                  if mode =? 1
                  then AdaptiveStringCodec.decode_standard (length buffer) buffer offset unique
                  else AdaptiveStringCodec.decode_rle (length buffer) buffer offset unique)).
    { intros mode stream M. cbv zeta. unfold AdaptiveStringCodec.decode.
      replace (mode =? 0) with false by (destruct M; subst; reflexivity).
      replace ((mode =? 1) || (mode =? 2))%bool with true
        by (destruct M; subst; reflexivity).
      rewrite (Varint_decode_varint (Z.of_nat (length unique)) _ 1
                 (flat_map raw_entry unique ++ stream))
        by (try lia; cbn [skipn]; now rewrite <- app_assoc).
      cbn [bind]. rewrite Nat2Z.id.
      rewrite (read_dictionary_entries unique _ _ stream FU).
      - reflexivity.
      - replace (1 + length (varint (Z.of_nat (length unique))))%nat
          with (1 + length (varint (Z.of_nat (length unique))))%nat by reflexivity.
        apply (skipn_chunk _ 1 (varint (Z.of_nat (length unique)))).
        cbn [skipn]. now rewrite <- app_assoc. }
    assert (SK : forall (mode : Z) (stream : Buffer),
               skipn (1 + length (varint (Z.of_nat (length unique)))
                      + length (flat_map raw_entry unique))
                     (mode :: (varint (Z.of_nat (length unique))
                               ++ flat_map raw_entry unique) ++ stream)
               = stream).
    { intros mode stream. cbn [Nat.add skipn].
      rewrite <- length_app, skipn_app, skipn_all, Nat.sub_diag. reflexivity. }
    destruct (length _ <? length _)%nat; subst encoded.
    + rewrite (D 2) by now right. cbv zeta. change (2 =? 1) with false. cbv iota.
      destruct (runs_count_le _ indices IB) as [RC RL].
      rewrite (decode_rle_runs (runs indices)).
      * f_equal. fold indices. rewrite runs_expand. exact DI.
      * pose proof (runs_bounds _ indices IB) as RB.
        apply Forall_forall. intros r Ir. rewrite Forall_forall in RB, RC.
        specialize (RB r Ir). specialize (RC r Ir). lia.
      * cbn [length]. rewrite !length_app.
        assert (G : (length (runs indices)
                     <= length (flat_map (fun '(i, c) => varint i ++ varint c)
                                         (runs indices)))%nat).
        { apply length_flat_map_ge. intros [i c]. rewrite length_app.
          pose proof (varint_not_empty i). lia. }
        lia.
      * apply SK.
    + rewrite (D 1) by now left. cbv zeta. change (1 =? 1) with true. cbv iota.
      rewrite (decode_standard_indices indices).
      * f_equal. exact DI.
      * exact I32.
      * cbn [length]. rewrite !length_app.
        pose proof (length_flat_map_ge varint indices varint_not_empty). lia.
      * apply SK.
  - (* raw mode *)
    subst encoded. unfold AdaptiveStringCodec.decode. change (0 =? 0) with true.
    cbv iota. apply decode_raw_entries; [exact F | | reflexivity].
    cbn [length].
    pose proof (length_flat_map_ge raw_entry values raw_entry_not_empty). lia.
Qed.


(** *** ZigZag varints of BigInt, written and read *)

Lemma zigzag_nonneg (v : Z) : 0 <= Varint.zigzag v.
Proof.
  unfold Varint.zigzag. apply Z.lxor_nonneg.
  rewrite Z.shiftl_nonneg, Z.shiftr_nonneg. tauto.
Qed.

Lemma land_1 (z : Z) : Z.land z 1 = z mod 2.
Proof. change 1 with (Z.ones 1). now rewrite Z.land_ones by lia. Qed.

Lemma unzigzag_zigzag (v : Z) :
  - 2 ^ 63 <= v < 2 ^ 63 -> Varint.unzigzag (Varint.zigzag v) = v.
Proof.
  intros H. unfold Varint.zigzag, Varint.unzigzag.
  rewrite Z.shiftl_mul_pow2, (Z.shiftr_div_pow2 v 63) by lia.
  change (2 ^ 1) with 2. change (2 ^ 63) with 9223372036854775808 in *.
  destruct (Z_lt_le_dec v 0) as [N | P].
  - replace (v / 9223372036854775808) with (-1) by zlia.
    rewrite Z.lxor_m1_r. unfold Z.lnot.
    rewrite Z.shiftr_div_pow2 by lia. change (2 ^ 1) with 2.
    rewrite land_1.
    replace ((Z.pred (- (v * 2))) mod 2) with 1 by zlia.
    replace (Z.pred (- (v * 2)) / 2) with (- v - 1) by zlia.
    change (- (1)) with (-1). rewrite Z.lxor_m1_r. unfold Z.lnot. lia.
  - replace (v / 9223372036854775808) with 0 by zlia.
    rewrite Z.lxor_0_r.
    rewrite Z.shiftr_div_pow2 by lia. change (2 ^ 1) with 2.
    rewrite land_1.
    replace ((v * 2) mod 2) with 0 by zlia.
    replace (v * 2 / 2) with v by zlia.
    change (- 0) with 0. apply Z.lxor_0_r.
Qed.

Lemma land_7f (z : Z) : Z.land z 0x7f = z mod 128.
Proof. change 127 with (Z.ones 7). now rewrite Z.land_ones by lia. Qed.

Lemma land_80_low (b : Z) : 0 <= b < 128 -> (Z.land b 0x80 =? 0) = true.
Proof.
  intros H. pose proof (land_pow2_testbit b 7 ltac:(lia)) as T.
  rewrite testbit_7_low in T by exact H. change (2 ^ 7) with 128 in T.
  now apply negb_false_iff in T.
Qed.

Lemma land_80_high (b : Z) : 0 <= b < 128 -> (Z.land (b + 128) 0x80 =? 0) = false.
Proof.
  intros H. pose proof (land_pow2_testbit (b + 128) 7 ltac:(lia)) as T.
  rewrite testbit_7_high in T by exact H. change (2 ^ 7) with 128 in T.
  now apply negb_true_iff in T.
Qed.

Lemma lor_80 (b : Z) : 0 <= b < 128 -> Z.lor b 0x80 = b + 128.
Proof.
  intros H. change 128 with (1 * 2 ^ 7) at 1.
  rewrite lor_shifted_group by (try lia; change (2 ^ 7) with 128; lia).
  reflexivity.
Qed.

Lemma decodeBigInt_loop_encodeBigInt_loop (fuel : nat) :
  forall (zz acc shift : Z) (cnt : nat) (rest : Buffer),
    0 <= zz < 128 ^ Z.of_nat (S fuel) -> 0 <= shift -> 0 <= acc < 2 ^ shift ->
    Varint.decodeBigInt_loop (Varint.encodeBigInt_loop fuel zz ++ rest) acc shift cnt
    = OK (Varint.unzigzag (acc + zz * 2 ^ shift),
          (cnt + length (Varint.encodeBigInt_loop fuel zz))%nat).
Proof.
  induction fuel as [| fuel IH]; intros zz acc shift cnt rest Hz Hs Ha.
  - change (128 ^ Z.of_nat 1) with 128 in Hz.
    cbn [Varint.encodeBigInt_loop]. rewrite Z.shiftr_div_pow2 by lia.
    change (2 ^ 7) with 128. replace (zz / 128) with 0 by zlia.
    cbn [Z.eqb app Varint.decodeBigInt_loop length].
    rewrite !land_7f, Z.mod_mod by lia.
    rewrite land_80_low by zlia.
    rewrite Z.shiftl_mul_pow2, lor_shifted_group by (try lia; zlia).
    replace (zz mod 128) with zz by zlia. f_equal. f_equal. lia.
  - cbn [Varint.encodeBigInt_loop]. rewrite Z.shiftr_div_pow2 by lia.
    change (2 ^ 7) with 128. rewrite land_7f.
    assert (Bm : 0 <= zz mod 128 < 128) by (apply Z.mod_pos_bound; lia).
    assert (P : 0 < 2 ^ shift) by (apply Z.pow_pos_nonneg; lia).
    pose proof (Z.div_mod zz 128 ltac:(lia)) as DM.
    destruct (Z.eqb_spec (zz / 128) 0) as [Z0 | NZ].
    + cbn [app Varint.decodeBigInt_loop length].
      rewrite !land_7f, Z.mod_mod by lia.
      rewrite land_80_low by exact Bm.
      rewrite Z.shiftl_mul_pow2, lor_shifted_group by lia.
      replace (zz mod 128) with zz by lia. f_equal. f_equal. lia.
    + rewrite lor_80 by exact Bm.
      cbn [app Varint.decodeBigInt_loop length].
      rewrite land_80_high by exact Bm.
      rewrite land_7f. replace ((zz mod 128 + 128) mod 128) with (zz mod 128) by zlia.
      rewrite Z.shiftl_mul_pow2, lor_shifted_group by lia.
      rewrite IH.
      * f_equal. f_equal; [| lia]. f_equal.
        rewrite Z.pow_add_r by lia. change (2 ^ 7) with 128. nia.
      * split; [zlia |].
        replace (Z.of_nat (S (S fuel))) with (1 + Z.of_nat (S fuel)) in Hz by lia.
        rewrite Z.pow_add_r in Hz by lia. change (128 ^ 1) with 128 in Hz.
        apply Z.div_lt_upper_bound; lia.
      * lia.
      * rewrite Z.pow_add_r by lia. change (2 ^ 7) with 128. nia.
Qed.

Lemma encodeBigInt_not_empty (v : Z) : (1 <= length (Varint.encodeBigInt v))%nat.
Proof.
  unfold Varint.encodeBigInt.
  destruct (Z.to_nat (Z.log2 (Varint.zigzag v))); cbn [Varint.encodeBigInt_loop];
    destruct (Z.shiftr (Varint.zigzag v) 7 =? 0); cbn; lia.
Qed.

Lemma decodeBigInt_encodeBigInt (v : Z) (buffer : Buffer) (offset : nat) (rest : Buffer) :
  skipn offset buffer = Varint.encodeBigInt v ++ rest ->
  Varint.decodeBigInt buffer offset
  = OK (Varint.unzigzag (Varint.zigzag v), length (Varint.encodeBigInt v)).
Proof.
  intros S. unfold Varint.decodeBigInt. rewrite S. unfold Varint.encodeBigInt.
  pose proof (zigzag_nonneg v) as N.
  rewrite decodeBigInt_loop_encodeBigInt_loop.
  - f_equal. f_equal. f_equal. change (2 ^ 0) with 1. lia.
  - split; [exact N |].
    destruct (Z.eq_dec (Varint.zigzag v) 0) as [-> | NZ]; [reflexivity |].
    pose proof (Z.log2_spec (Varint.zigzag v) ltac:(lia)) as L.
    pose proof (Z.log2_nonneg (Varint.zigzag v)) as LN.
    apply Z.lt_le_trans with (1 := proj2 L).
    rewrite Nat2Z.inj_succ, Z2Nat.id by exact LN.
    change 128 with (2 ^ 7). rewrite <- Z.pow_mul_r by lia.
    apply Z.pow_le_mono_r; lia.
  - lia.
  - change (2 ^ 0) with 1. lia.
Qed.


(** *** The 64 bits of a Number *)

Lemma valid_binary_bounds (s : bool) (m : positive) (e : Z) :
  valid_binary (S754_finite s m e) = true ->
  -1074 <= e <= 971
  /\ Z.pos m < 2 ^ 53
  /\ (Z.pos m < 2 ^ 52 -> e = -1074).
Proof.
  intros V. unfold valid_binary, bounded, canonical_mantissa in V.
  apply andb_true_iff in V. destruct V as [C B]. apply Z.eqb_eq in C.
  apply Z.leb_le in B. unfold fexp, emin in C.
  change prec with 53 in *. change emax with 1024 in *.
  pose proof (digits2_pos_bounds m) as D.
  split; [lia |]. split.
  - apply Z.lt_le_trans with (1 := proj2 D). apply Z.pow_le_mono_r; lia.
  - intros M. destruct (Z.eq_dec e (-1074)) as [| N]; [assumption |].
    assert (Z.pos (digits2_pos m) = 53) by lia.
    replace (Z.pos (digits2_pos m) - 1) with 52 in D by lia. lia.
Qed.

(** [readDoubleLE] gives back the Number [writeDoubleLE] stored (NaN as the
    one NaN of the embedding). *)
Lemma double_bits_round_trip (x : float) :
  0 <= double_bits x < 2 ^ 64 /\ double_of_bits (double_bits x) = x.
Proof.
  pose proof (Prim2SF_valid x) as V.
  cut (0 <= double_bits x < 2 ^ 64
       /\ double_of_bits (double_bits x) = SF2Prim (Prim2SF x));
    [now rewrite SF2Prim_Prim2SF |].
  unfold double_bits, double_of_bits.
  destruct (Prim2SF x) as [s | s | | s m e].
  - destruct s; split; (reflexivity || (vm_compute; split; congruence)).
  - destruct s; split; (reflexivity || (vm_compute; split; congruence)).
  - split; (reflexivity || (vm_compute; split; congruence)).
  - destruct (valid_binary_bounds s m e V) as (Be & Bm & Bs).
    change (2 ^ 52) with 4503599627370496 in *.
    change (2 ^ 53) with 9007199254740992 in *.
    change (2 ^ 63) with 9223372036854775808 in *.
    change (2 ^ 64) with 18446744073709551616 in *.
    cbv zeta.
    destruct (Z.ltb_spec (Z.pos m) 4503599627370496) as [Lo | Hi].
    + specialize (Bs Lo). subst e.
      set (bits := (if s then 9223372036854775808 else 0) + Z.pos m).
      assert (Hs : (9223372036854775808 <=? bits) = s)
        by (unfold bits; destruct s; [apply Z.leb_le | apply Z.leb_gt]; lia).
      assert (HE : (bits / 4503599627370496) mod 2048 = 0)
        by (unfold bits; destruct s; zlia).
      assert (Hf : bits mod 4503599627370496 = Z.pos m)
        by (unfold bits; destruct s; zlia).
      split; [unfold bits; destruct s; lia |].
      rewrite Hs, HE, Hf. cbn [Z.eqb Z.to_pos]. reflexivity.
    + set (bits := (if s then 9223372036854775808 else 0)
                   + ((e + 1075) * 4503599627370496 + (Z.pos m - 4503599627370496))).
      assert (Hs : (9223372036854775808 <=? bits) = s)
        by (unfold bits; destruct s; [apply Z.leb_le | apply Z.leb_gt]; lia).
      assert (HE : (bits / 4503599627370496) mod 2048 = e + 1075)
        by (unfold bits; destruct s; zlia).
      assert (Hf : bits mod 4503599627370496 = Z.pos m - 4503599627370496)
        by (unfold bits; destruct s; zlia).
      split; [unfold bits; destruct s; lia |].
      rewrite Hs, HE, Hf.
      replace (e + 1075 =? 2047) with false by (symmetry; apply Z.eqb_neq; lia).
      replace (e + 1075 =? 0) with false by (symmetry; apply Z.eqb_neq; lia).
      replace (Z.pos m - 4503599627370496 + 4503599627370496) with (Z.pos m) by lia.
      replace (e + 1075 - 1075) with e by lia. reflexivity.
Qed.

Lemma readDoubleLE_writeDoubleLE (x : float) (buffer : Buffer) (offset : nat)
      (rest : Buffer) :
  skipn offset buffer = writeDoubleLE x ++ rest ->
  readDoubleLE buffer offset = OK x.
Proof.
  intros S. unfold readDoubleLE, writeDoubleLE in *.
  assert (L : (offset + 8 <= length buffer)%nat).
  { pose proof (skipn_length_le buffer offset (le_bytes 8 (double_bits x)) rest) as H.
    rewrite length_le_bytes in H. apply H; [lia | exact S]. }
  rewrite (proj2 (Nat.leb_le _ _) L).
  pose proof (Buffer_slice_skipn _ _ _ _ S) as B. rewrite length_le_bytes in B.
  rewrite B. destruct (double_bits_round_trip x) as [R E].
  rewrite le_value_le_bytes by (change (256 ^ Z.of_nat 8) with (2 ^ 64); exact R).
  now rewrite E.
Qed.

Lemma decode_doubles_written (nums : list float) :
  forall (fuel : nat) (buffer : Buffer) (offset : nat),
    (length nums <= fuel)%nat ->
    skipn offset buffer = flat_map writeDoubleLE nums ->
    NumberCodec.decode_doubles fuel buffer offset = OK (map VNum nums).
Proof.
  induction nums as [| x nums IH]; intros fuel buffer offset L S.
  - cbn in S. apply skipn_nil_offset in S.
    destruct fuel; cbn [NumberCodec.decode_doubles]; now rewrite S.
  - cbn [flat_map] in S.
    destruct fuel as [| fuel]; [cbn in L; lia |].
    cbn [NumberCodec.decode_doubles].
    assert (W : (1 <= length (writeDoubleLE x))%nat)
      by (unfold writeDoubleLE; rewrite length_le_bytes; lia).
    rewrite (skipn_cons_offset _ _ _ _ W S).
    rewrite (readDoubleLE_writeDoubleLE x buffer offset _ S). cbn [bind].
    apply skipn_chunk in S. unfold writeDoubleLE in S at 1.
    rewrite length_le_bytes in S.
    rewrite (IH fuel buffer _ ltac:(cbn in L; lia) S). reflexivity.
Qed.

Lemma decode_varints_written (zs : list Z) (convert : Z -> float) :
  forall (fuel : nat) (buffer : Buffer) (offset : nat),
    (length zs <= fuel)%nat ->
    skipn offset buffer = flat_map Varint.encodeBigInt zs ->
    NumberCodec.decode_varints fuel buffer offset convert
    = OK (map (fun z => VNum (convert (Varint.unzigzag (Varint.zigzag z)))) zs).
Proof.
  induction zs as [| z zs IH]; intros fuel buffer offset L S.
  - cbn in S. apply skipn_nil_offset in S.
    destruct fuel; cbn [NumberCodec.decode_varints]; now rewrite S.
  - cbn [flat_map] in S.
    destruct fuel as [| fuel]; [cbn in L; lia |].
    cbn [NumberCodec.decode_varints].
    rewrite (skipn_cons_offset _ _ _ _ (encodeBigInt_not_empty z) S).
    rewrite (decodeBigInt_encodeBigInt z buffer offset _ S). cbn [bind].
    apply skipn_chunk in S.
    rewrite (IH fuel buffer _ ltac:(cbn in L; lia) S). reflexivity.
Qed.

(** *** The ZigZag varints of the number codec *)











(** *** NumberCodec, there and back *)

Lemma Prim2SF_Number_of_Z_neg (p : positive) :
  Z.pos p < 2 ^ 53 ->
  exists (m : positive) (e : Z),
    Prim2SF (Number_of_Z (Z.neg p)) = S754_finite true m e
    /\ -52 <= e <= 0 /\ Z.pos m = Z.pos p * 2 ^ (- e).
Proof.
  intros Hp. pose proof (digits2_pos_le p 53 ltac:(lia) Hp) as Hd.
  assert (Hd1 : 1 <= Z.pos (digits2_pos p)) by lia.
  unfold Number_of_Z, binary_normalize, binary_round.
  assert (F : fexp prec emax (Z.pos (digits2_pos p) + 0) = Z.pos (digits2_pos p) - 53).
  { unfold fexp, emin. change prec with 53. change emax with 1024. lia. }
  rewrite F. unfold shl_align.
  destruct (Z.pos (digits2_pos p) - 53 - 0) as [| k | k] eqn:K; try lia.
  - exists p, 0. assert (D : Z.pos (digits2_pos p) = 53) by lia.
    rewrite binary_round_aux_canonical by (try exact D; lia).
    rewrite Prim2SF_SF2Prim by (apply valid_binary_canonical; [exact D | lia]).
    repeat split; lia.
  - exists (Pos.iter xO p k), (Z.pos (digits2_pos p) - 53).
    assert (D : Z.pos (digits2_pos (Pos.iter xO p k)) = 53) by (rewrite iter_xO_digits; lia).
    rewrite binary_round_aux_canonical by (try exact D; lia).
    rewrite Prim2SF_SF2Prim by (apply valid_binary_canonical; [exact D | lia]).
    repeat split; try lia. rewrite iter_xO_value. f_equal. f_equal. lia.
Qed.

(** A safe integer is an integral Number, and [BigInt] reads it back. *)
Lemma safe_integer (z : Z) :
  - 2 ^ 53 < z < 2 ^ 53 ->
  Number_isInteger (Number_of_Z z) = true /\ BigInt (Number_of_Z z) = OK z.
Proof.
  intros H. destruct z as [| p | p].
  - split; reflexivity.
  - assert (Hp : Z.pos p < 2 ^ 53) by lia.
    destruct (Prim2SF_Number_of_Z p Hp) as (m & e & E & He & Hm).
    pose proof (integer_mantissa m e (Z.pos p) He Hm) as I.
    unfold Number_isInteger, BigInt. rewrite E. cbn [signed].
    split; [| exact I].
    destruct (0 <=? e); [reflexivity |].
    destruct (Z.pos m mod 2 ^ (- e) =? 0); [reflexivity | discriminate I].
  - assert (Hp : Z.pos p < 2 ^ 53) by lia.
    destruct (Prim2SF_Number_of_Z_neg p Hp) as (m & e & E & He & Hm).
    pose proof (integer_mantissa m e (Z.pos p) He Hm) as I.
    unfold Number_isInteger, BigInt. rewrite E. cbn [signed].
    destruct (0 <=? e).
    + apply OK_inj in I. rewrite I. split; reflexivity.
    + destruct (Z.pos m mod 2 ^ (- e) =? 0); [| discriminate I].
      apply OK_inj in I. rewrite I. split; reflexivity.
Qed.

Lemma NumberCodec_decode_mode (mode : Z) (body : Buffer) :
  NumberCodec.decode (mode :: body)
  = if mode =? 0x01
    then NumberCodec.decode_varints (S (length body)) (mode :: body) 1 Number_of_Z
    else if mode =? 0x02
         then NumberCodec.decode_varints (S (length body)) (mode :: body) 2
                (fun value =>
                   (Number_of_Z value
                    / match Buffer_get (mode :: body) 1 with
                      | Some scale => Math_pow10 scale
                      | None => nan
                      end)%float)
         else NumberCodec.decode_doubles (S (length body)) (mode :: body) 1.
Proof. reflexivity. Qed.



(** *** The number and the string codec keep [null] *)

(** Where the decoded value at each [null] is honest, the self-check leaves
    each [null] a [null]. *)
Lemma honest_at_null (values decoded : list value) :
  Forall2 (fun v d => v = VNull -> honest d = true) values decoded ->
  JSON_same_text values decoded = true ->
  Forall2 (fun v d => v = VNull -> d = VNull) values decoded.
Proof.
  intros H J. apply JSON_same_text_items in J.
  induction H as [| v d vs ds Hv _ IH]; [constructor |].
  inversion J; subst. constructor; [| now apply IH].
  intros ->. apply honest_null; [now apply Hv | assumption].
Qed.

Lemma Forall2_chain {A B C : Type} (P : A -> B -> Prop) (Q : B -> C -> Prop)
      (R : A -> C -> Prop) (l : list A) (m : list B) (n : list C) :
  (forall a b c, P a b -> Q b c -> R a c) ->
  Forall2 P l m -> Forall2 Q m n -> Forall2 R l n.
Proof.
  intros H F. revert n.
  induction F as [| a b l m Pab _ IH]; intros n G; inversion G; subst;
    constructor; eauto.
Qed.

Lemma Forall2_map_r {A B C : Type} (P : A -> C -> Prop) (g : B -> C)
      (l : list A) (m : list B) :
  Forall2 (fun a b => P a (g b)) l m -> Forall2 P l (map g m).
Proof. induction 1; cbn; constructor; assumption. Qed.

Lemma NumberCodec_keeps_null : keeps_null NumberCodec.codec.
Proof.
  intros values encoded decoded _ _ E D J. cbn in E, D.
  unfold NumberCodec.encode in E.
  destruct values as [| v0 values'] eqn:EV.
  { apply OK_inj in E. subst encoded. apply OK_inj in D. subst decoded. constructor. }
  rewrite <- EV in *. clear EV v0 values'.
  destruct (forallb NumberCodec.isIntegerValue values) eqn:I.
  { (* integer mode: no null among the values *)
    apply JSON_same_text_items in J. rewrite forallb_forall in I.
    assert (N : Forall (fun v => v <> VNull) values).
    { apply Forall_forall. intros v Iv ->. specialize (I _ Iv). discriminate I. }
    clear -J N. induction J; constructor; inversion N; subst;
      [intros; contradiction | auto]. }
  apply honest_at_null; [| exact J]. clear J.
  - destruct (mapM NumberCodec.ToNumber values) as [nums | e] eqn:M;
      [| discriminate E].
    cbn [bind] in E. apply mapM_ok_Forall2 in M.
    destruct (NumberCodec.bestScale nums) as [s |] eqn:B.
    + (* decimal mode: a null is written as 0 and read as 0 / 10^s *)
      rewrite (mapM_bind_OK (fun n => BigInt (Math_round (n * Math_pow10 s)))
                 Varint.encodeBigInt) in E.
      destruct (mapM (fun n => BigInt (Math_round (n * Math_pow10 s))) nums)
        as [zs | e] eqn:Z; [| discriminate E].
      cbn [bind] in E. apply OK_inj in E. subst encoded.
      apply bestScale_found in B as [Hs _].
      unfold Buffer_concat in D. cbn [concat app] in D.
      rewrite <- flat_map_concat_map in D. rewrite Z.mod_small in D by lia.
      rewrite NumberCodec_decode_mode in D. change (2 =? 1) with false in D.
      change (2 =? 2) with true in D. cbv iota in D.
      rewrite (decode_varints_written zs) in D; [| | reflexivity].
      2:{ pose proof (length_flat_map_ge Varint.encodeBigInt zs encodeBigInt_not_empty).
          cbn [length]. lia. }
      apply OK_inj in D. subst decoded. apply Forall2_map_r.
      apply mapM_ok_Forall2 in Z.
      refine (Forall2_chain _ _ _ values nums zs _ M Z).
      intros v n z Hn Hz ->. cbn in Hn. apply OK_inj in Hn. subst n.
      cbn [Buffer_get nth_error].
      assert (C : s = 1 \/ s = 2 \/ s = 3 \/ s = 4 \/ s = 5 \/ s = 6) by lia.
      destruct C as [-> | [-> | [-> | [-> | [-> | ->]]]]];
        vm_compute in Hz; apply OK_inj in Hz; subst z; vm_compute; reflexivity.
    + (* float mode: a null is written as 0 and read as 0 *)
      apply OK_inj in E. subst encoded.
      rewrite NumberCodec_decode_mode in D. change (0 =? 1) with false in D.
      change (0 =? 2) with false in D. cbv iota in D.
      rewrite (decode_doubles_written nums) in D; [| | reflexivity].
      2:{ assert (L : (length nums <= length (flat_map writeDoubleLE nums))%nat).
          { apply length_flat_map_ge. intros x. unfold writeDoubleLE.
            rewrite length_le_bytes. lia. }
          lia. }
      apply OK_inj in D. subst decoded. apply Forall2_map_r.
      clear -M. induction M as [| v n vs ns Hn _ IH]; constructor; [| exact IH].
      intros ->. cbn in Hn. apply OK_inj in Hn. subst n. reflexivity.
Qed.

(** The values of a column that the string codec accepts are strings and
    [null]s: [Buffer.from] refuses anything else, in the raw entries and
    in the entries of the dictionary. *)
Lemma distinct_loop_all (Q : value -> bool) (values : list value) :
  (forall v u, sameValueZero v u = true -> Q u = true -> Q v = true) ->
  forall unique : list value,
    Forall (fun u => Q u = true) (distinct_loop values unique) ->
    Forall (fun v => Q v = true) values /\ Forall (fun u => Q u = true) unique.
Proof.
  intros HQ. induction values as [| v rest IH]; intros unique F;
    cbn [distinct_loop] in F; [split; [constructor | exact F] |].
  destruct (existsb (sameValueZero v) unique) eqn:X.
  - destruct (IH unique F) as [R U]. split; [| exact U]. constructor; [| exact R].
    apply existsb_exists in X as (u & Iu & Su). rewrite Forall_forall in U.
    exact (HQ v u Su (U u Iu)).
  - destruct (IH (unique ++ [v]) F) as [R U]. apply Forall_app in U as [U V].
    split; [| exact U]. constructor; [now inversion V | exact R].
Qed.

Lemma entry_string_or_null (values : list value) (buffers : list Buffer) :
  mapM AdaptiveStringCodec.entry values = OK buffers ->
  Forall (fun v => string_or_null v = true) values.
Proof.
  intros M. apply mapM_ok_Forall2 in M.
  induction M as [| v b vs bs Hv _ IH]; constructor; [| exact IH].
  destruct v; try reflexivity; discriminate Hv.
Qed.

Lemma AdaptiveStringCodec_accepts (values : list value) (encoded : Buffer) :
  AdaptiveStringCodec.encode values = OK encoded ->
  Forall (fun v => string_or_null v = true) values.
Proof.
  unfold AdaptiveStringCodec.encode. destruct values as [| v0 values'] eqn:EV;
    [constructor |].
  rewrite <- EV. clear EV v0 values'. cbv zeta.
  destruct (negb _).
  - destruct (mapM AdaptiveStringCodec.entry values) as [buffers |] eqn:M;
      [| discriminate]. intros _. exact (entry_string_or_null _ _ M).
  - destruct (Varint.encode _); [| discriminate]. cbn [bind].
    destruct (mapM AdaptiveStringCodec.entry (distinct values)) as [entries |] eqn:M;
      [| discriminate]. intros _.
    apply entry_string_or_null in M.
    refine (proj1 (distinct_loop_all string_or_null values _ [] M)).
    intros v u. destruct v, u; cbn; congruence.
Qed.

Lemma AdaptiveStringCodec_keeps_null : keeps_null AdaptiveStringCodec.codec.
Proof.
  intros values encoded decoded P L E D _. cbn in E, D.
  pose proof (AdaptiveStringCodec_accepts values encoded E) as S.
  rewrite (AdaptiveStringCodec_decode_encode values encoded) in D;
    [| | exact L | exact E].
  - apply OK_inj in D. subst decoded. clear. induction values; constructor; auto.
  - rewrite Forall_forall in *. intros v Iv. split; [exact (S v Iv) |].
    exact (proj2 (P v Iv)).
Qed.

(** Every codec of the registry of the usage example keeps [null]; the
    two array codecs, which are outside the embedding, return no buffer. *)
Lemma defaultRegistry_keeps_null (Date_parse : string -> option Z)
      (Date_toISOString : Z -> string) (t : FieldType) (c : IFieldCodec) :
  defaultRegistry Date_parse Date_toISOString t = Some c -> keeps_null c.
Proof.
  unfold defaultRegistry, CodecRegistry.register, CodecRegistry.empty.
  destruct t; cbn; intros H; try discriminate H; injection H as <-;
    first [ apply UUIDCodec_keeps_null | apply TimestampCodec_keeps_null
          | apply EnumCodec_keeps_null | apply BooleanCodec_keeps_null
          | apply NumberCodec_keeps_null | apply AdaptiveStringCodec_keeps_null
          | intros values encoded decoded _ _ E; discriminate E ].
Qed.


(** *** Batches with [null]s, and the Brotli variant *)

Lemma combine_map_same {A B C : Type} (f : A -> B) (g : A -> C) (l : list A) :
  combine (map f l) (map g l) = map (fun a => (f a, g a)) l.
Proof. induction l as [| a l IH]; cbn; [reflexivity | now rewrite IH]. Qed.

Section KeepingNull.

Variable registry : CodecRegistry.t.
Variable detectType : list value -> FieldType.
Variable version : Z.
Variable brotliCompressSync : Buffer -> Buffer.
Variable brotliDecompressSync : Buffer -> result Buffer.

Hypothesis registry_keeps_null :
  forall (t : FieldType) (c : IFieldCodec), registry t = Some c -> keeps_null c.

Variable records : list JSObject.
Hypothesis flat : Forall flat_record records.
Hypothesis short : Forall (Forall (fun kv => storable_string (snd kv) = true)) records.
Hypothesis some_key : exists r, In r records /\ r <> [].

Lemma columns_keep_null :
  forall (k : string) (c : IFieldCodec) (b : Buffer) (ds : list value),
    In k (sorted_keys records) -> (exists t, registry t = Some c) ->
    let present := filter is_present (map (fun r => cell r k) records) in
    (forall v, In v present -> exists r, In r records /\ In v (map snd r)) ->
    Z.of_nat (length present) < 2 ^ 32 ->
    codec_encode c present = OK b -> codec_decode c b = OK ds ->
    JSON_same_text present ds = true ->
    Forall2 (fun v d => v = VNull -> d = VNull) present ds.
Proof.
  intros k c b ds _ [t T] present From L E D J.
  apply (registry_keeps_null t c T present b ds); try assumption.
  apply Forall_forall. intros v Iv. destruct (From v Iv) as (r & Ir & Iv').
  apply in_map_iff in Iv' as ([k' v'] & <- & Ikv).
  pose proof flat as F. pose proof short as S. rewrite Forall_forall in F, S.
  destruct (F r Ir) as [_ Fr]. specialize (S r Ir).
  rewrite Forall_forall in Fr, S. split; [exact (proj2 (Fr _ Ikv)) | exact (S _ Ikv)].
Qed.

Lemma round_trip_keeping_null (buffer : Buffer) :
  SemanticCompressor.compress registry detectType version records = OK buffer ->
  exists records' : list JSObject,
    SemanticCompressor.decompress registry brotliDecompressSync buffer = OK records'
    /\ same_batch records records'.
Proof.
  intros C.
  destruct (round_trip_cells registry detectType version brotliDecompressSync
              records buffer flat some_key columns_keep_null C) as [D [HD HK]].
  eexists. split; [exact HD |]. now apply restored_same_batch.
Qed.

Hypothesis brotli_inverse :
  forall b : Buffer, brotliDecompressSync (brotliCompressSync b) = OK b.

Lemma round_trip_brotli (buffer : Buffer) :
  SemanticCompressor.compressColumnarBrotli registry detectType version
    brotliCompressSync records = OK buffer ->
  exists records' : list JSObject,
    SemanticCompressor.decompress registry brotliDecompressSync buffer = OK records'
    /\ same_batch records records'.
Proof.
  intros C.
  assert (NE : records <> []).
  { destruct some_key as [r0 [I0 _]]. destruct records; [destruct I0 | discriminate]. }
  unfold SemanticCompressor.compressColumnarBrotli in C.
  destruct (SemanticCompressor.prepareData registry detectType records)
    as [[fields columnBuffers] | e] eqn:PD; [| discriminate C].
  cbn [bind] in C.
  destruct (prepareData_flat registry detectType records fields columnBuffers
              flat NE columns_keep_null PD) as (P & -> & -> & Facts).
  rewrite !map_map, combine_map_same, map_map in C.
  set (F := fun k : string =>
              {| field_name := field_name (fst (P k));
                 field_type := field_type (fst (P k));
                 field_byteLength := length (brotliCompressSync (snd (P k))) |}).
  change (map _ (sorted_keys records)) with (map F (sorted_keys records)) in C at 1.
  destruct (HeaderEncoder.encode version (map F (sorted_keys records)))
    as [hdr | e] eqn:H; [| discriminate C].
  cbn [bind] in C. apply OK_inj in C.
  exists (map (restored (sorted_keys records) (fun k => redecode registry (P k)))
              (seq 0 (length records))).
  split; [| apply restored_same_batch; [exact flat | intros k K; now apply Facts]].
  apply (decompress_stored registry version brotliDecompressSync (sorted_keys records) F
           (fun k => brotliCompressSync (snd (P k))) _ true hdr).
  - apply sorted_keys_NoDup.
  - now apply sorted_keys_not_empty.
  - now apply sorted_keys_ordinary.
  - intros k K. destruct (Facts k K) as (Hn & Hl & Ht & (t & c & H1 & H2 & H3) & HC).
    split; [exact Hn | split; [reflexivity | split; [exact Ht | split]]].
    + exists t, c, (snd (P k)). rewrite brotli_inverse. auto.
    + rewrite <- (Forall2_length_eq _ _ _ HC). apply length_map.
  - exact H.
  - subst buffer. cbn [Buffer_concat concat]. now rewrite <- app_assoc.
Qed.

End KeepingNull.


(** ** Round trips of the codecs *)

Lemma skipn_before (before chunk : Buffer) :
  skipn (length before) (before ++ chunk) = chunk.
Proof. rewrite skipn_app, skipn_all, Nat.sub_diag. reflexivity. Qed.

Lemma encode_loop_length (k : nat) :
  forall (fuel : nat) (z : Z),
    0 <= z < 2 ^ 32 -> z < 128 ^ Z.of_nat (S k) ->
    (length (Varint.encode_loop fuel z) <= S k)%nat.
Proof.
  induction k as [| k IH]; intros fuel z Hz Hk.
  - destruct fuel; cbn [Varint.encode_loop]; rewrite js_shru_7 by exact Hz;
      change (128 ^ Z.of_nat 1) with 128 in Hk;
      (replace (z / 128 =? 0) with true by (symmetry; apply Z.eqb_eq; zlia));
      cbn; lia.
  - destruct fuel; cbn [Varint.encode_loop]; rewrite js_shru_7 by exact Hz;
      destruct (z / 128 =? 0); cbn [length]; try lia.
    apply le_n_S. apply IH.
    + change (2 ^ 32) with 4294967296 in *. zlia.
    + rewrite Nat2Z.inj_succ, Z.pow_succ_r in Hk by lia.
      apply Z.div_lt_upper_bound; lia.
Qed.

(** X1 -- [Varint.decode] reads back what [Varint.encode] wrote: for an
    unsigned 32-bit integer, [encode] yields one to five bytes, and
    [decode] at the offset where these bytes start, whatever precedes and
    follows them in the buffer, returns the integer and the number of
    bytes written. *)
Theorem Varint_round_trip (z : Z) (before rest : Buffer) :
  0 <= z < 2 ^ 32 ->
  exists bytes : Buffer,
    Varint.encode z = OK bytes
    /\ (1 <= length bytes <= 5)%nat
    /\ Varint.decode (before ++ bytes ++ rest) (length before)
       = OK (z, length bytes).
Proof.
  intros H. exists (varint z). split; [apply Varint_encode_varint; lia |]. split.
  - split; [apply varint_not_empty |]. apply encode_loop_length; [exact H |].
    change (128 ^ Z.of_nat 5) with 34359738368.
    change (2 ^ 32) with 4294967296 in H. lia.
  - apply (Varint_decode_varint z _ _ rest H). apply skipn_before.
Qed.

Lemma Varint_round_trip_witness :
  0 <= 300 < 2 ^ 32
  /\ exists bytes : Buffer,
       Varint.encode 300 = OK bytes
       /\ (1 <= length bytes <= 5)%nat
       /\ Varint.decode ([7] ++ bytes ++ [9]) 1 = OK (300, length bytes).
Proof.
  split; [change (2 ^ 32) with 4294967296; lia |].
  apply (Varint_round_trip 300 [7] [9]). change (2 ^ 32) with 4294967296. lia.
Defined.

(** X2 -- [Varint.decodeBigInt] reads back what [Varint.encodeBigInt]
    wrote: for a signed 64-bit integer, the ZigZag varint decoded at the
    offset where it starts is the integer itself, with the number of bytes
    written as [bytesRead]. *)
Theorem Varint_BigInt_round_trip (v : Z) (before rest : Buffer) :
  - 2 ^ 63 <= v < 2 ^ 63 ->
  Varint.decodeBigInt (before ++ Varint.encodeBigInt v ++ rest) (length before)
  = OK (v, length (Varint.encodeBigInt v)).
Proof.
  intros H.
  rewrite (decodeBigInt_encodeBigInt v _ _ rest) by apply skipn_before.
  now rewrite unzigzag_zigzag.
Qed.

Lemma Varint_BigInt_round_trip_witness :
  - 2 ^ 63 <= -1234567 < 2 ^ 63
  /\ Varint.decodeBigInt ([7] ++ Varint.encodeBigInt (-1234567) ++ [9]) 1
     = OK (-1234567, length (Varint.encodeBigInt (-1234567))).
Proof.
  assert (H : - 2 ^ 63 <= -1234567 < 2 ^ 63)
    by (change (2 ^ 63) with 9223372036854775808; lia).
  split; [exact H |]. exact (Varint_BigInt_round_trip (-1234567) [7] [9] H).
Defined.

Lemma reinterleave_present (values : list value) :
  reinterleave values (filter is_present values) = values.
Proof.
  induction values as [| v values IH]; [reflexivity |].
  cbn [reinterleave filter]. destruct (is_present v) eqn:P.
  - now rewrite IH.
  - rewrite IH. destruct v; try discriminate P. reflexivity.
Qed.

Lemma wrapper_restores
        (codec : IFieldCodec) (values : list value) (encoded : Buffer) :
  (forall payload : Buffer,
     codec_encode codec (filter is_present values) = OK payload ->
     codec_decode codec payload = OK (filter is_present values)) ->
  NullableCodecWrapper.encode codec values = OK encoded ->
  NullableCodecWrapper.decode codec encoded = OK values.
Proof.
  intros Inner E. destruct values as [| v0 values'] eqn:EV.
  - unfold NullableCodecWrapper.encode in E. cbn in E.
    destruct (codec_encode codec []) as [payload | e]; [| discriminate E].
    cbn in E. apply OK_inj in E. subst encoded. reflexivity.
  - rewrite <- EV in *. assert (NE : values <> []) by (rewrite EV; discriminate).
    destruct (wrapper_round_trip codec values encoded NE E) as (payload & P & _ & D).
    rewrite D, (Inner payload P). cbn [bind]. rewrite Nat.eqb_refl. cbn [negb].
    now rewrite reinterleave_present.
Qed.

(** X3 -- The nullable wrapper restores a column: when the wrapped codec
    reads back the non-MISSING values it was given, [decode] of the
    wrapper's [encode] is the column itself, each MISSING back at its
    row. *)
Theorem NullableCodecWrapper_round_trip
        (codec : IFieldCodec) (values : list value) (encoded : Buffer) :
  (forall payload : Buffer,
     codec_encode codec (filter is_present values) = OK payload ->
     codec_decode codec payload = OK (filter is_present values)) ->
  NullableCodecWrapper.encode codec values = OK encoded ->
  NullableCodecWrapper.decode codec encoded = OK values.
Proof.
  intros Inner E. now apply wrapper_restores.
Qed.

Lemma NullableCodecWrapper_round_trip_witness :
  let values := [VBool true; VMissing; VBool false; VMissing] in
  exists encoded : Buffer,
    NullableCodecWrapper.encode BooleanCodec.codec values = OK encoded
    /\ NullableCodecWrapper.decode BooleanCodec.codec encoded = OK values.
Proof.
  intros values.
  destruct (NullableCodecWrapper.encode BooleanCodec.codec values)
    as [encoded | e] eqn:E; [| vm_compute in E; discriminate E].
  exists encoded. split; [reflexivity |].
  apply (NullableCodecWrapper_round_trip BooleanCodec.codec values encoded);
    [| exact E].
  intros payload P. vm_compute in P. apply OK_inj in P. subst payload.
  vm_compute. reflexivity.
Defined.

(** X4 -- The adaptive string codec is lossless on columns of well-formed
    strings and [null]s: whichever of its three modes [encode] picks,
    [decode] returns the column itself.  (Each string is well-formed -- a
    lone surrogate is written as U+FFFD and does not come back -- and its
    UTF-8 length plus one, like the number of values, fits 32 bits.) *)
Theorem AdaptiveStringCodec_round_trip (values : list value) :
  Forall (fun v => string_or_null v = true /\ storable_string v = true) values ->
  Z.of_nat (length values) < 2 ^ 32 ->
  exists encoded : Buffer,
    AdaptiveStringCodec.encode values = OK encoded
    /\ AdaptiveStringCodec.decode encoded = OK values.
Proof.
  intros F L. destruct values as [| v0 values'] eqn:EV.
  { exists []. split; reflexivity. }
  rewrite <- EV in *. assert (NE : values <> []) by (rewrite EV; discriminate).
  assert (S : Forall (fun v => string_or_null v = true) values).
  { rewrite Forall_forall in *. intros v Iv. exact (proj1 (F v Iv)). }
  pose proof (encode_layout values NE S) as E. cbv zeta in E.
  eexists. split; [exact E |].
  exact (AdaptiveStringCodec_decode_encode values _ F L E).
Qed.

Lemma AdaptiveStringCodec_round_trip_witness :
  let values := [VStr "ab"; VNull; VStr "ab"; VStr "ab"; VStr "c"]%string in
  exists encoded : Buffer,
    AdaptiveStringCodec.encode values = OK encoded
    /\ AdaptiveStringCodec.decode encoded = OK values.
Proof.
  intros values. apply (AdaptiveStringCodec_round_trip values).
  - repeat (apply Forall_cons; [split; vm_compute; reflexivity |]). apply Forall_nil.
  - vm_compute. reflexivity.
Defined.


(** *** NumberCodec *)

Lemma integer_mode_lossless (zs : list Z) :
  Forall (fun z => - 2 ^ 53 < z < 2 ^ 53) zs ->
  exists encoded : Buffer,
    NumberCodec.encode (map (fun z => VNum (Number_of_Z z)) zs) = OK encoded
    /\ encoded = match zs with [] => [] | _ => 0x01 :: skipn 1 encoded end
    /\ NumberCodec.decode encoded = OK (map (fun z => VNum (Number_of_Z z)) zs).
Proof.
  intros F. destruct zs as [| z0 zs'] eqn:EZ.
  { exists []. repeat split; reflexivity. }
  rewrite <- EZ in *.
  assert (NE : map Number_of_Z zs <> []) by (rewrite EZ; discriminate).
  assert (I : forallb Number_isInteger (map Number_of_Z zs) = true).
  { apply forallb_forall. intros x Ix. apply in_map_iff in Ix.
    destruct Ix as [z [<- Iz]]. rewrite Forall_forall in F.
    now destruct (safe_integer z (F z Iz)). }
  assert (B : mapM BigInt (map Number_of_Z zs) = OK zs).
  { rewrite mapM_map. clear -F. induction F as [| z zs Hz _ IH]; cbn [mapM];
      [reflexivity |].
    destruct (safe_integer z Hz) as [_ ->]. cbn [bind]. now rewrite IH. }
  exists (0x01 :: flat_map Varint.encodeBigInt zs).
  rewrite <- (map_map Number_of_Z VNum zs).
  split; [exact (encode_integer_mode _ NE zs I B) |].
  split; [rewrite EZ; reflexivity |].
  rewrite NumberCodec_decode_mode. change (1 =? 1) with true. cbv iota.
  rewrite (decode_varints_written zs); [| | reflexivity].
  - f_equal. rewrite map_map. apply map_ext_in. intros z Iz.
    rewrite unzigzag_zigzag; [reflexivity |].
    rewrite Forall_forall in F. specialize (F z Iz).
    change (2 ^ 53) with 9007199254740992 in F.
    change (2 ^ 63) with 9223372036854775808. lia.
  - pose proof (length_flat_map_ge Varint.encodeBigInt zs encodeBigInt_not_empty). lia.
Qed.

(** X5 -- The number codec is lossless on safe integers: a column of
    integers of magnitude below 2^53 is written in integer mode (or as the
    empty buffer when the column is empty), and [decode] returns the same
    numbers. *)
Theorem NumberCodec_integer_round_trip (zs : list Z) :
  Forall (fun z => - 2 ^ 53 < z < 2 ^ 53) zs ->
  exists encoded : Buffer,
    NumberCodec.encode (map (fun z => VNum (Number_of_Z z)) zs) = OK encoded
    /\ encoded = match zs with [] => [] | _ => 0x01 :: skipn 1 encoded end
    /\ NumberCodec.decode encoded = OK (map (fun z => VNum (Number_of_Z z)) zs).
Proof.
  intros F. now apply integer_mode_lossless.
Qed.

Lemma NumberCodec_integer_round_trip_witness :
  let zs := [1; -40; 9007199254740991; 0] in
  exists encoded : Buffer,
    NumberCodec.encode (map (fun z => VNum (Number_of_Z z)) zs) = OK encoded
    /\ encoded = 0x01 :: skipn 1 encoded
    /\ NumberCodec.decode encoded = OK (map (fun z => VNum (Number_of_Z z)) zs).
Proof.
  intros zs. apply (NumberCodec_integer_round_trip zs).
  repeat (apply Forall_cons;
          [change (2 ^ 53) with 9007199254740992; lia |]).
  apply Forall_nil.
Defined.

(** X6 -- Float mode is exact: whenever [encode] answers a column of
    numbers with a buffer whose mode byte is 0x00, [decode] of that buffer
    returns the very same numbers, NaN and the infinities included. *)
Theorem NumberCodec_float_mode_round_trip (xs : list float) (body : Buffer) :
  NumberCodec.encode (map VNum xs) = OK (0x00 :: body) ->
  NumberCodec.decode (0x00 :: body) = OK (map VNum xs).
Proof.
  intros E. destruct xs as [| x0 xs'] eqn:EX; [discriminate E |].
  rewrite <- EX in *. assert (NE : xs <> []) by (rewrite EX; discriminate).
  clear EX x0 xs'.
  destruct (forallb Number_isInteger xs) eqn:I.
  - exfalso. unfold NumberCodec.encode in E.
    destruct (map VNum xs) as [| v vs] eqn:M; [discriminate E |].
    rewrite <- M in E. clear M v vs.
    rewrite forallb_isIntegerValue, I in E.
    destruct (mapM _ (map VNum xs)) as [parts | e]; [| discriminate E].
    cbn in E. discriminate E.
  - rewrite (encode_not_integer xs NE I) in E.
    destruct (NumberCodec.bestScale xs) as [s |] eqn:S.
    + exfalso. destruct (mapM _ xs) as [parts | e]; [| discriminate E].
      cbn in E. discriminate E.
    + apply OK_inj in E. injection E as <-.
      rewrite NumberCodec_decode_mode. change (0 =? 1) with false.
      change (0 =? 2) with false. cbv iota.
      apply decode_doubles_written; [| reflexivity].
      assert (L : (length xs <= length (flat_map writeDoubleLE xs))%nat).
      { apply length_flat_map_ge. intros x. unfold writeDoubleLE.
        rewrite length_le_bytes. lia. }
      lia.
Qed.

Lemma NumberCodec_float_mode_round_trip_witness :
  let xs := [0x1p-20%float; 3%float; nan; neg_infinity] in
  exists body : Buffer,
    NumberCodec.encode (map VNum xs) = OK (0x00 :: body)
    /\ NumberCodec.decode (0x00 :: body) = OK (map VNum xs).
Proof.
  intros xs.
  destruct (NumberCodec.encode (map VNum xs)) as [[| mode body] | e] eqn:E;
    try (vm_compute in E; discriminate E).
  assert (M : mode = 0x00) by (vm_compute in E; congruence).
  subst mode. exists body. split; [reflexivity |].
  exact (NumberCodec_float_mode_round_trip xs body E).
Defined.


(** *** BooleanCodec *)

(** The bit loop of the boolean codec is the bitmap loop of the nullable
    wrapper, run on the truthiness of the values. *)
Lemma BooleanCodec_encode_loop_marks (values : list value) :
  forall (i : nat) (nonNulls : list value) (dataBuf : Buffer),
    BooleanCodec.encode_loop values i dataBuf
    = snd (NullableCodecWrapper.encode_loop
             (map (fun v => if truthy v then VNull else VMissing) values)
             i nonNulls dataBuf).
Proof.
  induction values as [| v values IH]; intros i nonNulls dataBuf; [reflexivity |].
  cbn [BooleanCodec.encode_loop NullableCodecWrapper.encode_loop map].
  destruct (truthy v); cbn [is_present]; apply IH.
Qed.

Lemma map_nth_seq {A B : Type} (h : A -> B) (d : A) (l : list A) :
  map (fun i => h (nth i l d)) (seq 0 (length l)) = map h l.
Proof.
  induction l as [| a l IH]; [reflexivity |].
  cbn [length seq map nth]. f_equal.
  rewrite <- seq_shift, map_map. exact IH.
Qed.

Lemma boolean_codec_truthiness (values : list value) :
  Z.of_nat (length values) < 2 ^ 32 ->
  exists encoded : Buffer,
    BooleanCodec.encode values = OK encoded
    /\ BooleanCodec.decode encoded = OK (map (fun v => VBool (truthy v)) values).
Proof.
  intros L. unfold BooleanCodec.encode. cbv zeta.
  destruct values as [| v0 values'] eqn:EV; [exists []; split; reflexivity |].
  rewrite <- EV in *.
  assert (N : (length values =? 0)%nat = false) by (rewrite EV; reflexivity).
  rewrite N, Varint_encode_varint by lia. cbn [bind].
  rewrite (BooleanCodec_encode_loop_marks values 0 []).
  set (marks := map (fun v => if truthy v then VNull else VMissing) values).
  pose proof (encode_bitmap_bits marks) as B.
  assert (LM : length marks = length values) by apply length_map.
  rewrite LM in B.
  destruct (NullableCodecWrapper.encode_loop marks 0 []
              (Buffer_alloc (ceil_div (length values) 8))) as [nn bm].
  destruct B as (_ & _ & Bytes & Bits). cbn [snd].
  set (count := varint (Z.of_nat (length values))).
  eexists. split; [reflexivity |].
  unfold Buffer_concat. cbn [concat]. rewrite app_nil_r.
  unfold BooleanCodec.decode.
  destruct (count ++ bm) as [| b0 more] eqn:EB.
  { pose proof (varint_not_empty (Z.of_nat (length values))) as V.
    apply (f_equal (@length Z)) in EB. rewrite length_app in EB.
    unfold count in EB. cbn [length] in EB. lia. }
  rewrite <- EB. clear EB b0 more.
  rewrite (Varint_decode_varint (Z.of_nat (length values)) _ 0 bm)
    by (try reflexivity; lia).
  cbn [bind]. fold count. rewrite Nat2Z.id. f_equal.
  rewrite <- (map_nth_seq (fun v => VBool (truthy v)) VNull values).
  apply map_ext_in. intros i Ii. apply in_seq in Ii. f_equal.
  unfold BooleanCodec.read_bit, Buffer_get.
  rewrite nth_error_app2 by apply Nat.le_add_r.
  rewrite Nat.add_comm, Nat.add_sub.
  change (match nth_error bm (i / 8) with
          | Some byte => negb (js_and byte (js_shl 1 (Z.of_nat (i mod 8))) =? 0)
          | None => false
          end) with (NullableCodecWrapper.bit_is_set bm i).
  rewrite bit_is_set_bitmap_bit, Bits by exact Bytes.
  replace (i <? length values)%nat with true by (symmetry; apply Nat.ltb_lt; lia).
  cbn [andb]. unfold marks.
  rewrite (nth_indep _ VMissing (if truthy VNull then VNull else VMissing))
    by (rewrite length_map; lia).
  rewrite (map_nth (fun v => if truthy v then VNull else VMissing)).
  now destruct (truthy (nth i values VNull)).
Qed.

(** X7 -- The boolean codec keeps the truthiness of each value: [decode]
    of [encode] of a column returns, row by row, [true] for a truthy value
    and [false] for a falsy one, so a column of booleans comes back as it
    was. *)
Theorem BooleanCodec_round_trip (values : list value) :
  Z.of_nat (length values) < 2 ^ 32 ->
  exists encoded : Buffer,
    BooleanCodec.encode values = OK encoded
    /\ BooleanCodec.decode encoded = OK (map (fun v => VBool (truthy v)) values).
Proof.
  intros L. now apply boolean_codec_truthiness.
Qed.

Lemma BooleanCodec_round_trip_witness :
  let values := [VBool true; VBool false; VBool true; VBool true; VBool false;
                 VBool false; VBool false; VBool true; VBool true] in
  exists encoded : Buffer,
    BooleanCodec.encode values = OK encoded
    /\ BooleanCodec.decode encoded = OK values.
Proof.
  intros values. apply (BooleanCodec_round_trip values). vm_compute. reflexivity.
Defined.


(** ** The compressor *)

Ltac flat_records :=
  repeat (apply Forall_cons;
          [split;
           [repeat (apply NoDup_cons; [cbn; intuition discriminate |]);
            apply NoDup_nil
           | repeat (apply Forall_cons; [split; vm_compute; reflexivity |]);
             apply Forall_nil] |]);
  apply Forall_nil.

Ltac short_records :=
  repeat (apply Forall_cons;
          [repeat (apply Forall_cons; [vm_compute; reflexivity |]);
           apply Forall_nil |]);
  apply Forall_nil.

(** X8 -- With the codecs of the usage example, [decompress] undoes
    [compress] on flat batches that hold [null]s too: whenever [compress]
    returns a buffer for a batch of flat records with at least one key,
    [decompress] returns a batch of the same length whose records have the
    same keys and, under each key, a [===] value; a key absent from a
    record stays absent and a [null] stays [null].  This holds for any
    profiler.  (A flat record has distinct ordinary keys: well-formed,
    without dots, of fewer than 256 UTF-8 bytes, neither array indices nor
    names inherited from [Object.prototype], such as [constructor] and
    [__proto__]; its values are [null], booleans, finite numbers or
    well-formed strings.) *)
Theorem SemanticCompressor_round_trip_with_nulls
        (Date_parse : string -> option Z) (Date_toISOString : Z -> string)
        (detectType : list value -> FieldType) (version : Z)
        (brotliDecompressSync : Buffer -> result Buffer)
        (records : list JSObject) (buffer : Buffer) :
  let registry := defaultRegistry Date_parse Date_toISOString in
  Forall flat_record records ->
  Forall (Forall (fun kv => storable_string (snd kv) = true)) records ->
  (exists r, In r records /\ r <> []) ->
  SemanticCompressor.compress registry detectType version records = OK buffer ->
  exists records' : list JSObject,
    SemanticCompressor.decompress registry brotliDecompressSync buffer = OK records'
    /\ same_batch records records'.
Proof.
  intros registry FR SH NE C.
  apply (round_trip_keeping_null registry detectType version brotliDecompressSync
           (defaultRegistry_keeps_null Date_parse Date_toISOString)
           records FR SH NE buffer C).
Qed.

Lemma SemanticCompressor_round_trip_with_nulls_witness :
  let registry := defaultRegistry (fun _ => None) (fun _ => EmptyString) in
  let detectType := FieldProfiler.detectType (fun _ => None) in
  let records := [[("a", VNum 1); ("b", VNull); ("c", VStr "x")];
                  [("a", VNum 2); ("c", VNull)]]%string in
  exists buffer : Buffer,
    SemanticCompressor.compress registry detectType 1 records = OK buffer
    /\ exists records' : list JSObject,
         SemanticCompressor.decompress registry (fun b => OK b) buffer = OK records'
         /\ same_batch records records'.
Proof.
  intros registry detectType records.
  destruct (SemanticCompressor.compress registry detectType 1 records)
    as [buffer | e] eqn:C; [| vm_compute in C; discriminate C].
  exists buffer. split; [reflexivity |].
  apply (SemanticCompressor_round_trip_with_nulls (fun _ => None)
           (fun _ => EmptyString) detectType 1 (fun b => OK b) records buffer).
  - flat_records.
  - short_records.
  - exists [("a", VNum 2); ("c", VNull)]%string. split; [cbn; tauto | discriminate].
  - exact C.
Defined.

(** X9 -- The columnar Brotli variant round-trips as well: when the
    host's [brotliDecompressSync] undoes its [brotliCompressSync], and
    [compressColumnarBrotli] returns a buffer for a batch of flat records
    with at least one key, [decompress] recognises the "SJCB" buffer and
    returns a batch with the same keys and [===] values, record by record
    (codecs of the usage example, any profiler).  The flat records are
    those of X8: distinct ordinary keys (well-formed, dot-free, under 256
    bytes, neither array indices nor names inherited from
    [Object.prototype]) and values that are [null], booleans, finite
    numbers or well-formed strings. *)
Theorem SemanticCompressor_brotli_round_trip
        (Date_parse : string -> option Z) (Date_toISOString : Z -> string)
        (detectType : list value -> FieldType) (version : Z)
        (brotliCompressSync : Buffer -> Buffer)
        (brotliDecompressSync : Buffer -> result Buffer)
        (records : list JSObject) (buffer : Buffer) :
  let registry := defaultRegistry Date_parse Date_toISOString in
  (forall b : Buffer, brotliDecompressSync (brotliCompressSync b) = OK b) ->
  Forall flat_record records ->
  Forall (Forall (fun kv => storable_string (snd kv) = true)) records ->
  (exists r, In r records /\ r <> []) ->
  SemanticCompressor.compressColumnarBrotli registry detectType version
    brotliCompressSync records = OK buffer ->
  exists records' : list JSObject,
    SemanticCompressor.decompress registry brotliDecompressSync buffer = OK records'
    /\ same_batch records records'.
Proof.
  intros registry INV FR SH NE C.
  apply (round_trip_brotli registry detectType version brotliCompressSync
           brotliDecompressSync
           (defaultRegistry_keeps_null Date_parse Date_toISOString)
           records FR SH NE INV buffer C).
Qed.

Lemma SemanticCompressor_brotli_round_trip_witness :
  let registry := defaultRegistry (fun _ => None) (fun _ => EmptyString) in
  let detectType := FieldProfiler.detectType (fun _ => None) in
  let squeeze := fun b : Buffer => 42 :: b in
  let expand := fun b : Buffer =>
                  match b with
                  | _ :: rest => OK rest
                  | [] => Err (RangeError "brotli")
                  end in
  let records := [[("a", VNum 1); ("b", VNull)]; [("a", VNum 2)]]%string in
  exists buffer : Buffer,
    SemanticCompressor.compressColumnarBrotli registry detectType 1 squeeze records
    = OK buffer
    /\ exists records' : list JSObject,
         SemanticCompressor.decompress registry expand buffer = OK records'
         /\ same_batch records records'.
Proof.
  intros registry detectType squeeze expand records.
  destruct (SemanticCompressor.compressColumnarBrotli registry detectType 1
              squeeze records) as [buffer | e] eqn:C;
    [| vm_compute in C; discriminate C].
  exists buffer. split; [reflexivity |].
  apply (SemanticCompressor_brotli_round_trip (fun _ => None)
           (fun _ => EmptyString) detectType 1 squeeze expand records buffer).
  - intros b. reflexivity.
  - flat_records.
  - short_records.
  - exists [("a", VNum 2)]%string. split; [cbn; tauto | discriminate].
  - exact C.
Defined.

(** X10 -- The pivot of [prepareData]: a batch of flat records becomes
    one column per key that occurs in the batch, the keys in ascending
    order of their UTF-16 code units and each once; the column of a key has
    one cell per record, in batch order, holding the record's value or
    MISSING where the record lacks the key.  (The keys are ordinary names:
    well-formed, without dots, neither array indices, which JavaScript
    would list first, nor names inherited from [Object.prototype].) *)
Theorem SemanticCompressor_pivot_columns (records : list JSObject) :
  records <> [] -> Forall flat_record records ->
  SemanticCompressor.pivot records
  = OK (map (fun k => (k, map (fun r => cell r k) records)) (sorted_keys records))
  /\ NoDup (sorted_keys records)
  /\ ascending (sorted_keys records) = true
  /\ forall k, In k (sorted_keys records) <-> exists r, In r records /\ In k (obj_keys r).
Proof.
  intros NE FR. split; [exact (pivot_flat records NE FR) |].
  split; [apply sorted_keys_NoDup |].
  split; [apply sort_strings_ascending | intros k; apply sorted_keys_In].
Qed.

Lemma SemanticCompressor_pivot_columns_witness :
  let records := [[("b", VNum 1); ("a", VNull)]; [("c", VBool true); ("b", VNum 2)]]%string in
  SemanticCompressor.pivot records
  = OK [("a", [VNull; VMissing]); ("b", [VNum 1; VNum 2]);
        ("c", [VMissing; VBool true])]%string.
Proof.
  intros records.
  destruct (SemanticCompressor_pivot_columns records) as [P _];
    [discriminate | flat_records |].
  rewrite P. vm_compute. reflexivity.
Defined.


(** *** The header *)

(** X12 -- The header loop of [decompress] reads back what
    [HeaderEncoder.encode] wrote: the magic "SAJC", the version byte, the
    16-bit field count and, from offset 7 on, every field with its name,
    type and byte length, ending at the first byte after the header.  (The
    names are well-formed strings -- a lone surrogate would come back as
    U+FFFD -- of fewer than 256 bytes, and the types are byte-sized, as
    the one-byte slots of the format ask.) *)
Theorem HeaderEncoder_read_back
        (version : Z) (fields : list FieldSchema) (hdr rest : Buffer) :
  Forall (fun f => (length (utf8_bytes f.(field_name)) < 256)%nat
                   /\ 0 <= f.(field_type) < 256
                   /\ well_formed f.(field_name) = true) fields ->
  HeaderEncoder.encode version fields = OK hdr ->
  Buffer_slice (hdr ++ rest) 0 4 = HeaderEncoder.magic
  /\ Buffer_get (hdr ++ rest) 4 = Some (version mod 256)
  /\ Z.to_nat (le_value (Buffer_slice (hdr ++ rest) 5 7)) = length fields
  /\ SemanticCompressor.read_fields (length fields) (hdr ++ rest) 7
     = OK (fields, length hdr).
Proof.
  intros F H. unfold HeaderEncoder.encode, writeUInt16LE in H.
  destruct ((0 <=? Z.of_nat (length fields)) && (Z.of_nat (length fields) <? 2 ^ 16))%bool
    eqn:R; [| discriminate H].
  apply andb_true_iff in R. destruct R as [_ R]. apply Z.ltb_lt in R.
  cbn [bind] in H.
  destruct (mapM HeaderEncoder.encode_field fields) as [parts | e] eqn:MP;
    [| discriminate H].
  cbn [bind] in H. apply OK_inj in H.
  assert (B : hdr = HeaderEncoder.magic
                    ++ version mod 256
                    :: Z.of_nat (length fields) mod 256
                    :: Z.of_nat (length fields) / 256 mod 256
                    :: concat parts) by (subst hdr; reflexivity).
  clear H. subst hdr.
  split; [reflexivity |]. split; [reflexivity |]. split.
  - change (Z.to_nat (Z.of_nat (length fields) mod 256
                      + 256 * (Z.of_nat (length fields) / 256 mod 256 + 256 * 0))
            = length fields).
    replace (Z.of_nat (length fields) mod 256
             + 256 * (Z.of_nat (length fields) / 256 mod 256 + 256 * 0))
      with (Z.of_nat (length fields)); [apply Nat2Z.id |].
    change (2 ^ 16) with 65536 in R. zlia.
  - rewrite (read_fields_encoded fields parts _ 7 rest MP F); [| reflexivity].
    cbn [HeaderEncoder.magic app length]. reflexivity.
Qed.

Lemma HeaderEncoder_read_back_witness :
  let fields := [{| field_name := "id"; field_type := 5; field_byteLength := 3 |};
                 {| field_name := "name"; field_type := 7; field_byteLength := 300 |}]%string in
  exists hdr : Buffer,
    HeaderEncoder.encode 1 fields = OK hdr
    /\ SemanticCompressor.read_fields 2 (hdr ++ [1; 2; 3]) 7 = OK (fields, length hdr).
Proof.
  intros fields.
  destruct (HeaderEncoder.encode 1 fields) as [hdr | e] eqn:H;
    [| vm_compute in H; discriminate H].
  exists hdr. split; [reflexivity |].
  apply (HeaderEncoder_read_back 1 fields hdr [1; 2; 3]); [| exact H].
  repeat (apply Forall_cons; [split; [vm_compute; lia | cbn; lia] |]).
  apply Forall_nil.
Defined.

(** *** Columns that cannot be stored *)

Section NullRejected.

Variable registry : CodecRegistry.t.
Variable detectType : list value -> FieldType.
Variable version : Z.
Variable records : list JSObject.
Variable key : string.
Variable codec : IFieldCodec.

Hypothesis flat : Forall flat_record records.
Hypothesis short : Forall (Forall (fun kv => storable_string (snd kv) = true)) records.
Hypothesis has_null : exists r, In r records /\ obj_get r key = Some VNull.
Hypothesis typed :
  registry (detectType (filter is_present (map (fun r => cell r key) records)))
  = Some codec.
Hypothesis codec_keeps_null : keeps_null codec.
Hypothesis never_null :
  forall (b : Buffer) (ds : list value),
    codec_decode codec b = OK ds -> ~ In VNull ds.

Lemma null_column_rejected :
  exists e : error,
    SemanticCompressor.compress registry detectType version records = Err e.
Proof.
  destruct (SemanticCompressor.compress registry detectType version records)
    as [buffer | e] eqn:C; [exfalso | now exists e].
  destruct has_null as (r0 & I0 & G0).
  assert (NE : records <> []) by (intros ->; destruct I0).
  set (col := map (fun r => cell r key) records) in *.
  assert (NC : In VNull (filter is_present col)).
  { apply filter_In. split; [| reflexivity]. unfold col. apply in_map_iff.
    exists r0. split; [| exact I0]. unfold cell. now rewrite G0. }
  assert (K : In key (sorted_keys records)).
  { apply sorted_keys_In. exists r0. split; [exact I0 |].
    apply obj_get_Some_In in G0. change key with (fst (key, VNull)).
    now apply in_map. }
  unfold SemanticCompressor.compress in C.
  destruct (SemanticCompressor.prepareData registry detectType records)
    as [[fields columnBuffers] | e] eqn:PD; [| discriminate C].
  clear C.
  assert (PE : SemanticCompressor.prepareData registry detectType records
               = (do columns <- SemanticCompressor.pivot records;
                  let schema := SemanticCompressor.buildSchema detectType columns in
                  do prepared <- mapM (SemanticCompressor.prepareColumn registry schema)
                                      columns;
                  OK (map fst prepared, map snd prepared)))
    by (destruct records; [congruence | reflexivity]).
  rewrite PE in PD. clear PE.
  rewrite (pivot_flat records NE flat) in PD. cbn [bind] in PD. cbv zeta in PD.
  set (schema := SemanticCompressor.buildSchema detectType _) in PD.
  destruct (mapM (SemanticCompressor.prepareColumn registry schema) _)
    as [prepared | e] eqn:M; [| discriminate PD].
  clear PD.
  destruct (mapM_ok_In _ _ _ (key, col) M) as [p Hp].
  { apply in_map_iff. exists key. split; [reflexivity | exact K]. }
  clear M. unfold SemanticCompressor.prepareColumn in Hp.
  assert (S : obj_get schema key = Some (detectType (filter is_present col))).
  { unfold schema, SemanticCompressor.buildSchema. rewrite map_map.
    rewrite (obj_get_map_In
               (fun k => detectType
                           match filter is_present (map (fun r => cell r k) records) with
                           | [] => map (fun r => cell r k) records
                           | _ :: _ => filter is_present (map (fun r => cell r k) records)
                           end) (sorted_keys records) key K).
    fold col. destruct (filter is_present col); [destruct NC | reflexivity]. }
  rewrite S in Hp. unfold SemanticCompressor.resolveCodec, CodecRegistry.get in Hp.
  rewrite typed in Hp. cbn [bind] in Hp.
  destruct (NullableCodecWrapper.encode codec col) as [enc |] eqn:En;
    [| discriminate Hp].
  cbn [bind] in Hp.
  destruct (NullableCodecWrapper.decode codec enc) as [dec |] eqn:De;
    [| discriminate Hp].
  cbn [bind] in Hp.
  destruct (JSON_same_text col dec) eqn:J; cbn [negb] in Hp; [| discriminate Hp].
  clear Hp.
  assert (CN : col <> []) by (unfold col; destruct records; [congruence | discriminate]).
  destruct (wrapper_round_trip codec col enc CN En) as (payload & P & Hlen & Hw).
  rewrite Hw in De.
  destruct (codec_decode codec payload) as [ds | e] eqn:Hds; [| discriminate De].
  cbn [bind] in De.
  destruct (length (filter is_present col) =? length ds)%nat eqn:L;
    cbn [negb] in De; [| discriminate De].
  apply Nat.eqb_eq in L. apply OK_inj in De. subst dec.
  apply JSON_same_text_items in J.
  pose proof (reinterleave_items col ds (eq_sym L) J) as HI.
  apply JSON_same_text_items in HI.
  assert (KN : Forall2 (fun v d => v = VNull -> d = VNull) (filter is_present col) ds).
  { apply (codec_keeps_null (filter is_present col) payload ds); try assumption.
    - apply Forall_forall. intros v V. apply filter_In in V. destruct V as [V Pv].
      unfold col in V. apply in_map_iff in V. destruct V as [r [Ev Ir]].
      pose proof flat as FR. pose proof short as SH. rewrite Forall_forall in FR, SH.
      pose proof (flat_record_cell r key (FR r Ir)) as FC.
      destruct (obj_get r key) as [w |] eqn:G.
      + destruct FC as (Pw & Cw & _). rewrite Cw in Ev. subst w.
        split; [exact Pw |]. apply obj_get_Some_In in G.
        specialize (SH r Ir). rewrite Forall_forall in SH. exact (SH _ G).
      + rewrite FC in Ev. subst v. discriminate Pv.
    - pose proof (filter_length_le is_present col) as FL. lia. }
  apply (never_null payload ds Hds).
  clear -KN NC. induction KN as [| v d vs ds Hv _ IH]; [destruct NC |].
  destruct NC as [-> | NC]; [left; now apply Hv | right; now apply IH].
Qed.

End NullRejected.

Lemma decode_varints_numbers (fuel : nat) (convert : Z -> float) :
  forall (buffer : Buffer) (offset : nat) (ds : list value),
    NumberCodec.decode_varints fuel buffer offset convert = OK ds -> ~ In VNull ds.
Proof.
  induction fuel as [| fuel IH]; intros buffer offset ds;
    cbn [NumberCodec.decode_varints]; destruct (offset <? length buffer)%nat;
    try (intros H; apply OK_inj in H; subst ds; exact (fun I => I)).
  destruct (Varint.decodeBigInt buffer offset) as [[value bytesRead] |];
    [| discriminate]. cbn [bind].
  destruct (NumberCodec.decode_varints fuel buffer _ convert) as [more |] eqn:M;
    [| discriminate]. cbn [bind].
  intros H. apply OK_inj in H. subst ds. intros [I | I]; [discriminate I |].
  exact (IH _ _ _ M I).
Qed.

Lemma decode_doubles_numbers (fuel : nat) :
  forall (buffer : Buffer) (offset : nat) (ds : list value),
    NumberCodec.decode_doubles fuel buffer offset = OK ds -> ~ In VNull ds.
Proof.
  induction fuel as [| fuel IH]; intros buffer offset ds;
    cbn [NumberCodec.decode_doubles]; destruct (offset <? length buffer)%nat;
    try (intros H; apply OK_inj in H; subst ds; exact (fun I => I)).
  destruct (readDoubleLE buffer offset) as [x |]; [| discriminate]. cbn [bind].
  destruct (NumberCodec.decode_doubles fuel buffer _) as [more |] eqn:M;
    [| discriminate]. cbn [bind].
  intros H. apply OK_inj in H. subst ds. intros [I | I]; [discriminate I |].
  exact (IH _ _ _ M I).
Qed.

Lemma NumberCodec_never_null (b : Buffer) (ds : list value) :
  NumberCodec.decode b = OK ds -> ~ In VNull ds.
Proof.
  destruct b as [| mode body]; [intros H; apply OK_inj in H; now subst ds |].
  rewrite NumberCodec_decode_mode. destruct (mode =? 1).
  - apply decode_varints_numbers.
  - destruct (mode =? 2); [apply decode_varints_numbers | apply decode_doubles_numbers].
Qed.

Lemma BooleanCodec_never_null (b : Buffer) (ds : list value) :
  BooleanCodec.decode b = OK ds -> ~ In VNull ds.
Proof.
  unfold BooleanCodec.decode. destruct b as [| b0 b];
    [intros H; apply OK_inj in H; now subst ds |].
  destruct (Varint.decode (b0 :: b) 0) as [[count bytesRead] |]; [| discriminate].
  cbn [bind]. intros H. apply OK_inj in H. subst ds. intros I.
  apply in_map_iff in I. destruct I as [i [I _]]. discriminate I.
Qed.

(** The profiler on the non-MISSING cells of a column of numbers and
    [null]s, or of booleans and [null]s, with a value that is not [null]. *)
Lemma detectType_numbers (Date_parse : string -> option Z) (values : list value) :
  Forall (fun v => number_or_null v = true) values ->
  (exists v, In v values /\ v <> VNull) ->
  FieldProfiler.detectType Date_parse values = NUMBER.
Proof.
  intros F [v [Iv Nv]]. unfold FieldProfiler.detectType.
  set (nonNull := filter _ values).
  assert (N : Forall (fun v => exists x, v = VNum x) nonNull).
  { apply Forall_forall. intros w W. apply filter_In in W. destruct W as [W Pw].
    rewrite Forall_forall in F. specialize (F w W).
    destruct w; try discriminate; eauto. }
  assert (I : In v nonNull).
  { apply filter_In. split; [exact Iv |]. rewrite Forall_forall in F.
    specialize (F v Iv). destruct v; try discriminate; congruence. }
  destruct nonNull as [| w ws]; [destruct I |]. clear I.
  inversion N as [| ? ? [x ->] Nws]; subst.
  cbn. replace (forallb _ ws) with true; [reflexivity |].
  symmetry. apply forallb_forall. intros u U. rewrite Forall_forall in Nws.
  now destruct (Nws u U) as [y ->].
Qed.

Lemma detectType_booleans (Date_parse : string -> option Z) (values : list value) :
  Forall (fun v => boolean_or_null v = true) values ->
  (exists v, In v values /\ v <> VNull) ->
  FieldProfiler.detectType Date_parse values = BOOLEAN.
Proof.
  intros F [v [Iv Nv]]. unfold FieldProfiler.detectType.
  set (nonNull := filter _ values).
  assert (N : Forall (fun v => exists x, v = VBool x) nonNull).
  { apply Forall_forall. intros w W. apply filter_In in W. destruct W as [W Pw].
    rewrite Forall_forall in F. specialize (F w W).
    destruct w; try discriminate; eauto. }
  assert (I : In v nonNull).
  { apply filter_In. split; [exact Iv |]. rewrite Forall_forall in F.
    specialize (F v Iv). destruct v; try discriminate; congruence. }
  destruct nonNull as [| w ws]; [destruct I |]. clear I.
  inversion N as [| ? ? [x ->] Nws]; subst.
  cbn. replace (forallb _ ws) with true; [reflexivity |].
  symmetry. apply forallb_forall. intros u U. rewrite Forall_forall in Nws.
  now destruct (Nws u U) as [y ->].
Qed.

Lemma present_cells (records : list JSObject) (key : string) (Q : value -> bool) :
  Forall flat_record records ->
  (forall r v, In r records -> obj_get r key = Some v -> Q v = true) ->
  (exists r v, In r records /\ obj_get r key = Some v /\ v <> VNull) ->
  Forall (fun v => Q v = true)
         (filter is_present (map (fun r => cell r key) records))
  /\ exists v, In v (filter is_present (map (fun r => cell r key) records))
               /\ v <> VNull.
Proof.
  intros FR HQ (r0 & v0 & I0 & G0 & N0). rewrite Forall_forall in FR. split.
  - apply Forall_forall. intros v V. apply filter_In in V. destruct V as [V Pv].
    apply in_map_iff in V. destruct V as [r [Ev Ir]].
    pose proof (flat_record_cell r key (FR r Ir)) as FC.
    destruct (obj_get r key) as [w |] eqn:G.
    + destruct FC as (_ & Cw & _). rewrite Cw in Ev. subst w. exact (HQ r v Ir G).
    + rewrite FC in Ev. subst v. discriminate Pv.
  - exists v0. split; [| exact N0]. apply filter_In.
    pose proof (flat_record_cell r0 key (FR r0 I0)) as FC. rewrite G0 in FC.
    destruct FC as (Pv & Cv & _). split.
    + apply in_map_iff. exists r0. split; [exact Cv | exact I0].
    + destruct v0; try discriminate Pv; reflexivity.
Qed.

(** X13 -- A [null] among numbers, or among booleans, cannot be stored:
    with the profiler and the codecs of the usage example, [compress]
    throws on a batch of flat records in which some key holds numbers and
    [null]s only (or booleans and [null]s only), at least one of each.  The
    number codec reads a [null] back as 0 and the boolean codec as
    [false], so the self-check of [prepareData] fails, unless an error is
    raised before.  (The keys of a flat record are ordinary: well-formed,
    dot-free, under 256 bytes, neither array indices nor names inherited
    from [Object.prototype]; a column under [__proto__] is never built.) *)
Theorem SemanticCompressor_null_among_numbers_rejected
        (Date_parse : string -> option Z) (Date_toISOString : Z -> string)
        (version : Z) (records : list JSObject) (key : string) :
  Forall flat_record records ->
  Forall (Forall (fun kv => storable_string (snd kv) = true)) records ->
  (forall r v, In r records -> obj_get r key = Some v -> number_or_null v = true)
  \/ (forall r v, In r records -> obj_get r key = Some v -> boolean_or_null v = true) ->
  (exists r v, In r records /\ obj_get r key = Some v /\ v <> VNull) ->
  (exists r, In r records /\ obj_get r key = Some VNull) ->
  exists e : error,
    SemanticCompressor.compress (defaultRegistry Date_parse Date_toISOString)
      (FieldProfiler.detectType Date_parse) version records = Err e.
Proof.
  intros FR SH [Q | Q] SV NV.
  - destruct (present_cells records key number_or_null FR Q SV) as [F E].
    apply (null_column_rejected _ _ version records key NumberCodec.codec FR SH NV).
    + rewrite (detectType_numbers Date_parse _ F E). reflexivity.
    + apply NumberCodec_keeps_null.
    + exact NumberCodec_never_null.
  - destruct (present_cells records key boolean_or_null FR Q SV) as [F E].
    apply (null_column_rejected _ _ version records key BooleanCodec.codec FR SH NV).
    + rewrite (detectType_booleans Date_parse _ F E). reflexivity.
    + apply BooleanCodec_keeps_null.
    + exact BooleanCodec_never_null.
Qed.

Lemma SemanticCompressor_null_among_numbers_rejected_witness :
  let records := [[("n", VNum 1)]; [("n", VNull)]]%string in
  exists e : error,
    SemanticCompressor.compress (defaultRegistry (fun _ => None) (fun _ => EmptyString))
      (FieldProfiler.detectType (fun _ => None)) 1 records = Err e.
Proof.
  intros records.
  apply (SemanticCompressor_null_among_numbers_rejected (fun _ => None)
           (fun _ => EmptyString) 1 records "n"%string).
  - flat_records.
  - short_records.
  - left. intros r v [<- | [<- | []]] G; vm_compute in G; injection G as <-; reflexivity.
  - exists [("n", VNum 1)]%string, (VNum 1). split; [cbn; tauto |].
    split; [reflexivity | discriminate].
  - exists [("n", VNull)]%string. split; [cbn; tauto | reflexivity].
Defined.


(** *** BitmapBuilder *)

Lemma build_loop_parts (values : list value) :
  forall (i : nat) (bitmap : Buffer) (nonNullValues marks : list value),
    BitmapBuilder.build_loop values i bitmap nonNullValues
    = (snd (NullableCodecWrapper.encode_loop
              (map (fun v => if is_non_null v then VNull else VMissing) values)
              i marks bitmap),
       nonNullValues ++ filter is_non_null values).
Proof.
  induction values as [| v values IH]; intros i bitmap nonNullValues marks.
  - cbn. now rewrite app_nil_r.
  - cbn [BitmapBuilder.build_loop NullableCodecWrapper.encode_loop map filter].
    destruct (is_non_null v); cbn [is_present].
    + rewrite (IH _ _ _ (marks ++ [VNull])), <- app_assoc. reflexivity.
    + apply IH.
Qed.

(** X14 -- [BitmapBuilder.build] splits a column: the values returned
    are the values that are neither [null] nor [undefined], in order; the
    bitmap has one byte per eight rows, bit [i] (least significant bit
    first) is set exactly when row [i] holds such a value, the padding
    bits are clear, and the number of set bits is the number of values
    returned. *)
Theorem BitmapBuilder_build_bits (values : list value) :
  let '(bitmap, nonNullValues) := BitmapBuilder.build values in
  nonNullValues = filter is_non_null values
  /\ length bitmap = ceil_div (length values) 8
  /\ (forall i : nat,
        NullableCodecWrapper.bitmap_bit bitmap i
        = ((i <? length values)%nat && is_non_null (nth i values VNull))%bool)
  /\ NullableCodecWrapper.popcount bitmap = length nonNullValues.
Proof.
  unfold BitmapBuilder.build. cbv zeta.
  rewrite (build_loop_parts values 0 _ [] []). cbn [app].
  set (marks := map (fun v => if is_non_null v then VNull else VMissing) values).
  pose proof (encode_bitmap_bits marks) as B.
  assert (LM : length marks = length values) by apply length_map.
  rewrite LM in B.
  destruct (NullableCodecWrapper.encode_loop marks 0 []
              (Buffer_alloc (ceil_div (length values) 8))) as [nn bm].
  cbn [snd]. destruct B as (_ & Len & Bytes & Bits).
  assert (Bits' : forall i : nat,
             NullableCodecWrapper.bitmap_bit bm i
             = ((i <? length values)%nat && is_non_null (nth i values VNull))%bool).
  { intros i. rewrite Bits. destruct (Nat.ltb_spec i (length values)) as [Hi | Hi];
      [| reflexivity]. cbn [andb]. unfold marks.
    rewrite (nth_indep _ VMissing (if is_non_null VNull then VNull else VMissing))
      by (rewrite length_map; lia).
    rewrite (map_nth (fun v => if is_non_null v then VNull else VMissing)).
    now destruct (is_non_null (nth i values VNull)). }
  split; [reflexivity |]. split; [exact Len |]. split; [exact Bits' |].
  rewrite popcount_filter.
  replace (8 * length bm)%nat
    with (length values + (8 * length bm - length values))%nat
    by (pose proof (ceil_div_8_bound (length values)); lia).
  rewrite seq_app, filter_app, length_app.
  rewrite (filter_all_false _ (seq (0 + length values) _)).
  - cbn [length]. rewrite Nat.add_0_r.
    rewrite <- (filter_nth_seq is_non_null VNull).
    f_equal. apply filter_ext_in. intros j Hj. apply in_seq in Hj.
    rewrite Bits'. replace (j <? length values)%nat with true; [reflexivity |].
    symmetry. apply Nat.ltb_lt. lia.
  - intros j Hj. apply in_seq in Hj. rewrite Bits'.
    replace (j <? length values)%nat with false; [reflexivity |].
    symmetry. apply Nat.ltb_ge. lia.
Qed.

(** *** The magic bytes *)

(** X15 -- Every buffer that [compress] returns starts with the magic
    "SAJC" followed by the version byte, and every buffer that
    [compressColumnarBrotli] returns starts with "SJCB" followed by the
    version byte: the two tags that [decompress] tells apart. *)
Theorem SemanticCompressor_magic
        (registry : CodecRegistry.t) (detectType : list value -> FieldType)
        (version : Z) (brotliCompressSync : Buffer -> Buffer)
        (records : list JSObject) (buffer : Buffer) :
  (SemanticCompressor.compress registry detectType version records = OK buffer ->
   firstn 5 buffer = [83; 65; 74; 67; version mod 256])
  /\ (SemanticCompressor.compressColumnarBrotli registry detectType version
        brotliCompressSync records = OK buffer ->
      firstn 5 buffer = [83; 74; 67; 66; version mod 256]).
Proof.
  unfold SemanticCompressor.compress, SemanticCompressor.compressColumnarBrotli.
  destruct (SemanticCompressor.prepareData registry detectType records)
    as [[fields columnBuffers] | e]; [| split; discriminate].
  cbn [bind]. unfold HeaderEncoder.encode. split.
  - destruct (writeUInt16LE _) as [fc | e]; [| discriminate]. cbn [bind].
    destruct (mapM HeaderEncoder.encode_field fields) as [parts | e];
      [| discriminate].
    cbn [bind]. intros H. apply OK_inj in H. subst buffer. reflexivity.
  - destruct (writeUInt16LE _) as [fc | e]; [| discriminate]. cbn [bind].
    destruct (mapM HeaderEncoder.encode_field _) as [parts | e];
      [| discriminate].
    cbn [bind]. intros H. apply OK_inj in H. subst buffer. reflexivity.
Qed.

Lemma SemanticCompressor_magic_witness :
  let registry := defaultRegistry (fun _ => None) (fun _ => EmptyString) in
  let detectType := FieldProfiler.detectType (fun _ => None) in
  let records := [[("a", VNum 1)]]%string in
  exists buffer : Buffer,
    SemanticCompressor.compress registry detectType 3 records = OK buffer
    /\ firstn 5 buffer = [83; 65; 74; 67; 3].
Proof.
  intros registry detectType records.
  destruct (SemanticCompressor.compress registry detectType 3 records)
    as [buffer | e] eqn:C; [| vm_compute in C; discriminate C].
  exists buffer. split; [reflexivity |].
  exact (proj1 (SemanticCompressor_magic registry detectType 3 (fun b => b)
                  records buffer) C).
Defined.


(** *** EnumCodec, there and back *)

Lemma enum_entry_string_or_null (v : value) :
  enum_entry v = true -> string_or_null v = true.
Proof. destruct v; try discriminate; reflexivity. Qed.

Lemma dict_entry_enum_bytes (u : value) :
  enum_entry u = true -> EnumCodec.dict_entry u = OK (enum_bytes u).
Proof.
  destruct u; try discriminate; [reflexivity |].
  cbn [enum_entry EnumCodec.dict_entry EnumCodec.String_of bind enum_bytes].
  intros H. apply andb_prop in H. destruct H as [_ H]. apply Nat.ltb_lt in H.
  replace (255 <=? length (utf8_bytes s))%nat with false; [reflexivity |].
  symmetry. apply Nat.leb_gt. exact H.
Qed.

Lemma read_dictionary_enum_bytes (unique : list value) :
  forall (buffer : Buffer) (offset : nat) (rest : Buffer),
    Forall (fun u => enum_entry u = true) unique ->
    skipn offset buffer = flat_map enum_bytes unique ++ rest ->
    EnumCodec.read_dictionary (length unique) buffer offset
    = OK (unique, (offset + length (flat_map enum_bytes unique))%nat).
Proof.
  induction unique as [| u unique IH]; intros buffer offset rest F S.
  - cbn. now rewrite Nat.add_0_r.
  - inversion F as [| ? ? Hu F']; subst.
    cbn [length EnumCodec.read_dictionary flat_map] in *.
    rewrite <- app_assoc in S.
    destruct u; try discriminate Hu.
    + cbn [enum_bytes app] in S. rewrite (Buffer_get_skipn _ _ _ _ S).
      change (255 =? 255) with true. cbv iota.
      rewrite (IH buffer (offset + 1)%nat rest F' (skipn_step _ _ _ _ S)).
      cbn [bind enum_bytes app length]. do 2 apply f_equal. lia.
    + cbn [enum_bytes app] in S. cbn [enum_entry] in Hu.
      apply andb_prop in Hu. destruct Hu as [Wu Hu]. apply Nat.ltb_lt in Hu.
      rewrite (Buffer_get_skipn _ _ _ _ S).
      replace (Z.of_nat (length (utf8_bytes s)) =? 255) with false
        by (symmetry; apply Z.eqb_neq; lia).
      cbv iota zeta. rewrite Nat2Z.id.
      pose proof (skipn_step _ _ _ _ S) as S1.
      assert (L : (offset + 1 + length (utf8_bytes s) <= length buffer)%nat).
      { pose proof (f_equal (@length Z) S) as LS.
        rewrite length_skipn in LS. cbn [length] in LS.
        rewrite length_app in LS. lia. }
      replace (length buffer <? offset + 1 + length (utf8_bytes s))%nat with false
        by (symmetry; apply Nat.ltb_ge; exact L).
      rewrite (Buffer_slice_skipn _ _ _ _ S1), utf8_round_trip by exact Wu.
      rewrite (IH buffer _ rest F' (skipn_chunk _ _ _ _ S1)).
      cbn [bind enum_bytes app length]. rewrite length_app. do 2 apply f_equal. lia.
Qed.

Lemma read_indices_index_bytes (unique : list value) (uniqueCount : Z) :
  uniqueCount <= 256 ->
  forall values : list value,
    Forall (fun v => exists k, index_of v unique = Some k
                               /\ 0 <= k < uniqueCount
                               /\ nth (Z.to_nat k) unique VUndefined = v) values ->
    EnumCodec.read_indices (EnumCodec.index_bytes values unique) (length values)
                           uniqueCount unique
    = OK values.
Proof.
  intros U values F. induction F as [| v values (k & Hk & Bk & Nk) _ IH];
    [reflexivity |].
  cbn [EnumCodec.index_bytes map length EnumCodec.read_indices].
  rewrite Hk, Z.mod_small by lia.
  replace (uniqueCount <=? k) with false by (symmetry; apply Z.leb_gt; lia).
  fold (EnumCodec.index_bytes values unique). rewrite IH. cbn [bind].
  now rewrite Nk.
Qed.

Lemma half_lt_ceil (i n : nat) : (i < n)%nat -> (i / 2 < ceil_div n 2)%nat.
Proof.
  intros H. unfold ceil_div.
  pose proof (Nat.div_mod_eq i 2). pose proof (Nat.mod_upper_bound i 2).
  pose proof (Nat.div_mod_eq (n + 2 - 1) 2).
  pose proof (Nat.mod_upper_bound (n + 2 - 1) 2). lia.
Qed.

Lemma read_nibbles_packed (unique : list value) (uniqueCount : Z)
      (values : list value) (n : nat) :
  (length values <= n)%nat ->
  Forall (fun v => exists k, index_of v unique = Some k
                             /\ 0 <= k < uniqueCount /\ k < 16
                             /\ nth (Z.to_nat k) unique VUndefined = v) values ->
  forall (rest seen : list value) (rounds : nat),
    values = seen ++ rest -> (length rest <= rounds)%nat ->
    EnumCodec.read_nibbles rounds
      (EnumCodec.pack_nibbles (map (enum_index unique) values))
      (length seen) (length rest) uniqueCount unique
    = rest.
Proof.
  intros Ln F. set (packed := EnumCodec.pack_nibbles _).
  assert (FI : Forall (fun k => 0 <= k < 16) (map (enum_index unique) values)).
  { apply Forall_forall. intros k Ik. apply in_map_iff in Ik as (v & <- & Iv).
    rewrite Forall_forall in F. destruct (F v Iv) as (k & Hk & B & B16 & _).
    unfold enum_index. rewrite Hk. lia. }
  assert (BY : Forall is_byte packed).
  { unfold packed. clear -FI. revert FI.
    generalize (map (enum_index unique) values) as indices.
    fix REC 1. intros [| hi [| lo indices]] FI; cbn [EnumCodec.pack_nibbles].
    - constructor.
    - inversion FI; subst. constructor; [unfold is_byte; lia | constructor].
    - inversion FI as [| ? ? Hhi FI']; subst. inversion FI' as [| ? ? Hlo FI'']; subst.
      constructor; [unfold is_byte; lia | apply REC; exact FI'']. }
  induction rest as [| v rest IH]; intros seen rounds E R.
  - destruct rounds; reflexivity.
  - destruct rounds as [| rounds]; [cbn in R; lia |].
    cbn [length EnumCodec.read_nibbles].
    assert (Hi : (length seen < length values)%nat)
      by (rewrite E, length_app; cbn [length]; lia).
    assert (Hp : (length seen / 2 < length packed)%nat).
    { unfold packed. rewrite (length_pack_nibbles n) by (rewrite length_map; lia).
      rewrite length_map. now apply half_lt_ceil. }
    unfold Buffer_get. rewrite (nth_error_nth' packed 0 Hp).
    set (byte := nth (length seen / 2) packed 0).
    assert (Hb : is_byte byte).
    { rewrite Forall_forall in BY. apply BY. now apply nth_In. }
    assert (Iv : In v values) by (rewrite E; apply in_or_app; right; now left).
    rewrite Forall_forall in F. destruct (F v Iv) as (k & Hk & B & B16 & Nk).
    assert (V : (if Nat.even (length seen) then Z.shiftr byte 4
                 else Z.land byte 15) = k).
    { pose proof (nibble_pack_nibbles n (map (enum_index unique) values)
                    (length seen)) as NB.
      rewrite length_map in NB. specialize (NB Ln FI Hi).
      unfold EnumCodec.nibble in NB. fold packed in NB. fold byte in NB.
      rewrite (nth_indep _ 0 (enum_index unique VNull)) in NB
        by (rewrite length_map; lia).
      rewrite map_nth in NB.
      assert (NV : nth (length seen) values VNull = v)
        by (rewrite E; apply nth_middle).
      rewrite NV in NB.
      unfold enum_index in NB at 1. rewrite Hk in NB.
      rewrite Z.shiftr_div_pow2 by lia. change (2 ^ 4) with 16.
      change 15 with (Z.ones 4). rewrite Z.land_ones by lia.
      change (2 ^ 4) with 16. exact NB. }
    rewrite V.
    replace (uniqueCount <=? k) with false by (symmetry; apply Z.leb_gt; lia).
    rewrite Nk. f_equal.
    specialize (IH (seen ++ [v]) rounds).
    rewrite length_app in IH. cbn [length] in IH.
    rewrite Nat.add_1_r in IH. apply IH.
    + rewrite <- app_assoc. exact E.
    + cbn [length] in R. lia.
Qed.

Lemma enum_codec_lossless (values : list value) :
  Forall (fun v => enum_entry v = true) values ->
  (length (distinct values) <= 255)%nat ->
  Z.of_nat (length values) < 2 ^ 32 ->
  exists encoded : Buffer,
    EnumCodec.encode values = OK encoded
    /\ EnumCodec.decode encoded = OK values.
Proof.
  intros F U L. unfold EnumCodec.encode. cbv zeta.
  assert (W : writeUInt32LE (Z.of_nat (length values))
              = OK (le_bytes 4 (Z.of_nat (length values)))).
  { unfold writeUInt32LE.
    replace ((0 <=? Z.of_nat (length values))
             && (Z.of_nat (length values) <? 2 ^ 32))%bool with true; [reflexivity |].
    symmetry. apply andb_true_iff. split; [apply Z.leb_le | apply Z.ltb_lt]; lia. }
  rewrite W. cbn [bind].
  destruct values as [| v0 values'] eqn:EV.
  { eexists. split; reflexivity. }
  rewrite <- EV in *.
  assert (N : (length values =? 0)%nat = false) by (rewrite EV; reflexivity).
  rewrite N. set (unique := distinct values) in *.
  assert (FU : Forall (fun u => enum_entry u = true) unique).
  { apply Forall_forall. intros u Iu.
    destruct (distinct_loop_from values [] u Iu) as [[] | Iv].
    rewrite Forall_forall in F. now apply F. }
  rewrite (mapM_pure EnumCodec.dict_entry enum_bytes unique)
    by (apply Forall_forall; intros u Iu; apply dict_entry_enum_bytes;
        rewrite Forall_forall in FU; now apply FU).
  cbn [bind].
  rewrite Z.mod_small by lia.
  assert (IX : Forall (fun v => exists k, index_of v unique = Some k
                                /\ 0 <= k < Z.of_nat (length unique)
                                /\ nth (Z.to_nat k) unique VUndefined = v) values).
  { apply Forall_forall. intros v Iv. rewrite Forall_forall in F.
    apply distinct_index; [apply enum_entry_string_or_null; now apply F | exact Iv]. }
  set (n := length values) in *. set (uc := length unique) in *.
  assert (D : forall tail : Buffer,
             EnumCodec.decode
               (le_bytes 4 (Z.of_nat n) ++ [Z.of_nat uc]
                  ++ flat_map enum_bytes unique ++ tail)
             = if 16 <? Z.of_nat uc
               then if (length tail <? n)%nat
                    then Err (Truncated "Enum decode underflow")
                    else EnumCodec.read_indices tail n (Z.of_nat uc) unique
               else let written :=
                      EnumCodec.read_nibbles (length tail * 2) tail 0 n
                                             (Z.of_nat uc) unique in
                    if (length written <? n)%nat
                    then Err (Truncated "Enum decode underflow")
                    else OK written).
  { intros tail. unfold EnumCodec.decode.
    set (buffer := le_bytes 4 (Z.of_nat n) ++ _).
    assert (L4 : (length buffer <? 4)%nat = false).
    { apply Nat.ltb_ge. unfold buffer. rewrite length_app, length_le_bytes. lia. }
    rewrite L4.
    rewrite (readUInt32LE_skipn buffer 0 (Z.of_nat n) _ ltac:(lia) eq_refl).
    cbn [bind].
    replace (Z.of_nat n =? 0) with false
      by (symmetry; apply Z.eqb_neq; apply Nat.eqb_neq in N; lia).
    assert (S4 : skipn 4 buffer = [Z.of_nat uc] ++ flat_map enum_bytes unique ++ tail).
    { pose proof (skipn_chunk buffer 0 (le_bytes 4 (Z.of_nat n)) _ eq_refl) as S.
      rewrite length_le_bytes in S. exact S. }
    rewrite (Buffer_get_skipn buffer 4 _ _ S4).
    rewrite !Nat2Z.id.
    pose proof (read_dictionary_enum_bytes unique buffer (4 + 1) tail FU
                  (skipn_step _ _ _ _ S4)) as RD.
    fold uc in RD. rewrite RD. clear RD.
    cbn [bind].
    rewrite (skipn_chunk buffer (4 + 1) (flat_map enum_bytes unique) tail
               (skipn_step _ _ _ _ S4)).
    reflexivity. }
  destruct (16 <? uc)%nat eqn:Big.
  - apply Nat.ltb_lt in Big.
    eexists. split; [reflexivity |].
    unfold Buffer_concat. cbn [app]. rewrite concat_cons, concat_cons, concat_app.
    cbn [concat]. rewrite app_nil_r, <- flat_map_concat_map.
    rewrite D.
    replace (16 <? Z.of_nat uc) with true by (symmetry; apply Z.ltb_lt; lia).
    unfold EnumCodec.index_bytes at 1. rewrite length_map. fold n.
    rewrite Nat.ltb_irrefl.
    apply read_indices_index_bytes; [lia | exact IX].
  - apply Nat.ltb_ge in Big.
    eexists. split; [reflexivity |].
    assert (Hall : Forall (fun v => 0 <= enum_index unique v < 16) values).
    { apply Forall_forall. intros v _. apply enum_index_bound. exact Big. }
    pose proof (pack_loop_spec unique n values [] (Nat.le_refl _) Hall) as P.
    cbn [length Nat.mul Nat.add app] in P. fold n in P. rewrite P.
    unfold Buffer_concat. cbn [app]. rewrite concat_cons, concat_cons, concat_app.
    cbn [concat]. rewrite app_nil_r, <- flat_map_concat_map.
    rewrite D.
    replace (16 <? Z.of_nat uc) with false by (symmetry; apply Z.ltb_ge; lia).
    cbv zeta.
    assert (LP : length (EnumCodec.pack_nibbles (map (enum_index unique) values))
                 = ceil_div n 2).
    { rewrite (length_pack_nibbles n) by (rewrite length_map; unfold n; lia).
      now rewrite length_map. }
    assert (R : EnumCodec.read_nibbles
                  (length (EnumCodec.pack_nibbles (map (enum_index unique) values)) * 2)
                  (EnumCodec.pack_nibbles (map (enum_index unique) values))
                  0 n (Z.of_nat uc) unique
                = values).
    { apply (read_nibbles_packed unique (Z.of_nat uc) values n (Nat.le_refl _)
               ltac:(apply Forall_forall; intros v Iv; rewrite Forall_forall in IX;
                     destruct (IX v Iv) as (k & Hk & Bk & Nk); exists k;
                     repeat split; try assumption; lia)
               values [] _ eq_refl).
      rewrite LP. fold n. unfold ceil_div.
      pose proof (Nat.div_mod_eq (n + 2 - 1) 2).
      pose proof (Nat.mod_upper_bound (n + 2 - 1) 2). lia. }
    rewrite R. fold n. now rewrite Nat.ltb_irrefl.
Qed.

(** X16 -- The enum codec is lossless on columns of [null]s and
    well-formed strings of fewer than 255 UTF-8 bytes, with at most 255
    distinct values: in the nibble-packed layout (up to 16 distinct values)
    and in the byte-per-index layout alike, [decode] of [encode] returns
    the column itself.  (A lone surrogate is written as U+FFFD and does not
    come back; the number of values fits 32 bits.) *)
Theorem EnumCodec_round_trip (values : list value) :
  Forall (fun v => enum_entry v = true) values ->
  (length (distinct values) <= 255)%nat ->
  Z.of_nat (length values) < 2 ^ 32 ->
  exists encoded : Buffer,
    EnumCodec.encode values = OK encoded
    /\ EnumCodec.decode encoded = OK values.
Proof.
  intros F U L. now apply enum_codec_lossless.
Qed.

Lemma EnumCodec_round_trip_witness :
  let values := [VStr "red"; VNull; VStr "green"; VStr "red"; VStr "blue"]%string in
  exists encoded : Buffer,
    EnumCodec.encode values = OK encoded
    /\ EnumCodec.decode encoded = OK values.
Proof.
  intros values. apply (EnumCodec_round_trip values).
  - repeat (apply Forall_cons; [vm_compute; reflexivity |]). apply Forall_nil.
  - vm_compute. lia.
  - vm_compute. reflexivity.
Defined.


(** *** StringCodec and DictionaryStringCodec *)

Lemma part_string_part (s : string) :
  Z.of_nat (length (utf8_bytes s)) < 2 ^ 32 ->
  StringCodec.part s = OK (string_part s).
Proof.
  intros H. unfold StringCodec.part, writeUInt32LE.
  replace ((0 <=? Z.of_nat (length (utf8_bytes s)))
           && (Z.of_nat (length (utf8_bytes s)) <? 2 ^ 32))%bool with true;
    [reflexivity |].
  symmetry. apply andb_true_iff. split; [apply Z.leb_le | apply Z.ltb_lt]; lia.
Qed.

Lemma decode_loop_string_parts (texts : list string) :
  forall (fuel : nat) (buffer : Buffer) (offset : nat),
    Forall (fun s => well_formed s = true
                     /\ Z.of_nat (length (utf8_bytes s)) < 2 ^ 32) texts ->
    (length texts <= fuel)%nat ->
    skipn offset buffer = flat_map string_part texts ->
    StringCodec.decode_loop fuel buffer offset = OK (map VStr texts).
Proof.
  induction texts as [| s texts IH]; intros fuel buffer offset F L S.
  - cbn in S. apply skipn_nil_offset in S.
    destruct fuel; cbn [StringCodec.decode_loop]; now rewrite S.
  - inversion F as [| ? ? [Ws Hs] F']; subst. cbn [flat_map] in S.
    destruct fuel as [| fuel]; [cbn in L; lia |].
    cbn [StringCodec.decode_loop].
    assert (NE : (0 < length (string_part s))%nat)
      by (unfold string_part; rewrite length_app, length_le_bytes; lia).
    rewrite (skipn_cons_offset _ _ _ _ NE S).
    unfold string_part in S. rewrite <- app_assoc in S.
    pose proof (skipn_length_le buffer offset (le_bytes 4 _) _
                  ltac:(rewrite length_le_bytes; lia) S) as L4.
    rewrite length_le_bytes in L4.
    replace (length buffer <? offset + 4)%nat with false
      by (symmetry; apply Nat.ltb_ge; exact L4).
    rewrite (readUInt32LE_skipn buffer offset (Z.of_nat (length (utf8_bytes s))) _
               ltac:(lia) S).
    cbn [bind].
    cbv zeta. rewrite Nat2Z.id.
    pose proof (skipn_chunk _ _ _ _ S) as S4. rewrite length_le_bytes in S4.
    assert (LD : (offset + 4 + length (utf8_bytes s) <= length buffer)%nat).
    { pose proof (f_equal (@length Z) S4) as LS.
      rewrite length_skipn, length_app in LS. lia. }
    replace (length buffer <? offset + 4 + length (utf8_bytes s))%nat with false
      by (symmetry; apply Nat.ltb_ge; exact LD).
    rewrite (Buffer_slice_skipn _ _ _ _ S4), utf8_round_trip by exact Ws.
    rewrite (IH fuel buffer _ F' ltac:(cbn in L; lia) (skipn_chunk _ _ _ _ S4)).
    reflexivity.
Qed.

(** X17 -- The plain string codec stores the text [String(v)] of each
    value and reads it back as a string: a column of well-formed strings
    comes back as it was, while [null], [undefined] and the booleans come
    back as the strings "null", "undefined", "true" and "false".  (Each
    text is well-formed -- a lone surrogate is written as U+FFFD -- and
    its UTF-8 length fits the 32-bit length prefix.) *)
Theorem StringCodec_round_trip (values : list value) (texts : list string) :
  mapM StringCodec.String_of values = OK texts ->
  Forall (fun s => well_formed s = true
                   /\ Z.of_nat (length (utf8_bytes s)) < 2 ^ 32) texts ->
  exists encoded : Buffer,
    StringCodec.encode values = OK encoded
    /\ StringCodec.decode encoded = OK (map VStr texts)
    /\ (Forall (fun v => FieldProfiler.is_string v = true) values ->
        map VStr texts = values).
Proof.
  intros M F. exists (flat_map string_part texts). split; [| split].
  - unfold StringCodec.encode. rewrite M. cbn [bind].
    rewrite (mapM_pure StringCodec.part string_part texts).
    + cbn [bind]. unfold Buffer_concat. now rewrite flat_map_concat_map.
    + eapply Forall_impl; [| exact F]. intros s [_ Hs]. now apply part_string_part.
  - unfold StringCodec.decode. apply decode_loop_string_parts; [exact F | | reflexivity].
    apply length_flat_map_ge. intros s. unfold string_part.
    rewrite length_app, length_le_bytes. lia.
  - intros S. apply mapM_ok_Forall2 in M. clear F.
    induction M as [| v s values texts Hv _ IH]; [reflexivity |].
    inversion S as [| ? ? Sv S']; subst. cbn [map]. rewrite (IH S').
    destruct v; try discriminate Sv. cbn in Hv. apply OK_inj in Hv. now subst.
Qed.

Lemma StringCodec_round_trip_witness :
  let values := [VStr "ab"; VNull; VBool true; VStr ""]%string in
  exists encoded : Buffer,
    StringCodec.encode values = OK encoded
    /\ StringCodec.decode encoded
       = OK [VStr "ab"; VStr "null"; VStr "true"; VStr ""]%string.
Proof.
  intros values.
  destruct (StringCodec_round_trip values ["ab"; "null"; "true"; ""]%string)
    as (encoded & E & D & _).
  - reflexivity.
  - repeat (apply Forall_cons; [split; vm_compute; reflexivity |]). apply Forall_nil.
  - exists encoded. split; [exact E | exact D].
Defined.

Lemma entry_dictionary_string (v : value) :
  storable_text v = true ->
  DictionaryStringCodec.entry v = OK (dictionary_string v).
Proof.
  destruct v; try discriminate. intros _.
  cbn [DictionaryStringCodec.entry dictionary_string].
  rewrite Varint_encode_varint by lia. reflexivity.
Qed.

Lemma read_dictionary_strings (unique : list value) :
  forall (buffer : Buffer) (offset : nat) (rest : Buffer),
    Forall (fun v => storable_text v = true) unique ->
    skipn offset buffer = flat_map dictionary_string unique ++ rest ->
    DictionaryStringCodec.read_dictionary (length unique) buffer offset
    = OK (unique, (offset + length (flat_map dictionary_string unique))%nat).
Proof.
  induction unique as [| u unique IH]; intros buffer offset rest F S.
  - cbn. now rewrite Nat.add_0_r.
  - inversion F as [| ? ? Hu F']; subst. cbn [flat_map] in S.
    rewrite <- app_assoc in S.
    cbn [length DictionaryStringCodec.read_dictionary].
    destruct u; try discriminate Hu. cbn [storable_text] in Hu.
    apply andb_prop in Hu. destruct Hu as [Wu Hu].
    apply Z.ltb_lt in Hu. cbn [dictionary_string] in S. rewrite <- app_assoc in S.
    rewrite (Varint_decode_varint (Z.of_nat (length (utf8_bytes s))) buffer offset _
               ltac:(lia) S).
    cbn [bind]. cbv zeta. rewrite Nat2Z.id.
    pose proof (skipn_chunk _ _ _ _ S) as S1.
    rewrite (Buffer_slice_skipn _ _ _ _ S1), utf8_round_trip by exact Wu.
    rewrite (IH buffer _ rest F' (skipn_chunk _ _ _ _ S1)).
    cbn [bind flat_map dictionary_string]. rewrite !length_app.
    do 2 apply f_equal. lia.
Qed.

Lemma read_indices_varints (indices : list Z) :
  forall (fuel : nat) (buffer : Buffer) (offset : nat) (dictionary : list value),
    Forall (fun i => 0 <= i < 2 ^ 32) indices ->
    (length indices <= fuel)%nat ->
    skipn offset buffer = flat_map varint indices ->
    DictionaryStringCodec.read_indices fuel buffer offset dictionary
    = OK (map (AdaptiveStringCodec.dictionary_get dictionary) indices).
Proof.
  induction indices as [| i indices IH]; intros fuel buffer offset dictionary F L S.
  - cbn in S. apply skipn_nil_offset in S.
    destruct fuel; cbn [DictionaryStringCodec.read_indices]; now rewrite S.
  - inversion F as [| ? ? Fi F']; subst. cbn [flat_map] in S.
    destruct fuel as [| fuel]; [cbn in L; lia |].
    cbn [DictionaryStringCodec.read_indices].
    rewrite (skipn_cons_offset _ _ _ _ (varint_not_empty i) S).
    rewrite (Varint_decode_varint i buffer offset _ Fi S). cbn [bind].
    apply skipn_chunk in S.
    rewrite (IH fuel buffer _ dictionary F' ltac:(cbn in L; lia) S). reflexivity.
Qed.

(** X18 -- The dictionary string codec is lossless on columns of
    well-formed strings: [decode] of [encode] returns the column itself,
    the empty column included.  (Each string is well-formed -- a lone
    surrogate is written as U+FFFD and does not come back -- and its UTF-8
    length, like the number of values, fits 32 bits.) *)
Theorem DictionaryStringCodec_round_trip (values : list value) :
  Forall (fun v => storable_text v = true) values ->
  Z.of_nat (length values) < 2 ^ 32 ->
  exists encoded : Buffer,
    DictionaryStringCodec.encode values = OK encoded
    /\ DictionaryStringCodec.decode encoded = OK values.
Proof.
  intros F L. unfold DictionaryStringCodec.encode. cbv zeta.
  assert (Fs : Forall (fun v => string_or_null v = true) values).
  { eapply Forall_impl; [| exact F]. intros v. now destruct v. }
  destruct (dictionary_indices values Fs) as [DI IB].
  set (unique := distinct values) in *.
  set (indices := AdaptiveStringCodec.indices_of values unique) in *.
  assert (U : (length unique <= length values)%nat)
    by exact (distinct_loop_length values []).
  assert (FU : Forall (fun v => storable_text v = true) unique).
  { apply Forall_forall. intros u I.
    destruct (distinct_loop_from values [] u I) as [[] | I'].
    rewrite Forall_forall in F. now apply F. }
  assert (I32 : Forall (fun i => 0 <= i < 2 ^ 32) indices)
    by (eapply Forall_impl; [| exact IB]; cbn; intros; lia).
  rewrite Varint_encode_varint by lia. cbn [bind].
  rewrite (mapM_pure DictionaryStringCodec.entry dictionary_string unique)
    by (eapply Forall_impl; [| exact FU]; intros v; apply entry_dictionary_string).
  cbn [bind].
  rewrite (mapM_pure Varint.encode varint indices)
    by (eapply Forall_impl; [| exact I32]; intros i Hi; cbv beta in Hi;
        apply Varint_encode_varint; lia).
  cbn [bind]. eexists. split; [reflexivity |].
  unfold Buffer_concat. rewrite concat_cons, concat_app, <- !flat_map_concat_map.
  set (size := varint (Z.of_nat (length unique))).
  set (buffer := size ++ flat_map dictionary_string unique ++ flat_map varint indices).
  unfold DictionaryStringCodec.decode.
  destruct buffer as [| b0 more] eqn:EB.
  { pose proof (varint_not_empty (Z.of_nat (length unique))) as V.
    apply (f_equal (@length Z)) in EB. unfold buffer in EB.
    rewrite length_app in EB. unfold size in EB. cbn [length] in EB. lia. }
  rewrite <- EB. clear EB b0 more.
  rewrite (Varint_decode_varint (Z.of_nat (length unique)) buffer 0 _
             ltac:(lia) eq_refl).
  cbn [bind]. rewrite Nat2Z.id. fold size.
  assert (S1 : skipn (length size) buffer
               = flat_map dictionary_string unique ++ flat_map varint indices)
    by (unfold buffer; apply skipn_before).
  rewrite (read_dictionary_strings unique buffer _ _ FU S1). cbn [bind].
  rewrite (read_indices_varints indices).
  - now rewrite DI.
  - exact I32.
  - unfold buffer. rewrite !length_app.
    pose proof (length_flat_map_ge varint indices varint_not_empty). lia.
  - change (length size + length (flat_map dictionary_string unique))%nat
      with (0 + length size + length (flat_map dictionary_string unique))%nat.
    apply skipn_chunk. exact S1.
Qed.

Lemma DictionaryStringCodec_round_trip_witness :
  let values := [VStr "x"; VStr "yy"; VStr "x"; VStr "x"]%string in
  exists encoded : Buffer,
    DictionaryStringCodec.encode values = OK encoded
    /\ DictionaryStringCodec.decode encoded = OK values.
Proof.
  intros values. apply (DictionaryStringCodec_round_trip values).
  - repeat (apply Forall_cons; [vm_compute; reflexivity |]). apply Forall_nil.
  - vm_compute. reflexivity.
Defined.


(** ** Batches that [compress] accepts *)

Lemma json_item_refl (v : value) :
  v = VMissing \/ plain_value v = true ->
  json_eqb (json_item v) (json_item v) = true.
Proof.
  intros [-> | P]; [reflexivity |].
  destruct v; try discriminate P; unfold json_item; cbn.
  - reflexivity.
  - apply Bool.eqb_reflx.
  - cbn in P. rewrite P. cbn. unfold is_finite, is_nan in P.
    destruct (x =? x)%float; [reflexivity | discriminate P].
  - apply String.eqb_refl.
Qed.

Lemma JSON_same_text_refl (values : list value) :
  Forall (fun v => v = VMissing \/ plain_value v = true) values ->
  JSON_same_text values values = true.
Proof.
  intros F. apply JSON_same_text_items.
  induction F as [| v values Hv _ IH]; constructor; [| exact IH].
  now apply json_item_refl.
Qed.

Lemma wrapper_encode_ok (codec : IFieldCodec) (values : list value) (payload : Buffer) :
  codec_encode codec (filter is_present values) = OK payload ->
  Z.of_nat (length values) < 2 ^ 32 ->
  exists encoded : Buffer, NullableCodecWrapper.encode codec values = OK encoded.
Proof.
  intros E L. unfold NullableCodecWrapper.encode.
  pose proof (encode_bitmap_bits values) as B.
  destruct (NullableCodecWrapper.encode_loop values 0 []
              (Buffer_alloc (ceil_div (length values) 8))) as [nn bm].
  destruct B as (-> & _). rewrite E. cbn [bind]. unfold writeUInt32LE.
  replace ((0 <=? Z.of_nat (length values))
           && (Z.of_nat (length values) <? 2 ^ 32))%bool with true.
  - cbn [bind]. eauto.
  - symmetry. apply andb_true_iff. split; [apply Z.leb_le | apply Z.ltb_lt]; lia.
Qed.

Lemma mapM_range {A : Type} (f : A -> result Buffer) (what : string) (l : list A) :
  (forall a, In a l ->
     (exists b, f a = OK b) \/ f a = Err (RangeError what)) ->
  (exists bs, mapM f l = OK bs) \/ mapM f l = Err (RangeError what).
Proof.
  induction l as [| a l IH]; intros H; [left; now exists [] |].
  cbn [mapM]. destruct (H a (or_introl eq_refl)) as [[b ->] | ->]; [| now right].
  cbn [bind]. destruct IH as [[bs ->] | ->].
  - intros a' I. apply H. now right.
  - left. now exists (b :: bs).
  - now right.
Qed.

Section Accepted.

Variable registry : CodecRegistry.t.
Variable detectType : list value -> FieldType.
Variable version : Z.
Variable records : list JSObject.

Hypothesis flat : Forall flat_record records.
Hypothesis not_empty : records <> [].
Hypothesis rows : Z.of_nat (length records) < 2 ^ 32.
Hypothesis lossless :
  forall k : string, In k (sorted_keys records) ->
    let present := filter is_present (map (fun r => cell r k) records) in
    exists (c : IFieldCodec) (payload : Buffer),
      registry (detectType present) = Some c
      /\ codec_encode c present = OK payload
      /\ codec_decode c payload = OK present.

Lemma present_not_empty (k : string) :
  In k (sorted_keys records) ->
  filter is_present (map (fun r => cell r k) records) <> [].
Proof.
  intros K. apply sorted_keys_In in K. destruct K as (r & Ir & Ik).
  pose proof flat as F. rewrite Forall_forall in F.
  pose proof (flat_record_cell r k (F r Ir)) as FC.
  destruct (obj_get r k) as [v |] eqn:G.
  - destruct FC as (Pv & Cv & _).
    assert (I : In v (filter is_present (map (fun r => cell r k) records))).
    { apply filter_In. split.
      - apply in_map_iff. exists r. split; [exact Cv | exact Ir].
      - destruct v; try discriminate Pv; reflexivity. }
    intros E. rewrite E in I. destruct I.
  - exfalso. apply in_map_iff in Ik. destruct Ik as ([k' v] & <- & Ikv).
    apply obj_get_None in G. apply G. change (fst (k', v)) with k'.
    unfold obj_keys. apply in_map_iff. exists (k', v). split; [reflexivity | exact Ikv].
Qed.

Lemma prepareData_accepts :
  exists (fields : list FieldSchema) (columnBuffers : list Buffer),
    SemanticCompressor.prepareData registry detectType records
    = OK (fields, columnBuffers).
Proof.
  assert (PE : SemanticCompressor.prepareData registry detectType records
               = (do columns <- SemanticCompressor.pivot records;
                  let schema := SemanticCompressor.buildSchema detectType columns in
                  do prepared <- mapM (SemanticCompressor.prepareColumn registry schema)
                                      columns;
                  OK (map fst prepared, map snd prepared)))
    by (destruct records; [congruence | reflexivity]).
  rewrite PE. clear PE.
  rewrite (pivot_flat records not_empty flat). cbn [bind]. cbv zeta.
  set (schema := SemanticCompressor.buildSchema detectType _).
  destruct (mapM_total (SemanticCompressor.prepareColumn registry schema)
              (map (fun k => (k, map (fun r => cell r k) records))
                   (sorted_keys records))) as [prepared ->];
    [| cbn [bind]; eauto].
  intros [k' col] I. apply in_map_iff in I. destruct I as (k & E & K).
  injection E as <- <-.
  set (col := map (fun r => cell r k) records).
  pose proof (present_not_empty k K) as PN. fold col in PN.
  destruct (lossless k K) as (c & payload & T & En & De). fold col in T, En, De.
  unfold SemanticCompressor.prepareColumn.
  assert (S : obj_get schema k = Some (detectType (filter is_present col))).
  { unfold schema, SemanticCompressor.buildSchema. rewrite map_map.
    rewrite (obj_get_map_In
               (fun k => detectType
                           match filter is_present (map (fun r => cell r k) records) with
                           | [] => map (fun r => cell r k) records
                           | _ :: _ => filter is_present (map (fun r => cell r k) records)
                           end) (sorted_keys records) k K).
    fold col. destruct (filter is_present col); [congruence | reflexivity]. }
  rewrite S. unfold SemanticCompressor.resolveCodec, CodecRegistry.get.
  rewrite T. cbn [bind].
  assert (LC : Z.of_nat (length col) < 2 ^ 32)
    by (unfold col; rewrite length_map; exact rows).
  destruct (wrapper_encode_ok c col payload En LC) as [enc WE].
  rewrite WE. cbn [bind].
  rewrite (wrapper_restores c col enc); [| | exact WE].
  2:{ intros payload' En'. rewrite En in En'. apply OK_inj in En'. now subst. }
  cbn [bind]. rewrite JSON_same_text_refl; [cbn [negb]; eauto |].
  apply Forall_forall. intros v V. unfold col in V. apply in_map_iff in V.
  destruct V as [r [<- Ir]]. apply cell_missing_or_plain.
  pose proof flat as F. rewrite Forall_forall in F. now apply F.
Qed.

Lemma compress_accepts :
  (exists buffer : Buffer,
     SemanticCompressor.compress registry detectType version records = OK buffer)
  \/ SemanticCompressor.compress registry detectType version records
     = Err (RangeError "writeUInt16LE")
  \/ SemanticCompressor.compress registry detectType version records
     = Err (RangeError "writeUInt32LE").
Proof.
  unfold SemanticCompressor.compress.
  destruct prepareData_accepts as (fields & columnBuffers & ->). cbn [bind].
  unfold HeaderEncoder.encode, writeUInt16LE.
  destruct ((0 <=? Z.of_nat (length fields))
            && (Z.of_nat (length fields) <? 2 ^ 16))%bool;
    [| right; left; reflexivity].
  cbn [bind].
  destruct (mapM_range HeaderEncoder.encode_field "writeUInt32LE" fields)
    as [[parts ->] | ->].
  - intros f _. unfold HeaderEncoder.encode_field, writeUInt32LE.
    destruct ((0 <=? Z.of_nat (field_byteLength f))
              && (Z.of_nat (field_byteLength f) <? 2 ^ 32))%bool;
      [left; cbn [bind]; eauto | right; reflexivity].
  - left. cbn [bind]. eauto.
  - right. right. reflexivity.
Qed.

End Accepted.


(** *** The kinds of columns *)

Lemma present_kind (records : list JSObject) (key : string) (P : value -> Prop) :
  Forall flat_record records ->
  (forall r v, In r records -> obj_get r key = Some v -> P v) ->
  Forall P (filter is_present (map (fun r => cell r key) records)).
Proof.
  intros FR HP. rewrite Forall_forall in FR.
  apply Forall_forall. intros v V. apply filter_In in V. destruct V as [V Pv].
  apply in_map_iff in V. destruct V as [r [Ev Ir]].
  pose proof (flat_record_cell r key (FR r Ir)) as FC.
  destruct (obj_get r key) as [w |] eqn:G.
  - destruct FC as (_ & Cw & _). rewrite Cw in Ev. subst w. exact (HP r v Ir G).
  - rewrite FC in Ev. subst v. discriminate Pv.
Qed.

Lemma key_value (records : list JSObject) (key : string) :
  In key (sorted_keys records) ->
  exists r v, In r records /\ obj_get r key = Some v.
Proof.
  intros K. apply sorted_keys_In in K. destruct K as (r & Ir & Ik).
  exists r. destruct (obj_get r key) as [v |] eqn:G; [now exists v |].
  exfalso. apply obj_get_None in G. exact (G Ik).
Qed.

Lemma safe_integers_list (values : list value) :
  Forall safe_integer_value values ->
  exists zs : list Z,
    values = map (fun z => VNum (Number_of_Z z)) zs
    /\ Forall (fun z => - 2 ^ 53 < z < 2 ^ 53) zs.
Proof.
  induction 1 as [| v values (z & Bz & ->) _ (zs & -> & F)].
  - now exists [].
  - exists (z :: zs). split; [reflexivity | now constructor].
Qed.

(** **** Distinct values with and without [null] *)

Lemma existsb_non_null (v : value) (unique : list value) :
  is_non_null v = true ->
  existsb (sameValueZero v) (filter is_non_null unique)
  = existsb (sameValueZero v) unique.
Proof.
  intros N. induction unique as [| u unique IH]; [reflexivity |].
  cbn [filter existsb]. destruct (is_non_null u) eqn:U.
  - cbn [existsb]. now rewrite IH.
  - rewrite IH. replace (sameValueZero v u) with false; [reflexivity |].
    destruct u; try discriminate U; destruct v; try discriminate N; reflexivity.
Qed.

Lemma distinct_loop_non_null (values : list value) :
  forall unique : list value,
    filter is_non_null (distinct_loop values unique)
    = distinct_loop (filter is_non_null values) (filter is_non_null unique).
Proof.
  induction values as [| v values IH]; intros unique; [reflexivity |].
  cbn [distinct_loop filter]. destruct (is_non_null v) eqn:N.
  - cbn [distinct_loop]. rewrite (existsb_non_null v unique N).
    destruct (existsb (sameValueZero v) unique); rewrite IH; [reflexivity |].
    rewrite filter_app. cbn [filter]. now rewrite N.
  - destruct (existsb (sameValueZero v) unique); rewrite IH; [reflexivity |].
    rewrite filter_app. cbn [filter]. rewrite N. now rewrite app_nil_r.
Qed.

Lemma distinct_loop_nulls (values : list value) :
  Forall (fun v => string_or_null v = true) values ->
  forall unique : list value,
    Forall (fun v => string_or_null v = true) unique ->
    (length (filter (fun v => negb (is_non_null v)) unique) <= 1)%nat ->
    (length (filter (fun v => negb (is_non_null v)) (distinct_loop values unique))
     <= 1)%nat.
Proof.
  induction 1 as [| v values Hv _ IH]; intros unique FU L; [exact L |].
  cbn [distinct_loop]. destruct (existsb (sameValueZero v) unique) eqn:X.
  - now apply IH.
  - apply IH.
    + apply Forall_app. split; [exact FU | now constructor].
    + rewrite filter_app, length_app. cbn [filter].
      destruct (is_non_null v) eqn:N; cbn [negb length]; [lia |].
      destruct v; try discriminate Hv; try discriminate N.
      assert (Z : filter (fun v => negb (is_non_null v)) unique = []).
      { clear -X FU. induction FU as [| u unique Hu _ IH]; [reflexivity |].
        cbn [existsb] in X. apply orb_false_iff in X. destruct X as [Xu X].
        cbn [filter]. destruct u; try discriminate Hu; try discriminate Xu.
        cbn. now apply IH. }
      rewrite Z. cbn. lia.
Qed.

Lemma filter_split_length {A : Type} (p : A -> bool) (l : list A) :
  length l = (length (filter p l) + length (filter (fun a => negb (p a)) l))%nat.
Proof.
  induction l as [| a l IH]; [reflexivity |].
  cbn [filter length]. destruct (p a); cbn [negb length]; lia.
Qed.

Lemma distinct_with_null (values : list value) :
  Forall (fun v => string_or_null v = true) values ->
  (length (distinct values)
   <= S (FieldProfiler.count_distinct (filter is_non_null values)))%nat.
Proof.
  intros F. unfold FieldProfiler.count_distinct, distinct.
  rewrite (filter_split_length is_non_null (distinct_loop values [])).
  rewrite (distinct_loop_non_null values []). cbn [filter].
  pose proof (distinct_loop_nulls values F [] (Forall_nil _) (Nat.le_0_l _)). lia.
Qed.

(** **** What the profiler makes of each kind *)

Lemma forallb_head_false {A : Type} (p : A -> bool) (l : list A) (a : A) :
  In a l -> p a = false -> forallb p l = false.
Proof.
  intros I P. destruct (forallb p l) eqn:E; [| reflexivity].
  rewrite forallb_forall in E. rewrite (E a I) in P. discriminate P.
Qed.

Lemma detectType_text (Date_parse : string -> option Z) (values : list value) :
  Forall (fun v => plain_text Date_parse v = true) values ->
  (FieldProfiler.detectType Date_parse values = ENUM
   /\ (FieldProfiler.count_distinct (filter is_non_null values) <= 8)%nat)
  \/ FieldProfiler.detectType Date_parse values = STRING.
Proof.
  intros F. unfold FieldProfiler.detectType.
  change (filter _ values) with (filter is_non_null values).
  destruct (filter is_non_null values) as [| w ws] eqn:EN; [now right |].
  rewrite <- EN.
  assert (Iw : In w (filter is_non_null values)) by (rewrite EN; now left).
  pose proof Iw as Iw'. apply filter_In in Iw'. destruct Iw' as [Iv Nw].
  rewrite Forall_forall in F. pose proof (F w Iv) as Pw.
  destruct w as [| | | | | s | |]; try discriminate Pw; try discriminate Nw.
  cbn [plain_text] in Pw. apply andb_prop in Pw. destruct Pw as [Pw PD].
  apply andb_prop in Pw. destruct Pw as [_ PU]. apply negb_true_iff in PU.
  assert (U : FieldProfiler.isUUID (filter is_non_null values) = false).
  { apply (forallb_head_false _ _ (VStr s) Iw). exact PU. }
  assert (T : FieldProfiler.isTimestamp Date_parse (filter is_non_null values) = false).
  { apply (forallb_head_false _ _ (VStr s) Iw).
    destruct (Date_parse s); [discriminate PD | reflexivity]. }
  assert (S : forallb FieldProfiler.is_string (filter is_non_null values) = true).
  { apply forallb_forall. intros u Iu. apply filter_In in Iu. destruct Iu as [Iu Nu].
    specialize (F u Iu). destruct u; try discriminate F; try discriminate Nu.
    reflexivity. }
  rewrite U, T. unfold FieldProfiler.isEnum. rewrite S. cbn [andb].
  destruct (FieldProfiler.count_distinct (filter is_non_null values) <=? 8)%nat eqn:C.
  - left. split; [reflexivity | now apply Nat.leb_le].
  - right.
    rewrite (forallb_head_false _ _ (VStr s) Iw eq_refl
             : FieldProfiler.isBoolean (filter is_non_null values) = false).
    rewrite (forallb_head_false _ _ (VStr s) Iw eq_refl
             : FieldProfiler.isNumber (filter is_non_null values) = false).
    rewrite (forallb_head_false _ _ (VStr s) Iv eq_refl
             : FieldProfiler.isArrayOfObjects values = false).
    rewrite (forallb_head_false _ _ (VStr s) Iv eq_refl
             : FieldProfiler.isArrayOfPrimitives values = false).
    reflexivity.
Qed.

(** **** Each kind has a codec that reads its column back *)

Section Kinds.

Variable Date_parse : string -> option Z.
Variable Date_toISOString : Z -> string.

Let registry := defaultRegistry Date_parse Date_toISOString.
Let detectType := FieldProfiler.detectType Date_parse.

Lemma booleans_lossless (present : list value) :
  present <> [] -> Z.of_nat (length present) < 2 ^ 32 ->
  Forall (fun v => boolean_value v = true) present ->
  exists (c : IFieldCodec) (payload : Buffer),
    registry (detectType present) = Some c
    /\ codec_encode c present = OK payload
    /\ codec_decode c payload = OK present.
Proof.
  intros NE L F. exists BooleanCodec.codec.
  destruct (boolean_codec_truthiness present L) as (payload & E & D).
  exists payload. split; [| split; [exact E |]].
  - unfold detectType. rewrite detectType_booleans; [reflexivity | |].
    + eapply Forall_impl; [| exact F]. intros v. now destruct v.
    + clear E D. destruct present as [| v vs]; [congruence |].
      exists v. split; [now left |].
      inversion F as [| ? ? Hv _]; subst. destruct v; try discriminate Hv.
      discriminate.
  - cbn [codec_decode BooleanCodec.codec]. rewrite D. apply f_equal.
    clear -F. induction F as [| v vs Hv _ IH]; [reflexivity |].
    cbn [map]. rewrite IH. destruct v; try discriminate Hv. reflexivity.
Qed.

Lemma safe_integers_lossless (present : list value) :
  present <> [] ->
  Forall safe_integer_value present ->
  exists (c : IFieldCodec) (payload : Buffer),
    registry (detectType present) = Some c
    /\ codec_encode c present = OK payload
    /\ codec_decode c payload = OK present.
Proof.
  intros NE F. exists NumberCodec.codec.
  assert (T : detectType present = NUMBER).
  { unfold detectType. apply detectType_numbers.
    - eapply Forall_impl; [| exact F]. now intros v (z & _ & ->).
    - destruct present as [| v vs]; [congruence |]. exists v. split; [now left |].
      inversion F as [| ? ? (z & _ & E) _]; subst. discriminate. }
  destruct (safe_integers_list present F) as (zs & -> & B).
  destruct (integer_mode_lossless zs B) as (payload & E & _ & D).
  exists payload. rewrite T. split; [reflexivity | split; [exact E | exact D]].
Qed.

Lemma text_lossless (present : list value) :
  Z.of_nat (length present) < 2 ^ 32 ->
  Forall (fun v => plain_text Date_parse v = true) present ->
  exists (c : IFieldCodec) (payload : Buffer),
    registry (detectType present) = Some c
    /\ codec_encode c present = OK payload
    /\ codec_decode c payload = OK present.
Proof.
  intros L F.
  assert (FE : Forall (fun v => enum_entry v = true) present).
  { eapply Forall_impl; [| exact F]. intros v P. destruct v; try discriminate P;
      [reflexivity |]. cbn [plain_text] in P. apply andb_prop in P.
    destruct P as [P _]. apply andb_prop in P. destruct P as [P _]. exact P. }
  assert (FS : Forall (fun v => string_or_null v = true /\ storable_string v = true)
                      present).
  { eapply Forall_impl; [| exact FE]. intros v P. destruct v; try discriminate P;
      [split; reflexivity |]. split; [reflexivity |].
    cbn [enum_entry] in P. cbn [storable_string].
    apply andb_prop in P. destruct P as [W P]. rewrite W. cbn [andb].
    apply Nat.ltb_lt in P. apply Z.ltb_lt. change (2 ^ 32) with 4294967296. lia. }
  destruct (detectType_text Date_parse present F) as [[T C] | T];
    unfold detectType; rewrite T.
  - exists EnumCodec.codec.
    destruct (enum_codec_lossless present FE) as (payload & E & D); [| exact L |].
    + assert (S : Forall (fun v => string_or_null v = true) present)
        by (eapply Forall_impl; [| exact FS]; cbn; tauto).
      pose proof (distinct_with_null present S). lia.
    + exists payload. split; [reflexivity | split; [exact E | exact D]].
  - exists AdaptiveStringCodec.codec.
    destruct present as [| v0 present'] eqn:EP.
    { exists []. split; [reflexivity | split; reflexivity]. }
    rewrite <- EP in *. assert (NE : present <> []) by (rewrite EP; discriminate).
    assert (S : Forall (fun v => string_or_null v = true) present)
      by (eapply Forall_impl; [| exact FS]; cbn; tauto).
    pose proof (encode_layout present NE S) as E. cbv zeta in E.
    eexists. split; [reflexivity | split; [exact E |]].
    exact (AdaptiveStringCodec_decode_encode present _ FS L E).
Qed.

End Kinds.


(** X19 -- Batches of typed columns are accepted and restored.  Take a
    batch of flat records, with at least one key and fewer than 2^32
    records, in which the values under each key are all booleans, or all
    integers of magnitude below 2^53, or all plain text (well-formed
    strings shorter than 255 bytes that the profiler takes neither for a
    UUID nor for a date, and [null]s).  The keys are ordinary: distinct,
    well-formed, dot-free, under 256 bytes, neither array indices nor
    names inherited from [Object.prototype] (under [constructor] the
    column builder raises a TypeError, and [__proto__] is dropped).  With
    the profiler and the codecs of the usage
    example, [compress] does not fail on a codec or on the self-check: it
    returns a buffer from which [decompress] restores the batch, or it
    raises the RangeError of a size field of the header (65536 keys or
    more, or a column of 4 GiB or more). *)
Theorem SemanticCompressor_compress_accepts
        (Date_parse : string -> option Z) (Date_toISOString : Z -> string)
        (version : Z) (brotliDecompressSync : Buffer -> result Buffer)
        (records : list JSObject) :
  let registry := defaultRegistry Date_parse Date_toISOString in
  let detectType := FieldProfiler.detectType Date_parse in
  Forall flat_record records ->
  (exists r, In r records /\ r <> []) ->
  Z.of_nat (length records) < 2 ^ 32 ->
  (forall k, In k (sorted_keys records) ->
     (forall r v, In r records -> obj_get r k = Some v -> boolean_value v = true)
     \/ (forall r v, In r records -> obj_get r k = Some v -> safe_integer_value v)
     \/ (forall r v, In r records -> obj_get r k = Some v ->
           plain_text Date_parse v = true)) ->
  (exists (buffer : Buffer) (records' : list JSObject),
     SemanticCompressor.compress registry detectType version records = OK buffer
     /\ SemanticCompressor.decompress registry brotliDecompressSync buffer
        = OK records'
     /\ same_batch records records')
  \/ SemanticCompressor.compress registry detectType version records
     = Err (RangeError "writeUInt16LE")
  \/ SemanticCompressor.compress registry detectType version records
     = Err (RangeError "writeUInt32LE").
Proof.
  intros registry detectType FR NK L Kinds.
  assert (NE : records <> []).
  { destruct NK as [r0 [I0 _]]. destruct records; [destruct I0 | discriminate]. }
  assert (SH : Forall (Forall (fun kv => storable_string (snd kv) = true)) records).
  { apply Forall_forall. intros r Ir. apply Forall_forall. intros [k v] Ikv.
    cbn [snd]. destruct v; try reflexivity.
    assert (K : In k (sorted_keys records)).
    { apply sorted_keys_In. exists r. split; [exact Ir |].
      change k with (fst (k, VStr s)). now apply in_map. }
    assert (G : obj_get r k = Some (VStr s)).
    { rewrite Forall_forall in FR. destruct (FR r Ir) as [ND _].
      now apply obj_get_In. }
    destruct (Kinds k K) as [B | [I | T]].
    - specialize (B r _ Ir G). discriminate B.
    - destruct (I r _ Ir G) as (z & _ & E). discriminate E.
    - specialize (T r _ Ir G). cbn [plain_text] in T. apply andb_prop in T.
      destruct T as [T _]. apply andb_prop in T. destruct T as [T _].
      apply andb_prop in T. destruct T as [W T]. cbn [storable_string].
      rewrite W. cbn [andb].
      apply Nat.ltb_lt in T.
      apply Z.ltb_lt. change (2 ^ 32) with 4294967296. lia. }
  destruct (compress_accepts registry detectType version records FR NE L)
    as [[buffer C] | R]; [| | right; exact R].
  - intros k K. cbv zeta.
    set (present := filter is_present (map (fun r => cell r k) records)).
    assert (PN : present <> []) by exact (present_not_empty records FR k K).
    assert (PL : Z.of_nat (length present) < 2 ^ 32).
    { pose proof (filter_length_le is_present (map (fun r => cell r k) records)) as FL.
      rewrite length_map in FL. unfold present. lia. }
    destruct (Kinds k K) as [B | [I | T]].
    + apply booleans_lossless; [exact PN | exact PL |].
      exact (present_kind records k _ FR B).
    + apply safe_integers_lossless; [exact PN |].
      exact (present_kind records k _ FR I).
    + apply text_lossless; [exact PL |].
      exact (present_kind records k _ FR T).
  - left.
    destruct (round_trip_keeping_null registry detectType version brotliDecompressSync
                (defaultRegistry_keeps_null Date_parse Date_toISOString)
                records FR SH NK buffer C) as (records' & D & S).
    exists buffer, records'. auto.
Qed.

Lemma SemanticCompressor_compress_accepts_witness :
  let registry := defaultRegistry (fun _ => None) (fun _ => EmptyString) in
  let detectType := FieldProfiler.detectType (fun _ => None) in
  let records := [[("ok", VBool true); ("n", VNum (Number_of_Z 5)); ("s", VStr "x")];
                  [("n", VNum (Number_of_Z (-3))); ("s", VNull)]]%string in
  exists (buffer : Buffer) (records' : list JSObject),
    SemanticCompressor.compress registry detectType 1 records = OK buffer
    /\ SemanticCompressor.decompress registry (fun b => OK b) buffer = OK records'
    /\ same_batch records records'.
Proof.
  intros registry detectType records.
  destruct (SemanticCompressor_compress_accepts (fun _ => None)
              (fun _ => EmptyString) 1 (fun b => OK b) records)
    as [OKs | [R | R]].
  - flat_records.
  - exists [("n", VNum (Number_of_Z (-3))); ("s", VNull)]%string.
    split; [cbn; tauto | discriminate].
  - vm_compute. reflexivity.
  - intros k K. vm_compute in K.
    destruct K as [<- | [<- | [<- | []]]].
    + right. left. intros r v [<- | [<- | []]] G; vm_compute in G;
        injection G as <-.
      * exists 5. split; [change (2 ^ 53) with 9007199254740992; lia |].
        vm_compute. reflexivity.
      * exists (-3). split; [change (2 ^ 53) with 9007199254740992; lia |].
        vm_compute. reflexivity.
    + left. intros r v [<- | [<- | []]] G; vm_compute in G;
        [injection G as <-; reflexivity | discriminate G].
    + right. right. intros r v [<- | [<- | []]] G; vm_compute in G;
        injection G as <-; reflexivity.
  - exact OKs.
  - vm_compute in R. discriminate R.
  - vm_compute in R. discriminate R.
Defined.


(** ** The flattener on nested records *)

Lemma split_dots_not_nil (s : string) : split_dots s <> [].
Proof.
  induction s as [| c s IH]; cbn; [discriminate |].
  destruct (Ascii.eqb c "."%char); [discriminate |].
  destruct (split_dots s); [contradiction | discriminate].
Qed.

Lemma split_dots_app (a b : string) :
  split_dots (a ++ String "."%char b) = split_dots a ++ split_dots b.
Proof.
  induction a as [| c a IH]; cbn [String.append split_dots].
  - reflexivity.
  - destruct (Ascii.eqb c "."%char) eqn:E.
    + rewrite IH. reflexivity.
    + rewrite IH. pose proof (split_dots_not_nil a) as N.
      destruct (split_dots a) as [| part parts]; [contradiction | reflexivity].
Qed.

Lemma path_key_whole (k : string) :
  path_key k = true -> k <> EmptyString /\ split_dots k = [k].
Proof.
  unfold path_key. intros H. apply andb_prop in H. destruct H as [H _].
  apply andb_prop in H. destruct H as [N D]. split.
  - intros ->. discriminate N.
  - now apply split_dots_whole.
Qed.

Lemma path_key_plain (k : string) : path_key k = true -> plain_name k = true.
Proof. unfold path_key. intros H. now apply andb_prop in H. Qed.

(** A name with a dot in it is neither an array index nor inherited. *)
Lemma decimal_value_dotless (s : string) :
  forall (acc i : Z), decimal_value s acc = Some i -> dotless s = true.
Proof.
  unfold dotless. induction s as [| c s IH]; intros acc i H; [reflexivity |].
  cbn [decimal_value] in H. cbn [list_ascii_of_string forallb].
  destruct ((48 <=? Z.of_N (N_of_ascii c)) && (Z.of_N (N_of_ascii c) <=? 57))%bool
    eqn:R; [| discriminate H].
  rewrite (IH _ _ H), andb_true_r.
  destruct (Ascii.eqb_spec c "."%char) as [-> | _]; [discriminate R | reflexivity].
Qed.

Lemma array_index_dotless (key : string) (i : Z) :
  array_index key = Some i -> dotless key = true.
Proof.
  unfold array_index. destruct key as [| c rest]; [discriminate |].
  destruct (Ascii.eqb_spec c "0"%char) as [-> | _].
  - destruct (String.eqb_spec rest EmptyString) as [-> | _]; [| discriminate].
    reflexivity.
  - destruct (decimal_value (String c rest) 0) as [j |] eqn:D; [| discriminate].
    intros _. exact (decimal_value_dotless _ _ _ D).
Qed.

Lemma inherited_dotless (key : string) : inherited key = true -> dotless key = true.
Proof.
  unfold inherited, Object_prototype. cbn [existsb]. intros H.
  repeat (apply orb_prop in H; destruct H as [H | H];
          [apply String.eqb_eq in H; subst key; reflexivity |]).
  discriminate H.
Qed.

Lemma dotted_plain (key : string) : dotless key = false -> plain_name key = true.
Proof.
  intros D. unfold plain_name.
  destruct (inherited key) eqn:I;
    [apply inherited_dotless in I; congruence |].
  destruct (array_index key) as [i |] eqn:X;
    [apply array_index_dotless in X; congruence | reflexivity].
Qed.

Lemma join_dotted (p k : string) : dotless (p ++ String "."%char k) = false.
Proof.
  unfold dotless. induction p as [| c p IH]; cbn; [reflexivity |].
  rewrite IH. apply andb_false_r.
Qed.

Lemma join_path_plain (p k : string) :
  plain_name k = true -> plain_name (ObjectFlattener.join_path p k) = true.
Proof.
  intros K. unfold ObjectFlattener.join_path.
  destruct (String.eqb p EmptyString); [exact K |].
  apply dotted_plain. exact (join_dotted p k).
Qed.

Lemma join_path_parts (p k : string) :
  path_key k = true ->
  ObjectFlattener.join_path p k <> EmptyString
  /\ path_parts (ObjectFlattener.join_path p k) = path_parts p ++ [k]
  /\ split_dots (ObjectFlattener.join_path p k) = path_parts p ++ [k].
Proof.
  intros K. destruct (path_key_whole k K) as [NE W].
  unfold ObjectFlattener.join_path, path_parts.
  destruct (String.eqb_spec p EmptyString) as [-> | NP].
  - split; [exact NE |]. apply String.eqb_neq in NE. rewrite NE. cbn [app].
    split; exact W.
  - assert (J : (p ++ "." ++ k)%string <> EmptyString)
      by (destruct p; [congruence | discriminate]).
    split; [exact J |]. apply String.eqb_neq in J. rewrite J.
    change (p ++ "." ++ k)%string with (p ++ String "."%char k)%string.
    rewrite split_dots_app, W. split; reflexivity.
Qed.

Lemma obj_get_put_same {A : Type} (o : list (string * A)) (key : string) (v : A) :
  obj_get (obj_put o key v) key = Some v.
Proof.
  induction o as [| [k w] o IH]; cbn.
  - now rewrite String.eqb_refl.
  - destruct (String.eqb_spec k key) as [-> | N]; cbn.
    + now rewrite String.eqb_refl.
    + apply String.eqb_neq in N. now rewrite N.
Qed.

Lemma obj_put_put {A : Type} (o : list (string * A)) (key : string) (v w : A) :
  obj_put (obj_put o key v) key w = obj_put o key w.
Proof.
  induction o as [| [k x] o IH]; cbn.
  - now rewrite String.eqb_refl.
  - destruct (String.eqb_spec k key) as [-> | N]; cbn.
    + now rewrite String.eqb_refl.
    + apply String.eqb_neq in N. now rewrite N, IH.
Qed.

(** [set_path] one level at a time. *)
Lemma set_path_last (k : string) (v : value) (current : JSObject) :
  Ordinary.set_path [k] v current = OK (obj_put current k v).
Proof. reflexivity. Qed.

Lemma set_path_step (a b : string) (rest : list string) (v : value)
      (current : JSObject) :
  Ordinary.set_path (a :: b :: rest) v current
  = match obj_get current a with
    | Some (VObj inner) =>
        do inner' <- Ordinary.set_path (b :: rest) v inner;
        OK (obj_put current a (VObj inner'))
    | Some (VArr _) => Err (Unsupported "a dotted path through an array")
    | Some w =>
        if truthy w then Err (Unsupported "a dotted path through a primitive")
        else
          do inner' <- Ordinary.set_path (b :: rest) v [];
          OK (obj_put current a (VObj inner'))
    | None =>
        do inner' <- Ordinary.set_path (b :: rest) v [];
        OK (obj_put current a (VObj inner'))
    end.
Proof. reflexivity. Qed.

Lemma absent_nil (parts : list string) : parts <> [] -> absent parts [].
Proof. destruct parts as [| a [| b rest]]; [congruence | reflexivity | reflexivity]. Qed.

Lemma set_path_absent_ok (parts : list string) (v : value) :
  forall record : JSObject,
    absent parts record -> exists r, Ordinary.set_path parts v record = OK r.
Proof.
  induction parts as [| a parts IH]; intros record A; [destruct A |].
  destruct parts as [| b rest]; [rewrite set_path_last; eauto |].
  rewrite set_path_step. cbn [absent] in A.
  destruct (obj_get record a) as [[| | | | | | | inner] |]; try destruct A.
  - destruct (IH inner A) as [r ->]. cbn [bind]. eauto.
  - destruct (IH [] (absent_nil (b :: rest) ltac:(discriminate))) as [r ->]. cbn [bind]. eauto.
Qed.

(** Adding the property [k] to the object under construction at [parts]. *)
Lemma set_path_extend (parts : list string) (k : string) (w : value) (o : JSObject) :
  ~ In k (obj_keys o) ->
  forall record state : JSObject,
    absent parts record ->
    (o = [] /\ state = record)
    \/ (o <> [] /\ Ordinary.set_path parts (VObj o) record = OK state) ->
    Ordinary.set_path (parts ++ [k]) w state
    = Ordinary.set_path parts (VObj (o ++ [(k, w)])) record.
Proof.
  intros Fresh. induction parts as [| a parts IH]; intros record state A S;
    [destruct A |].
  destruct parts as [| b rest].
  - cbn [absent] in A. cbn [app]. rewrite set_path_step, set_path_last.
    destruct S as [[-> ->] | [_ S]].
    + rewrite A. reflexivity.
    + rewrite set_path_last in S. apply OK_inj in S. subst state.
      rewrite obj_get_put_same, set_path_last. cbn [bind].
      rewrite obj_put_put, (obj_put_fresh o k w Fresh). reflexivity.
  - cbn [absent] in A. change ((a :: b :: rest) ++ [k]) with (a :: (b :: rest) ++ [k]).
    change ((b :: rest) ++ [k]) with (b :: rest ++ [k]) in *.
    rewrite !set_path_step.
    destruct S as [[-> ->] | [NO S]].
    + destruct (obj_get record a) as [[| | | | | | | inner] |]; try destruct A.
      * rewrite (IH inner inner A (or_introl (conj eq_refl eq_refl))). reflexivity.
      * rewrite (IH [] [] (absent_nil (b :: rest) ltac:(discriminate))
                   (or_introl (conj eq_refl eq_refl))).
        reflexivity.
    + rewrite set_path_step in S.
      destruct (obj_get record a) as [[| | | | | | | inner] |] eqn:G; try destruct A.
      * destruct (Ordinary.set_path (b :: rest) (VObj o) inner)
          as [inner1 |] eqn:S1; [| discriminate S].
        cbn [bind] in S. apply OK_inj in S. subst state.
        rewrite obj_get_put_same.
        rewrite (IH inner inner1 A (or_intror (conj NO S1))).
        destruct (Ordinary.set_path (b :: rest) (VObj (o ++ [(k, w)])) inner);
          [| reflexivity].
        cbn [bind]. now rewrite obj_put_put.
      * destruct (Ordinary.set_path (b :: rest) (VObj o) [])
          as [inner1 |] eqn:S1; [| discriminate S].
        cbn [bind] in S. apply OK_inj in S. subst state.
        rewrite obj_get_put_same.
        rewrite (IH [] inner1 (absent_nil (b :: rest) ltac:(discriminate))
                   (or_intror (conj NO S1))).
        destruct (Ordinary.set_path (b :: rest) (VObj (o ++ [(k, w)])) []);
          [| reflexivity].
        cbn [bind]. now rewrite obj_put_put.
Qed.

Lemma absent_extend (parts : list string) (k : string) (o : JSObject) :
  ~ In k (obj_keys o) ->
  forall record state : JSObject,
    absent parts record ->
    (o = [] /\ state = record)
    \/ (o <> [] /\ Ordinary.set_path parts (VObj o) record = OK state) ->
    absent (parts ++ [k]) state.
Proof.
  intros Fresh. induction parts as [| a parts IH]; intros record state A S;
    [destruct A |].
  destruct parts as [| b rest].
  - cbn [absent] in A. cbn [app absent].
    destruct S as [[-> ->] | [_ S]].
    + now rewrite A.
    + rewrite set_path_last in S. apply OK_inj in S. subst state.
      rewrite obj_get_put_same. now apply obj_get_None.
  - cbn [absent] in A. change ((a :: b :: rest) ++ [k]) with (a :: (b :: rest) ++ [k]).
    change ((b :: rest) ++ [k]) with (b :: rest ++ [k]) in *.
    cbn [absent].
    destruct S as [[-> ->] | [NO S]].
    + destruct (obj_get record a) as [[| | | | | | | inner] |]; try destruct A;
        [| exact I].
      exact (IH inner inner A (or_introl (conj eq_refl eq_refl))).
    + rewrite set_path_step in S.
      destruct (obj_get record a) as [[| | | | | | | inner] |] eqn:G; try destruct A.
      * destruct (Ordinary.set_path (b :: rest) (VObj o) inner)
          as [inner1 |] eqn:S1; [| discriminate S].
        cbn [bind] in S. apply OK_inj in S. subst state.
        rewrite obj_get_put_same.
        exact (IH inner inner1 A (or_intror (conj NO S1))).
      * destruct (Ordinary.set_path (b :: rest) (VObj o) [])
          as [inner1 |] eqn:S1; [| discriminate S].
        cbn [bind] in S. apply OK_inj in S. subst state.
        rewrite obj_get_put_same.
        exact (IH [] inner1 (absent_nil (b :: rest) ltac:(discriminate))
                 (or_intror (conj NO S1))).
Qed.

Lemma bind_OK_id {A : Type} (r : result A) : (do a <- r; OK a) = r.
Proof. now destruct r. Qed.

Lemma unflatten_loop_app (l1 l2 : JSObject) :
  forall state : JSObject,
    Ordinary.unflatten_loop (l1 ++ l2) state
    = (do s <- Ordinary.unflatten_loop l1 state;
       Ordinary.unflatten_loop l2 s).
Proof.
  induction l1 as [| [p v] l1 IH]; intros state; [reflexivity |].
  cbn [app Ordinary.unflatten_loop].
  destruct v; try apply IH;
    (destruct (Ordinary.set_path (split_dots p) _ state) as [state' |];
     [cbn [bind]; apply IH | reflexivity]).
Qed.

Lemma unflatten_loop_leaf (path : string) (w : value) (state : JSObject) :
  kept w = true ->
  Ordinary.unflatten_loop [(path, w)] state
  = Ordinary.set_path (split_dots path) w state.
Proof.
  intros K. cbn [Ordinary.unflatten_loop].
  destruct w; try discriminate K; apply bind_OK_id.
Qed.

Lemma distinct_keys_NoDup (keys : list string) :
  distinct_keys keys = true -> NoDup keys.
Proof.
  induction keys as [| k keys IH]; cbn [distinct_keys]; [constructor |].
  intros H. apply andb_prop in H. destruct H as [N D].
  constructor; [| now apply IH].
  intros I. apply existsb_eqb_In in I. rewrite I in N. discriminate N.
Qed.

Lemma nested_fields (fields : list (string * value)) :
  distinct_keys (map fst fields) = true ->
  forallb (fun kv => path_key (fst kv) && nested_value (snd kv)) fields = true ->
  NoDup (obj_keys fields)
  /\ Forall (fun kv => path_key (fst kv) = true /\ nested_value (snd kv) = true)
            fields.
Proof.
  intros D F. split; [now apply distinct_keys_NoDup |].
  apply Forall_forall. intros kv I. rewrite forallb_forall in F.
  specialize (F kv I). now apply andb_prop in F.
Qed.

Lemma nested_value_obj (fields : list (string * value)) :
  nested_value (VObj fields) = true ->
  fields <> []
  /\ NoDup (obj_keys fields)
  /\ Forall (fun kv => path_key (fst kv) = true /\ nested_value (snd kv) = true)
            fields.
Proof.
  cbn [nested_value]. intros H. apply andb_prop in H. destruct H as [H F].
  apply andb_prop in H. destruct H as [N D].
  split; [intros ->; discriminate N | now apply nested_fields].
Qed.

Lemma nested_value_kept (w : value) : nested_value w = true -> kept w = true.
Proof. destruct w; try discriminate; reflexivity. Qed.

Lemma depth_field (fields : list (string * value)) (kv : string * value) :
  In kv fields -> (depth (snd kv) < depth (VObj fields))%nat.
Proof.
  cbn [depth]. intros I. apply Nat.lt_succ_r.
  induction fields as [| x fields IH]; [destruct I |].
  cbn [fold_right]. destruct I as [-> | I]; [lia |].
  specialize (IH I). lia.
Qed.

Lemma leaves_of_cons (k : string) (w : value) (rest : list (string * value))
      (p : string) :
  leaves_of (VObj ((k, w) :: rest)) p
  = match w with
    | VObj _ => leaves_of w (ObjectFlattener.join_path p k)
    | _ => [(ObjectFlattener.join_path p k, w)]
    end ++ leaves_of (VObj rest) p.
Proof. destruct w; reflexivity. Qed.

(** The leaves below the object at [p] rebuild that object where [parts],
    the keys of [p], lead. *)
Lemma unflatten_leaves (n : nat) :
  forall (fs : list (string * value)) (p : string) (record o state : JSObject),
    Forall (fun kv => path_key (fst kv) = true /\ nested_value (snd kv) = true
                      /\ (depth (snd kv) < n)%nat) fs ->
    NoDup (obj_keys (o ++ fs)) ->
    p <> EmptyString ->
    absent (path_parts p) record ->
    (o = [] /\ state = record)
    \/ (o <> [] /\ Ordinary.set_path (path_parts p) (VObj o) record = OK state) ->
    o ++ fs <> [] ->
    Ordinary.unflatten_loop (leaves_of (VObj fs) p) state
    = Ordinary.set_path (path_parts p) (VObj (o ++ fs)) record.
Proof.
  induction n as [| n IHn]; intros fs.
  - destruct fs as [| kv fs]; [| intros p record o state F; inversion F; subst; lia].
    intros p record o state _ _ _ _ S NE. rewrite app_nil_r in *. cbn.
    destruct S as [[-> _] | [_ S]]; [congruence | now rewrite S].
  - induction fs as [| [k w] rest IH]; intros p record o state F ND NP A S NE.
    + rewrite app_nil_r in *. cbn.
      destruct S as [[-> _] | [_ S]]; [congruence | now rewrite S].
    + inversion F as [| ? ? (Kk & Nw & Dw) F']; subst. cbn [fst snd] in *.
      assert (Fresh : ~ In k (obj_keys o)).
      { unfold obj_keys in ND. rewrite map_app in ND. cbn [map fst] in ND.
        apply NoDup_remove_2 in ND. intros I. apply ND. apply in_or_app. now left. }
      destruct (join_path_parts p k Kk) as (JN & JP & JS).
      pose proof (set_path_extend (path_parts p) k w o Fresh record state A S) as EXT.
      pose proof (absent_extend (path_parts p) k o Fresh record state A S) as ABS.
      destruct (set_path_absent_ok (path_parts p) (VObj (o ++ [(k, w)])) record A)
        as [state' ST].
      rewrite leaves_of_cons.
      match goal with
      | |- context [Ordinary.unflatten_loop (?l ++ _) _] => set (part := l)
      end.
      rewrite unflatten_loop_app.
      assert (STEP : Ordinary.unflatten_loop part state = OK state').
      { rewrite <- ST, <- EXT. unfold part.
        destruct w as [| | | | | | | inner];
          try (rewrite unflatten_loop_leaf, JS by reflexivity; reflexivity);
          try discriminate Nw.
        destruct (nested_value_obj inner Nw) as (NI & NDI & FI).
        rewrite (IHn inner (ObjectFlattener.join_path p k) state [] state).
        - rewrite JP. reflexivity.
        - apply Forall_forall. intros kv I. rewrite Forall_forall in FI.
          destruct (FI kv I) as [P1 P2]. split; [exact P1 | split; [exact P2 |]].
          pose proof (depth_field inner kv I). lia.
        - exact NDI.
        - exact JN.
        - rewrite JP. exact ABS.
        - left. split; reflexivity.
        - exact NI. }
      rewrite STEP. cbn [bind].
      rewrite (IH p record (o ++ [(k, w)]) state' F').
      * now rewrite <- app_assoc.
      * now rewrite <- app_assoc.
      * exact NP.
      * exact A.
      * right. split; [now destruct o | exact ST].
      * now destruct o.
Qed.

Lemma unflatten_top (fs : list (string * value)) :
  forall o : JSObject,
    Forall (fun kv => path_key (fst kv) = true /\ nested_value (snd kv) = true) fs ->
    NoDup (obj_keys (o ++ fs)) ->
    Ordinary.unflatten_loop (leaves_of (VObj fs) EmptyString) o = OK (o ++ fs).
Proof.
  induction fs as [| [k w] rest IH]; intros o F ND.
  - cbn. now rewrite app_nil_r.
  - inversion F as [| ? ? (Kk & Nw) F']; subst. cbn [fst snd] in *.
    assert (Fresh : ~ In k (obj_keys o)).
    { unfold obj_keys in ND. rewrite map_app in ND. cbn [map fst] in ND.
      apply NoDup_remove_2 in ND. intros I. apply ND. apply in_or_app. now left. }
    destruct (path_key_whole k Kk) as [KN KW].
    rewrite leaves_of_cons.
    change (ObjectFlattener.join_path EmptyString k) with k.
    match goal with
    | |- context [Ordinary.unflatten_loop (?l ++ _) _] => set (part := l)
    end.
    rewrite unflatten_loop_app.
    assert (STEP : Ordinary.unflatten_loop part o = OK (o ++ [(k, w)])).
    { rewrite <- (obj_put_fresh o k w Fresh), <- set_path_last. unfold part.
      destruct w as [| | | | | | | inner];
        try (rewrite unflatten_loop_leaf, KW by reflexivity; reflexivity);
        try discriminate Nw.
      destruct (nested_value_obj inner Nw) as (NI & NDI & FI).
      assert (PP : path_parts k = [k]).
      { unfold path_parts. apply String.eqb_neq in KN. now rewrite KN. }
      rewrite (unflatten_leaves (depth (VObj inner)) inner k o [] o).
      - rewrite PP. reflexivity.
      - apply Forall_forall. intros kv I. rewrite Forall_forall in FI.
        destruct (FI kv I) as [P1 P2]. split; [exact P1 | split; [exact P2 |]].
        exact (depth_field inner kv I).
      - exact NDI.
      - exact KN.
      - rewrite PP. cbn [absent]. now apply obj_get_None.
      - left. split; reflexivity.
      - exact NI. }
    rewrite STEP. cbn [bind]. rewrite (IH (o ++ [(k, w)]) F').
    + now rewrite <- app_assoc.
    + now rewrite <- app_assoc.
Qed.

(** [flatten] lists the leaves, depth first. *)
Lemma flatten_leaves (n : nat) :
  forall (fs : list (string * value)) (p : string) (flat : JSObject),
    Forall (fun kv => path_key (fst kv) = true /\ nested_value (snd kv) = true
                      /\ (depth (snd kv) < n)%nat) fs ->
    NoDup (obj_keys fs) ->
    (forall k key more, In k (obj_keys fs) -> In key (obj_keys flat) ->
       split_dots key <> path_parts p ++ k :: more) ->
    ObjectFlattener.flattenRecursive (VObj fs) p flat
    = OK (flat ++ leaves_of (VObj fs) p)
    /\ forall key, In key (obj_keys (leaves_of (VObj fs) p)) ->
         exists k more, In k (obj_keys fs)
                        /\ split_dots key = path_parts p ++ k :: more
                        /\ Forall (fun part => plain_name part = true) (k :: more).
Proof.
  induction n as [| n IHn]; intros fs.
  - destruct fs as [| kv fs]; [| intros p flat F; inversion F; subst; lia].
    intros p flat _ _ _. cbn. rewrite app_nil_r. split; [reflexivity | intros key []].
  - induction fs as [| [k w] rest IH]; intros p flat F ND FR.
    + cbn. rewrite app_nil_r. split; [reflexivity | intros key []].
    + inversion F as [| ? ? (Kk & Nw & Dw) F']; subst. cbn [fst snd] in *.
      inversion ND as [| ? ? NK ND']; subst.
      destruct (join_path_parts p k Kk) as (JN & JP & JS).
      pose proof (path_key_plain k Kk) as PK0.
      rewrite flattenRecursive_cons, leaves_of_cons.
      match goal with
      | |- context [flat ++ ?l ++ leaves_of (VObj rest) p] => set (part := l)
      end.
      match goal with
      | |- context [bind ?f _] => set (flat1 := f)
      end.
      assert (STEP : flat1 = OK (flat ++ part)
                     /\ forall key, In key (obj_keys part) ->
                          exists more, split_dots key = path_parts p ++ k :: more
                                       /\ Forall (fun part => plain_name part = true)
                                                 (k :: more)).
      { assert (LEAF : assign flat (ObjectFlattener.join_path p k) w
                       = OK (flat ++ [(ObjectFlattener.join_path p k, w)])).
        { rewrite assign_plain by now apply join_path_plain.
          apply f_equal. apply obj_put_fresh. intros I.
          apply (FR k _ [] (or_introl eq_refl) I). exact JS. }
        assert (ONE : forall key,
                   In key (obj_keys [(ObjectFlattener.join_path p k, w)]) ->
                   exists more, split_dots key = path_parts p ++ k :: more
                                /\ Forall (fun part => plain_name part = true)
                                          (k :: more)).
        { intros key [<- | []]. exists []. split; [exact JS |].
          constructor; [exact PK0 | constructor]. }
        unfold part, flat1.
        destruct w as [| | | | | | | inner]; try (split; [exact LEAF | exact ONE]).
        destruct (nested_value_obj inner Nw) as (NI & NDI & FI).
        destruct (IHn inner (ObjectFlattener.join_path p k) flat) as [E K].
        - apply Forall_forall. intros kv I. rewrite Forall_forall in FI.
          destruct (FI kv I) as [P1 P2]. split; [exact P1 | split; [exact P2 |]].
          pose proof (depth_field inner kv I). lia.
        - exact NDI.
        - intros k' key more Ik' Ikey. rewrite JP, <- app_assoc. cbn [app].
          apply (FR k key (k' :: more) (or_introl eq_refl) Ikey).
        - split; [exact E |]. intros key Ikey.
          destruct (K key Ikey) as (k' & more & _ & Sk & Pl).
          exists (k' :: more). rewrite Sk, JP, <- app_assoc. split; [reflexivity |].
          constructor; [exact PK0 | exact Pl]. }
      destruct STEP as [ES PK]. rewrite ES. cbn [bind]. clear ES flat1.
      destruct (IH p (flat ++ part) F' ND') as [E K].
      * intros k' key more Ik' Ikey. unfold obj_keys in Ikey.
        rewrite map_app in Ikey. apply in_app_or in Ikey. destruct Ikey as [Ikey | Ikey].
        -- apply (FR k' key more); [now right | exact Ikey].
        -- destruct (PK key Ikey) as [more' [Sk _]]. rewrite Sk. intros EQ.
           apply app_inv_head in EQ. injection EQ as EQ _. subst k'. contradiction.
      * rewrite E, <- app_assoc. split; [reflexivity |].
        intros key Ikey. unfold obj_keys in Ikey. rewrite map_app in Ikey.
        apply in_app_or in Ikey. destruct Ikey as [Ikey | Ikey].
        -- destruct (PK key Ikey) as [more [Sk Pl]]. exists k, more.
           split; [now left | split; [exact Sk | exact Pl]].
        -- destruct (K key Ikey) as (k' & more & Ik' & Sk & Pl). exists k', more.
           split; [now right | split; [exact Sk | exact Pl]].
Qed.

(** X11 -- The flattener round-trips nested records.  For a record whose
    property names, at every level, are distinct, not empty, free of dots
    and ordinary (neither array indices nor names inherited from
    [Object.prototype]), and whose values are neither MISSING nor
    [undefined] nor an empty object, [flatten] lists the leaves depth first
    under their dotted paths, and [unflatten] of that list rebuilds the
    record itself, the nested objects and the order of the keys included. *)
Theorem ObjectFlattener_nested_round_trip (r : JSObject) :
  nested_record r = true ->
  ObjectFlattener.flatten r = OK (leaves_of (VObj r) EmptyString)
  /\ ObjectFlattener.unflatten (leaves_of (VObj r) EmptyString) = OK r.
Proof.
  unfold nested_record. intros H. apply andb_prop in H. destruct H as [D F].
  destruct (nested_fields r D F) as [ND FR].
  destruct (flatten_leaves (depth (VObj r)) r EmptyString []) as [E K].
  - apply Forall_forall. intros kv I. rewrite Forall_forall in FR.
    destruct (FR kv I) as [P1 P2]. split; [exact P1 | split; [exact P2 |]].
    exact (depth_field r kv I).
  - exact ND.
  - intros k key more _ [].
  - split; [exact E |]. unfold ObjectFlattener.unflatten.
    rewrite unflatten_ordinary.
    + exact (unflatten_top r [] FR ND).
    + apply Forall_forall. intros [key v] I. cbn [fst].
      destruct (K key) as (k & more & _ & Sk & Pl).
      * change key with (fst (key, v)). now apply in_map.
      * rewrite Sk. exact Pl.
Qed.

Lemma ObjectFlattener_nested_round_trip_witness :
  let r := [("id", VNum 7);
            ("user", VObj [("name", VStr "x");
                           ("geo", VObj [("lat", VNum 1); ("lon", VNull)])]);
            ("tags", VArr [VStr "a"])]%string in
  ObjectFlattener.flatten r
  = OK [("id", VNum 7); ("user.name", VStr "x"); ("user.geo.lat", VNum 1);
        ("user.geo.lon", VNull); ("tags", VArr [VStr "a"])]%string
  /\ ObjectFlattener.unflatten
       [("id", VNum 7); ("user.name", VStr "x"); ("user.geo.lat", VNum 1);
        ("user.geo.lon", VNull); ("tags", VArr [VStr "a"])]%string
     = OK r.
Proof.
  intros r.
  destruct (ObjectFlattener_nested_round_trip r) as [E U];
    [vm_compute; reflexivity |].
  split; [rewrite E; vm_compute; reflexivity | exact U].
Defined.


(** ** Exact sums of safe integers *)

Lemma shr_1_even (q : Z) :
  0 <= q ->
  shr_1 {| shr_m := 2 * q; shr_r := false; shr_s := false |}
  = {| shr_m := q; shr_r := false; shr_s := false |}.
Proof. destruct q as [| p | p]; [reflexivity | reflexivity | lia]. Qed.

Lemma iter_shr_1_exact (k : positive) :
  forall q : Z,
    0 <= q ->
    iter_pos shr_1 k {| shr_m := q * 2 ^ Z.pos k; shr_r := false; shr_s := false |}
    = {| shr_m := q; shr_r := false; shr_s := false |}.
Proof.
  induction k as [k IH | k IH |]; intros q H; cbn [iter_pos].
  - replace (q * 2 ^ Z.pos k~1) with (2 * (q * 2 ^ Z.pos k * 2 ^ Z.pos k)).
    + rewrite shr_1_even by (apply Z.mul_nonneg_nonneg; [apply Z.mul_nonneg_nonneg |]; lia).
      rewrite IH by (apply Z.mul_nonneg_nonneg; lia). now apply IH.
    + change (Z.pos k~1) with (2 * Z.pos k + 1).
      rewrite Z.pow_add_r, Z.pow_mul_r by lia. change (2 ^ 1) with 2.
      change (2 ^ 2) with (2 * 2). rewrite Z.pow_mul_l. ring.
  - replace (q * 2 ^ Z.pos k~0) with (q * 2 ^ Z.pos k * 2 ^ Z.pos k).
    + rewrite IH by (apply Z.mul_nonneg_nonneg; lia). now apply IH.
    + change (Z.pos k~0) with (2 * Z.pos k).
      rewrite Z.pow_mul_r by lia. change (2 ^ 2) with (2 * 2).
      rewrite Z.pow_mul_l. ring.
  - change (2 ^ 1) with 2. rewrite Z.mul_comm. now apply shr_1_even.
Qed.

Lemma digits2_pos_53 (m : positive) :
  2 ^ 52 <= Z.pos m < 2 ^ 53 -> Z.pos (digits2_pos m) = 53.
Proof.
  intros H. rewrite digits2_pos_log2.
  rewrite (Z.log2_unique (Z.pos m) 52); [reflexivity | lia |].
  change (52 + 1) with 53. exact H.
Qed.

Lemma digits2_pos_scaled (p P : positive) (k : Z) :
  0 <= k -> Z.pos P = Z.pos p * 2 ^ k ->
  Z.pos (digits2_pos P) = Z.pos (digits2_pos p) + k.
Proof.
  intros K E. rewrite !digits2_pos_log2. rewrite E.
  rewrite Z.log2_mul_pow2 by lia. lia.
Qed.

(** A mantissa that carries [k] low zero bits rounds to the float of the
    integer it stands for. *)
Lemma binary_round_scaled (s : bool) (p P m : positive) (k : Z) :
  Z.pos p < 2 ^ 53 -> 0 <= k <= 52 ->
  Z.pos P = Z.pos p * 2 ^ k ->
  Z.pos m = Z.pos p * 2 ^ (53 - Z.pos (digits2_pos p)) ->
  binary_round prec emax s P (- k)
  = S754_finite s m (Z.pos (digits2_pos p) - 53).
Proof.
  intros Hp Hk EP Em.
  pose proof (digits2_pos_le p 53 ltac:(lia) Hp) as Hd.
  pose proof (digits2_pos_bounds p) as Bp.
  set (d := Z.pos (digits2_pos p)) in *.
  assert (Hd1 : 1 <= d) by (unfold d; lia).
  assert (DP : Z.pos (digits2_pos P) = d + k) by (apply digits2_pos_scaled; lia).
  assert (Bm : 2 ^ 52 <= Z.pos m < 2 ^ 53).
  { assert (P2 : 2 ^ 52 = 2 ^ (d - 1) * 2 ^ (53 - d))
      by (rewrite <- Z.pow_add_r by lia; f_equal; lia).
    assert (P3 : 2 ^ 53 = 2 ^ d * 2 ^ (53 - d))
      by (rewrite <- Z.pow_add_r by lia; f_equal; lia).
    assert (X : 0 < 2 ^ (53 - d)) by (apply Z.pow_pos_nonneg; lia).
    rewrite Em, P2, P3. split.
    - apply Z.mul_le_mono_nonneg_r; lia.
    - apply Z.mul_lt_mono_pos_r; lia. }
  assert (Dm : Z.pos (digits2_pos m) = 53) by now apply digits2_pos_53.
  unfold binary_round.
  assert (F : fexp prec emax (Z.pos (digits2_pos P) + - k) = d - 53).
  { rewrite DP. unfold fexp, emin. change prec with 53. change emax with 1024. lia. }
  rewrite F. unfold shl_align.
  destruct (d - 53 - - k) as [| n | n] eqn:N.
  - assert (P = m) as -> by (apply Pos2Z.inj; rewrite EP, Em; f_equal; f_equal; lia).
    replace (- k) with (d - 53) by lia.
    apply binary_round_aux_canonical; [exact Dm | lia].
  - assert (EPm : Z.pos P = Z.pos m * 2 ^ Z.pos n).
    { rewrite EP, Em, <- Z.mul_assoc, <- Z.pow_add_r by lia. f_equal. f_equal. lia. }
    unfold binary_round_aux, shr_fexp.
    assert (F1 : fexp prec emax (Zdigits2 (Z.pos P) + - k) - - k = Z.pos n).
    { unfold Zdigits2. rewrite F. lia. }
    rewrite F1. cbn [shr shr_record_of_loc]. rewrite EPm.
    rewrite iter_shr_1_exact by lia.
    cbn [shr_m loc_of_shr_record round_nearest_even].
    assert (F2 : fexp prec emax (Zdigits2 (Z.pos m) + (- k + Z.pos n))
                 - (- k + Z.pos n) = 0).
    { unfold Zdigits2, fexp, emin. rewrite Dm. change prec with 53.
      change emax with 1024. lia. }
    rewrite F2. cbn [shr shr_record_of_loc shr_m]. change (emax - prec) with 971.
    replace (- k + Z.pos n <=? 971) with true by (symmetry; apply Z.leb_le; lia).
    f_equal. lia.
  - assert (Pos.iter xO P n = m) as ->.
    { apply Pos2Z.inj. rewrite iter_xO_value, EP, Em, <- Z.mul_assoc, <- Z.pow_add_r by lia.
      f_equal. f_equal. lia. }
    apply binary_round_aux_canonical; [exact Dm | lia].
Qed.

Lemma canonical_mantissa (p : positive) :
  Z.pos p < 2 ^ 53 ->
  exists m : positive, Z.pos m = Z.pos p * 2 ^ (53 - Z.pos (digits2_pos p)).
Proof.
  intros Hp. pose proof (digits2_pos_le p 53 ltac:(lia) Hp) as Hd.
  assert (0 < Z.pos p * 2 ^ (53 - Z.pos (digits2_pos p))).
  { apply Z.mul_pos_pos; [lia | apply Z.pow_pos_nonneg; lia]. }
  destruct (Z.pos p * 2 ^ (53 - Z.pos (digits2_pos p))) as [| m |] eqn:E; try lia.
  now exists m.
Qed.

Lemma binary_normalize_scaled (z k : Z) :
  - 2 ^ 53 < z < 2 ^ 53 -> 0 <= k <= 52 ->
  binary_normalize prec emax (z * 2 ^ k) (- k) false
  = binary_normalize prec emax z 0 false.
Proof.
  intros Hz Hk. assert (K : 0 < 2 ^ k) by (apply Z.pow_pos_nonneg; lia).
  destruct z as [| p | p]; [reflexivity | |].
  - destruct (canonical_mantissa p ltac:(lia)) as [m Em].
    destruct (Z.pos p * 2 ^ k) as [| P |] eqn:EP; try lia.
    cbn [binary_normalize].
    rewrite (binary_round_scaled false p P m k) by (try assumption; lia).
    change (binary_round prec emax false p 0) with (binary_round prec emax false p (- 0)).
    rewrite (binary_round_scaled false p p m 0) by (try assumption; lia).
    reflexivity.
  - destruct (canonical_mantissa p ltac:(lia)) as [m Em].
    destruct (Z.neg p * 2 ^ k) as [| |P] eqn:EP; try lia.
    cbn [binary_normalize].
    rewrite (binary_round_scaled true p P m k) by (try assumption; lia).
    change (binary_round prec emax true p 0) with (binary_round prec emax true p (- 0)).
    rewrite (binary_round_scaled true p p m 0) by (try assumption; lia).
    reflexivity.
Qed.

(** The float of a safe integer that is not zero. *)
Lemma Prim2SF_safe_integer (z : Z) :
  z <> 0 -> - 2 ^ 53 < z < 2 ^ 53 ->
  exists (m : positive) (e : Z),
    Prim2SF (Number_of_Z z) = S754_finite (z <? 0) m e
    /\ -52 <= e <= 0
    /\ cond_Zopp (z <? 0) (Z.pos m) = z * 2 ^ (- e).
Proof.
  intros NZ Hz. destruct z as [| p | p]; [congruence | |].
  - destruct (Prim2SF_Number_of_Z p ltac:(lia)) as (m & e & E & He & Hm).
    exists m, e. repeat split; try lia; assumption.
  - destruct (Prim2SF_Number_of_Z_neg p ltac:(lia)) as (m & e & E & He & Hm).
    exists m, e. repeat split; try lia; [assumption |].
    cbn [Z.ltb Z.compare cond_Zopp]. lia.
Qed.

Lemma shl_align_value (m : positive) (e e' : Z) :
  e' <= e -> Z.pos (fst (shl_align m e e')) = Z.pos m * 2 ^ (e - e').
Proof.
  intros H. unfold shl_align. destruct (e' - e) as [| d | d] eqn:D; try lia.
  - cbn [fst]. replace (e - e') with 0 by lia. lia.
  - cbn [fst]. rewrite iter_xO_value. f_equal. f_equal. lia.
Qed.

Lemma cond_Zopp_mul (s : bool) (x c : Z) : cond_Zopp s (x * c) = cond_Zopp s x * c.
Proof. destruct s; cbn [cond_Zopp]; ring. Qed.

Lemma Prim2SF_Number_of_Z_normal (z : Z) :
  - 2 ^ 53 < z < 2 ^ 53 ->
  Prim2SF (Number_of_Z z) = binary_normalize prec emax z 0 false.
Proof.
  intros Hz. unfold Number_of_Z. apply Prim2SF_SF2Prim.
  destruct z as [| p | p]; [reflexivity | |];
    destruct (canonical_mantissa p ltac:(lia)) as [m Em];
    pose proof (digits2_pos_le p 53 ltac:(lia) ltac:(lia)) as Hd;
    cbn [binary_normalize];
    [change (binary_round prec emax false p 0)
       with (binary_round prec emax false p (- 0))
    | change (binary_round prec emax true p 0)
        with (binary_round prec emax true p (- 0))];
    rewrite (binary_round_scaled _ p p m 0) by (try assumption; lia);
    (apply valid_binary_canonical; [| lia]);
    apply digits2_pos_53;
    pose proof (digits2_pos_bounds p) as Bp;
    set (d := Z.pos (digits2_pos p)) in *;
    assert (P2 : 2 ^ 52 = 2 ^ (d - 1) * 2 ^ (53 - d))
      by (rewrite <- Z.pow_add_r by lia; f_equal; lia);
    assert (P3 : 2 ^ 53 = 2 ^ d * 2 ^ (53 - d))
      by (rewrite <- Z.pow_add_r by lia; f_equal; lia);
    assert (X : 0 < 2 ^ (53 - d)) by (apply Z.pow_pos_nonneg; lia);
    rewrite Em, P2, P3;
    (split; [apply Z.mul_le_mono_nonneg_r; lia | apply Z.mul_lt_mono_pos_r; lia]).
Qed.

(** Binary64 addition is exact on integers while the operands and the sum
    stay below 2^53 in magnitude. *)
Lemma Number_add_exact (a b : Z) :
  - 2 ^ 53 < a < 2 ^ 53 -> - 2 ^ 53 < b < 2 ^ 53 -> - 2 ^ 53 < a + b < 2 ^ 53 ->
  (Number_of_Z a + Number_of_Z b)%float = Number_of_Z (a + b).
Proof.
  intros Ha Hb Hab.
  rewrite <- (SF2Prim_Prim2SF (Number_of_Z a + Number_of_Z b)).
  unfold Number_of_Z at 3. f_equal.
  rewrite FloatAxioms.add_spec. unfold SF64add.
  destruct (Z.eq_dec a 0) as [-> | NA].
  { change (Prim2SF (Number_of_Z 0)) with (S754_zero false).
    destruct (Z.eq_dec b 0) as [-> | NB]; [reflexivity |].
    destruct (Prim2SF_safe_integer b NB Hb) as (m & e & E & He & Hm).
    rewrite E. cbn [SFadd Z.add]. rewrite <- E.
    now apply Prim2SF_Number_of_Z_normal. }
  destruct (Prim2SF_safe_integer a NA Ha) as (ma & ea & Ea & Hea & Hma).
  destruct (Z.eq_dec b 0) as [-> | NB].
  { change (Prim2SF (Number_of_Z 0)) with (S754_zero false).
    rewrite Ea. cbn [SFadd]. rewrite Z.add_0_r. rewrite <- Ea.
    now apply Prim2SF_Number_of_Z_normal. }
  destruct (Prim2SF_safe_integer b NB Hb) as (mb & eb & Eb & Heb & Hmb).
  rewrite Ea, Eb. cbn [SFadd]. cbv zeta.
  change IntDef.Z.min with Z.min.
  set (ez := Z.min ea eb).
  assert (Hez : -52 <= ez <= 0 /\ ez <= ea /\ ez <= eb) by (unfold ez; lia).
  rewrite !shl_align_value by lia.
  rewrite !cond_Zopp_mul, Hma, Hmb.
  replace (a * 2 ^ (- ea) * 2 ^ (ea - ez) + b * 2 ^ (- eb) * 2 ^ (eb - ez))
    with ((a + b) * 2 ^ (- ez)).
  - replace ez with (- - ez) at 2 by lia.
    apply binary_normalize_scaled; [exact Hab | lia].
  - rewrite <- !Z.mul_assoc, <- !Z.pow_add_r by lia.
    replace (- ea + (ea - ez)) with (- ez) by lia.
    replace (- eb + (eb - ez)) with (- ez) by lia. ring.
Qed.


(** ** TimestampCodec, there and back *)

Lemma TimeClip_time_value (t : Z) :
  Z.abs t <= 8640000000000000 -> TimeClip (Number_of_Z t) = Some t.
Proof.
  intros H. unfold TimeClip, Number_trunc.
  destruct (Z.eq_dec t 0) as [-> | NZ]; [reflexivity |].
  destruct (Prim2SF_safe_integer t NZ) as (m & e & E & He & Hm).
  { change (2 ^ 53) with 9007199254740992. lia. }
  rewrite E.
  assert (P : 0 < 2 ^ (- e)) by (apply Z.pow_pos_nonneg; lia).
  assert (V : signed (t <? 0)
                (if 0 <=? e then Z.pos m * 2 ^ e else Z.pos m / 2 ^ (- e)) = t).
  { assert (Q : Z.pos m = cond_Zopp (t <? 0) t * 2 ^ (- e)).
    { destruct (t <? 0); cbn [cond_Zopp] in *; lia. }
    destruct (Z.leb_spec 0 e) as [E0 | E0].
    - assert (e = 0) as -> by lia. change (2 ^ (- 0)) with 1 in Q.
      change (2 ^ 0) with 1. rewrite Q.
      unfold signed. destruct (t <? 0); cbn [cond_Zopp]; lia.
    - rewrite Q, Z.div_mul by lia.
      unfold signed. destruct (t <? 0); cbn [cond_Zopp]; lia. }
  rewrite V.
  replace (Z.abs t <=? 8640000000000000) with true
    by (symmetry; apply Z.leb_le; exact H).
  reflexivity.
Qed.

Lemma readBigInt64LE_written (base : Z) (rest : Buffer) :
  - 2 ^ 63 <= base < 2 ^ 63 ->
  readBigInt64LE (le_bytes 8 (base mod 2 ^ 64) ++ rest) = base.
Proof.
  intros H. unfold readBigInt64LE.
  change (firstn 8 (le_bytes 8 (base mod 2 ^ 64) ++ rest))
    with (le_bytes 8 (base mod 2 ^ 64)).
  rewrite le_value_le_bytes
    by (change (256 ^ Z.of_nat 8) with (2 ^ 64); apply Z.mod_pos_bound; lia).
  change (2 ^ 63) with 9223372036854775808 in *.
  change (2 ^ 64) with 18446744073709551616.
  destruct (Z.ltb_spec (base mod 18446744073709551616) 9223372036854775808); zlia.
Qed.

Lemma decode_loop_written (deltas : list Z) (base : float) :
  forall (fuel : nat) (buffer : Buffer) (offset : nat),
    (length deltas <= fuel)%nat ->
    skipn offset buffer = flat_map Varint.encodeBigInt deltas ->
    TimestampCodec.decode_loop fuel buffer offset base
    = OK (map (fun d => (base + Number_of_Z (Varint.unzigzag (Varint.zigzag d)))%float)
              deltas).
Proof.
  induction deltas as [| d deltas IH]; intros fuel buffer offset L S.
  - cbn in S. apply skipn_nil_offset in S.
    destruct fuel; cbn [TimestampCodec.decode_loop]; now rewrite S.
  - cbn [flat_map] in S.
    destruct fuel as [| fuel]; [cbn in L; lia |].
    cbn [TimestampCodec.decode_loop].
    rewrite (skipn_cons_offset _ _ _ _ (encodeBigInt_not_empty d) S).
    rewrite (decodeBigInt_encodeBigInt d buffer offset _ S). cbn [bind].
    apply skipn_chunk in S.
    rewrite (IH fuel buffer _ ltac:(cbn in L; lia) S). reflexivity.
Qed.

(** X20 -- The timestamp codec returns each time value in ISO form.  When
    [new Date(v).getTime()] gives the time values [times] for a column,
    each a valid time value (at most 8.64e15 in magnitude) and less than
    2^53 milliseconds away from the first, [decode] of [encode] returns
    [new Date(t).toISOString()] for each of them, in order: a column of
    ISO strings comes back unchanged. *)
Theorem TimestampCodec_round_trip
        (Date_parse : string -> option Z) (Date_toISOString : Z -> string)
        (values : list value) (times : list Z) :
  mapM (TimestampCodec.getTime Date_parse) values = OK (map Some times) ->
  Forall (fun t => Z.abs t <= 8640000000000000) times ->
  Forall (fun t => Z.abs (t - hd 0 times) < 2 ^ 53) times ->
  exists encoded : Buffer,
    TimestampCodec.encode Date_parse values = OK encoded
    /\ TimestampCodec.decode Date_toISOString encoded
       = OK (map (fun t => VStr (Date_toISOString t)) times).
Proof.
  intros G V D. unfold TimestampCodec.encode. rewrite G. cbn [bind].
  destruct times as [| base times'].
  { exists []. split; reflexivity. }
  cbn [hd] in D.
  assert (HB : Z.abs base <= 8640000000000000) by now inversion V.
  unfold TimestampCodec.encode_timestamps.
  cbn [map]. cbn [TimestampCodec.BigInt_of_time bind].
  change (Some base :: map Some times') with (map Some (base :: times')).
  set (times := base :: times') in *.
  rewrite mapM_map. cbn [TimestampCodec.BigInt_of_time bind].
  rewrite (mapM_OK_map _ (fun t => t - base) times) by reflexivity.
  cbn [bind]. unfold writeBigInt64LE.
  replace ((- 2 ^ 63 <=? base) && (base <? 2 ^ 63))%bool with true.
  2:{ symmetry. apply andb_true_iff.
      change (2 ^ 63) with 9223372036854775808.
      split; [apply Z.leb_le | apply Z.ltb_lt]; lia. }
  cbn [bind]. eexists. split; [reflexivity |].
  unfold Buffer_concat. rewrite concat_cons, <- flat_map_concat_map.
  set (deltas := map (fun t => t - base) times).
  set (buffer := le_bytes 8 (base mod 2 ^ 64) ++ flat_map Varint.encodeBigInt deltas).
  assert (LD : (length deltas <= length (flat_map Varint.encodeBigInt deltas))%nat)
    by (apply length_flat_map_ge, encodeBigInt_not_empty).
  assert (LB : length buffer
               = (8 + length (flat_map Varint.encodeBigInt deltas))%nat)
    by (unfold buffer; now rewrite length_app, length_le_bytes).
  unfold TimestampCodec.decode, TimestampCodec.decode_values.
  replace (length buffer <? 8)%nat with false by (symmetry; apply Nat.ltb_ge; lia).
  replace (readBigInt64LE buffer) with base
    by (symmetry; unfold buffer; apply readBigInt64LE_written;
        change (2 ^ 63) with 9223372036854775808; lia).
  rewrite (decode_loop_written deltas).
  - cbn [bind]. unfold deltas. rewrite map_map, mapM_map.
    change (VStr (Date_toISOString base)
            :: map (fun t => VStr (Date_toISOString t)) times')
      with (map (fun t => VStr (Date_toISOString t)) times).
    apply mapM_OK_map. intros t It.
    rewrite Forall_forall in V, D. specialize (V t It). specialize (D t It).
    change (2 ^ 53) with 9007199254740992 in D.
    rewrite unzigzag_zigzag by (change (2 ^ 63) with 9223372036854775808; lia).
    rewrite Number_add_exact
      by (change (2 ^ 53) with 9007199254740992; lia).
    replace (base + (t - base)) with t by lia.
    unfold TimestampCodec.toISOString. now rewrite TimeClip_time_value.
  - lia.
  - unfold buffer.
    pose proof (skipn_before (le_bytes 8 (base mod 2 ^ 64))
                  (flat_map Varint.encodeBigInt deltas)) as S.
    rewrite length_le_bytes in S. exact S.
Qed.

Lemma TimestampCodec_round_trip_witness :
  let Date_parse := fun s : string =>
                      if String.eqb s "2024-01-01T00:00:00.000Z"
                      then Some 1704067200000
                      else if String.eqb s "2023-12-31T23:59:59.000Z"
                           then Some 1704067199000
                           else None in
  let Date_toISOString := fun t : Z =>
                            if t =? 1704067200000
                            then "2024-01-01T00:00:00.000Z"%string
                            else "2023-12-31T23:59:59.000Z"%string in
  let values := [VStr "2024-01-01T00:00:00.000Z";
                 VStr "2023-12-31T23:59:59.000Z"]%string in
  exists encoded : Buffer,
    TimestampCodec.encode Date_parse values = OK encoded
    /\ TimestampCodec.decode Date_toISOString encoded = OK values.
Proof.
  intros Date_parse Date_toISOString values.
  apply (TimestampCodec_round_trip Date_parse Date_toISOString values
           [1704067200000; 1704067199000]).
  - reflexivity.
  - repeat (apply Forall_cons; [cbn; lia |]). apply Forall_nil.
  - repeat (apply Forall_cons;
            [cbn [hd]; change (2 ^ 53) with 9007199254740992; lia |]).
    apply Forall_nil.
Defined.

(** *** Names and strings at the edges *)

(** A lone surrogate, here U+D800, is written as U+FFFD and comes back as
    such. *)
Example utf8_lone_surrogate :
  let s := bytes_string [0xED; 0xA0; 0x80] in
  well_formed s = false
  /\ utf8_bytes s = [0xEF; 0xBF; 0xBD]
  /\ utf8_string (utf8_bytes s) = bytes_string [0xEF; 0xBF; 0xBD].
Proof. vm_compute. repeat split; reflexivity. Qed.

(** A truncated sequence is read as one U+FFFD, and decoding resumes at
    the byte that broke it. *)
Example utf8_truncated_sequence :
  utf8_string [0xE2; 0x82; 0x41] = bytes_string [0xEF; 0xBF; 0xBD; 0x41].
Proof. vm_compute. reflexivity. Qed.

(** [sort()] compares UTF-16 code units: U+1F600, whose first unit is
    0xD83D, comes before U+FF5E, though its UTF-8 bytes come after. *)
Example sort_strings_code_units :
  let tilde := bytes_string [0xEF; 0xBD; 0x9E] in
  let face := bytes_string [0xF0; 0x9F; 0x98; 0x80] in
  sort_strings [tilde; face] = [face; tilde]
  /\ sort_strings [face; tilde] = [face; tilde].
Proof. vm_compute. split; reflexivity. Qed.

(** Array indices are listed first and in ascending order: the keys sort
    as "10", "9", "b" and the columns come as "9", "10", "b". *)
Example pivot_array_index_keys :
  SemanticCompressor.pivot
    [[("9", VNum 2); ("10", VNum 1); ("b", VNum 3)]]%string
  = OK [("9", [VNum 2]); ("10", [VNum 1]); ("b", [VNum 3])]%string.
Proof. vm_compute. reflexivity. Qed.

(** Under the key [constructor] the column builder finds the inherited
    function and cannot push to it. *)
Example pivot_constructor_key :
  SemanticCompressor.pivot [[("constructor", VStr "x")]]%string
  = Err (TypeError "columns[key].push is not a function").
Proof. vm_compute. reflexivity. Qed.

(** An own key [__proto__] is dropped on the way: the record comes back
    without it. *)
Example compress_proto_key_dropped :
  let registry := defaultRegistry (fun _ => None) (fun _ => EmptyString) in
  let detectType := FieldProfiler.detectType (fun _ => None) in
  exists buffer : Buffer,
    SemanticCompressor.compress registry detectType 1
      [[("__proto__", VNum 1); ("a", VNum 2)]]%string = OK buffer
    /\ SemanticCompressor.decompress registry (fun b => OK b) buffer
       = OK [[("a", VNum 2)]]%string.
Proof. eexists. split; [vm_compute; reflexivity | vm_compute; reflexivity]. Qed.

(** A batch whose only key is [__proto__] has no column at all. *)
Example compress_proto_key_alone :
  let registry := defaultRegistry (fun _ => None) (fun _ => EmptyString) in
  let detectType := FieldProfiler.detectType (fun _ => None) in
  SemanticCompressor.compress registry detectType 1
    [[("__proto__", VNum 1)]; [("__proto__", VNull)]]%string
  = OK [83; 65; 74; 67; 1; 0; 0].
Proof. vm_compute. reflexivity. Qed.
